(** * BuriramGP: the pseudo-3D ride engine (ride3d.js), both variants

    The repository carries two versions of [ride3d.js].  The first one
    (module [V1]) builds the track from literal [addSegments] calls, reads
    the keyboard through an input object and reports corner entries and
    laps through callbacks.  The second one (module [V2]) builds the track
    from [TRACK_ZONES] with a sinusoidal curvature ramp and keeps the keys
    in a plain object.

    JavaScript numbers are modelled as real numbers: the engine's
    arithmetic ([Math.min], [Math.max], [Math.abs], [Math.floor],
    [Math.sin], [Math.PI]) is taken exact.  Where a landing on an exact
    value is at stake, the speed and the position of the second variant
    are followed in binary64 as well ([V2.update64]).  Objects used as
    key maps are [gmap string bool]; arrays are lists; a property access
    on [undefined] (a [TypeError]) is [None]. *)

From Stdlib Require Import Reals Lra Lia ZArith List Floats.
From stdpp Require Import gmap strings.
Import ListNotations.

Local Open Scope R_scope.

(** Comparisons of numbers are decided by the classical tests of the real
    numbers; as [Decision] instances they can sit under [if decide]. *)
#[global] Instance Rlt_decision (a b : R) : Decision (a < b) := Rlt_dec a b.
#[global] Instance Rle_decision (a b : R) : Decision (a <= b) := Rle_dec a b.
#[global] Instance Rgt_decision (a b : R) : Decision (a > b) := Rgt_dec a b.
#[global] Instance Rge_decision (a b : R) : Decision (a >= b) := Rge_dec a b.
#[global] Instance Req_decision : EqDecision R := Req_dec_T.

(** ** JavaScript helpers *)

Module Js.

(** [Math.floor(p / unit) % n] followed by an array lookup at that index.
    [x % 0] is [NaN] and a negative remainder is a negative index: in both
    cases the array lookup yields [undefined], which is [None] here. *)
Definition floorDivMod (p unit : R) (n : nat) : option nat :=
  if decide (n = 0%nat) then None
  else
    let r := Z.rem (Int_part (p / unit)) (Z.of_nat n) in
    if decide (r < 0)%Z then None else Some (Z.to_nat r).

(** Truthiness of a corner index that is [null] or a number. *)
Definition truthy (c : option nat) : bool :=
  match c with
  | Some (S _) => true
  | _ => false
  end.

(** Truthiness of a key-map entry: [!!keys[k]] and [if (keys[k])]. *)
Definition held (keys : gmap string bool) (k : string) : bool :=
  match keys !! k with
  | Some true => true
  | _ => false
  end.

(** [Math.round]: the nearest integer, a half going up. *)
Definition round (x : R) : Z := Int_part (x + 0.5).

(** [a[i]] at an integer [i]: [undefined] below zero and past the end. *)
Definition item {A : Type} (a : list A) (i : Z) : option A :=
  if decide (i < 0)%Z then None else a !! Z.to_nat i.

(** [n % len] on integers, used as an index: [NaN] when [len] is zero,
    the sign of [n] otherwise. *)
Definition rem (n len : Z) : option Z :=
  if decide (len = 0)%Z then None else Some (Z.rem n len).

(** [a.findIndex(p)]: the first index whose element passes, or [-1]. *)
Definition findIndex {A : Type} (P : A → Prop) `{!∀ x, Decision (P x)}
    (a : list A) : Z :=
  match list_find P a with
  | Some (i, _) => Z.of_nat i
  | None => -1
  end.

(** [a % b] on numbers with [b] positive: the remainder has the sign of
    [a]. *)
Definition fmod (a b : R) : R :=
  if decide (0 <= a) then a - b * IZR (Int_part (a / b))
  else a + b * IZR (Int_part (- a / b)).

End Js.

(** ** The host page: listener registry and frame scheduler *)

(** The functions registered as listeners.  The first variant registers
    its two bound methods; the second registers two arrow functions, each
    a fresh function object, told apart by a creation stamp. *)
Inductive Listener : Type :=
| boundKeyDown
| boundKeyUp
| arrowKeyDown (stamp : nat)
| arrowKeyUp (stamp : nat).

#[global] Instance Listener_eq_dec : EqDecision Listener.
Proof. solve_decision. Defined.

(** [appOnLapComplete] tells whether [window.App.onLapComplete] exists. *)
Record Window : Type := mkWindow {
  listeners : list (string * Listener);
  pendingFrames : list nat;
  lastHandle : nat;
  closures : nat;
  appOnLapComplete : bool
}.

Definition withListeners (w : Window) (ls : list (string * Listener)) : Window :=
  mkWindow ls (pendingFrames w) (lastHandle w) (closures w) (appOnLapComplete w).

(** [window.addEventListener]: registering the same listener for the same
    event type twice has no effect. *)
Definition addEventListener (ty : string) (l : Listener) (w : Window) : Window :=
  if decide ((ty, l) ∈ listeners w) then w
  else withListeners w (listeners w ++ [(ty, l)]).

(** [window.removeEventListener]: silently does nothing when the listener
    is not registered. *)
Definition removeEventListener (ty : string) (l : Listener) (w : Window) : Window :=
  withListeners w (filter (λ p, p ≠ (ty, l)) (listeners w)).

(** [requestAnimationFrame]: handles are positive and fresh. *)
Definition requestAnimationFrame (w : Window) : nat * Window :=
  let h := S (lastHandle w) in
  (h, mkWindow (listeners w) (pendingFrames w ++ [h]) h (closures w)
        (appOnLapComplete w)).

Definition cancelAnimationFrame (h : nat) (w : Window) : Window :=
  mkWindow (listeners w) (filter (λ h', h' ≠ h) (pendingFrames w))
    (lastHandle w) (closures w) (appOnLapComplete w).

(** Evaluating an arrow-function expression creates a new function. *)
Definition newClosure (w : Window) : nat * Window :=
  (closures w,
   mkWindow (listeners w) (pendingFrames w) (lastHandle w) (S (closures w))
     (appOnLapComplete w)).

(** Corner metadata handed to [init]; only the number is needed here. *)
Record Corner : Type := mkCorner {
  number : nat;
  name : string
}.

Inductive Event : Type :=
| LapComplete
| CornerEntered (c : option Corner).

(** ** First variant of ride3d.js *)

Module V1.

Definition SEGMENT_LENGTH : R := 200.
Definition RUMBLE_LENGTH : nat := 3.
Definition MAX_SPEED : R := 440.
Definition ACCELERATION : R := 3.5.
Definition BRAKING : R := 9.
Definition DECEL : R := 2.
Definition CENTRIFUGAL : R := 0.3.
Definition OFFROAD_DECEL : R := 0.99.

Record Obj : Type := mkObj {
  type : string;
  offset : R
}.

Record Segment : Type := mkSegment {
  index : nat;
  curve : R;
  camber : R;
  cornerIndex : option nat;
  color : nat;
  startY : R;
  endY : R;
  objLeft : option Obj;
  objRight : option Obj
}.

(** [addSegments(count, curve, cornerIndex = null, camber = 0)] inside
    [buildTrack]: the closure's [segments] array and [id] counter are the
    threaded pair.  [color] is computed after [id++], hence from [S id]. *)
Fixpoint addSegments (count : nat) (curve : R) (cornerIndex : option nat)
    (tr : list Segment * nat) : list Segment * nat :=
  match count with
  | O => tr
  | S k =>
      let '(segments, id) := tr in
      addSegments k curve cornerIndex
        (segments ++
           [mkSegment id curve 0 cornerIndex
              ((S id / RUMBLE_LENGTH) mod 2)%nat 0 0 None None],
         S id)
  end.

(** The [addSegments] calls of [buildTrack], in source order. *)
Definition trackCalls : list (nat * R * option nat) :=
  [ (20%nat, 0, None);
    (8%nat, 0.5, Some 1%nat); (12%nat, 2.5, Some 1%nat); (8%nat, 1.0, Some 1%nat);
    (15%nat, 0, None);
    (5%nat, -0.8, Some 2%nat); (8%nat, -1.5, Some 2%nat); (5%nat, -0.8, Some 2%nat);
    (55%nat, 0, None);
    (5%nat, 0.3, Some 3%nat); (10%nat, 3.5, Some 3%nat); (8%nat, 2.0, Some 3%nat);
    (5%nat, 0.5, Some 3%nat);
    (4%nat, -0.5, Some 4%nat); (8%nat, -2.5, Some 4%nat); (4%nat, -0.8, Some 4%nat);
    (18%nat, 0, None);
    (5%nat, 0.5, Some 5%nat); (10%nat, 2.8, Some 5%nat); (6%nat, 1.0, Some 5%nat);
    (10%nat, 0, None);
    (6%nat, -0.4, Some 6%nat); (15%nat, -1.2, Some 6%nat); (6%nat, -0.4, Some 6%nat);
    (12%nat, 0, None);
    (5%nat, 0.4, Some 7%nat); (10%nat, 1.8, Some 7%nat); (5%nat, 0.4, Some 7%nat);
    (8%nat, 0, None);
    (5%nat, -0.3, Some 8%nat); (18%nat, -1.0, Some 8%nat); (5%nat, -0.3, Some 8%nat);
    (10%nat, 0, None);
    (5%nat, 0.5, Some 9%nat); (12%nat, 2.2, Some 9%nat); (5%nat, 0.5, Some 9%nat);
    (6%nat, 0, None);
    (4%nat, -0.5, Some 10%nat); (10%nat, -2.0, Some 10%nat); (4%nat, -0.5, Some 10%nat);
    (18%nat, 0, None);
    (5%nat, 0.4, Some 11%nat); (12%nat, 1.5, Some 11%nat); (5%nat, 0.4, Some 11%nat);
    (20%nat, 0, None);
    (5%nat, -0.4, Some 12%nat); (12%nat, -2.8, Some 12%nat); (5%nat, -0.4, Some 12%nat);
    (12%nat, 0, None) ].

Definition buildTrack : list Segment :=
  fst (fold_left (λ tr '(count, curve, cornerIndex),
                    addSegments count curve cornerIndex tr)
         trackCalls ([], 0%nat)).

(** [buildScenery(segments)]: three [forEach] passes that overwrite
    [objLeft] / [objRight] of the listed segments, each guarded by the
    bounds test of the source. *)
Definition setLeft (o : Obj) (s : Segment) : Segment :=
  mkSegment (index s) (curve s) (camber s) (cornerIndex s) (color s)
    (startY s) (endY s) (Some o) (objRight s).

Definition setRight (o : Obj) (s : Segment) : Segment :=
  mkSegment (index s) (curve s) (camber s) (cornerIndex s) (color s)
    (startY s) (endY s) (objLeft s) (Some o).

Definition palmPositions : list Z :=
  [5; 10; 14; 19; 60; 65; 70; 100; 110; 120; 140; 150; 160; 175; 185; 195;
   210; 220; 240; 250; 260]%Z.

Definition grandstandPositions (totalSegs : Z) : list Z :=
  [20; 21; 22; 23; 24; totalSegs - 8; totalSegs - 7; totalSegs - 6]%Z.

Definition barrierSegs : list Z :=
  [38; 39; 40; 41; 96; 97; 98; 99; 180; 181; 182; 183]%Z.

Definition buildScenery (segments : list Segment) : list Segment :=
  let totalSegs := Z.of_nat (length segments) in
  let palms :=
    fold_left (λ segs i,
      if decide (i < totalSegs)%Z then
        alter (setRight (mkObj "palm" 1.5)) (Z.to_nat i)
          (alter (setLeft (mkObj "palm" (-1.5))) (Z.to_nat i) segs)
      else segs) palmPositions segments in
  let stands :=
    fold_left (λ segs i,
      if decide (i < totalSegs ∧ i >= 0)%Z then
        alter (setLeft (mkObj "grandstand" (-2.2))) (Z.to_nat i) segs
      else segs) (grandstandPositions totalSegs) palms in
  fold_left (λ segs i,
    if decide (i < totalSegs)%Z then
      alter (setRight (mkObj "barrier" 1.05)) (Z.to_nat i)
        (alter (setLeft (mkObj "barrier" (-1.05))) (Z.to_nat i) segs)
    else segs) barrierSegs stands.

(** [createState()] *)
Record State : Type := mkState {
  position : R;
  speed : R;
  x : R;
  currentCorner : option nat;
  showHints : bool;
  demo : bool;
  trackLength : R;
  hintTimer : nat
}.

Definition createState : State := mkState 0 0 0 None true false 0 300.

(** [createInput()]: the [keys] object with its three accessors. *)
Definition input_down (k : string) (keys : gmap string bool) : gmap string bool :=
  <[k := true]> keys.

Definition input_up (k : string) (keys : gmap string bool) : gmap string bool :=
  delete k keys.

Definition input_is (keys : gmap string bool) (k : string) : bool :=
  Js.held keys k.

(** The [targetSpeed] constant of [demoAI], as a function of [seg.curve]. *)
Definition targetSpeed (curve : R) : R :=
  if decide (curve = 0) then MAX_SPEED * 0.9
  else if decide (Rabs curve > 2.5) then MAX_SPEED * 0.22
  else if decide (Rabs curve > 1.5) then MAX_SPEED * 0.38
  else if decide (Rabs curve > 0.5) then MAX_SPEED * 0.55
  else MAX_SPEED * 0.75.

(** [demoAI(state, segments, input)] writes into [input.keys]; the result
    is the key map it leaves behind, [None] when [seg] is [undefined]. *)
Definition demoAI (state : State) (segments : list Segment)
    (keys : gmap string bool) : option (gmap string bool) :=
  segIndex ← Js.floorDivMod (position state) SEGMENT_LENGTH (length segments);
  seg ← segments !! segIndex;
  let target := targetSpeed (curve seg) in
  let keys1 :=
    if decide (speed state < target) then
      delete "ArrowDown" (<["ArrowUp" := true]> keys)
    else
      let keys0 := delete "ArrowUp" keys in
      if decide (speed state - target > 50) then <["ArrowDown" := true]> keys0
      else delete "ArrowDown" keys0 in
  let targetX := - curve seg * 0.5 in
  Some
    (if decide (x state < targetX - 0.05) then
       delete "ArrowLeft" (<["ArrowRight" := true]> keys1)
     else if decide (x state > targetX + 0.05) then
       delete "ArrowRight" (<["ArrowLeft" := true]> keys1)
     else delete "ArrowRight" (delete "ArrowLeft" keys1)).

(** The [RideEngine] class.  [onCornerEntered] and [onLapComplete] record
    whether a callback is installed; a call of an installed callback is an
    [Event] in the output of [_update]. *)
Record RideEngine : Type := mkEngine {
  segments : list Segment;
  corners : list Corner;
  state : State;
  input : gmap string bool;
  rafId : option nat;
  running : bool;
  onCornerEntered : bool;
  onLapComplete : bool
}.

Definition constructor : RideEngine :=
  mkEngine [] [] createState ∅ None false false false.

Definition withState (e : RideEngine) (s : State) : RideEngine :=
  mkEngine (segments e) (corners e) s (input e) (rafId e) (running e)
    (onCornerEntered e) (onLapComplete e).

Definition withInput (e : RideEngine) (keys : gmap string bool) : RideEngine :=
  mkEngine (segments e) (corners e) (state e) keys (rafId e) (running e)
    (onCornerEntered e) (onLapComplete e).

Definition init (corners : list Corner) (e : RideEngine) (w : Window)
    : RideEngine * Window :=
  let segments := buildScenery buildTrack in
  let s := mkState 0 0 0 None true false
             (INR (length segments) * SEGMENT_LENGTH) 300 in
  (mkEngine segments corners s (input e) (rafId e) (running e)
     (onCornerEntered e) (onLapComplete e),
   addEventListener "keyup" boundKeyUp
     (addEventListener "keydown" boundKeyDown w)).

Definition _onKeyDown (key : string) (e : RideEngine) : RideEngine :=
  let s := state e in
  let e' := withInput e (input_down key (input e)) in
  if decide (key = "d" ∨ key = "D") then
    withState e' (mkState (position s) (speed s) (x s) (currentCorner s)
                    (showHints s) (negb (demo s)) (trackLength s) (hintTimer s))
  else e'.

Definition _onKeyUp (key : string) (e : RideEngine) : RideEngine :=
  withInput e (input_up key (input e)).

Definition reset (e : RideEngine) : RideEngine :=
  let tl := trackLength (state e) in
  withState e (mkState 0 0 0 None true false tl 300).

(** The pieces of [_update()], in source order.  Throttle, brake and
    passive deceleration: *)
Definition physics (inp : gmap string bool) (speed : R) : R :=
  let v1 :=
    if input_is inp "ArrowUp" then Rmin (speed + ACCELERATION) MAX_SPEED
    else speed in
  let v2 := if input_is inp "ArrowDown" then Rmax (v1 - BRAKING) 0 else v1 in
  if negb (input_is inp "ArrowUp") && negb (input_is inp "ArrowDown")
  then Rmax (v2 - DECEL) 0 else v2.

(** Steering, then the centrifugal drift from the road curve. *)
Definition steering (inp : gmap string bool) (seg : Segment) (x speed : R) : R :=
  let steerAmt := 0.004 * (speed / MAX_SPEED) in
  let x1 := if input_is inp "ArrowLeft" then Rmax (x - steerAmt) (-2.5) else x in
  let x2 := if input_is inp "ArrowRight" then Rmin (x1 + steerAmt) 2.5 else x1 in
  x2 - curve seg * CENTRIFUGAL * (speed / MAX_SPEED) * 0.01.

(** Off-road deceleration. *)
Definition offroad (x speed : R) : R :=
  if decide (Rabs x > 1.0) then speed * OFFROAD_DECEL else speed.

(** Advance the position: the new position and whether the lap wrapped. *)
Definition advance (position speed trackLength : R) : R * bool :=
  let p1 := position + speed in
  let wrap := bool_decide (p1 >= trackLength) in
  let p2 := if wrap then p1 - trackLength else p1 in
  (if decide (p2 < 0) then 0 else p2, wrap).

(** Corner detection: the callback call, if any. *)
Definition cornerDetection (corners : list Corner) (installed : bool)
    (prevCorner cur : option nat) : list Event :=
  if bool_decide (cur ≠ prevCorner) && Js.truthy cur && installed
  then [CornerEntered (corners !! (default 0%nat cur - 1)%nat)] else [].

(** [_update()], one tick.  [None] is the [TypeError] of reading
    [seg.curve] when the segment lookup gave [undefined]. *)
Definition _update (e : RideEngine) : option (RideEngine * list Event) :=
  let s := state e in
  inp ← (if demo s then demoAI s (segments e) (input e) else Some (input e));
  segIndex ← Js.floorDivMod (position s) SEGMENT_LENGTH (length (segments e));
  seg ← segments e !! segIndex;
  let x' := steering inp seg (x s) (physics inp (speed s)) in
  let v := offroad x' (physics inp (speed s)) in
  let moved := advance (position s) v (trackLength s) in
  Some (mkEngine (segments e) (corners e)
          (mkState (fst moved) v x' (cornerIndex seg)
             (if decide (0 < hintTimer s)%nat then showHints s else false)
             (demo s) (trackLength s) (Nat.pred (hintTimer s)))
          inp (rafId e) (running e) (onCornerEntered e) (onLapComplete e),
        (if snd moved && onLapComplete e then [LapComplete] else [])
        ++ cornerDetection (corners e) (onCornerEntered e) (currentCorner s)
             (cornerIndex seg)).

(** [_loop()]: one frame; [_render()] only reads the state. *)
Definition _loop (e : RideEngine) (w : Window)
    : option (RideEngine * Window * list Event) :=
  if running e then
    '(e', evs) ← _update e;
    let '(h, w') := requestAnimationFrame w in
    Some (mkEngine (segments e') (corners e') (state e') (input e') (Some h)
            (running e') (onCornerEntered e') (onLapComplete e'),
          w', evs)
  else Some (e, w, []).

Definition start (e : RideEngine) (w : Window)
    : option (RideEngine * Window * list Event) :=
  let s := state e in
  _loop
    (mkEngine (segments e) (corners e)
       (mkState (position s) (speed s) (x s) (currentCorner s) true (demo s)
          (trackLength s) 300)
       (input e) (rafId e) true (onCornerEntered e) (onLapComplete e))
    w.

Definition stop (e : RideEngine) (w : Window) : RideEngine * Window :=
  let w1 :=
    match rafId e with
    | Some (S h) => cancelAnimationFrame (S h) w
    | _ => w
    end in
  (mkEngine (segments e) (corners e) (state e) (input e) (rafId e) false
     (onCornerEntered e) (onLapComplete e),
   removeEventListener "keyup" boundKeyUp
     (removeEventListener "keydown" boundKeyDown w1)).

(** *** Runs of the engine

    What reaches a started engine between and at frames: key events
    delivered to its two listeners, and frame callbacks.  In [act] a
    frame is the [_update()] of [_loop()], the part that changes the
    engine; a frame with the [_render()] that follows it is [frame],
    further down. *)
Inductive Action : Type :=
| KeyDown (key : string)
| KeyUp (key : string)
| Frame.

Definition act (a : Action) (e : RideEngine) : option (RideEngine * list Event) :=
  match a with
  | KeyDown key => Some (_onKeyDown key e, [])
  | KeyUp key => Some (_onKeyUp key e, [])
  | Frame => _update e
  end.

Fixpoint run (acts : list Action) (e : RideEngine)
    : option (RideEngine * list Event) :=
  match acts with
  | [] => Some (e, [])
  | a :: rest =>
      '(e1, evs1) ← act a e;
      '(e2, evs2) ← run rest e1;
      Some (e2, evs1 ++ evs2)
  end.

Definition emptyWindow : Window := mkWindow [] [] 0 0 false.

(** An engine after [new RideEngine()], [init(canvas, corners)] and the
    installation (or not) of the two callbacks. *)
Definition boot (cornerData : list Corner) (onCorner onLap : bool) : RideEngine :=
  let e := fst (init cornerData constructor emptyWindow) in
  mkEngine (segments e) (corners e) (state e) (input e) (rafId e) (running e)
    onCorner onLap.

(** The corner index of every segment, in track order. *)
Definition cornerPlan (segments : list Segment) : list (option nat) :=
  map cornerIndex segments.

(** The corner number announced, if any, when the corner index read goes
    from [prev] to [cur]: the edge detector of [_update]. *)
Definition edge1 (prev cur : option nat) : list nat :=
  if bool_decide (cur ≠ prev) && Js.truthy cur then [default 0%nat cur] else [].

(** The corner numbers announced when the listed corner indices are read
    one per tick, starting from [prev]. *)
Fixpoint edges (prev : option nat) (cs : list (option nat)) : list nat :=
  match cs with
  | [] => []
  | c :: rest => edge1 prev c ++ edges c rest
  end.

(** The callback call for corner number [c]. *)
Definition announce (cornerData : list Corner) (c : nat) : Event :=
  CornerEntered (cornerData !! (c - 1)%nat).

(** The events of one full lap: the twelve corners in track order, then
    the lap. *)
Definition lapEvents (cornerData : list Corner) : list Event :=
  map (announce cornerData) (seq 1 12) ++ [LapComplete].

(** *** Rendering

    What [_render] computes before it paints: the projection of the
    visible segments, the strips painted from them, and the values shown
    by the HUD. *)

Definition ROAD_WIDTH : R := 2000.
Definition CAMERA_HEIGHT : R := 1500.
Definition CAMERA_DEPTH : R := 0.84.
Definition DRAW_DISTANCE : nat := 200.

(** [speedToGear(kmh)] *)
Definition speedToGear (kmh : Z) : Z :=
  if decide (kmh < 60)%Z then 1
  else if decide (kmh < 110)%Z then 2
  else if decide (kmh < 160)%Z then 3
  else if decide (kmh < 210)%Z then 4
  else if decide (kmh < 270)%Z then 5
  else 6.

(** What [drawHUD] shows: the speed in km/h, the gear, the filled part
    of the lap bar, the corner of the banner if any, the controls hint
    and the demo badge. *)
Record Hud : Type := mkHud {
  spdKmh : Z;
  gear : Z;
  progress : R;
  banner : option Corner;
  hint : bool;
  badge : bool
}.

Definition drawHUD (state : State) (corners : list Corner) : Hud :=
  let spd := Rabs (speed state) in
  let spdKmh := Js.round (spd * 0.28) in
  let gear := speedToGear spdKmh in
  let corner :=
    match currentCorner state with
    | Some (S n) => corners !! n
    | _ => None
    end in
  mkHud spdKmh gear (position state / trackLength state) corner
    (showHints state) (demo state).

(** The corners [drawMiniMap] draws as active. *)
Definition activeDots (state : State) (corners : list Corner) : list Corner :=
  filter (λ c, currentCorner state = Some (number c)) corners.

(** One entry of [proj]. *)
Record Proj : Type := mkProj {
  seg : Segment;
  screenX : R;
  roadW : R;
  yPos : R;
  scale : R
}.

(** The first pass of [_render] (the source's own [project] helper is
    never called): the iterations [i], [i + 1], ... of the
    loop, [count] of them, with [curveX] the accumulated curve offset. *)
Fixpoint projectVisible (W H : R) (s : State) (segs : list Segment)
    (startIndex count i : nat) (curveX : R) : option (list Proj) :=
  match count with
  | O => Some []
  | S count' =>
      seg ← segs !! ((startIndex + i) mod length segs)%nat;
      let dist := INR i + 1 in
      let scale := CAMERA_DEPTH / dist in
      let roadW := ROAD_WIDTH * scale * W / 1600 in
      let screenX := W / 2 + (curveX - x s * INR i * 0.5) * W / 1600 in
      let yPos := H * 0.5 + H * 0.5 * (1 - INR i / INR DRAW_DISTANCE) in
      rest ← projectVisible W H s segs startIndex count' (S i)
               (curveX + curve seg);
      Some (mkProj seg screenX roadW yPos scale :: rest)
  end.

(** The test that skips a strip in the second pass. *)
Definition culled (H : R) (p1 p1_next : Proj) : bool :=
  bool_decide (yPos p1 < 0) || bool_decide (yPos p1_next > H).

(** The strips the second pass paints, far to near: [proj[i]] with
    [proj[i - 1]] for [i] from [DRAW_DISTANCE - 1] down to 1, but those
    skipped. *)
Definition strips (H : R) (proj : list Proj) : list (Proj * Proj) :=
  filter (λ pp, culled H (fst pp) (snd pp) = false)
    (reverse (zip (drop 1 proj) proj)).

(** [_render()] on a canvas of width [W] and height [H]; [None] is the
    [TypeError] of reading [seg.curve] on a missing segment. *)
Definition _render (W H : R) (e : RideEngine)
    : option (list (Proj * Proj) * Hud) :=
  let s := state e in
  startIndex ← Js.floorDivMod (position s) SEGMENT_LENGTH (length (segments e));
  proj ← projectVisible W H s (segments e) startIndex DRAW_DISTANCE 0 0;
  Some (strips H proj, drawHUD s (corners e)).

(** A frame as [_loop()] runs it: [_update()], then [_render()] on a
    canvas of width [W] and height [H].  What is painted is dropped; a
    [TypeError] of either is kept. *)
Definition frame (W H : R) (e : RideEngine)
    : option (RideEngine * list Event) :=
  '(e', evs) ← _update e;
  _ ← _render W H e';
  Some (e', evs).

Definition actOnCanvas (W H : R) (a : Action) (e : RideEngine)
    : option (RideEngine * list Event) :=
  match a with
  | KeyDown key => Some (_onKeyDown key e, [])
  | KeyUp key => Some (_onKeyUp key e, [])
  | Frame => frame W H e
  end.

Fixpoint runOnCanvas (W H : R) (acts : list Action) (e : RideEngine)
    : option (RideEngine * list Event) :=
  match acts with
  | [] => Some (e, [])
  | a :: rest =>
      '(e1, evs1) ← actOnCanvas W H a e;
      '(e2, evs2) ← runOnCanvas W H rest e1;
      Some (e2, evs1 ++ evs2)
  end.

(** *** The engine on the page

    What the page does with an engine: a key event goes to the bound
    method registered for it, if it is registered; a frame runs the
    oldest pending frame callback, which leaves the list of pending
    frames and calls [_loop()]. *)
Definition deliver (a : Action) (e : RideEngine) (w : Window)
    : option (RideEngine * Window * list Event) :=
  match a with
  | KeyDown key =>
      if decide (("keydown", boundKeyDown) ∈ listeners w)
      then Some (_onKeyDown key e, w, []) else Some (e, w, [])
  | KeyUp key =>
      if decide (("keyup", boundKeyUp) ∈ listeners w)
      then Some (_onKeyUp key e, w, []) else Some (e, w, [])
  | Frame =>
      match pendingFrames w with
      | [] => Some (e, w, [])
      | h :: _ => _loop e (cancelAnimationFrame h w)
      end
  end.

Fixpoint session (acts : list Action) (e : RideEngine) (w : Window)
    : option (RideEngine * Window * list Event) :=
  match acts with
  | [] => Some (e, w, [])
  | a :: rest =>
      '(e1, w1, evs1) ← deliver a e w;
      '(e2, w2, evs2) ← session rest e1 w1;
      Some (e2, w2, evs1 ++ evs2)
  end.

End V1.

(** ** Second variant of ride3d.js *)

Module V2.

Definition SEGMENT_LENGTH : R := 200.
Definition RUMBLE_LENGTH : nat := 3.
Definition MAX_SPEED : R := 450.
Definition ACCELERATION : R := 3.2.
Definition BRAKING : R := 12.
Definition DECEL : R := 2.5.
Definition CENTRIFUGAL : R := 0.35.
Definition OFFROAD_DECEL : R := 0.96.

(** One entry of the zone table: [{type: 'straight', len}] or
    [{type: 'corner', len, curve, id}]. *)
Inductive Zone : Type :=
| straight (len : Z)
| corner (len : Z) (curve : R) (id : nat).

Definition len (zone : Zone) : Z :=
  match zone with
  | straight l => l
  | corner l _ _ => l
  end.

Definition TRACK_ZONES : list Zone :=
  [ straight 50;
    corner 35 1.6 1;
    straight 20;
    corner 25 (-0.2) 2;
    straight 140;
    corner 45 2.1 3;
    straight 15;
    corner 30 (-1.2) 4;
    straight 20;
    corner 35 1.3 5;
    straight 10;
    corner 40 (-0.9) 6;
    straight 25;
    corner 30 0.8 7;
    straight 15;
    corner 45 (-0.7) 8;
    straight 15;
    corner 30 1.5 9;
    straight 5;
    corner 30 (-1.4) 10;
    straight 35;
    corner 30 0.9 11;
    straight 20;
    corner 40 (-1.8) 12;
    straight 20 ].

Record Obj : Type := mkObj {
  type : string;
  offset : R
}.

Record Segment : Type := mkSegment {
  index : nat;
  curve : R;
  cornerIndex : option nat;
  color : nat;
  skid : bool;
  objects : list Obj
}.

(** [zone.type === 'corner'] *)
Definition isCorner (zone : Zone) : bool :=
  match zone with
  | straight _ => false
  | corner _ _ _ => true
  end.

(** The curvature given to segment [i] of a zone. *)
Definition zoneCurve (zone : Zone) (i : nat) : R :=
  match zone with
  | straight _ => 0
  | corner l c _ => c * sin (INR i / IZR l * PI)
  end.

Definition zoneCorner (zone : Zone) : option nat :=
  match zone with
  | straight _ => None
  | corner _ _ id => Some id
  end.

(** [Math.random()] is a stream of draws; the builder threads how many it
    has consumed.  One body of the inner [for] loop of [buildTrack]: *)
Definition pushSegment (random : nat → R) (zone : Zone)
    (st : list Segment * nat * nat) (i : nat) : list Segment * nat * nat :=
  let '(segments, id, draws) := st in
  let '(skid, draws') :=
    if isCorner zone && bool_decide (i < 10)%nat
    then (bool_decide (random draws < 0.3), S draws)
    else (false, draws) in
  (segments ++
     [mkSegment id (zoneCurve zone i) (zoneCorner zone)
        ((S id / RUMBLE_LENGTH) mod 2)%nat skid []],
   S id, draws').

(** The second [forEach] of [buildTrack]: objects of segment [i]. *)
Definition populateSegment (random : nat → R) (id : nat) (i : nat)
    (seg : Segment) (draws : nat) : Segment * nat :=
  let '(trees, draws') :=
    if bool_decide (i mod 8 = 0)%nat then
      let side := if decide (random draws > 0.5) then 1.8 else -1.8 in
      ([mkObj "tree" (side + random (S draws) * 0.5)], S (S draws))
    else ([], draws) in
  let stands :=
    if (bool_decide (i < 60)%nat
        || (bool_decide (250 < i)%nat && bool_decide (i < 350)%nat)
        || bool_decide (Z.of_nat id - 100 < Z.of_nat i)%Z)
       && bool_decide (i mod 15 = 0)%nat
    then [mkObj "grandstand" (-2.5)] else [] in
  let boards :=
    if Js.truthy (cornerIndex seg) && bool_decide (i mod 10 = 0)%nat
    then [mkObj "sponsor" 1.3] else [] in
  (mkSegment (index seg) (curve seg) (cornerIndex seg) (color seg) (skid seg)
     (objects seg ++ trees ++ stands ++ boards),
   draws').

Fixpoint populate (random : nat → R) (id : nat) (i : nat)
    (segments : list Segment) (draws : nat) : list Segment :=
  match segments with
  | [] => []
  | seg :: rest =>
      let '(seg', draws') := populateSegment random id i seg draws in
      seg' :: populate random id (S i) rest draws'
  end.

(** [buildTrack()], over the zone table and the stream of random draws. *)
Definition buildSegments (random : nat → R) (zones : list Zone)
    : list Segment * nat * nat :=
  fold_left (λ st zone,
               fold_left (pushSegment random zone)
                 (seq 0 (Z.to_nat (len zone))) st)
    zones ([], 0%nat, 0%nat).

Definition buildTrackFrom (zones : list Zone) (random : nat → R) : list Segment :=
  let '(segments, id, draws) := buildSegments random zones in
  populate random id 0 segments draws.

Definition buildTrack (random : nat → R) : list Segment :=
  buildTrackFrom TRACK_ZONES random.

(** The engine state of the second variant. *)
Record State : Type := mkState {
  position : R;
  speed : R;
  x : R;
  currentCorner : option nat;
  trackLength : R;
  demo : bool
}.

Record RideEngine : Type := mkEngine {
  segments : list Segment;
  corners : list Corner;
  state : State;
  keys : gmap string bool;
  running : bool
}.

Definition constructor : RideEngine :=
  mkEngine [] [] (mkState 0 0 0 None 0 false) ∅ false.

(** [init(canvas, corners)] is [async].  The part before
    [await loadAssets()] stores the canvas and the corners; a caller that
    does not await [init], as [startRide] of app.js, goes on with the
    engine as this part leaves it. *)
Definition initBegun (corners : list Corner) (e : RideEngine) : RideEngine :=
  mkEngine (segments e) corners (state e) (keys e) (running e).

(** [init(canvas, corners)], the part after [await loadAssets()]. *)
Definition initFrom (zones : list Zone) (random : nat → R)
    (corners : list Corner) (e : RideEngine) (w : Window) : RideEngine * Window :=
  let s := state e in
  let segments := buildTrackFrom zones random in
  let '(kd, w1) := newClosure w in
  let w2 := addEventListener "keydown" (arrowKeyDown kd) w1 in
  let '(ku, w3) := newClosure w2 in
  (mkEngine segments corners
     (mkState 0 0 0 (currentCorner s)
        (INR (length segments) * SEGMENT_LENGTH) (demo s))
     (keys e) (running e),
   addEventListener "keyup" (arrowKeyUp ku) w3).

Definition init (random : nat → R) (corners : list Corner)
    (e : RideEngine) (w : Window) : RideEngine * Window :=
  initFrom TRACK_ZONES random corners e w.

(** The two arrow functions registered by [init]. *)
Definition onKeyDown (key : string) (e : RideEngine) : RideEngine :=
  let s := state e in
  mkEngine (segments e) (corners e)
    (if decide (key = "d" ∨ key = "D") then
       mkState (position s) (speed s) (x s) (currentCorner s) (trackLength s)
         (negb (demo s))
     else s)
    (<[key := true]> (keys e)) (running e).

Definition onKeyUp (key : string) (e : RideEngine) : RideEngine :=
  mkEngine (segments e) (corners e) (state e) (<[key := false]> (keys e))
    (running e).

Definition stop (e : RideEngine) (w : Window) : RideEngine * Window :=
  (mkEngine (segments e) (corners e) (state e) (keys e) false, w).

Definition lookupSegment (e : RideEngine) : option Segment :=
  segIndex ← Js.floorDivMod (position (state e)) SEGMENT_LENGTH
                (length (segments e));
  segments e !! segIndex.

(** The [targetSpeed] constant of the demo branch, as a function of
    [seg.curve]. *)
Definition targetSpeed (curve : R) : R :=
  let curveLimit := Rabs curve in
  if decide (curveLimit > 1.0) then 120 else MAX_SPEED.

(** The demo branch of [update()]: new [x] and [speed]. *)
Definition demoControl (s : State) (seg : Segment) : R * R :=
  let targetX := - curve seg * 0.4 in
  let x1 := if decide (x s < targetX) then x s + 0.05 else x s in
  let x2 := if decide (x1 > targetX) then x1 - 0.05 else x1 in
  (x2,
   if decide (speed s < targetSpeed (curve seg)) then speed s + ACCELERATION
   else speed s - BRAKING).

(** The human branch of [update()]: new [x] and [speed]. *)
Definition humanControl (s : State) (k : gmap string bool) : R * R :=
  let v :=
    if Js.held k "ArrowUp" then Rmin (speed s + ACCELERATION) MAX_SPEED
    else if Js.held k "ArrowDown" then Rmax (speed s - BRAKING) 0
    else Rmax (speed s - DECEL) 0 in
  let steer := 0.005 * (v / MAX_SPEED) in
  let x1 := if Js.held k "ArrowLeft" then x s - steer else x s in
  let x2 := if Js.held k "ArrowRight" then x1 + steer else x1 in
  (x2, v).

(** Centrifugal force and off-road penalty of [update()]. *)
Definition centrifugal (seg : Segment) (x speed : R) : R :=
  x - curve seg * CENTRIFUGAL * (speed / MAX_SPEED) * 0.01.

Definition offroad (x speed : R) : R :=
  if decide (Rabs x > 1.0) then speed * OFFROAD_DECEL else speed.

(** Advance the position: the new position and whether the lap wrapped.
    The sum is exact here; [update64], further down, takes the same
    steps with the rounding of binary64. *)
Definition advance (position speed trackLength : R) : R * bool :=
  let p1 := position + speed in
  let wrap := bool_decide (p1 > trackLength) in
  (if wrap then p1 - trackLength else p1, wrap).

(** [update()], one tick; [None] is the [TypeError] of a property read on
    an [undefined] segment. *)
Definition update (w : Window) (e : RideEngine)
    : option (RideEngine * list Event) :=
  let s := state e in
  ctl ← (if demo s then seg ← lookupSegment e; Some (demoControl s seg)
         else Some (humanControl s (keys e)));
  currSeg ← lookupSegment e;
  let x' := centrifugal currSeg (fst ctl) (snd ctl) in
  let v := offroad x' (snd ctl) in
  let moved := advance (position s) v (trackLength s) in
  Some (mkEngine (segments e) (corners e)
          (mkState (fst moved) v x' (cornerIndex currSeg) (trackLength s)
             (demo s))
          (keys e) (running e),
        if snd moved && appOnLapComplete w then [LapComplete] else []).

(** [loop()]: one frame; the handle of the next frame is dropped. *)
Definition loop (e : RideEngine) (w : Window)
    : option (RideEngine * Window * list Event) :=
  if running e then
    '(e', evs) ← update w e;
    Some (e', snd (requestAnimationFrame w), evs)
  else Some (e, w, []).

Definition start (e : RideEngine) (w : Window)
    : option (RideEngine * Window * list Event) :=
  loop (mkEngine (segments e) (corners e) (state e) (keys e) true) w.

(** *** Runs of the engine

    In [act] a frame is the [update()] of [loop()], the part that
    changes the engine; a frame with the [render()] that follows it is
    [frame], further down. *)
Inductive Action : Type :=
| KeyDown (key : string)
| KeyUp (key : string)
| Frame.

Definition act (w : Window) (a : Action) (e : RideEngine)
    : option (RideEngine * list Event) :=
  match a with
  | KeyDown key => Some (onKeyDown key e, [])
  | KeyUp key => Some (onKeyUp key e, [])
  | Frame => update w e
  end.

Fixpoint run (w : Window) (acts : list Action) (e : RideEngine)
    : option (RideEngine * list Event) :=
  match acts with
  | [] => Some (e, [])
  | a :: rest =>
      '(e1, evs1) ← act w a e;
      '(e2, evs2) ← run w rest e1;
      Some (e2, evs1 ++ evs2)
  end.

Definition emptyWindow : Window := mkWindow [] [] 0 0 false.

(** An engine after [new RideEngine()] and a completed [init]. *)
Definition bootFrom (zones : list Zone) (random : nat → R)
    (corners : list Corner) : RideEngine :=
  fst (initFrom zones random corners constructor emptyWindow).

Definition boot (random : nat → R) (corners : list Corner) : RideEngine :=
  bootFrom TRACK_ZONES random corners.

(** *** Rendering

    What [render] computes before it paints: the projection of the
    visible segments, the strips painted from them, the values of the
    dashboard and the corner named in the overlay. *)

Definition ROAD_WIDTH : R := 2200.
Definition CAMERA_HEIGHT : R := 1400.
Definition CAMERA_DEPTH : R := 0.84.
Definition DRAW_DISTANCE : nat := 300.

(** What [drawDashboard] shows: the speed, the gear and the filled part
    of the lap bar. *)
Record Dash : Type := mkDash {
  speedo : Z;
  gear : Z;
  prog : R
}.

Definition drawDashboard (state : State) : Dash :=
  let spd := Rabs (speed state) * 0.28 in
  let gear :=
    if decide (spd < 60) then 1%Z
    else if decide (spd < 110) then 2%Z
    else if decide (spd < 160) then 3%Z
    else if decide (spd < 220) then 4%Z
    else if decide (spd < 280) then 5%Z
    else 6%Z in
  mkDash (Js.round spd) gear (position state / trackLength state).

(** One entry of [proj]. *)
Record Proj : Type := mkProj {
  seg : Segment;
  screenX : R;
  screenY : R;
  roadW : R;
  scale : R
}.

(** The projection loop of [render]: the iterations [i], [i + 1], ...,
    [count] of them. *)
Fixpoint projectVisible (W H : R) (s : State) (segs : list Segment)
    (startIndex : nat) (camZ : R) (count i : nat) (xAccum : R)
    : option (list Proj) :=
  match count with
  | O => Some []
  | S count' =>
      seg ← segs !! ((startIndex + i) mod length segs)%nat;
      let scale :=
        CAMERA_DEPTH / (INR i * SEGMENT_LENGTH + SEGMENT_LENGTH - camZ) in
      let screenX :=
        W / 2 + (xAccum - x s * INR i * SEGMENT_LENGTH * scale * 0.5) in
      let screenY := H / 2 + H / 2 * (1 - INR i / INR DRAW_DISTANCE) in
      let roadW := ROAD_WIDTH * scale * W in
      rest ← projectVisible W H s segs startIndex camZ count' (S i)
               (xAccum + curve seg * 10);
      Some (mkProj seg screenX screenY roadW scale :: rest)
  end.

(** The strips painted, far to near: [proj[i]] with [proj[i - 1]] for
    [i] from [DRAW_DISTANCE - 1] down to 1, but those above the
    horizon. *)
Definition strips (H : R) (proj : list Proj) : list (Proj * Proj) :=
  filter (λ pp, ¬ screenY (fst pp) < H / 2)
    (reverse (zip (drop 1 proj) proj)).

(** The corner named in the overlay, if any; reading [c.number] of a
    missing corner throws. *)
Definition overlay (e : RideEngine) : option (option Corner) :=
  match currentCorner (state e) with
  | Some (S n) => c ← corners e !! n; Some (Some c)
  | _ => Some None
  end.

(** [render()] on a canvas of width [W] and height [H]; [None] is a
    [TypeError]. *)
Definition render (W H : R) (e : RideEngine)
    : option (list (Proj * Proj) * Dash * option Corner) :=
  let s := state e in
  startIndex ← Js.floorDivMod (position s) SEGMENT_LENGTH (length (segments e));
  proj ← projectVisible W H s (segments e) startIndex
           (Js.fmod (position s) SEGMENT_LENGTH) DRAW_DISTANCE 0 0;
  c ← overlay e;
  Some (strips H proj, drawDashboard s, c).

(** A frame as [loop()] runs it: [update()], then [render()] on a canvas
    of width [W] and height [H].  What is painted is dropped; a
    [TypeError] of either is kept. *)
Definition frame (W H : R) (w : Window) (e : RideEngine)
    : option (RideEngine * list Event) :=
  '(e', evs) ← update w e;
  _ ← render W H e';
  Some (e', evs).

Definition actOnCanvas (W H : R) (w : Window) (a : Action) (e : RideEngine)
    : option (RideEngine * list Event) :=
  match a with
  | KeyDown key => Some (onKeyDown key e, [])
  | KeyUp key => Some (onKeyUp key e, [])
  | Frame => frame W H w e
  end.

Fixpoint runOnCanvas (W H : R) (w : Window) (acts : list Action)
    (e : RideEngine) : option (RideEngine * list Event) :=
  match acts with
  | [] => Some (e, [])
  | a :: rest =>
      '(e1, evs1) ← actOnCanvas W H w a e;
      '(e2, evs2) ← runOnCanvas W H w rest e1;
      Some (e2, evs1 ++ evs2)
  end.

(** *** Throttle and odometer in binary64

    JavaScript numbers are IEEE doubles.  The definitions above take the
    arithmetic exact; the ones below follow the speed and the position
    of [update()] with the program's own rounding, for a vehicle under
    human control that stays on the road ([|x| <= 1]) and gets no key
    but the throttle and the brake.  [3.2] is the double nearest to it. *)

Definition min64 (a b : float) : float := if PrimFloat.ltb b a then b else a.

Definition max64 (a b : float) : float := if PrimFloat.ltb a b then b else a.

(** The state followed: [keys['ArrowUp']], [keys['ArrowDown']],
    [position], [speed], and the number of laps wrapped. *)
Record State64 : Type := mkState64 {
  up64 : bool;
  down64 : bool;
  position64 : float;
  speed64 : float;
  wraps64 : nat
}.

Definition update64 (trackLength : float) (s : State64) : State64 :=
  let v :=
    if up64 s
    then min64 (PrimFloat.add (speed64 s) 0x1.999999999999ap+1%float)
           450%float
    else if down64 s then max64 (PrimFloat.sub (speed64 s) 12%float) 0%float
    else max64 (PrimFloat.sub (speed64 s) 2.5%float) 0%float in
  let p1 := PrimFloat.add (position64 s) v in
  if PrimFloat.ltb trackLength p1
  then mkState64 (up64 s) (down64 s) (PrimFloat.sub p1 trackLength) v
         (S (wraps64 s))
  else mkState64 (up64 s) (down64 s) p1 v (wraps64 s).

Definition act64 (trackLength : float) (a : Action) (s : State64)
    : option State64 :=
  match a with
  | KeyDown key =>
      if decide (key = "ArrowUp")
      then Some (mkState64 true (down64 s) (position64 s) (speed64 s)
                   (wraps64 s))
      else if decide (key = "ArrowDown")
      then Some (mkState64 (up64 s) true (position64 s) (speed64 s)
                   (wraps64 s))
      else None
  | KeyUp key =>
      if decide (key = "ArrowUp")
      then Some (mkState64 false (down64 s) (position64 s) (speed64 s)
                   (wraps64 s))
      else if decide (key = "ArrowDown")
      then Some (mkState64 (up64 s) false (position64 s) (speed64 s)
                   (wraps64 s))
      else None
  | Frame => Some (update64 trackLength s)
  end.

Fixpoint run64 (trackLength : float) (acts : list Action) (s : State64)
    : option State64 :=
  match acts with
  | [] => Some s
  | a :: rest => s1 ← act64 trackLength a s; run64 trackLength rest s1
  end.

(** The state [init] leaves. *)
Definition grid64 : State64 := mkState64 false false 0%float 0%float 0.

End V2.

(** ** The orchestration layer: app.js

    The [App] object, the mode router, corner navigation, the
    walkthrough and the quiz.  Writes to the document are left out; the
    elements the handlers look up are taken to exist.  A handler that
    throws ([selectCorner] on [undefined]) is [None]. *)

Module AppJs.

(** [CORNERS_DATA]: the number and the name of each corner. *)
Definition CORNERS_DATA : list Corner :=
  [ mkCorner 1 "Start Hairpin"; mkCorner 2 "Kink Left";
    mkCorner 3 "The Hammer"; mkCorner 4 "Second Apex";
    mkCorner 5 "Thai Tight"; mkCorner 6 "Flowing Left";
    mkCorner 7 "Back Entry"; mkCorner 8 "Sweeper";
    mkCorner 9 "Inner Loop"; mkCorner 10 "Inner Exit";
    mkCorner 11 "Fast Right"; mkCorner 12 "Glory Corner" ].

(** The [App] object; [engine] holds the identity of the engine object. *)
Record App : Type := mkApp {
  corners : list Corner;
  mode : string;
  selectedCorner : option Corner;
  walkStep : nat;
  walkTimer : option nat;
  quizRound : nat;
  quizScore : nat;
  quizCorrect : option Corner;
  quizMaxRounds : nat;
  engine : option nat
}.

(** What the page holds for app.js: the live intervals, the last timer
    handle given out, the pending timeouts of [handleQuizAnswer], the
    pending frame callbacks of [startRide], the number of engines
    created, the engines started and not stopped, and the number of
    [Math.random] calls made. *)
Record Page : Type := mkPage {
  intervals : list nat;
  lastTimer : nat;
  quizTimeouts : nat;
  rideFrames : nat;
  engines : nat;
  runningEngines : list nat;
  draws : nat
}.

Definition withMode (a : App) (m : string) : App :=
  mkApp (corners a) m (selectedCorner a) (walkStep a) (walkTimer a)
    (quizRound a) (quizScore a) (quizCorrect a) (quizMaxRounds a) (engine a).

Definition withSelected (a : App) (c : option Corner) : App :=
  mkApp (corners a) (mode a) c (walkStep a) (walkTimer a)
    (quizRound a) (quizScore a) (quizCorrect a) (quizMaxRounds a) (engine a).

Definition withWalkStep (a : App) (step : nat) : App :=
  mkApp (corners a) (mode a) (selectedCorner a) step (walkTimer a)
    (quizRound a) (quizScore a) (quizCorrect a) (quizMaxRounds a) (engine a).

Definition withWalkTimer (a : App) (t : option nat) : App :=
  mkApp (corners a) (mode a) (selectedCorner a) (walkStep a) t
    (quizRound a) (quizScore a) (quizCorrect a) (quizMaxRounds a) (engine a).

Definition withQuiz (a : App) (round score : nat) (correct : option Corner)
    : App :=
  mkApp (corners a) (mode a) (selectedCorner a) (walkStep a) (walkTimer a)
    round score correct (quizMaxRounds a) (engine a).

Definition withEngine (a : App) (e : option nat) : App :=
  mkApp (corners a) (mode a) (selectedCorner a) (walkStep a) (walkTimer a)
    (quizRound a) (quizScore a) (quizCorrect a) (quizMaxRounds a) e.

(** [setInterval]: handles are positive and fresh. *)
Definition setInterval (p : Page) : nat * Page :=
  let h := S (lastTimer p) in
  (h, mkPage (intervals p ++ [h]) h (quizTimeouts p) (rideFrames p)
        (engines p) (runningEngines p) (draws p)).

Definition clearInterval (h : nat) (p : Page) : Page :=
  mkPage (filter (λ h', h' ≠ h) (intervals p)) (lastTimer p) (quizTimeouts p)
    (rideFrames p) (engines p) (runningEngines p) (draws p).

(** [setTimeout] of [handleQuizAnswer]: one more callback pending. *)
Definition setTimeout (p : Page) : Page :=
  mkPage (intervals p) (S (lastTimer p)) (S (quizTimeouts p)) (rideFrames p)
    (engines p) (runningEngines p) (draws p).

Definition firedTimeout (p : Page) : Page :=
  mkPage (intervals p) (lastTimer p) (pred (quizTimeouts p)) (rideFrames p)
    (engines p) (runningEngines p) (draws p).

Definition withDraws (p : Page) (n : nat) : Page :=
  mkPage (intervals p) (lastTimer p) (quizTimeouts p) (rideFrames p)
    (engines p) (runningEngines p) n.

(** [engine.stop()] *)
Definition stopEngine (id : nat) (p : Page) : Page :=
  mkPage (intervals p) (lastTimer p) (quizTimeouts p) (rideFrames p)
    (engines p) (filter (λ id', id' ≠ id) (runningEngines p)) (draws p).

(** The initial [App] object. *)
Definition initial : App := mkApp [] "explore" None 0 None 0 0 None 6 None.

Definition emptyPage : Page := mkPage [] 0 0 0 0 [] 0.

(** [selectCorner(corner)]: reading [corner.number] of [undefined]
    throws. *)
Definition selectCorner (corner : option Corner) (a : App) : option App :=
  c ← corner; Some (withSelected a (Some c)).

(** [navCorner(dir)] *)
Definition navCorner (dir : Z) (a : App) : option App :=
  match selectedCorner a with
  | None => Some a
  | Some sel =>
      let idx := Js.findIndex (λ c, number c = number sel) (corners a) in
      let len := Z.of_nat (length (corners a)) in
      selectCorner (i ← Js.rem (idx + dir + len) len; Js.item (corners a) i) a
  end.

(** [startRide()]: the engine is made when the frame callback runs. *)
Definition startRide (p : Page) : Page :=
  mkPage (intervals p) (lastTimer p) (quizTimeouts p) (S (rideFrames p))
    (engines p) (runningEngines p) (draws p).

(** The frame callback of [startRide], as far as [App] and the page go:
    a new engine becomes [App.engine] and is counted as running.  This
    is what the callback leaves when [init] and [start] return.  Whether
    they do is the engine's matter and is not decided here: with the
    first variant they do; with the second [init] is [async], [start]
    runs on the engine that [V2.initBegun] leaves, and its first
    [update()] throws. *)
Definition rideFrame (w : App * Page) : App * Page :=
  let '(a, p) := w in
  let id := engines p in
  (withEngine a (Some id),
   mkPage (intervals p) (lastTimer p) (quizTimeouts p) (pred (rideFrames p))
     (S id) (runningEngines p ++ [id]) (draws p)).

(** [startWalkthrough()] *)
Definition startWalkthrough (w : App * Page) : option (App * Page) :=
  let '(a, p) := w in
  a1 ← selectCorner (corners a !! 0%nat) (withWalkStep a 0);
  let '(h, p1) := setInterval p in
  Some (withWalkTimer a1 (Some h), p1).

(** The interval callback of [startWalkthrough]. *)
Definition walkTick (a : App) : option App :=
  i ← Js.rem (Z.of_nat (walkStep a) + 1) (Z.of_nat (length (corners a)));
  selectCorner (Js.item (corners a) i) (withWalkStep a (Z.to_nat i)).

Definition clueTypes : list string :=
  ["name"; "speed"; "braking"; "direction"; "character"].

(** [nextQuizQuestion()]: two draws, one for the corner and one for the
    clue; every clue reads a property of the corner drawn. *)
Definition nextQuizQuestion (random : nat → R) (w : App * Page)
    : option (App * Page) :=
  let '(a, p) := w in
  if decide (quizMaxRounds a <= quizRound a)%nat then Some w
  else
    let correct :=
      Js.item (corners a)
        (Int_part (random (draws p) * INR (length (corners a)))) in
    let clue :=
      Js.item clueTypes
        (Int_part (random (S (draws p)) * INR (length clueTypes))) in
    let w1 := (withQuiz a (S (quizRound a)) (quizScore a) correct,
               withDraws p (S (S (draws p)))) in
    match clue with
    | Some _ => _ ← correct; Some w1
    | None => Some w1
    end.

(** [startQuiz()] *)
Definition startQuiz (random : nat → R) (w : App * Page)
    : option (App * Page) :=
  let '(a, p) := w in
  nextQuizQuestion random (withQuiz a 0 0 (quizCorrect a), p).

(** [handleQuizAnswer(clickedNum)] *)
Definition handleQuizAnswer (clickedNum : nat) (w : App * Page) : App * Page :=
  let '(a, p) := w in
  match quizCorrect a with
  | None => w
  | Some correct =>
      (withQuiz a (quizRound a)
         (if decide (clickedNum = number correct) then S (quizScore a)
          else quizScore a)
         None,
       setTimeout p)
  end.

(** The percentage of [showQuizResult()]. *)
Definition quizPct (a : App) : Z :=
  Js.round (INR (quizScore a) / INR (quizMaxRounds a) * 100).

(** [switchMode(mode)] *)
Definition switchMode (random : nat → R) (m : string) (w : App * Page)
    : option (App * Page) :=
  let '(a, p) := w in
  let '(a1, p1) :=
    match engine a with
    | Some id =>
        if decide (mode a = "ride") then (withEngine a None, stopEngine id p)
        else (a, p)
    | None => (a, p)
    end in
  let '(a2, p2) :=
    match walkTimer a1 with
    | Some (S h) => (withWalkTimer a1 None, clearInterval (S h) p1)
    | _ => (a1, p1)
    end in
  let a3 := withMode a2 m in
  let w4 := if decide (m = "ride") then (a3, startRide p2) else (a3, p2) in
  w5 ← (if decide (m = "walkthrough") then startWalkthrough w4 else Some w4);
  w6 ← (if decide (m = "quiz") then startQuiz random w5 else Some w5);
  if decide (m = "explore") then
    match selectedCorner (fst w6) with
    | Some c => a7 ← selectCorner (Some c) (fst w6); Some (a7, snd w6)
    | None => Some w6
    end
  else Some w6.

(** [boot()] *)
Definition boot (random : nat → R) : option (App * Page) :=
  let a :=
    mkApp CORNERS_DATA (mode initial) (selectedCorner initial)
      (walkStep initial) (walkTimer initial) (quizRound initial)
      (quizScore initial) (quizCorrect initial) (quizMaxRounds initial)
      (engine initial) in
  w ← switchMode random "explore" (a, emptyPage);
  a1 ← selectCorner (corners (fst w) !! 0%nat) (fst w);
  Some (a1, snd w).

(** The [keydown] listener of the document. *)
Definition onKeyDown (random : nat → R) (key : string) (w : App * Page)
    : option (App * Page) :=
  w1 ← (if decide (key = "Escape" ∧ mode (fst w) = "ride")
        then switchMode random "explore" w else Some w);
  w2 ← (if decide ((key = "r" ∨ key = "R") ∧ mode (fst w1) ≠ "ride")
        then switchMode random "ride" w1 else Some w1);
  w3 ← (if decide (key = "ArrowLeft" ∧ mode (fst w2) = "explore")
        then a ← navCorner (-1) (fst w2); Some (a, snd w2) else Some w2);
  if decide (key = "ArrowRight" ∧ mode (fst w3) = "explore")
  then a ← navCorner 1 (fst w3); Some (a, snd w3) else Some w3.

(** The click listener of the map marker of the corner at index [i]. *)
Definition onMarkerClick (i : nat) (w : App * Page) : option (App * Page) :=
  match corners (fst w) !! i with
  | None => Some w
  | Some c =>
      if decide (mode (fst w) = "quiz") then Some (handleQuizAnswer (number c) w)
      else a ← selectCorner (Some c) (fst w); Some (a, snd w)
  end.

(** *** Runs of the page

    What reaches the handlers after [boot]: clicks on the four mode
    buttons, on the two navigation buttons, on the retry button of the
    quiz result and on a map marker, key presses, and the callbacks of
    the interval, of a quiz timeout and of a ride frame.  A callback that
    is not pending does not run. *)
Inductive Action : Type :=
| ClickMode (m : string)
| ClickPrev
| ClickNext
| ClickRetry
| ClickMarker (i : nat)
| KeyDown (key : string)
| WalkTick
| QuizTimeout
| RideFrame.

Definition act (random : nat → R) (ev : Action) (w : App * Page)
    : option (App * Page) :=
  match ev with
  | ClickMode m =>
      if decide (m ∈ ["ride"; "explore"; "walkthrough"; "quiz"])
      then switchMode random m w else Some w
  | ClickPrev => a ← navCorner (-1) (fst w); Some (a, snd w)
  | ClickNext => a ← navCorner 1 (fst w); Some (a, snd w)
  | ClickRetry => startQuiz random w
  | ClickMarker i => onMarkerClick i w
  | KeyDown key => onKeyDown random key w
  | WalkTick =>
      match intervals (snd w) with
      | [] => Some w
      | _ :: _ => a ← walkTick (fst w); Some (a, snd w)
      end
  | QuizTimeout =>
      match quizTimeouts (snd w) with
      | O => Some w
      | S _ => nextQuizQuestion random (fst w, firedTimeout (snd w))
      end
  | RideFrame =>
      match rideFrames (snd w) with
      | O => Some w
      | S _ => Some (rideFrame w)
      end
  end.

Fixpoint run (random : nat → R) (evs : list Action) (w : App * Page)
    : option (App * Page) :=
  match evs with
  | [] => Some w
  | ev :: rest => w1 ← act random ev w; run random rest w1
  end.

End AppJs.

(** ** Vocabulary of the statements below *)

(** *** First variant *)

(** An engine whose track is in place: at least three segments (so that a
    lap is longer than one tick at top speed) and the track length that
    [init] computes. *)
Definition ready (e : V1.RideEngine) : Prop :=
  (3 <= length (V1.segments e))%nat ∧
  V1.trackLength (V1.state e) = INR (length (V1.segments e)) * V1.SEGMENT_LENGTH.

Definition inRange (e : V1.RideEngine) : Prop :=
  0 <= V1.position (V1.state e) < V1.trackLength (V1.state e) ∧
  0 <= V1.speed (V1.state e) <= V1.MAX_SPEED.

(** The corner index of each of the 474 segments of the built track. *)
Definition v1_plan : list (option nat) :=
  Eval lazy in V1.cornerPlan (V1.buildScenery V1.buildTrack).

(** Reading segment [j] and then segment [j + d] announces what reading
    every segment in between would have announced. *)
Definition windowCheck (C : list (option nat)) (j d : nat) : bool :=
  match C !! j, C !! (j + d)%nat with
  | Some cj, Some ci =>
      bool_decide (V1.edges None (take (S (j + d)) C)
                   = V1.edges None (take (S j) C) ++ V1.edge1 cj ci)
  | _, _ => true
  end.

Definition windowsOk (C : list (option nat)) : bool :=
  forallb (λ j, forallb (windowCheck C j) (seq 0 4)) (seq 0 (length C)).

(** An engine on the built track with both callbacks installed. *)
Definition booted (cornerData : list Corner) (e : V1.RideEngine) : Prop :=
  V1.segments e = V1.buildScenery V1.buildTrack ∧
  V1.corners e = cornerData ∧
  V1.onCornerEntered e = true ∧
  V1.onLapComplete e = true ∧
  V1.trackLength (V1.state e) = 94800.

(** The events emitted so far are [laps] full laps followed by the corners
    met up to segment [j], the last segment read. *)
Definition lapInv (cornerData : list Corner) (e : V1.RideEngine)
    (evs : list Event) : Prop :=
  ∃ laps j,
    v1_plan !! j = Some (V1.currentCorner (V1.state e)) ∧
    INR j * 200 <= V1.position (V1.state e) < (INR j + 4) * 200 ∧
    evs = concat (replicate laps (V1.lapEvents cornerData)) ++
          map (V1.announce cornerData) (V1.edges None (take (S j) v1_plan)).

Definition sameScenery (a b : V1.Segment) : Prop :=
  V1.objLeft a = V1.objLeft b ∧ V1.objRight a = V1.objRight b.

(** The demo is switched on and off by two taps on "d", with one frame in
    between; no arrow key is ever pressed. *)
Definition tapDemoTwice : list V1.Action :=
  [V1.KeyDown "d"; V1.KeyUp "d"; V1.Frame; V1.KeyDown "d"; V1.KeyUp "d"].

(** *** Second variant *)

(** Curvature and corner index of a segment, and of the segments a zone
    table asks for. *)
Definition shape (seg : V2.Segment) : R * option nat :=
  (V2.curve seg, V2.cornerIndex seg).

Definition zoneShape (zone : V2.Zone) : list (R * option nat) :=
  map (λ i, (V2.zoneCurve zone i, V2.zoneCorner zone))
    (seq 0 (Z.to_nat (V2.len zone))).

Definition trackShape (zones : list V2.Zone) : list (R * option nat) :=
  flat_map zoneShape zones.

(** Number of segments contributed by the first [n] zones. *)
Definition zoneOffset (zones : list V2.Zone) (n : nat) : nat :=
  list_sum (map (λ zone, Z.to_nat (V2.len zone)) (take n zones)).

Definition peak (zone : V2.Zone) : R :=
  match zone with
  | V2.straight _ => 0
  | V2.corner _ c _ => c
  end.

Definition kinds (seg : V2.Segment) : list string :=
  map V2.type (V2.objects seg).

(** An engine that can take a tick: some track, and a position and a
    speed that are not negative. *)
Definition v2_alive (e : V2.RideEngine) : Prop :=
  V2.segments e ≠ [] ∧
  0 <= V2.position (V2.state e) ∧
  0 <= V2.speed (V2.state e).

(** A corner index that the overlay of [render] can name: [null], 0, or
    the number of a corner that [corners] holds. *)
Definition v2_named (corners : list Corner) (c : option nat) : Prop :=
  match c with
  | Some (S n) => (n < length corners)%nat
  | _ => True
  end.

(** Holding the throttle from the grid: the state after [n] frames. *)
Definition launched (random : nat → R) (n : nat) (e : V2.RideEngine) : Prop :=
  V2.segments e = V2.buildTrack random ∧
  Js.held (V2.keys e) "ArrowUp" = true ∧
  Js.held (V2.keys e) "ArrowLeft" = false ∧
  Js.held (V2.keys e) "ArrowRight" = false ∧
  V2.demo (V2.state e) = false ∧
  V2.trackLength (V2.state e) = 161000 ∧
  V2.speed (V2.state e) = 3.2 * INR n ∧
  V2.position (V2.state e) = 1.6 * INR n * (INR n + 1) ∧
  Rabs (V2.x (V2.state e)) <= 0.0056 * INR n.

(** Driving with the throttle alone, followed in exact tenths: whether
    [ArrowUp] is held, position and speed in tenths of a unit, and a bound
    on the lateral drift gathered so far, in units of [7 / 90000000]. *)
Record Drive : Type := mkDrive {
  throttle : bool;
  position10 : Z;
  speed10 : Z;
  drift : Z
}.

(** Bounds, in tenths, on the curvature magnitude of each zone of
    [TRACK_ZONES], and of each segment built from a zone table. *)
Definition v2_peaks : list Z :=
  [0; 16; 0; 2; 0; 21; 0; 12; 0; 13; 0; 9; 0; 8; 0; 7; 0; 15; 0; 14; 0; 9;
   0; 18; 0]%Z.

Fixpoint curveBounds (zones : list V2.Zone) (peaks : list Z) : list Z :=
  match zones, peaks with
  | zone :: zones', p :: peaks' =>
      replicate (Z.to_nat (V2.len zone)) p ++ curveBounds zones' peaks'
  | _, _ => []
  end.

(** One action followed in tenths.  A frame is followed only while the
    vehicle stays on the road and short of, or exactly on, the end of the
    lap. *)
Definition driveStep (bounds : list Z) (a : V2.Action) (d : Drive)
    : option Drive :=
  match a with
  | V2.KeyDown key =>
      if decide (key = "ArrowUp")
      then Some (mkDrive true (position10 d) (speed10 d) (drift d)) else None
  | V2.KeyUp key =>
      if decide (key = "ArrowUp")
      then Some (mkDrive false (position10 d) (speed10 d) (drift d)) else None
  | V2.Frame =>
      let v := if throttle d then Z.min (speed10 d + 32) 4500
               else Z.max (speed10 d - 25) 0 in
      b ← bounds !! Z.to_nat (position10 d / 2000);
      let s := (drift d + b * v)%Z in
      if decide (0 <= position10 d ∧ 0 <= speed10 d ∧ s * 7 <= 90000000
                 ∧ position10 d + v <= 1610000)%Z
      then Some (mkDrive (throttle d) (position10 d + v) v s) else None
  end.

Fixpoint driveRun (bounds : list Z) (acts : list V2.Action) (d : Drive)
    : option Drive :=
  match acts with
  | [] => Some d
  | a :: rest => d' ← driveStep bounds a d; driveRun bounds rest d'
  end.

(** The engine that a [Drive] follows. *)
Definition driven (random : nat → R) (e : V2.RideEngine) (d : Drive) : Prop :=
  V2.segments e = V2.buildTrack random ∧
  V2.demo (V2.state e) = false ∧
  V2.trackLength (V2.state e) = 161000 ∧
  V2.position (V2.state e) = IZR (position10 d) / 10 ∧
  V2.speed (V2.state e) = IZR (speed10 d) / 10 ∧
  Rabs (V2.x (V2.state e)) <= IZR (drift d) * 7 / 90000000 ∧
  Js.held (V2.keys e) "ArrowUp" = throttle d ∧
  Js.held (V2.keys e) "ArrowDown" = false ∧
  Js.held (V2.keys e) "ArrowLeft" = false ∧
  Js.held (V2.keys e) "ArrowRight" = false.

(** One lap from the grid, 571 frames: throttle for 25 frames; four
    times no throttle for 23 frames and throttle for 19; throttle for 378
    frames. *)
Definition lapOntoLine : list V2.Action :=
  [V2.KeyDown "ArrowUp"] ++ replicate 25 V2.Frame ++
  concat (replicate 4 ([V2.KeyUp "ArrowUp"] ++ replicate 23 V2.Frame ++
                       [V2.KeyDown "ArrowUp"] ++ replicate 19 V2.Frame)) ++
  replicate 378 V2.Frame.

(** Two streams of draws that [Math.random()] can give: all 0, and all
    0.75. *)
Definition lowDraws : nat → R := λ _, 0.

Definition highDraws : nat → R := λ _, 0.75.

(** *** Views of a segment *)

(** Everything of a segment of the first variant but its roadside
    objects. *)
Definition core (seg : V1.Segment)
    : nat * R * R * option nat * nat * R * R :=
  (V1.index seg, V1.curve seg, V1.camber seg, V1.cornerIndex seg,
   V1.color seg, V1.startY seg, V1.endY seg).

(** The roadside objects of a segment, in either variant. *)
Definition roadside (seg : V1.Segment) : list V1.Obj :=
  option_list (V1.objLeft seg) ++ option_list (V1.objRight seg).

(** The stripe colour of the segment pushed when the counter is [i]:
    [Math.floor(id / RUMBLE_LENGTH) % 2] after [id++]. *)
Definition stripe (i : nat) : nat := (S i / 3) mod 2.

(** The places where the second builder may draw skid marks: the first
    ten segments of each corner zone. *)
Definition skidSlots (zones : list V2.Zone) : list bool :=
  flat_map (λ zone, map (λ i, V2.isCorner zone && bool_decide (i < 10)%nat)
                      (seq 0 (Z.to_nat (V2.len zone)))) zones.

(** The object types the second builder puts on segment [i] of a track
    of [n] segments. *)
Definition kindsAt (n i : nat) (cornerIndex : option nat) : list string :=
  (if bool_decide (i mod 8 = 0)%nat then ["tree"] else []) ++
  (if (bool_decide (i < 60)%nat
       || (bool_decide (250 < i)%nat && bool_decide (i < 350)%nat)
       || bool_decide (Z.of_nat n - 100 < Z.of_nat i)%Z)
      && bool_decide (i mod 15 = 0)%nat
   then ["grandstand"] else []) ++
  (if Js.truthy cornerIndex && bool_decide (i mod 10 = 0)%nat
   then ["sponsor"] else []).

(** *** Counting frames *)

(** The number of frame callbacks among the actions of a run. *)
Fixpoint frameCount (acts : list V1.Action) : nat :=
  match acts with
  | [] => 0
  | V1.Frame :: rest => S (frameCount rest)
  | _ :: rest => frameCount rest
  end.

(** *** The page of app.js *)

(** What holds of the page after [boot] and between handlers: the corner
    data is in place, a corner of it is selected, the one live interval
    is the walkthrough timer and it is live in walkthrough mode only,
    and the quiz has asked at least as many questions as were answered
    right plus the one open. *)
Definition appInv (w : AppJs.App * AppJs.Page) : Prop :=
  let a := fst w in
  let p := snd w in
  AppJs.corners a = AppJs.CORNERS_DATA ∧
  (∃ c, AppJs.selectedCorner a = Some c ∧ c ∈ AppJs.CORNERS_DATA) ∧
  AppJs.quizMaxRounds a = 6%nat ∧
  (AppJs.walkStep a < 12)%nat ∧
  AppJs.intervals p = option_list (AppJs.walkTimer a) ∧
  (∀ h, AppJs.walkTimer a = Some h → (0 < h <= AppJs.lastTimer p)%nat) ∧
  (is_Some (AppJs.walkTimer a) ↔ AppJs.mode a = "walkthrough") ∧
  (AppJs.quizScore a + length (option_list (AppJs.quizCorrect a))
   <= AppJs.quizRound a <= 6)%nat ∧
  (∀ c, AppJs.quizCorrect a = Some c → c ∈ AppJs.CORNERS_DATA).

(** *** Case analysis on the numeric tests *)

(** Splits on every [Math.min], [Math.max], [Math.abs] and comparison in
    the goal. *)
Ltac rcases :=
  repeat match goal with
  | |- context [Rmin ?a ?b] => unfold Rmin; destruct (Rle_dec a b)
  | |- context [Rmax ?a ?b] => unfold Rmax; destruct (Rle_dec a b)
  | |- context [Rabs ?a] => unfold Rabs; destruct (Rcase_abs a)
  | |- context [decide ?P] => destruct (decide P)
  | |- context [bool_decide ?P] => destruct (bool_decide_reflect P)
  end.

(** * Facts *)

(** ** Numbers and segment lookup *)

Lemma INR_lit (n : nat) (z : Z) : Z.of_nat n = z → INR n = IZR z.
Proof. intros <-. apply INR_IZR_INZ. Qed.

Lemma Int_part_between (r : R) (z : Z) :
  IZR z <= r < IZR z + 1 → Int_part r = z.
Proof.
  intros [Hlo Hhi]. symmetry. apply Int_part_spec. lra.
Qed.

Lemma floorDivMod_at (p u : R) (n i : nat) :
  0 < u → (i < n)%nat → INR i * u <= p < (INR i + 1) * u →
  Js.floorDivMod p u n = Some i.
Proof.
  intros Hu Hi [Hlo Hhi]. unfold Js.floorDivMod.
  destruct (decide (n = 0%nat)) as [->|_]; [lia|].
  assert (Hq : Int_part (p / u) = Z.of_nat i).
  { apply Int_part_between. rewrite <- INR_IZR_INZ. split.
    - apply Rmult_le_reg_r with u; [lra|].
      unfold Rdiv. rewrite Rmult_assoc, Rinv_l by lra. lra.
    - apply Rmult_lt_reg_r with u; [lra|].
      unfold Rdiv. rewrite Rmult_assoc, Rinv_l by lra. lra. }
  rewrite Hq, Z.rem_small by lia.
  destruct (decide (Z.of_nat i < 0)%Z); [lia|].
  by rewrite Nat2Z.id.
Qed.

Lemma floorDivMod_total (p u : R) (n : nat) :
  0 < u → 0 <= p → n ≠ 0%nat →
  ∃ i, Js.floorDivMod p u n = Some i ∧ (i < n)%nat.
Proof.
  intros Hu Hp Hn. unfold Js.floorDivMod.
  destruct (decide (n = 0%nat)); [done|].
  assert (Hq : (0 <= Int_part (p / u))%Z).
  { destruct (base_Int_part (p / u)) as [_ Hgt].
    assert (0 <= p / u) by (apply Rmult_le_pos; [lra|left; by apply Rinv_0_lt_compat]).
    assert (-1 < IZR (Int_part (p / u))) as Hx%lt_IZR by lra. lia. }
  assert (Hn0 : (0 < Z.of_nat n)%Z) by lia.
  pose proof (Z.rem_bound_pos (Int_part (p / u)) (Z.of_nat n) Hq Hn0) as [Hr0 Hr1].
  destruct (decide _); [lia|].
  eexists; split; [done|lia].
Qed.

Lemma floorDivMod_inv (p u : R) (n i : nat) :
  0 < u → 0 <= p < INR n * u → Js.floorDivMod p u n = Some i →
  (i < n)%nat ∧ INR i * u <= p < (INR i + 1) * u.
Proof.
  intros Hu [Hp0 Hp1] Hi.
  destruct (base_Int_part (p / u)) as [Hle Hgt].
  assert (Hpu : p = p / u * u) by (field; lra).
  assert (0 <= p / u) by (apply Rmult_le_pos; [lra|left; by apply Rinv_0_lt_compat]).
  assert (p / u < INR n).
  { apply Rmult_lt_reg_r with u; [lra|]. by rewrite <- Hpu. }
  assert (Hq0 : (0 <= Int_part (p / u))%Z).
  { assert (-1 < IZR (Int_part (p / u))) as Hx%lt_IZR by lra. lia. }
  assert (Hq1 : (Int_part (p / u) < Z.of_nat n)%Z).
  { apply lt_IZR. rewrite <- INR_IZR_INZ. lra. }
  unfold Js.floorDivMod in Hi.
  destruct (decide (n = 0%nat)); [done|].
  rewrite Z.rem_small in Hi by lia.
  destruct (decide _); [done|]. injection Hi as <-.
  split; [lia|].
  rewrite INR_IZR_INZ, Z2Nat.id by lia.
  split.
  - rewrite Hpu at 2. apply Rmult_le_compat_r; lra.
  - rewrite Hpu at 1. apply Rmult_lt_compat_r; lra.
Qed.

(** ** First variant: one tick *)

Lemma v1_physics_range (inp : gmap string bool) (v : R) :
  0 <= v <= V1.MAX_SPEED → 0 <= V1.physics inp v <= V1.MAX_SPEED.
Proof.
  intros Hv. unfold V1.physics, V1.MAX_SPEED, V1.ACCELERATION, V1.BRAKING,
    V1.DECEL in *.
  destruct (V1.input_is inp "ArrowUp"), (V1.input_is inp "ArrowDown"); simpl;
    rcases; lra.
Qed.

(** Throttle and brake together: both are applied, the speed never rises. *)
Lemma v1_physics_both (inp : gmap string bool) (v : R) :
  V1.input_is inp "ArrowUp" = true → V1.input_is inp "ArrowDown" = true →
  0 <= v <= V1.MAX_SPEED →
  V1.physics inp v
  = Rmax (Rmin (v + V1.ACCELERATION) V1.MAX_SPEED - V1.BRAKING) 0 ∧
  V1.physics inp v <= v.
Proof.
  intros Hup Hdown Hv. unfold V1.physics. rewrite Hup, Hdown. simpl.
  split; [done|].
  unfold V1.MAX_SPEED, V1.ACCELERATION, V1.BRAKING in *. rcases; lra.
Qed.

Lemma v1_offroad_range (x v : R) :
  0 <= v → 0 <= V1.offroad x v <= v.
Proof.
  intros Hv. unfold V1.offroad, V1.OFFROAD_DECEL. destruct (decide _); lra.
Qed.

Lemma v1_advance_spec (p v tl : R) :
  0 <= p < tl → 0 <= v <= V1.MAX_SPEED → 600 <= tl →
  snd (V1.advance p v tl) = bool_decide (p + v >= tl) ∧
  fst (V1.advance p v tl) = (if bool_decide (p + v >= tl) then p + v - tl else p + v) ∧
  0 <= fst (V1.advance p v tl) < tl.
Proof.
  intros Hp Hv Htl. unfold V1.advance, V1.MAX_SPEED in *. cbn [fst snd].
  split; [done|].
  destruct (bool_decide_reflect (p + v >= tl)); destruct (decide _); lra.
Qed.

Lemma v1_demoAI_total (s : V1.State) (segs : list V1.Segment)
    (keys : gmap string bool) (i : nat) (seg : V1.Segment) :
  Js.floorDivMod (V1.position s) V1.SEGMENT_LENGTH (length segs) = Some i →
  segs !! i = Some seg →
  ∃ keys', V1.demoAI s segs keys = Some keys'.
Proof.
  intros Hi Hseg. unfold V1.demoAI. rewrite Hi. cbn [mbind option_bind].
  rewrite Hseg. cbn [mbind option_bind]. by eexists.
Qed.

Lemma v1_track_length_pos (e : V1.RideEngine) :
  ready e → 600 <= V1.trackLength (V1.state e).
Proof.
  intros [Hn ->]. unfold V1.SEGMENT_LENGTH.
  apply le_INR in Hn. simpl in Hn. lra.
Qed.

(** What [_update] computes once the effective input and the segment
    under the vehicle are known. *)
Lemma v1_update_eq (e : V1.RideEngine) (inp : gmap string bool) (i : nat)
    (seg : V1.Segment) :
  (if V1.demo (V1.state e)
   then V1.demoAI (V1.state e) (V1.segments e) (V1.input e)
   else Some (V1.input e)) = Some inp →
  Js.floorDivMod (V1.position (V1.state e)) V1.SEGMENT_LENGTH
    (length (V1.segments e)) = Some i →
  V1.segments e !! i = Some seg →
  let s := V1.state e in
  let x' := V1.steering inp seg (V1.x s) (V1.physics inp (V1.speed s)) in
  let v := V1.offroad x' (V1.physics inp (V1.speed s)) in
  let moved := V1.advance (V1.position s) v (V1.trackLength s) in
  V1._update e
  = Some (V1.mkEngine (V1.segments e) (V1.corners e)
            (V1.mkState (fst moved) v x' (V1.cornerIndex seg)
               (if decide (0 < V1.hintTimer s)%nat then V1.showHints s else false)
               (V1.demo s) (V1.trackLength s) (Nat.pred (V1.hintTimer s)))
            inp (V1.rafId e) (V1.running e) (V1.onCornerEntered e)
            (V1.onLapComplete e),
          (if snd moved && V1.onLapComplete e then [LapComplete] else [])
          ++ V1.cornerDetection (V1.corners e) (V1.onCornerEntered e)
               (V1.currentCorner s) (V1.cornerIndex seg)).
Proof.
  intros Hinp Hi Hseg. unfold V1._update.
  rewrite Hinp. cbn [mbind option_bind].
  rewrite Hi. cbn [mbind option_bind].
  rewrite Hseg. reflexivity.
Qed.

(** One tick, spelled out: the segment read, the speed after the tick,
    and what the tick leaves behind. *)
Lemma v1_update_shape (e : V1.RideEngine) :
  ready e → inRange e →
  ∃ i seg e' v,
    Js.floorDivMod (V1.position (V1.state e)) V1.SEGMENT_LENGTH
      (length (V1.segments e)) = Some i ∧
    V1.segments e !! i = Some seg ∧
    0 <= v <= V1.MAX_SPEED ∧
    let p := V1.position (V1.state e) + v in
    let tl := V1.trackLength (V1.state e) in
    V1._update e =
      Some (e',
            (if bool_decide (p >= tl) && V1.onLapComplete e
             then [LapComplete] else []) ++
            V1.cornerDetection (V1.corners e) (V1.onCornerEntered e)
              (V1.currentCorner (V1.state e)) (V1.cornerIndex seg)) ∧
    V1.segments e' = V1.segments e ∧
    V1.corners e' = V1.corners e ∧
    V1.onCornerEntered e' = V1.onCornerEntered e ∧
    V1.onLapComplete e' = V1.onLapComplete e ∧
    V1.trackLength (V1.state e') = tl ∧
    V1.demo (V1.state e') = V1.demo (V1.state e) ∧
    V1.speed (V1.state e') = v ∧
    V1.currentCorner (V1.state e') = V1.cornerIndex seg ∧
    V1.position (V1.state e') = (if bool_decide (p >= tl) then p - tl else p).
Proof.
  intros Hready [Hp Hv].
  pose proof (v1_track_length_pos e Hready) as Htl.
  destruct Hready as [Hn Hlen].
  destruct (floorDivMod_total (V1.position (V1.state e)) V1.SEGMENT_LENGTH
              (length (V1.segments e))) as (i & Hi & Hlt);
    [unfold V1.SEGMENT_LENGTH; lra | lra | lia |].
  destruct (lookup_lt_is_Some_2 (V1.segments e) i Hlt) as [seg Hseg].
  assert (Hinp : ∃ inp,
    (if V1.demo (V1.state e)
     then V1.demoAI (V1.state e) (V1.segments e) (V1.input e)
     else Some (V1.input e)) = Some inp).
  { destruct (V1.demo (V1.state e)); [|by eexists].
    by eapply v1_demoAI_total. }
  destruct Hinp as [inp Hinp].
  pose proof (v1_update_eq e inp i seg Hinp Hi Hseg) as Hup. cbv zeta in Hup.
  set (v0 := V1.physics inp (V1.speed (V1.state e))) in *.
  set (x' := V1.steering inp seg (V1.x (V1.state e)) v0) in *.
  set (v := V1.offroad x' v0) in *.
  pose proof (v1_physics_range inp _ Hv) as Hv0. fold v0 in Hv0.
  pose proof (v1_offroad_range x' v0 (proj1 Hv0)) as Hv1. fold v in Hv1.
  assert (Hvr : 0 <= v <= V1.MAX_SPEED) by lra.
  destruct (v1_advance_spec _ v _ Hp Hvr Htl) as (Hw & Hm & _).
  rewrite Hw in Hup.
  exists i, seg. eexists. exists v.
  split; [exact Hi|]. split; [exact Hseg|]. split; [exact Hvr|].
  cbv zeta. split; [exact Hup|].
  cbn [V1.segments V1.corners V1.onCornerEntered V1.onLapComplete V1.state
       V1.trackLength V1.demo V1.speed V1.currentCorner V1.position].
  repeat (split; [reflexivity|]). exact Hm.
Qed.

(** ** First variant: the corner plan of the built track *)

Lemma v1_plan_eq : V1.cornerPlan (V1.buildScenery V1.buildTrack) = v1_plan.
Proof. reflexivity. Qed.

Lemma v1_track_length : length (V1.buildScenery V1.buildTrack) = 474%nat.
Proof. reflexivity. Qed.

Lemma v1_plan_windows : windowsOk v1_plan = true.
Proof. vm_compute. reflexivity. Qed.

Lemma v1_plan_tail (i : nat) :
  (471 <= i < 474)%nat →
  v1_plan !! i = Some None ∧ V1.edges None (take (S i) v1_plan) = seq 1 12.
Proof.
  intros Hi.
  assert (i = 471 ∨ i = 472 ∨ i = 473)%nat as [-> | [-> | ->]] by lia;
    split; vm_compute; reflexivity.
Qed.

Lemma v1_plan_head :
  v1_plan !! 0%nat = Some None ∧ V1.edges None (take 1 v1_plan) = [].
Proof. split; vm_compute; reflexivity. Qed.

Lemma v1_plan_edges : V1.edges None v1_plan = seq 1 12.
Proof. vm_compute. reflexivity. Qed.

Lemma v1_plan_lookup (segs : list V1.Segment) (i : nat) (seg : V1.Segment) :
  segs = V1.buildScenery V1.buildTrack →
  segs !! i = Some seg →
  v1_plan !! i = Some (V1.cornerIndex seg).
Proof.
  intros Hs Hseg. rewrite <- v1_plan_eq, <- Hs. unfold V1.cornerPlan.
  rewrite list_lookup_fmap, Hseg. reflexivity.
Qed.

Lemma windowsOk_spec (C : list (option nat)) (j i : nat) (cj ci : option nat) :
  windowsOk C = true → (j <= i <= j + 3)%nat →
  C !! j = Some cj → C !! i = Some ci →
  V1.edges None (take (S i) C) = V1.edges None (take (S j) C) ++ V1.edge1 cj ci.
Proof.
  intros Hok Hji Hj Hi. unfold windowsOk in Hok.
  rewrite forallb_forall in Hok.
  assert (Hjl : (j < length C)%nat) by (by eapply lookup_lt_Some).
  specialize (Hok j). rewrite in_seq in Hok.
  assert (Hj0 : (0 <= j < 0 + length C)%nat) by (clear -Hjl; lia).
  specialize (Hok Hj0). rewrite forallb_forall in Hok.
  specialize (Hok (i - j)%nat). rewrite in_seq in Hok.
  assert (Hd : (0 <= i - j < 0 + 4)%nat) by (clear -Hji; lia).
  specialize (Hok Hd). unfold windowCheck in Hok.
  replace (j + (i - j))%nat with i in Hok by (clear -Hji; lia).
  rewrite Hj, Hi in Hok. by apply bool_decide_eq_true in Hok.
Qed.

Lemma v1_plan_window (j i : nat) (cj ci : option nat) :
  (j <= i <= j + 3)%nat →
  v1_plan !! j = Some cj → v1_plan !! i = Some ci →
  V1.edges None (take (S i) v1_plan)
  = V1.edges None (take (S j) v1_plan) ++ V1.edge1 cj ci.
Proof. apply windowsOk_spec, v1_plan_windows. Qed.

Lemma v1_edges_app (prev : option nat) (a b : list (option nat)) :
  V1.edges prev (a ++ b) = V1.edges prev a ++ V1.edges (default prev (last a)) b.
Proof.
  revert prev. induction a as [|c a IH]; intros prev; [done|].
  cbn [app V1.edges]. rewrite IH, <- app_assoc. do 2 f_equal.
  rewrite last_cons. by destruct (last a).
Qed.

Lemma v1_edges_take_prefix (C : list (option nat)) (n : nat) :
  ∃ k, V1.edges None (take n C) = take k (V1.edges None C).
Proof.
  exists (length (V1.edges None (take n C))).
  pose proof (v1_edges_app None (take n C) (drop n C)) as Happ.
  rewrite take_drop in Happ. by rewrite Happ, take_app_length.
Qed.

Lemma edge1_None (prev : option nat) : V1.edge1 prev None = [].
Proof. unfold V1.edge1. simpl. by rewrite andb_false_r. Qed.

Lemma v1_cornerDetection_edge (cornerData : list Corner) (prev cur : option nat) :
  V1.cornerDetection cornerData true prev cur
  = map (V1.announce cornerData) (V1.edge1 prev cur).
Proof.
  unfold V1.cornerDetection, V1.edge1. rewrite andb_true_r.
  destruct (bool_decide _ && Js.truthy _); reflexivity.
Qed.

Lemma INR_200_le_lt (a b : nat) (p : R) :
  INR a * 200 <= p → p < INR b * 200 → (a < b)%nat.
Proof. intros H1 H2. apply INR_lt. lra. Qed.

Lemma window_of_positions (j i : nat) (p : R) :
  INR j * 200 <= p < (INR j + 4) * 200 →
  INR i * 200 <= p < (INR i + 1) * 200 →
  (j <= i <= j + 3)%nat.
Proof.
  intros [Hjlo Hjhi] [Hilo Hihi]. split.
  - assert (j < S i)%nat; [|lia].
    apply (INR_200_le_lt _ _ _ Hjlo). rewrite S_INR. lra.
  - assert (i < j + 4)%nat; [|lia].
    apply (INR_200_le_lt _ _ _ Hilo). rewrite plus_INR. simpl. lra.
Qed.

(** ** First variant: the events of a run *)

Lemma booted_ready (cornerData : list Corner) (e : V1.RideEngine) :
  booted cornerData e → ready e.
Proof.
  intros (Hs & _ & _ & _ & Htl). split.
  - rewrite Hs, v1_track_length. lia.
  - rewrite Htl, Hs, v1_track_length. unfold V1.SEGMENT_LENGTH.
    rewrite (INR_lit 474 474) by reflexivity. lra.
Qed.

Lemma v1_frame_lapInv (cornerData : list Corner) (e : V1.RideEngine)
    (evs : list Event) :
  booted cornerData e → inRange e → lapInv cornerData e evs →
  ∃ e' evs', V1._update e = Some (e', evs') ∧
    booted cornerData e' ∧ inRange e' ∧ lapInv cornerData e' (evs ++ evs').
Proof.
  intros Hb Hr (laps & j & Hj & Hjpos & Hevs).
  pose proof (booted_ready _ _ Hb) as Hready.
  destruct (v1_update_shape e Hready Hr)
    as (i & seg & e' & v & Hi & Hseg & Hv & Hup & Hs' & Hc' & Hoc' & Hol' & Htl'
        & _ & Hv' & Hcur' & Hp').
  cbv zeta in Hup, Hp', Htl'.
  destruct Hb as (Hs & Hc & Hoc & Hol & Htl).
  destruct Hr as [[Hp0 Hp1] _].
  rewrite Htl in Hup, Hp', Htl', Hp1.
  rewrite Hoc, Hol, Hc, v1_cornerDetection_edge, andb_true_r in Hup.
  apply floorDivMod_inv in Hi as [Hilt Hipos];
    [| unfold V1.SEGMENT_LENGTH; lra
     | rewrite Hs, v1_track_length, (INR_lit 474 474) by reflexivity;
       unfold V1.SEGMENT_LENGTH; lra].
  unfold V1.SEGMENT_LENGTH in Hipos. rewrite Hs, v1_track_length in Hilt.
  pose proof (v1_plan_lookup _ i seg Hs Hseg) as Hplan.
  pose proof (window_of_positions j i _ Hjpos Hipos) as Hji.
  pose proof (v1_plan_window j i _ _ Hji Hj Hplan) as Hwin.
  exists e'. eexists. split; [exact Hup|].
  split.
  { unfold booted. rewrite Hs', Hc', Hoc', Hol', Htl'. auto. }
  unfold inRange, V1.MAX_SPEED in *. rewrite Hp', Hv', Htl'.
  destruct Hjpos as [Hjlo Hjhi]. destruct Hipos as [Hilo Hihi].
  destruct (bool_decide_reflect (V1.position (V1.state e) + v >= 94800)) as [Hw|Hw].
  - (* the tick that completes the lap *)
    assert (Hi3 : (471 <= i < 474)%nat).
    { split; [|exact Hilt]. assert (470 < i)%nat; [|lia].
      apply INR_lt. rewrite (INR_lit 470 470) by reflexivity. lra. }
    destruct (v1_plan_tail i Hi3) as [Hnone Htail].
    rewrite Hnone in Hplan. injection Hplan as Hplan.
    split; [lra|].
    destruct v1_plan_head as [Hhead Hnil].
    exists (S laps), 0%nat. rewrite Hcur', <- Hplan.
    split; [exact Hhead|]. split; [simpl; lra|].
    rewrite <- Hplan, edge1_None, app_nil_r in Hwin.
    rewrite Hevs, <- Hwin, Htail, edge1_None, Hnil. simpl map at 2.
    rewrite !app_nil_r.
    replace (S laps) with (laps + 1)%nat by lia.
    rewrite replicate_add, concat_app, <- app_assoc. f_equal.
  - split; [lra|].
    exists laps, i. rewrite Hcur'.
    split; [exact Hplan|]. split; [lra|].
    rewrite Hevs, Hwin, map_app, <- !app_assoc. reflexivity.
Qed.

Lemma v1_boot_segments (cornerData : list Corner) (onCorner onLap : bool) :
  V1.segments (V1.boot cornerData onCorner onLap) = V1.buildScenery V1.buildTrack.
Proof. reflexivity. Qed.

Lemma v1_boot_input (cornerData : list Corner) (onCorner onLap : bool) :
  V1.input (V1.boot cornerData onCorner onLap) = ∅.
Proof. reflexivity. Qed.

Lemma v1_boot_callbacks (cornerData : list Corner) (onCorner onLap : bool) :
  V1.corners (V1.boot cornerData onCorner onLap) = cornerData ∧
  V1.onCornerEntered (V1.boot cornerData onCorner onLap) = onCorner ∧
  V1.onLapComplete (V1.boot cornerData onCorner onLap) = onLap.
Proof. repeat split; reflexivity. Qed.

Lemma v1_boot_state (cornerData : list Corner) (onCorner onLap : bool) :
  V1.state (V1.boot cornerData onCorner onLap)
  = V1.mkState 0 0 0 None true false 94800 300.
Proof.
  change (V1.state (V1.boot cornerData onCorner onLap))
    with (V1.mkState 0 0 0 None true false
            (INR (length (V1.buildScenery V1.buildTrack)) * V1.SEGMENT_LENGTH) 300).
  rewrite v1_track_length, (INR_lit 474 474) by reflexivity.
  unfold V1.SEGMENT_LENGTH. f_equal. lra.
Qed.

Lemma v1_boot_ready (cornerData : list Corner) (onCorner onLap : bool) :
  ready (V1.boot cornerData onCorner onLap).
Proof.
  split.
  - rewrite v1_boot_segments, v1_track_length. lia.
  - rewrite v1_boot_state, v1_boot_segments, v1_track_length.
    rewrite (INR_lit 474 474) by reflexivity. unfold V1.SEGMENT_LENGTH.
    cbn [V1.trackLength]. lra.
Qed.

Lemma v1_boot_inRange (cornerData : list Corner) (onCorner onLap : bool) :
  inRange (V1.boot cornerData onCorner onLap).
Proof.
  unfold inRange. rewrite v1_boot_state. unfold V1.MAX_SPEED.
  cbn [V1.position V1.speed V1.trackLength]. lra.
Qed.

Lemma v1_boot_booted (cornerData : list Corner) :
  booted cornerData (V1.boot cornerData true true).
Proof.
  unfold booted. rewrite v1_boot_state, v1_boot_segments.
  destruct (v1_boot_callbacks cornerData true true) as (-> & -> & ->).
  repeat split; reflexivity.
Qed.

Lemma v1_boot_lapInv (cornerData : list Corner) :
  lapInv cornerData (V1.boot cornerData true true) [].
Proof.
  destruct v1_plan_head as [Hhead Hnil].
  exists 0%nat, 0%nat. rewrite v1_boot_state, Hnil.
  cbn [V1.currentCorner V1.position].
  split; [exact Hhead|]. split; [simpl; lra|reflexivity].
Qed.

Lemma v1_key_ready (a : V1.Action) (e : V1.RideEngine) :
  a ≠ V1.Frame → ready e → inRange e →
  ∃ e', V1.act a e = Some (e', []) ∧ ready e' ∧ inRange e' ∧
    V1.segments e' = V1.segments e ∧ V1.corners e' = V1.corners e ∧
    V1.onCornerEntered e' = V1.onCornerEntered e ∧
    V1.onLapComplete e' = V1.onLapComplete e ∧
    V1.trackLength (V1.state e') = V1.trackLength (V1.state e) ∧
    V1.position (V1.state e') = V1.position (V1.state e) ∧
    V1.speed (V1.state e') = V1.speed (V1.state e) ∧
    V1.currentCorner (V1.state e') = V1.currentCorner (V1.state e).
Proof.
  intros Ha Hr Hi. destruct a as [key|key|]; [| |done]; cbn [V1.act].
  - eexists; split; [reflexivity|]. unfold V1._onKeyDown.
    destruct (decide _);
      (split; [exact Hr|]; split; [exact Hi|]; repeat split; reflexivity).
  - eexists; split; [reflexivity|].
    split; [exact Hr|]; split; [exact Hi|]; repeat split; reflexivity.
Qed.

Lemma v1_act_inRange (a : V1.Action) (e : V1.RideEngine) :
  ready e → inRange e →
  ∃ e' evs, V1.act a e = Some (e', evs) ∧ ready e' ∧ inRange e' ∧
            V1.segments e' = V1.segments e.
Proof.
  intros Hr Hi.
  assert (a = V1.Frame ∨ a ≠ V1.Frame) as [->|Ha]
    by (destruct a; auto).
  - destruct (v1_update_shape e Hr Hi)
      as (i & seg & e' & v & _ & _ & Hv & Hup & Hs' & _ & _ & _ & Htl' & _ & Hv'
          & _ & Hp').
    cbv zeta in Hup, Hp', Htl'. exists e'. eexists. split; [exact Hup|].
    pose proof (v1_track_length_pos e Hr) as Htl.
    destruct Hr as [Hn Hlen]. destruct Hi as [[Hp0 Hp1] _].
    split; [split; rewrite ?Htl', Hs'; assumption|].
    split; [|exact Hs'].
    unfold inRange. rewrite Hp', Hv', Htl'. unfold V1.MAX_SPEED in *.
    destruct (bool_decide_reflect
                (V1.position (V1.state e) + v >= V1.trackLength (V1.state e)));
      lra.
  - destruct (v1_key_ready a e Ha Hr Hi) as (e' & Hact & Hr' & Hi' & Hs' & _).
    exists e', []. auto.
Qed.

Lemma v1_run_inRange (acts : list V1.Action) (e : V1.RideEngine) :
  ready e → inRange e →
  ∃ e' evs, V1.run acts e = Some (e', evs) ∧ ready e' ∧ inRange e' ∧
            V1.segments e' = V1.segments e.
Proof.
  revert e. induction acts as [|a acts IH]; intros e Hr Hi.
  - exists e, []. auto.
  - destruct (v1_act_inRange a e Hr Hi) as (e1 & evs1 & Hact & Hr1 & Hi1 & Hs1).
    destruct (IH e1 Hr1 Hi1) as (e2 & evs2 & Hrun & Hr2 & Hi2 & Hs2).
    exists e2, (evs1 ++ evs2). cbn [V1.run]. rewrite Hact.
    cbn [mbind option_bind]. rewrite Hrun. cbn [mbind option_bind].
    rewrite Hs2, Hs1. auto.
Qed.

Lemma v1_act_lapInv (cornerData : list Corner) (a : V1.Action)
    (e : V1.RideEngine) (evs : list Event) :
  booted cornerData e → inRange e → lapInv cornerData e evs →
  ∃ e' evs', V1.act a e = Some (e', evs') ∧
    booted cornerData e' ∧ inRange e' ∧ lapInv cornerData e' (evs ++ evs').
Proof.
  intros Hb Hi Hl.
  assert (a = V1.Frame ∨ a ≠ V1.Frame) as [->|Ha]
    by (destruct a; auto).
  - by apply v1_frame_lapInv.
  - destruct (v1_key_ready a e Ha (booted_ready _ _ Hb) Hi)
      as (e' & Hact & _ & Hi' & Hs & Hc & Hoc & Hol & Htl & Hp & _ & Hcur).
    exists e', []. split; [exact Hact|]. split; [|split; [exact Hi'|]].
    + unfold booted in *. rewrite Hs, Hc, Hoc, Hol, Htl. exact Hb.
    + destruct Hl as (laps & j & Hj & Hpos & Hevs).
      exists laps, j. rewrite Hcur, Hp, app_nil_r. auto.
Qed.

Lemma v1_run_lapInv (cornerData : list Corner) (acts : list V1.Action)
    (e : V1.RideEngine) (evs0 : list Event) :
  booted cornerData e → inRange e → lapInv cornerData e evs0 →
  ∃ e' evs, V1.run acts e = Some (e', evs) ∧
    booted cornerData e' ∧ inRange e' ∧ lapInv cornerData e' (evs0 ++ evs).
Proof.
  revert e evs0. induction acts as [|a acts IH]; intros e evs0 Hb Hi Hl.
  - exists e, []. rewrite app_nil_r. auto.
  - destruct (v1_act_lapInv cornerData a e evs0 Hb Hi Hl)
      as (e1 & evs1 & Hact & Hb1 & Hi1 & Hl1).
    destruct (IH e1 (evs0 ++ evs1) Hb1 Hi1 Hl1)
      as (e2 & evs2 & Hrun & Hb2 & Hi2 & Hl2).
    exists e2, (evs1 ++ evs2). cbn [V1.run]. rewrite Hact.
    cbn [mbind option_bind]. rewrite Hrun. cbn [mbind option_bind].
    rewrite app_assoc. auto.
Qed.

Lemma v1_corner_events_in_track_order (cornerData : list Corner)
    (acts : list V1.Action) :
  ∃ e evs laps k,
    V1.run acts (V1.boot cornerData true true) = Some (e, evs) ∧
    (k <= 12)%nat ∧
    evs = concat (replicate laps (V1.lapEvents cornerData))
          ++ take k (V1.lapEvents cornerData).
Proof.
  destruct (v1_run_lapInv cornerData acts _ [] (v1_boot_booted cornerData)
              (v1_boot_inRange cornerData true true) (v1_boot_lapInv cornerData))
    as (e & evs & Hrun & _ & _ & laps & j & _ & _ & Hevs).
  destruct (v1_edges_take_prefix v1_plan (S j)) as [k Hk].
  rewrite v1_plan_edges in Hk.
  exists e, evs, laps, (k `min` 12)%nat. split; [exact Hrun|]. split; [lia|].
  rewrite app_nil_l in Hevs. rewrite Hevs, Hk. f_equal.
  unfold V1.lapEvents. rewrite take_app_le by (rewrite length_map, length_seq; lia).
  rewrite <- fmap_take.
  replace (take (k `min` 12) (seq 1 12)) with (take k (seq 1 12)); [reflexivity|].
  destruct (decide (k <= 12)%nat) as [Hle|Hgt].
  - by rewrite Nat.min_l.
  - rewrite Nat.min_r by lia. rewrite !take_ge; [reflexivity|rewrite length_seq; lia..].
Qed.

(** ** Second variant: the built track *)

Lemma v2_push_fold (random : nat → R) (zone : V2.Zone) (idxs : list nat)
    (segments : list V2.Segment) (id draws : nat) :
  ∃ new draws',
    fold_left (V2.pushSegment random zone) idxs (segments, id, draws)
    = (segments ++ new, (id + length idxs)%nat, draws') ∧
    map shape new = map (λ i, (V2.zoneCurve zone i, V2.zoneCorner zone)) idxs ∧
    Forall (λ seg, V2.objects seg = []) new.
Proof.
  revert segments id draws. induction idxs as [|i idxs IH]; intros segments id draws.
  - exists [], draws. simpl. by rewrite app_nil_r, Nat.add_0_r.
  - cbn [fold_left]. unfold V2.pushSegment at 2.
    destruct (V2.isCorner zone && bool_decide (i < 10)%nat).
    + destruct (IH (segments ++
        [V2.mkSegment id (V2.zoneCurve zone i) (V2.zoneCorner zone)
           ((S id / V2.RUMBLE_LENGTH) mod 2)%nat
           (bool_decide (random draws < 0.3)) []]) (S id) (S draws))
        as (new & draws' & -> & Hshape & Hobj).
      eexists (_ :: new), draws'. rewrite <- app_assoc. simpl.
      split; [f_equal; f_equal; lia|]. split; [by rewrite Hshape|].
      by constructor.
    + destruct (IH (segments ++
        [V2.mkSegment id (V2.zoneCurve zone i) (V2.zoneCorner zone)
           ((S id / V2.RUMBLE_LENGTH) mod 2)%nat false []]) (S id) draws)
        as (new & draws' & -> & Hshape & Hobj).
      eexists (_ :: new), draws'. rewrite <- app_assoc. simpl.
      split; [f_equal; f_equal; lia|]. split; [by rewrite Hshape|].
      by constructor.
Qed.

Lemma v2_build_fold (random : nat → R) (zones : list V2.Zone)
    (segments : list V2.Segment) (id draws : nat) :
  ∃ new id' draws',
    fold_left (λ st zone,
                 fold_left (V2.pushSegment random zone)
                   (seq 0 (Z.to_nat (V2.len zone))) st)
      zones (segments, id, draws)
    = (segments ++ new, id', draws') ∧
    id' = (id + length new)%nat ∧
    map shape new = trackShape zones ∧
    Forall (λ seg, V2.objects seg = []) new.
Proof.
  revert segments id draws.
  induction zones as [|zone zones IH]; intros segments id draws.
  - exists [], id, draws. simpl. rewrite app_nil_r. repeat split; [lia|done].
  - cbn [fold_left].
    destruct (v2_push_fold random zone (seq 0 (Z.to_nat (V2.len zone)))
                segments id draws) as (new1 & draws1 & -> & Hs1 & Ho1).
    destruct (IH (segments ++ new1)
                (id + length (seq 0 (Z.to_nat (V2.len zone))))%nat draws1)
      as (new2 & id2 & draws2 & -> & Hid & Hs2 & Ho2).
    exists (new1 ++ new2), id2, draws2. rewrite <- app_assoc.
    split; [done|]. split.
    + rewrite Hid, length_app. apply (f_equal length) in Hs1.
      rewrite !length_map in Hs1. lia.
    + split; [|by apply Forall_app].
      unfold trackShape. cbn [flat_map]. rewrite map_app, Hs1, Hs2. done.
Qed.

Lemma v2_populate_shape (random : nat → R) (id i : nat)
    (segments : list V2.Segment) (draws : nat) :
  map shape (V2.populate random id i segments draws) = map shape segments.
Proof.
  revert i draws. induction segments as [|seg rest IH]; intros i draws; [done|].
  cbn [V2.populate]. unfold V2.populateSegment.
  destruct (bool_decide (i mod 8 = 0)%nat); cbn; by rewrite IH.
Qed.

Lemma v2_track_shape (zones : list V2.Zone) (random : nat → R) :
  map shape (V2.buildTrackFrom zones random) = trackShape zones.
Proof.
  unfold V2.buildTrackFrom, V2.buildSegments.
  destruct (v2_build_fold random zones [] 0%nat 0%nat)
    as (new & id & draws & -> & _ & Hshape & _).
  by rewrite v2_populate_shape.
Qed.

Lemma v2_zoneShape_length (zone : V2.Zone) :
  length (zoneShape zone) = Z.to_nat (V2.len zone).
Proof. unfold zoneShape. by rewrite length_map, length_seq. Qed.

Lemma v2_track_length (zones : list V2.Zone) (random : nat → R) :
  length (V2.buildTrackFrom zones random)
  = length (trackShape zones).
Proof. by rewrite <- (v2_track_shape zones random), length_map. Qed.


(** ** The sinusoidal ramp of a corner zone *)

Lemma v2_zoneCurve_0 (zone : V2.Zone) : V2.zoneCurve zone 0 = 0.
Proof.
  destruct zone as [l|l c id]; [done|]. simpl.
  unfold Rdiv. rewrite !Rmult_0_l, sin_0. lra.
Qed.

Lemma v2_trackShape_head (zones : list V2.Zone) (p : R * option nat)
    (rest : list (R * option nat)) :
  trackShape zones = p :: rest → p.1 = 0.
Proof.
  induction zones as [|zone zones IH]; [done|].
  unfold trackShape. cbn [flat_map]. unfold zoneShape at 1.
  destruct (Z.to_nat (V2.len zone)) as [|n].
  - exact IH.
  - cbn. intros [= <- _]. apply v2_zoneCurve_0.
Qed.

Lemma v2_trackShape_app (zones1 zones2 : list V2.Zone) :
  trackShape (zones1 ++ zones2) = trackShape zones1 ++ trackShape zones2.
Proof. unfold trackShape. by rewrite flat_map_app. Qed.

Lemma v2_trackShape_cons (zone : V2.Zone) (zones : list V2.Zone) :
  trackShape (zone :: zones) = zoneShape zone ++ trackShape zones.
Proof. reflexivity. Qed.

Lemma v2_lookup_shape (zones : list V2.Zone) (random : nat → R) (k : nat)
    (p : R * option nat) :
  trackShape zones !! k = Some p →
  ∃ seg, V2.buildTrackFrom zones random !! k = Some seg ∧
         V2.curve seg = p.1 ∧ V2.cornerIndex seg = p.2.
Proof.
  rewrite <- (v2_track_shape zones random), list_lookup_fmap.
  destruct (V2.buildTrackFrom zones random !! k) as [seg|]; [|done].
  intros [= <-]. by exists seg.
Qed.

(** The angle [t * PI] of segment [i] in a zone of [l] segments. *)
Lemma v2_ramp_angle (i : nat) (l : Z) :
  (i < Z.to_nat l)%nat →
  0 <= INR i / IZR l * PI < PI ∧ ((0 < i)%nat → 0 < INR i / IZR l * PI).
Proof.
  intros Hi. assert (Hl : (0 < l)%Z) by lia.
  assert (0 < IZR l) by (by apply IZR_lt).
  assert (INR i < IZR l).
  { rewrite INR_IZR_INZ. apply IZR_lt. lia. }
  pose proof (pos_INR i). pose proof PI_RGT_0.
  assert (0 <= INR i / IZR l).
  { apply Rmult_le_pos; [done|]. left. by apply Rinv_0_lt_compat. }
  assert (INR i / IZR l < 1).
  { apply Rmult_lt_reg_r with (IZR l); [done|].
    unfold Rdiv. rewrite Rmult_assoc, Rinv_l by lra. lra. }
  split; [split; nra|].
  intros Hpos. apply Rmult_lt_0_compat; [|done].
  apply Rmult_lt_0_compat; [|by apply Rinv_0_lt_compat].
  apply (lt_INR 0). lia.
Qed.

Lemma v2_ramp_rises (i j : nat) (l : Z) :
  (i <= j)%nat → (2 * Z.of_nat j <= l)%Z → (j < Z.to_nat l)%nat →
  sin (INR i / IZR l * PI) <= sin (INR j / IZR l * PI).
Proof.
  intros Hij Hj Hjl.
  assert (Hl : (0 < l)%Z) by lia.
  assert (0 < IZR l) by (by apply IZR_lt).
  pose proof PI_RGT_0.
  assert (Hinv : 0 < / IZR l) by (by apply Rinv_0_lt_compat).
  assert (Hle : INR i <= INR j) by (by apply le_INR).
  assert (H2j : 2 * INR j <= IZR l).
  { rewrite INR_IZR_INZ, <- mult_IZR. by apply IZR_le. }
  pose proof (pos_INR i).
  assert (Hji : INR i / IZR l <= INR j / IZR l).
  { unfold Rdiv. apply Rmult_le_compat_r; lra. }
  assert (Hhalf : INR j / IZR l <= 1 / 2).
  { apply Rmult_le_reg_r with (IZR l); [done|].
    unfold Rdiv. rewrite Rmult_assoc, Rinv_l by lra. lra. }
  assert (0 <= INR i / IZR l).
  { apply Rmult_le_pos; lra. }
  apply sin_incr_1; nra.
Qed.


Lemma v2_zone_lookup (random : nat → R) (pre post : list V2.Zone)
    (zone : V2.Zone) (i : nat) :
  (i < Z.to_nat (V2.len zone))%nat →
  ∃ seg,
    V2.buildTrackFrom (pre ++ zone :: post) random
      !! (length (V2.buildTrackFrom pre random) + i)%nat = Some seg ∧
    V2.curve seg = V2.zoneCurve zone i ∧
    V2.cornerIndex seg = V2.zoneCorner zone.
Proof.
  intros Hi.
  apply (v2_lookup_shape _ random _ (V2.zoneCurve zone i, V2.zoneCorner zone)).
  rewrite v2_track_length, v2_trackShape_app, lookup_app_r by lia.
  replace (length (trackShape pre) + i - length (trackShape pre))%nat with i by lia.
  rewrite v2_trackShape_cons.
  rewrite lookup_app_l by (rewrite v2_zoneShape_length; lia).
  unfold zoneShape. rewrite list_lookup_fmap, lookup_seq_lt by lia. done.
Qed.

Lemma v2_after_zone (random : nat → R) (pre post : list V2.Zone)
    (zone : V2.Zone) :
  (0 < Z.to_nat (V2.len zone))%nat →
  let track := V2.buildTrackFrom (pre ++ zone :: post) random in
  ∃ next,
    track !! ((length (V2.buildTrackFrom pre random)
               + Z.to_nat (V2.len zone)) mod length track)%nat = Some next ∧
    V2.curve next = 0.
Proof.
  intros Hn track. subst track.
  set (zones := pre ++ zone :: post).
  assert (Hlen : length (V2.buildTrackFrom zones random)
                 = (length (trackShape pre) + Z.to_nat (V2.len zone)
                    + length (trackShape post))%nat).
  { rewrite v2_track_length. subst zones.
    rewrite v2_trackShape_app, v2_trackShape_cons, !length_app,
      v2_zoneShape_length. lia. }
  rewrite Hlen, (v2_track_length pre).
  destruct (trackShape post) as [|p rest] eqn:Hpost.
  - simpl length. rewrite Nat.add_0_r, Nat.Div0.mod_same.
    destruct (trackShape zones) as [|q rest] eqn:Hz.
    { apply (f_equal length) in Hz. rewrite <- v2_track_length with (random := random) in Hz.
      simpl in Hz. lia. }
    destruct (v2_lookup_shape zones random 0 q) as (next & Hnext & Hc & _);
      [by rewrite Hz|].
    exists next. split; [done|]. rewrite Hc. by eapply v2_trackShape_head.
  - rewrite Nat.mod_small by (simpl; lia).
    destruct (v2_lookup_shape zones random
                (length (trackShape pre) + Z.to_nat (V2.len zone)) p)
      as (next & Hnext & Hc & _).
    { subst zones. rewrite v2_trackShape_app, v2_trackShape_cons.
      rewrite lookup_app_r by lia. rewrite lookup_app_r by (rewrite v2_zoneShape_length; lia).
      rewrite v2_zoneShape_length, Hpost.
      replace (_ - _ - _)%nat with 0%nat by lia. done. }
    exists next. split; [done|]. rewrite Hc. by eapply v2_trackShape_head.
Qed.


(** ** Second variant: one tick *)

Lemma v2_lookup_total (e : V2.RideEngine) :
  V2.segments e ≠ [] → 0 <= V2.position (V2.state e) →
  ∃ seg, V2.lookupSegment e = Some seg.
Proof.
  intros Hne Hp. unfold V2.lookupSegment.
  destruct (floorDivMod_total (V2.position (V2.state e)) V2.SEGMENT_LENGTH
              (length (V2.segments e))) as (i & -> & Hi);
    [unfold V2.SEGMENT_LENGTH; lra | exact Hp | by destruct (V2.segments e) |].
  cbn [mbind option_bind]. by apply lookup_lt_is_Some_2.
Qed.

Lemma v2_lookup_empty (e : V2.RideEngine) :
  V2.segments e = [] → V2.lookupSegment e = None.
Proof. intros He. unfold V2.lookupSegment, Js.floorDivMod. by rewrite He. Qed.

Lemma v2_human_speed (s : V2.State) (k : gmap string bool) :
  0 <= V2.speed s →
  0 <= snd (V2.humanControl s k) ∧
  (V2.speed s <= V2.MAX_SPEED → snd (V2.humanControl s k) <= V2.MAX_SPEED) ∧
  snd (V2.humanControl s k) <= Rmax (V2.speed s) V2.MAX_SPEED.
Proof.
  intros Hv. unfold V2.humanControl. cbn [snd].
  unfold V2.MAX_SPEED, V2.ACCELERATION, V2.BRAKING, V2.DECEL.
  destruct (Js.held k "ArrowUp"), (Js.held k "ArrowDown");
    unfold Rmin, Rmax; repeat destruct (Rle_dec _ _); lra.
Qed.

Lemma v2_demo_speed (s : V2.State) (seg : V2.Segment) :
  0 <= V2.speed s →
  0 <= snd (V2.demoControl s seg) ∧
  snd (V2.demoControl s seg)
    <= Rmax (V2.speed s) (V2.MAX_SPEED + V2.ACCELERATION).
Proof.
  intros Hv. unfold V2.demoControl, V2.targetSpeed. cbn [snd].
  unfold V2.MAX_SPEED, V2.ACCELERATION, V2.BRAKING.
  unfold Rmax; repeat destruct (decide _); repeat destruct (Rle_dec _ _); lra.
Qed.

Lemma v2_offroad_range (x v : R) :
  0 <= v → 0 <= V2.offroad x v <= v.
Proof.
  intros Hv. unfold V2.offroad, V2.OFFROAD_DECEL. destruct (decide _); lra.
Qed.

(** What [update] computes once the control branch and the segment under
    the vehicle are known. *)
Lemma v2_update_eq (w : Window) (e : V2.RideEngine) (seg : V2.Segment) :
  V2.lookupSegment e = Some seg →
  let s := V2.state e in
  let ctl := if V2.demo s then V2.demoControl s seg
             else V2.humanControl s (V2.keys e) in
  let x' := V2.centrifugal seg (fst ctl) (snd ctl) in
  let v := V2.offroad x' (snd ctl) in
  let moved := V2.advance (V2.position s) v (V2.trackLength s) in
  V2.update w e
  = Some (V2.mkEngine (V2.segments e) (V2.corners e)
            (V2.mkState (fst moved) v x' (V2.cornerIndex seg)
               (V2.trackLength s) (V2.demo s))
            (V2.keys e) (V2.running e),
          if snd moved && appOnLapComplete w then [LapComplete] else []).
Proof.
  intros Hseg. unfold V2.update. rewrite Hseg.
  destruct (V2.demo (V2.state e)); reflexivity.
Qed.

(** One tick of the second variant, spelled out. *)
Lemma v2_update_shape (w : Window) (e : V2.RideEngine) :
  v2_alive e →
  ∃ seg e' v,
    V2.lookupSegment e = Some seg ∧
    0 <= v ∧
    v <= Rmax (V2.speed (V2.state e)) (V2.MAX_SPEED + V2.ACCELERATION) ∧
    (V2.demo (V2.state e) = false → V2.speed (V2.state e) <= V2.MAX_SPEED →
     v <= V2.MAX_SPEED) ∧
    let p := V2.position (V2.state e) + v in
    let tl := V2.trackLength (V2.state e) in
    V2.update w e
    = Some (e', if bool_decide (p > tl) && appOnLapComplete w
                then [LapComplete] else []) ∧
    V2.segments e' = V2.segments e ∧
    V2.corners e' = V2.corners e ∧
    V2.keys e' = V2.keys e ∧
    V2.trackLength (V2.state e') = tl ∧
    V2.demo (V2.state e') = V2.demo (V2.state e) ∧
    V2.speed (V2.state e') = v ∧
    V2.currentCorner (V2.state e') = V2.cornerIndex seg ∧
    V2.position (V2.state e') = (if bool_decide (p > tl) then p - tl else p).
Proof.
  intros (Hne & Hp & Hv).
  destruct (v2_lookup_total e Hne Hp) as [seg Hseg].
  pose proof (v2_update_eq w e seg Hseg) as Hup. cbv zeta in Hup.
  set (ctl := if V2.demo (V2.state e) then _ else _) in *.
  assert (Hctl : 0 <= snd ctl ∧
            snd ctl <= Rmax (V2.speed (V2.state e)) (V2.MAX_SPEED + V2.ACCELERATION) ∧
            (V2.demo (V2.state e) = false →
             V2.speed (V2.state e) <= V2.MAX_SPEED → snd ctl <= V2.MAX_SPEED)).
  { subst ctl. destruct (V2.demo (V2.state e)).
    - destruct (v2_demo_speed (V2.state e) seg Hv) as [H0 H1].
      split; [exact H0|]. split; [exact H1|]. intros [=].
    - destruct (v2_human_speed (V2.state e) (V2.keys e) Hv) as (H0 & H1 & H2).
      split; [exact H0|]. split; [|intros _; exact H1].
      revert H2. unfold V2.MAX_SPEED, V2.ACCELERATION, Rmax.
      repeat destruct (Rle_dec _ _); lra. }
  destruct Hctl as (Hc0 & Hc1 & Hc2).
  set (x' := V2.centrifugal seg (fst ctl) (snd ctl)) in *.
  pose proof (v2_offroad_range x' (snd ctl) Hc0) as Hoff.
  set (v := V2.offroad x' (snd ctl)) in *.
  exists seg. eexists. exists v.
  split; [exact Hseg|]. split; [lra|]. split; [lra|].
  split; [intros Hd Hs; specialize (Hc2 Hd Hs); lra|].
  cbv zeta. split; [exact Hup|].
  cbn [V2.segments V2.corners V2.keys V2.state V2.trackLength V2.demo V2.speed
       V2.currentCorner V2.position].
  repeat (split; [reflexivity|]). reflexivity.
Qed.

Lemma v2_trackShape_length (zones : list V2.Zone) :
  length (trackShape zones)
  = list_sum (map (λ zone, Z.to_nat (V2.len zone)) zones).
Proof.
  induction zones as [|zone zones IH]; [done|].
  rewrite v2_trackShape_cons, length_app, v2_zoneShape_length, IH. done.
Qed.

Lemma v2_track_805_from (random : nat → R) :
  length (V2.buildTrackFrom V2.TRACK_ZONES random) = 805%nat.
Proof. rewrite v2_track_length, v2_trackShape_length. reflexivity. Qed.

Lemma v2_track_805 (random : nat → R) :
  length (V2.buildTrack random) = 805%nat.
Proof. unfold V2.buildTrack. apply v2_track_805_from. Qed.

Lemma v2_segment_at (random : nat → R) (n i k : nat) (zone : V2.Zone) :
  V2.TRACK_ZONES !! n = Some zone →
  (i < Z.to_nat (V2.len zone))%nat →
  (zoneOffset V2.TRACK_ZONES n + i)%nat = k →
  ∃ seg, V2.buildTrack random !! k = Some seg ∧
         V2.curve seg = V2.zoneCurve zone i ∧
         V2.cornerIndex seg = V2.zoneCorner zone.
Proof.
  intros Hn Hi <-.
  destruct (v2_zone_lookup random (take n V2.TRACK_ZONES)
              (drop (S n) V2.TRACK_ZONES) zone i Hi) as (seg & Hseg & Hc & Hid).
  rewrite take_drop_middle in Hseg by done.
  rewrite v2_track_length, v2_trackShape_length in Hseg.
  exists seg. split; [exact Hseg|]. split; [exact Hc|exact Hid].
Qed.

Lemma v2_bootFrom_segments (zones : list V2.Zone) (random : nat → R)
    (cornerData : list Corner) :
  V2.segments (V2.bootFrom zones random cornerData) = V2.buildTrackFrom zones random.
Proof. reflexivity. Qed.

Lemma v2_bootFrom_state (zones : list V2.Zone) (random : nat → R)
    (cornerData : list Corner) :
  V2.state (V2.bootFrom zones random cornerData)
  = V2.mkState 0 0 0 None
      (INR (length (V2.buildTrackFrom zones random)) * V2.SEGMENT_LENGTH) false.
Proof. reflexivity. Qed.

Lemma v2_bootFrom_keys (zones : list V2.Zone) (random : nat → R)
    (cornerData : list Corner) :
  V2.keys (V2.bootFrom zones random cornerData) = ∅.
Proof. reflexivity. Qed.

Lemma v2_boot_segments (random : nat → R) (cornerData : list Corner) :
  V2.segments (V2.boot random cornerData) = V2.buildTrack random.
Proof. apply v2_bootFrom_segments. Qed.

Lemma v2_boot_state (random : nat → R) (cornerData : list Corner) :
  V2.state (V2.boot random cornerData) = V2.mkState 0 0 0 None 161000 false.
Proof.
  unfold V2.boot. rewrite v2_bootFrom_state.
  rewrite v2_track_805_from.
  rewrite (INR_lit 805 805) by reflexivity.
  unfold V2.SEGMENT_LENGTH. f_equal. lra.
Qed.

Lemma v2_boot_keys (random : nat → R) (cornerData : list Corner) :
  V2.keys (V2.boot random cornerData) = ∅.
Proof. apply v2_bootFrom_keys. Qed.

(** The segment read at a position on the built track. *)
Lemma v2_lookup_at (random : nat → R) (e : V2.RideEngine)
    (n i k : nat) (zone : V2.Zone) :
  V2.segments e = V2.buildTrack random →
  V2.TRACK_ZONES !! n = Some zone →
  (i < Z.to_nat (V2.len zone))%nat →
  (zoneOffset V2.TRACK_ZONES n + i)%nat = k →
  INR k * 200 <= V2.position (V2.state e) < (INR k + 1) * 200 →
  ∃ seg, V2.lookupSegment e = Some seg ∧
         V2.curve seg = V2.zoneCurve zone i ∧
         V2.cornerIndex seg = V2.zoneCorner zone.
Proof.
  intros Hs Hn Hi Hk Hp.
  destruct (v2_segment_at random n i k zone Hn Hi Hk) as (seg & Hseg & Hc).
  exists seg. split; [|exact Hc]. unfold V2.lookupSegment.
  rewrite Hs, v2_track_805.
  rewrite (floorDivMod_at _ _ _ k);
    [exact Hseg | unfold V2.SEGMENT_LENGTH; lra | | exact Hp].
  apply lookup_lt_Some in Hseg. rewrite v2_track_805 in Hseg. exact Hseg.
Qed.


Lemma v2_held_insert (keys : gmap string bool) (key k : string) (b : bool) :
  Js.held (<[key := b]> keys) k
  = if decide (key = k) then b else Js.held keys k.
Proof.
  unfold Js.held. destruct (decide (key = k)) as [->|Hne].
  - rewrite lookup_insert_eq. destruct b; reflexivity.
  - rewrite lookup_insert_ne by exact Hne. reflexivity.
Qed.

(** A human tick with only the throttle held, on the road and short of
    the end of the lap. *)
Lemma v2_throttle_tick (w : Window) (e : V2.RideEngine) (seg : V2.Segment) :
  V2.lookupSegment e = Some seg →
  V2.demo (V2.state e) = false →
  Js.held (V2.keys e) "ArrowUp" = true →
  Js.held (V2.keys e) "ArrowLeft" = false →
  Js.held (V2.keys e) "ArrowRight" = false →
  let s := V2.state e in
  let v := V2.speed s + V2.ACCELERATION in
  let x' := V2.x s - V2.curve seg * V2.CENTRIFUGAL * (v / V2.MAX_SPEED) * 0.01 in
  v <= V2.MAX_SPEED →
  Rabs x' <= 1 →
  V2.position s + v <= V2.trackLength s →
  V2.update w e
  = Some (V2.mkEngine (V2.segments e) (V2.corners e)
            (V2.mkState (V2.position s + v) v x' (V2.cornerIndex seg)
               (V2.trackLength s) false)
            (V2.keys e) (V2.running e), []).
Proof.
  intros Hseg Hdemo Hup Hleft Hright s v x' Hv Hx Hp. subst s v x'.
  rewrite (v2_update_eq w e seg Hseg). cbv zeta.
  rewrite Hdemo. unfold V2.humanControl.
  rewrite Hup, Hleft, Hright. cbn [fst snd].
  rewrite Rmin_left by exact Hv.
  unfold V2.centrifugal, V2.offroad, V2.advance. cbn [fst snd].
  rewrite decide_False by lra.
  rewrite bool_decide_eq_false_2 by lra.
  reflexivity.
Qed.

(** The demo branch on a straight segment below top speed. *)
Lemma v2_demo_tick_straight (w : Window) (e : V2.RideEngine) (seg : V2.Segment) :
  V2.lookupSegment e = Some seg →
  V2.curve seg = 0 →
  V2.demo (V2.state e) = true →
  let s := V2.state e in
  V2.speed s < V2.MAX_SPEED →
  Rabs (V2.x s) <= 0.9 →
  V2.position s + V2.speed s + V2.ACCELERATION <= V2.trackLength s →
  ∃ e', V2.update w e = Some (e', []) ∧
        V2.speed (V2.state e') = V2.speed s + V2.ACCELERATION.
Proof.
  intros Hseg Hc Hdemo s Hv Hx Hp. subst s.
  rewrite (v2_update_eq w e seg Hseg). cbv zeta.
  rewrite Hdemo. unfold V2.demoControl, V2.targetSpeed, V2.centrifugal.
  rewrite Hc. cbn [fst snd].
  rewrite (decide_False (P := Rabs 0 > 1.0)) by (rewrite Rabs_R0; lra).
  rewrite (decide_True (P := V2.speed (V2.state e) < V2.MAX_SPEED)) by exact Hv.
  rewrite !Rmult_0_l, Rminus_0_r.
  set (x2 := if decide (_ > - 0 * 0.4) then _ else _).
  assert (Hx2 : Rabs x2 <= 1).
  { subst x2. revert Hx. unfold Rabs.
    repeat (destruct (Rcase_abs _) || destruct (decide _)); intros; lra. }
  unfold V2.offroad, V2.advance. cbn [fst snd].
  rewrite decide_False by lra.
  rewrite bool_decide_eq_false_2 by lra.
  eexists. split; reflexivity.
Qed.

(** ** Second variant: runs *)

Lemma v2_run_step (w : Window) (a : V2.Action) (rest : list V2.Action)
    (e e1 e2 : V2.RideEngine) (evs1 evs2 : list Event) :
  V2.act w a e = Some (e1, evs1) → V2.run w rest e1 = Some (e2, evs2) →
  V2.run w (a :: rest) e = Some (e2, evs1 ++ evs2).
Proof.
  intros Hact Hrun. cbn [V2.run]. rewrite Hact. cbn [mbind option_bind].
  rewrite Hrun. reflexivity.
Qed.

Lemma v2_run_app (w : Window) (a b : list V2.Action)
    (e e1 e2 : V2.RideEngine) (evs1 evs2 : list Event) :
  V2.run w a e = Some (e1, evs1) → V2.run w b e1 = Some (e2, evs2) →
  V2.run w (a ++ b) e = Some (e2, evs1 ++ evs2).
Proof.
  revert e evs1. induction a as [|x a IH]; intros e evs1 Ha Hb.
  - injection Ha as -> <-. exact Hb.
  - cbn [V2.run] in Ha.
    destruct (V2.act w x e) as [[e0 evs0]|] eqn:Hact; [|discriminate Ha].
    cbn [mbind option_bind] in Ha.
    destruct (V2.run w a e0) as [[e0' evs0']|] eqn:Hrun; [|discriminate Ha].
    cbn [mbind option_bind] in Ha. injection Ha as -> <-.
    rewrite <- app_assoc. cbn [app].
    apply (v2_run_step w x (a ++ b) e e0 e2 evs0 (evs0' ++ evs2) Hact).
    by apply IH.
Qed.

(** ** Second variant: the unclamped demo throttle *)

Lemma v2_zoneCurve_bound (zone : V2.Zone) (i : nat) :
  Rabs (V2.zoneCurve zone i) <= Rabs (peak zone).
Proof.
  destruct zone as [l|l c id]; simpl; [lra|].
  rewrite Rabs_mult. pose proof (Rabs_pos c).
  assert (Rabs (sin (INR i / IZR l * PI)) <= 1); [|nra].
  pose proof (SIN_bound (INR i / IZR l * PI)) as [H0 H1].
  unfold Rabs. destruct (Rcase_abs _); lra.
Qed.

Lemma v2_shape_bound (zones : list V2.Zone) (b : R) :
  Forall (λ zone, Rabs (peak zone) <= b) zones →
  Forall (λ p, Rabs (fst p) <= b) (trackShape zones).
Proof.
  induction 1 as [|zone zones Hz _ IH]; [constructor|].
  rewrite v2_trackShape_cons. apply Forall_app. split; [|exact IH].
  unfold zoneShape. apply Forall_fmap, Forall_forall. intros i _. simpl.
  pose proof (v2_zoneCurve_bound zone i). lra.
Qed.

Lemma v2_early_shape_bound :
  Forall (λ p, Rabs (fst p) <= 1.6) (trackShape (take 5 V2.TRACK_ZONES)).
Proof.
  apply v2_shape_bound. cbn [take V2.TRACK_ZONES].
  repeat constructor; simpl; unfold Rabs; destruct (Rcase_abs _); lra.
Qed.

Lemma v2_early_shape_length :
  length (trackShape (take 5 V2.TRACK_ZONES)) = 270%nat.
Proof. rewrite v2_trackShape_length. reflexivity. Qed.

Lemma v2_early_segment (random : nat → R) (i : nat) :
  (i < 270)%nat →
  ∃ seg, V2.buildTrackFrom V2.TRACK_ZONES random !! i = Some seg ∧
         Rabs (V2.curve seg) <= 1.6.
Proof.
  intros Hi.
  destruct (lookup_lt_is_Some_2 (trackShape (take 5 V2.TRACK_ZONES)) i)
    as [p Hp]; [rewrite v2_early_shape_length; exact Hi|].
  destruct (v2_lookup_shape V2.TRACK_ZONES random i p) as (seg & Hseg & Hc & _).
  { rewrite <- (take_drop 5 V2.TRACK_ZONES), v2_trackShape_app.
    rewrite lookup_app_l by (rewrite v2_early_shape_length; exact Hi).
    exact Hp. }
  exists seg. split; [exact Hseg|]. rewrite Hc.
  pose proof v2_early_shape_bound as Hb.
  rewrite Forall_forall in Hb. apply Hb. by eapply list_elem_of_lookup_2.
Qed.

(** On the first 270 segments (up to the end of the back straight) the
    curvature never exceeds that of T1. *)
Lemma v2_lookup_early (random : nat → R) (e : V2.RideEngine) :
  V2.segments e = V2.buildTrack random →
  0 <= V2.position (V2.state e) < 54000 →
  ∃ seg, V2.lookupSegment e = Some seg ∧ Rabs (V2.curve seg) <= 1.6.
Proof.
  intros Hs [Hp0 Hp1]. unfold V2.lookupSegment. rewrite Hs, v2_track_805.
  destruct (floorDivMod_total (V2.position (V2.state e)) V2.SEGMENT_LENGTH 805)
    as (i & Hi & Hlt); [unfold V2.SEGMENT_LENGTH; lra | exact Hp0 | lia |].
  rewrite Hi. cbn [mbind option_bind].
  apply floorDivMod_inv in Hi as [_ [Hlo _]];
    [| unfold V2.SEGMENT_LENGTH; lra
     | rewrite (INR_lit 805 805) by reflexivity; unfold V2.SEGMENT_LENGTH; lra].
  unfold V2.SEGMENT_LENGTH in Hlo.
  assert (Hi270 : (i < 270)%nat).
  { apply INR_lt. rewrite (INR_lit 270 270) by reflexivity. lra. }
  unfold V2.buildTrack. apply v2_early_segment, Hi270.
Qed.

Lemma v2_launch_step (random : nat → R) (w : Window) (m : nat)
    (e : V2.RideEngine) :
  launched random m e → (m < 140)%nat →
  ∃ e', V2.update w e = Some (e', []) ∧ launched random (S m) e'.
Proof.
  intros (Hs & Hup & Hleft & Hright & Hd & Htl & Hv & Hp & Hx) Hm140.
  assert (Hm : INR m <= 139).
  { rewrite <- (INR_lit 139 139) by reflexivity. apply le_INR. lia. }
  pose proof (pos_INR m) as Hm0.
  destruct (v2_lookup_early random e Hs) as (seg & Hseg & Hc);
    [rewrite Hp; nra|].
  assert (Hv' : V2.speed (V2.state e) + V2.ACCELERATION <= V2.MAX_SPEED).
  { rewrite Hv. unfold V2.ACCELERATION, V2.MAX_SPEED. lra. }
  set (x' := V2.x (V2.state e)
             - V2.curve seg * V2.CENTRIFUGAL
               * ((V2.speed (V2.state e) + V2.ACCELERATION) / V2.MAX_SPEED) * 0.01).
  assert (Hx' : Rabs x' <= 0.0056 * (INR m + 1)).
  { subst x'. rewrite Hv. unfold V2.ACCELERATION, V2.MAX_SPEED, V2.CENTRIFUGAL.
    revert Hx Hc. unfold Rabs.
    destruct (Rcase_abs (V2.x _)), (Rcase_abs (V2.curve seg)),
      (Rcase_abs (_ - _)); intros; nra. }
  assert (Hx1 : Rabs x' <= 1) by lra.
  assert (Hp' : V2.position (V2.state e) + (V2.speed (V2.state e) + V2.ACCELERATION)
                <= V2.trackLength (V2.state e)).
  { rewrite Hp, Hv, Htl. unfold V2.ACCELERATION. nra. }
  pose proof (v2_throttle_tick w e seg Hseg Hd Hup Hleft Hright Hv' Hx1 Hp') as Htick.
  eexists. split; [exact Htick|].
  unfold launched.
  cbn [V2.segments V2.keys V2.state V2.demo V2.trackLength V2.speed
       V2.position V2.x].
  rewrite S_INR. fold x'. rewrite Hp, Hv. unfold V2.ACCELERATION.
  split; [exact Hs|]. split; [exact Hup|]. split; [exact Hleft|].
  split; [exact Hright|]. split; [reflexivity|].
  split; [exact Htl|]. split; [lra|]. split; [lra|exact Hx'].
Qed.

Lemma v2_launch (random : nat → R) (w : Window) (n m : nat) (e : V2.RideEngine) :
  launched random m e → (m + n <= 140)%nat →
  ∃ e', V2.run w (replicate n V2.Frame) e = Some (e', []) ∧
        launched random (m + n) e'.
Proof.
  revert m e. induction n as [|n IH]; intros m e He Hmn.
  - exists e. rewrite Nat.add_0_r. split; [reflexivity|exact He].
  - destruct (v2_launch_step random w m e He) as (e1 & Hup & He1); [lia|].
    destruct (IH (S m) e1 He1) as (e' & Hrun & He'); [lia|].
    exists e'. split.
    + cbn [replicate]. apply (v2_run_step w V2.Frame _ e e1 e' [] [] Hup Hrun).
    + replace (m + S n)%nat with (S m + n)%nat by lia. exact He'.
Qed.

Lemma v2_grid_launched (random : nat → R) (cornerData : list Corner) :
  launched random 0 (V2.onKeyDown "ArrowUp" (V2.boot random cornerData)).
Proof.
  unfold launched, V2.onKeyDown.
  rewrite decide_False by (intros [H|H]; discriminate H).
  cbn [V2.segments V2.keys V2.state].
  rewrite v2_boot_state, v2_boot_segments, v2_boot_keys.
  cbn [V2.demo V2.trackLength V2.speed V2.position V2.x INR].
  rewrite Rabs_R0, !v2_held_insert.
  split; [reflexivity|]. split; [reflexivity|]. split; [reflexivity|].
  split; [reflexivity|]. split; [reflexivity|]. split; [reflexivity|].
  split; [lra|]. split; lra.
Qed.

(** After 140 frames of throttle the demo is switched on; its first tick
    on the back straight adds the acceleration without the clamp. *)
Lemma v2_demo_overshoot_tick (random : nat → R) (w : Window) (e1 : V2.RideEngine) :
  launched random 140 e1 →
  ∃ e3, V2.update w (V2.onKeyDown "d" e1) = Some (e3, []) ∧
        V2.speed (V2.state e3) = 451.2.
Proof.
  intros (Hs & _ & _ & _ & Hd & Htl & Hv & Hp & Hx).
  rewrite (INR_lit 140 140) in Hv, Hp, Hx by reflexivity.
  set (e2 := V2.onKeyDown "d" e1).
  assert (Hstate : V2.state e2
                   = V2.mkState (V2.position (V2.state e1)) (V2.speed (V2.state e1))
                       (V2.x (V2.state e1)) (V2.currentCorner (V2.state e1))
                       (V2.trackLength (V2.state e1)) true).
  { subst e2. unfold V2.onKeyDown.
    rewrite decide_True by (left; reflexivity).
    cbn [V2.state]. rewrite Hd. reflexivity. }
  assert (Hs2 : V2.segments e2 = V2.buildTrack random) by exact Hs.
  assert (Hzone : V2.TRACK_ZONES !! 4%nat = Some (V2.straight 140)) by reflexivity.
  assert (Hin : (27 < Z.to_nat (V2.len (V2.straight 140)))%nat)
    by (vm_compute; lia).
  assert (Hoff : (zoneOffset V2.TRACK_ZONES 4 + 27 = 157)%nat) by reflexivity.
  destruct (v2_lookup_at random e2 4 27 157 (V2.straight 140) Hs2 Hzone Hin Hoff)
    as (seg & Hseg & Hc & _).
  { rewrite Hstate. cbn [V2.position].
    rewrite Hp, (INR_lit 157 157) by reflexivity. lra. }
  destruct (v2_demo_tick_straight w e2 seg Hseg Hc) as (e3 & Hup & Hv3).
  - rewrite Hstate. reflexivity.
  - rewrite Hstate. cbn [V2.speed]. rewrite Hv. unfold V2.MAX_SPEED. lra.
  - rewrite Hstate. cbn [V2.x]. lra.
  - rewrite Hstate. cbn [V2.position V2.speed V2.trackLength].
    rewrite Hp, Hv, Htl. unfold V2.ACCELERATION. lra.
  - exists e3. split; [exact Hup|].
    rewrite Hstate in Hv3. cbn [V2.speed] in Hv3. rewrite Hv in Hv3.
    unfold V2.ACCELERATION in Hv3. rewrite Hv3. lra.
Qed.

Lemma v2_demo_overshoot (random : nat → R) (cornerData : list Corner)
    (w : Window) :
  ∃ e evs,
    V2.run w ([V2.KeyDown "ArrowUp"] ++ replicate 140 V2.Frame
              ++ [V2.KeyDown "d"; V2.Frame])
      (V2.boot random cornerData) = Some (e, evs) ∧
    V2.speed (V2.state e) = 451.2 ∧
    V2.MAX_SPEED < V2.speed (V2.state e).
Proof.
  destruct (v2_launch random w 140 0 _ (v2_grid_launched random cornerData))
    as (e1 & Hrun & He1); [lia|].
  destruct (v2_demo_overshoot_tick random w e1 He1) as (e3 & Hup & Hv3).
  exists e3. eexists. split.
  - eapply (v2_run_step w (V2.KeyDown "ArrowUp")); [reflexivity|].
    eapply (v2_run_app w); [exact Hrun|].
    eapply (v2_run_step w (V2.KeyDown "d")); [reflexivity|].
    eapply (v2_run_step w V2.Frame); [exact Hup|reflexivity].
  - rewrite Hv3. unfold V2.MAX_SPEED. split; lra.
Qed.

(** ** The demo driver: target speed *)

Lemma v1_targetSpeed_abs (c : R) :
  V1.targetSpeed c
  = if decide (Rabs c = 0) then V1.MAX_SPEED * 0.9
    else if decide (Rabs c > 2.5) then V1.MAX_SPEED * 0.22
    else if decide (Rabs c > 1.5) then V1.MAX_SPEED * 0.38
    else if decide (Rabs c > 0.5) then V1.MAX_SPEED * 0.55
    else V1.MAX_SPEED * 0.75.
Proof.
  unfold V1.targetSpeed.
  destruct (decide (c = 0)) as [->|Hc].
  - by rewrite Rabs_R0, decide_True.
  - rewrite (decide_False (P := Rabs c = 0)); [done|].
    by apply Rabs_no_R0.
Qed.

Lemma v1_targetSpeed_antitone (c1 c2 : R) :
  Rabs c1 <= Rabs c2 → V1.targetSpeed c2 <= V1.targetSpeed c1.
Proof.
  intros Hle. rewrite !v1_targetSpeed_abs. unfold V1.MAX_SPEED.
  pose proof (Rabs_pos c1). pose proof (Rabs_pos c2).
  repeat destruct (decide _); lra.
Qed.

Lemma v2_targetSpeed_antitone (c1 c2 : R) :
  Rabs c1 <= Rabs c2 → V2.targetSpeed c2 <= V2.targetSpeed c1.
Proof.
  intros Hle. unfold V2.targetSpeed, V2.MAX_SPEED.
  repeat destruct (decide _); lra.
Qed.

Lemma v2_targetSpeed_two_bands (c : R) :
  V2.targetSpeed c = 120 ∨ V2.targetSpeed c = V2.MAX_SPEED.
Proof. unfold V2.targetSpeed. destruct (decide _); auto. Qed.

(** The four arrow entries left by [demoAI] do not depend on the key map
    it was given. *)
Lemma v1_demoAI_forgets (s : V1.State) (segs : list V1.Segment)
    (keys1 keys2 : gmap string bool) (k : string) :
  k ∈ ["ArrowUp"; "ArrowDown"; "ArrowLeft"; "ArrowRight"] →
  (λ keys, V1.input_is keys k) <$> V1.demoAI s segs keys1
  = (λ keys, V1.input_is keys k) <$> V1.demoAI s segs keys2.
Proof.
  intros Hk. unfold V1.demoAI.
  destruct (Js.floorDivMod _ _ _) as [i|]; [|done]. cbn [mbind option_bind].
  destruct (segs !! i) as [seg|]; [|done]. cbn [mbind option_bind fmap option_fmap option_map].
  f_equal. unfold V1.input_is, Js.held.
  repeat (apply elem_of_cons in Hk as [->|Hk]); [| | | |by apply elem_of_nil in Hk];
    repeat destruct (decide _); by simplify_map_eq.
Qed.


(** ** Stopping the engine *)

Lemma removeEventListener_gone (ty : string) (l : Listener) (w : Window) :
  (ty, l) ∉ listeners (removeEventListener ty l w).
Proof.
  unfold removeEventListener. cbn [listeners withListeners].
  rewrite list_elem_of_filter. by intros [? _].
Qed.

Lemma removeEventListener_other (ty ty' : string) (l l' : Listener) (w : Window) :
  (ty, l) ∉ listeners w →
  (ty, l) ∉ listeners (removeEventListener ty' l' w).
Proof.
  intros Hn. unfold removeEventListener. cbn [listeners withListeners].
  rewrite list_elem_of_filter. by intros [_ ?].
Qed.

Lemma filter_twice {A : Type} (P Q : A → Prop)
    `{∀ a, Decision (P a)} `{∀ a, Decision (Q a)} (l : list A) :
  filter P (filter Q (filter P (filter Q l))) = filter P (filter Q l).
Proof.
  induction l as [|a l IH]; [done|].
  rewrite (filter_cons Q a). destruct (decide (Q a)) as [Hq|Hq]; [|done].
  rewrite (filter_cons P a). destruct (decide (P a)) as [Hp|Hp]; [|done].
  rewrite (filter_cons Q a), decide_True by done.
  rewrite (filter_cons P a), decide_True by done.
  by rewrite IH.
Qed.

Lemma filter_idem {A : Type} (P : A → Prop) `{∀ a, Decision (P a)}
    (l : list A) :
  filter P (filter P l) = filter P l.
Proof.
  induction l as [|a l IH]; [done|].
  rewrite (filter_cons P a). destruct (decide (P a)) as [Ha|Ha]; [|done].
  by rewrite (filter_cons P a), decide_True, IH.
Qed.

Lemma v1_stop_spec (e : V1.RideEngine) (w : Window) :
  V1.running (fst (V1.stop e w)) = false ∧
  (∀ h, V1.rafId e = Some (S h) → S h ∉ pendingFrames (snd (V1.stop e w))) ∧
  (("keydown", boundKeyDown) ∉ listeners (snd (V1.stop e w))) ∧
  (("keyup", boundKeyUp) ∉ listeners (snd (V1.stop e w))) ∧
  V1.stop (fst (V1.stop e w)) (snd (V1.stop e w)) = V1.stop e w ∧
  V1._loop (fst (V1.stop e w)) (snd (V1.stop e w))
  = Some ((fst (V1.stop e w)), (snd (V1.stop e w)), []).
Proof.
  unfold V1.stop. set (w1 := match V1.rafId e with Some (S h) => _ | _ => w end).
  cbn [fst snd].
  split; [done|]. split.
  { intros h Hh. cbn [pendingFrames removeEventListener withListeners].
    subst w1. rewrite Hh. cbn [pendingFrames cancelAnimationFrame].
    rewrite list_elem_of_filter. by intros [? _]. }
  split; [apply removeEventListener_other, removeEventListener_gone|].
  split; [apply removeEventListener_gone|].
  split; [|done].
  cbn [V1.rafId V1.segments V1.corners V1.state V1.input V1.onCornerEntered
       V1.onLapComplete]. f_equal.
  subst w1. destruct (V1.rafId e) as [[|h]|];
    unfold removeEventListener, withListeners, cancelAnimationFrame;
    cbn [listeners pendingFrames lastHandle closures appOnLapComplete];
    by rewrite ?filter_twice, ?filter_idem.
Qed.

Lemma v2_stop_spec (e : V2.RideEngine) (w : Window) :
  V2.running (fst (V2.stop e w)) = false ∧
  (snd (V2.stop e w)) = w ∧
  V2.stop (fst (V2.stop e w)) (snd (V2.stop e w)) = V2.stop e w ∧
  V2.loop (fst (V2.stop e w)) (snd (V2.stop e w))
  = Some ((fst (V2.stop e w)), (snd (V2.stop e w)), []).
Proof. done. Qed.

Lemma v2_init_listeners (zones : list V2.Zone) (random : nat → R)
    (cornerData : list Corner) :
  listeners (snd (V2.initFrom zones random cornerData V2.constructor V2.emptyWindow))
  = [("keydown", arrowKeyDown 0); ("keyup", arrowKeyUp 1)].
Proof. reflexivity. Qed.

Lemma v1_init_listeners (cornerData : list Corner) :
  listeners (snd (V1.init cornerData V1.constructor V1.emptyWindow))
  = [("keydown", boundKeyDown); ("keyup", boundKeyUp)].
Proof. reflexivity. Qed.

(** ** Construction never fails *)

Lemma v2_no_segments_iff (zones : list V2.Zone) :
  list_sum (map (λ zone, Z.to_nat (V2.len zone)) zones) = 0%nat
  ↔ Forall (λ zone, (V2.len zone <= 0)%Z) zones.
Proof.
  induction zones as [|zone zones IH]; [by split|].
  rewrite Forall_cons, <- IH. simpl. lia.
Qed.

Lemma v2_track_empty_iff (zones : list V2.Zone) (random : nat → R) :
  V2.buildTrackFrom zones random = [] ↔ Forall (λ zone, (V2.len zone <= 0)%Z) zones.
Proof.
  by rewrite <- length_zero_iff_nil, v2_track_length, v2_trackShape_length,
    v2_no_segments_iff.
Qed.

Lemma v2_key_alive (w : Window) (a : V2.Action) (e : V2.RideEngine) :
  a ≠ V2.Frame → v2_alive e →
  ∃ e', V2.act w a e = Some (e', []) ∧ v2_alive e' ∧
        V2.segments e' = V2.segments e.
Proof.
  intros Ha He. destruct a as [key|key|]; [| |done]; simpl.
  - eexists. split; [done|]. split; [|done].
    unfold V2.onKeyDown. destruct (decide _); exact He.
  - eexists. split; [done|]. split; [exact He|done].
Qed.

Lemma v2_act_alive (w : Window) (a : V2.Action) (e : V2.RideEngine) :
  v2_alive e →
  ∃ e' evs, V2.act w a e = Some (e', evs) ∧ v2_alive e' ∧
            (∀ c, CornerEntered c ∉ evs).
Proof.
  intros He.
  assert (a = V2.Frame ∨ a ≠ V2.Frame) as [->|Ha] by (destruct a; auto).
  - destruct (v2_update_shape w e He)
      as (seg & e' & v & _ & Hv & _ & _ & Hup & Hs & _ & _ & _ & _ & Hv' & _ & Hp).
    cbv zeta in Hup, Hp. exists e'. eexists. split; [exact Hup|].
    destruct He as (Hne & Hp0 & Hv0). split.
    + split; [by rewrite Hs|]. rewrite Hp, Hv'. split; [|done].
      destruct (bool_decide_reflect
                  (V2.position (V2.state e) + v > V2.trackLength (V2.state e)));
        lra.
    + intros c. destruct (_ && _); [|apply not_elem_of_nil].
      intros [=]%list_elem_of_singleton.
  - destruct (v2_key_alive w a e Ha He) as (e' & Hact & He' & _).
    exists e', []. split; [done|]. split; [done|]. intros c. apply not_elem_of_nil.
Qed.

Lemma v2_run_alive (w : Window) (acts : list V2.Action) (e : V2.RideEngine) :
  v2_alive e →
  ∃ e' evs, V2.run w acts e = Some (e', evs) ∧ v2_alive e' ∧
            (∀ c, CornerEntered c ∉ evs).
Proof.
  revert e. induction acts as [|a acts IH]; intros e He.
  - exists e, []. split; [done|]. split; [done|]. intros c. apply not_elem_of_nil.
  - destruct (v2_act_alive w a e He) as (e1 & evs1 & Hact & He1 & Hn1).
    destruct (IH e1 He1) as (e2 & evs2 & Hrun & He2 & Hn2).
    exists e2, (evs1 ++ evs2). simpl. rewrite Hact. simpl. rewrite Hrun.
    split; [done|]. split; [done|]. intros c.
    rewrite elem_of_app. intros [?|?]; [by eapply Hn1|by eapply Hn2].
Qed.

Lemma v2_bootFrom_alive (zones : list V2.Zone) (random : nat → R)
    (cornerData : list Corner) :
  V2.buildTrackFrom zones random ≠ [] →
  v2_alive (V2.bootFrom zones random cornerData).
Proof.
  intros Hne. split; [by rewrite v2_bootFrom_segments|].
  change (V2.state (V2.bootFrom zones random cornerData))
    with (V2.mkState 0 0 0 None
            (INR (length (V2.buildTrackFrom zones random)) * V2.SEGMENT_LENGTH)
            false).
  cbn [V2.position V2.speed]. lra.
Qed.

(** ** Scenery *)

Lemma v2_pushSegment_ext (r1 r2 : nat → R) (zone : V2.Zone)
    (st : list V2.Segment * nat * nat) (i : nat) :
  (∀ n, r1 n = r2 n) → V2.pushSegment r1 zone st i = V2.pushSegment r2 zone st i.
Proof.
  intros Hr. destruct st as [[segments id] draws]. unfold V2.pushSegment.
  by rewrite Hr.
Qed.

Lemma fold_left_ext {A B : Type} (f g : A → B → A) (l : list B) (a : A) :
  (∀ a b, f a b = g a b) → fold_left f l a = fold_left g l a.
Proof.
  intros Hfg. revert a. induction l as [|b l IH]; intros a; [done|].
  simpl. by rewrite Hfg, IH.
Qed.

Lemma v2_populate_ext (r1 r2 : nat → R) (id i : nat)
    (segments : list V2.Segment) (draws : nat) :
  (∀ n, r1 n = r2 n) →
  V2.populate r1 id i segments draws = V2.populate r2 id i segments draws.
Proof.
  intros Hr. revert i draws.
  induction segments as [|seg rest IH]; intros i draws; [done|].
  cbn [V2.populate]. unfold V2.populateSegment. rewrite !Hr.
  destruct (bool_decide (i mod 8 = 0)%nat); by rewrite IH.
Qed.

Lemma v2_same_draws_same_track (zones : list V2.Zone) (r1 r2 : nat → R) :
  (∀ n, r1 n = r2 n) → V2.buildTrackFrom zones r1 = V2.buildTrackFrom zones r2.
Proof.
  intros Hr. unfold V2.buildTrackFrom, V2.buildSegments.
  rewrite (fold_left_ext _
             (λ st zone, fold_left (V2.pushSegment r2 zone)
                           (seq 0 (Z.to_nat (V2.len zone))) st)).
  - destruct (fold_left _ zones _) as [[segments id] draws].
    by apply v2_populate_ext.
  - intros st zone. apply fold_left_ext. intros st' i.
    by apply v2_pushSegment_ext.
Qed.

Lemma v2_populate_kinds (r1 r2 : nat → R) (id i : nat)
    (segs1 segs2 : list V2.Segment) (d1 d2 : nat) :
  Forall2 (λ a b, V2.cornerIndex a = V2.cornerIndex b ∧ kinds a = kinds b)
    segs1 segs2 →
  map kinds (V2.populate r1 id i segs1 d1)
  = map kinds (V2.populate r2 id i segs2 d2).
Proof.
  intros Hsegs. revert i d1 d2.
  induction Hsegs as [|a b segs1 segs2 [Hc Hk] _ IH]; intros i d1 d2; [done|].
  cbn [V2.populate]. unfold V2.populateSegment. rewrite Hc.
  unfold kinds in Hk.
  destruct (bool_decide (i mod 8 = 0)%nat); cbn [map];
    (f_equal; [unfold kinds; cbn [V2.objects]; rewrite !map_app, Hk; done
              | apply IH]).
Qed.

Lemma v2_kinds_independent (zones : list V2.Zone) (r1 r2 : nat → R) :
  map kinds (V2.buildTrackFrom zones r1) = map kinds (V2.buildTrackFrom zones r2).
Proof.
  unfold V2.buildTrackFrom, V2.buildSegments.
  destruct (v2_build_fold r1 zones [] 0%nat 0%nat)
    as (new1 & id1 & draws1 & -> & Hid1 & Hs1 & Ho1).
  destruct (v2_build_fold r2 zones [] 0%nat 0%nat)
    as (new2 & id2 & draws2 & -> & Hid2 & Hs2 & Ho2).
  cbn [app].
  assert (Hlen : length new1 = length new2).
  { apply (f_equal length) in Hs1, Hs2. rewrite length_map in Hs1, Hs2. lia. }
  replace id2 with id1 by lia.
  apply v2_populate_kinds.
  apply Forall2_same_length_lookup. split; [done|].
  intros k a b Ha Hb. split.
  - assert (Hsa : map shape new1 !! k = Some (shape a))
      by (by rewrite list_lookup_fmap, Ha).
    assert (Hsb : map shape new2 !! k = Some (shape b))
      by (by rewrite list_lookup_fmap, Hb).
    rewrite Hs1 in Hsa. rewrite Hs2, Hsa in Hsb. by injection Hsb as _ ->.
  - unfold kinds. rewrite Forall_forall in Ho1, Ho2.
    rewrite (Ho1 a), (Ho2 b); [done|by eapply list_elem_of_lookup_2..].
Qed.

(** The objects on the start line of the second variant. *)
Lemma v2_start_line_objects (random : nat → R) :
  ∃ seg rest draws,
    V2.buildTrack random = seg :: rest ∧
    V2.objects seg
    = [V2.mkObj "tree"
         ((if decide (random draws > 0.5) then 1.8 else -1.8)
          + random (S draws) * 0.5);
       V2.mkObj "grandstand" (-2.5)].
Proof.
  unfold V2.buildTrack, V2.buildTrackFrom, V2.buildSegments.
  destruct (v2_build_fold random V2.TRACK_ZONES [] 0%nat 0%nat)
    as (new & id & draws & -> & Hid & Hs & Ho).
  cbn [app].
  destruct new as [|seg0 rest0].
  { apply (f_equal length) in Hs. rewrite v2_trackShape_length in Hs.
    discriminate Hs. }
  assert (Hshape : shape seg0 = (0, None)).
  { assert (H0 : trackShape V2.TRACK_ZONES !! 0%nat = Some (0, None))
      by reflexivity.
    rewrite <- Hs in H0. change (Some (shape seg0) = Some (0, None)) in H0.
    congruence. }
  injection Hshape as _ Hci.
  apply Forall_cons in Ho as [Hobj _].
  cbn [V2.populate]. unfold V2.populateSegment. rewrite Hci, Hobj.
  cbn. by eexists _, _, draws.
Qed.

Lemma v1_buildScenery_same (segs1 segs2 : list V1.Segment) :
  Forall2 sameScenery segs1 segs2 →
  Forall2 sameScenery (V1.buildScenery segs1) (V1.buildScenery segs2).
Proof.
  intros Hsame. unfold V1.buildScenery.
  rewrite <- (Forall2_length _ _ _ Hsame).
  set (totalSegs := Z.of_nat (length segs1)).
  assert (Hstep2 : ∀ (ol or : V1.Obj) (positions : list Z) (a b : list V1.Segment),
    Forall2 sameScenery a b →
    Forall2 sameScenery
      (fold_left (λ segs i,
         if decide (i < totalSegs)%Z then
           alter (V1.setRight or) (Z.to_nat i)
             (alter (V1.setLeft ol) (Z.to_nat i) segs)
         else segs) positions a)
      (fold_left (λ segs i,
         if decide (i < totalSegs)%Z then
           alter (V1.setRight or) (Z.to_nat i)
             (alter (V1.setLeft ol) (Z.to_nat i) segs)
         else segs) positions b)).
  { intros ol or positions. induction positions as [|i positions IH];
      intros a b Hab; [done|].
    cbn [fold_left]. apply IH. destruct (decide _); [|done].
    apply Forall2_alter; [apply Forall2_alter; [done|]|];
      intros x y _ _ [Hl Hr]; by split. }
  assert (Hstep1 : ∀ (ol : V1.Obj) (positions : list Z) (a b : list V1.Segment),
    Forall2 sameScenery a b →
    Forall2 sameScenery
      (fold_left (λ segs i,
         if decide (i < totalSegs ∧ i >= 0)%Z then
           alter (V1.setLeft ol) (Z.to_nat i) segs
         else segs) positions a)
      (fold_left (λ segs i,
         if decide (i < totalSegs ∧ i >= 0)%Z then
           alter (V1.setLeft ol) (Z.to_nat i) segs
         else segs) positions b)).
  { intros ol positions. induction positions as [|i positions IH];
      intros a b Hab; [done|].
    cbn [fold_left]. apply IH. destruct (decide _); [|done].
    apply Forall2_alter; [done|]. intros x y _ _ [Hl Hr]; by split. }
  apply Hstep2, Hstep1, Hstep2, Hsame.
Qed.

(** ** Keys written by the demo driver *)

Lemma v1_grid_segment :
  ∃ seg, V1.buildScenery V1.buildTrack !! 0%nat = Some seg ∧
         V1.curve seg = 0 ∧ V1.cornerIndex seg = None.
Proof. eexists. split; [vm_compute; reflexivity|]. split; reflexivity. Qed.

Lemma v1_update_input (e e' : V1.RideEngine) (evs : list Event) :
  V1._update e = Some (e', evs) →
  (if V1.demo (V1.state e)
   then V1.demoAI (V1.state e) (V1.segments e) (V1.input e)
   else Some (V1.input e)) = Some (V1.input e') ∧
  V1.demo (V1.state e') = V1.demo (V1.state e).
Proof.
  intros Hup.
  destruct (if V1.demo (V1.state e) then _ else _) as [inp|] eqn:Hinp;
    [|unfold V1._update in Hup; rewrite Hinp in Hup; discriminate Hup].
  destruct (Js.floorDivMod (V1.position (V1.state e)) V1.SEGMENT_LENGTH
              (length (V1.segments e))) as [i|] eqn:Hi;
    [|unfold V1._update in Hup; rewrite Hinp in Hup;
      cbn [mbind option_bind] in Hup; rewrite Hi in Hup; discriminate Hup].
  destruct (V1.segments e !! i) as [seg|] eqn:Hseg;
    [|unfold V1._update in Hup; rewrite Hinp in Hup;
      cbn [mbind option_bind] in Hup; rewrite Hi in Hup;
      cbn [mbind option_bind] in Hup; rewrite Hseg in Hup; discriminate Hup].
  rewrite (v1_update_eq e inp i seg Hinp Hi Hseg) in Hup. cbv zeta in Hup.
  injection Hup as <- _. split; reflexivity.
Qed.

Lemma v1_update_keeps_input (e e' : V1.RideEngine) (evs : list Event) :
  V1.demo (V1.state e) = false → V1._update e = Some (e', evs) →
  V1.input e' = V1.input e.
Proof.
  intros Hd Hup. destruct (v1_update_input e e' evs Hup) as [Hinp _].
  rewrite Hd in Hinp. injection Hinp as ->. reflexivity.
Qed.

Lemma v1_update_demo_input (e e' : V1.RideEngine) (evs : list Event) :
  V1.demo (V1.state e) = true → V1._update e = Some (e', evs) →
  V1.demoAI (V1.state e) (V1.segments e) (V1.input e) = Some (V1.input e').
Proof.
  intros Hd Hup. destruct (v1_update_input e e' evs Hup) as [Hinp _].
  rewrite Hd in Hinp. exact Hinp.
Qed.

Lemma v1_key_events_keep (e : V1.RideEngine) (k key : string) :
  V1.input_is (V1.input e) k = true →
  V1.input_is (V1.input (V1._onKeyDown key e)) k = true ∧
  (key ≠ k → V1.input_is (V1.input (V1._onKeyUp key e)) k = true) ∧
  V1.input_is (V1.input (V1._onKeyUp k e)) k = false.
Proof.
  unfold V1.input_is, Js.held, V1._onKeyDown, V1._onKeyUp, V1.input_down,
    V1.input_up.
  intros Hk. split; [|split].
  - destruct (decide (key = "d" ∨ key = "D")); cbn [V1.input V1.withInput V1.withState];
      destruct (decide (key = k)) as [->|Hne]; by simplify_map_eq.
  - intros Hne. cbn [V1.input V1.withInput]. by simplify_map_eq.
  - cbn [V1.input V1.withInput]. by simplify_map_eq.
Qed.

(** The entries of the key map other than the four arrows pass through
    [demoAI] untouched. *)
Lemma v1_demoAI_frame (s : V1.State) (segs : list V1.Segment)
    (keys keys' : gmap string bool) (k : string) :
  V1.demoAI s segs keys = Some keys' →
  k ∉ ["ArrowUp"; "ArrowDown"; "ArrowLeft"; "ArrowRight"] →
  keys' !! k = keys !! k.
Proof.
  intros Hai Hk. unfold V1.demoAI in Hai.
  destruct (Js.floorDivMod _ _ _) as [i|]; [|discriminate Hai].
  cbn [mbind option_bind] in Hai.
  destruct (segs !! i) as [seg|]; [|discriminate Hai].
  cbn [mbind option_bind] in Hai. injection Hai as <-.
  assert (k ≠ "ArrowUp" ∧ k ≠ "ArrowDown" ∧ k ≠ "ArrowLeft" ∧ k ≠ "ArrowRight")
    as (H1 & H2 & H3 & H4).
  { repeat split; intros ->; apply Hk; set_solver. }
  repeat destruct (decide _);
    repeat first
      [ rewrite lookup_delete_ne by (apply not_eq_sym; assumption)
      | rewrite lookup_insert_ne by (apply not_eq_sym; assumption) ];
    reflexivity.
Qed.

(** While the demo is off, a key read as held stays so through frames and
    through every key event but its own release. *)
Lemma v1_held_persists (k : string) (acts : list V1.Action) (e : V1.RideEngine) :
  ready e → inRange e →
  V1.demo (V1.state e) = false →
  V1.input_is (V1.input e) k = true →
  Forall (λ a, a ≠ V1.KeyUp k ∧ a ≠ V1.KeyDown "d" ∧ a ≠ V1.KeyDown "D") acts →
  ∃ e' evs, V1.run acts e = Some (e', evs) ∧
            V1.demo (V1.state e') = false ∧
            V1.input_is (V1.input e') k = true.
Proof.
  revert e. induction acts as [|a acts IH]; intros e Hr Hi Hd Hk Hacts.
  - exists e, []. split; [reflexivity|]. split; assumption.
  - apply Forall_cons in Hacts as [(Hup & Hd1 & Hd2) Hacts].
    destruct (v1_act_inRange a e Hr Hi) as (e1 & evs1 & Hact & Hr1 & Hi1 & _).
    assert (He1 : V1.demo (V1.state e1) = false ∧
                  V1.input_is (V1.input e1) k = true).
    { destruct a as [key|key|]; cbn [V1.act] in Hact.
      - injection Hact as <- _. split.
        + unfold V1._onKeyDown.
          rewrite decide_False by (intros [->| ->]; [apply Hd1|apply Hd2]; reflexivity).
          exact Hd.
        + apply (v1_key_events_keep e k key Hk).
      - injection Hact as <- _. split; [exact Hd|].
        apply (v1_key_events_keep e k key Hk). intros ->. apply Hup. reflexivity.
      - destruct (v1_update_input e e1 evs1 Hact) as [_ Hdemo].
        split; [rewrite Hdemo; exact Hd|].
        rewrite (v1_update_keeps_input e e1 evs1 Hd Hact). exact Hk. }
    destruct He1 as [Hd' Hk'].
    destruct (IH e1 Hr1 Hi1 Hd' Hk' Hacts) as (e2 & evs2 & Hrun & Hd2' & Hk2).
    exists e2, (evs1 ++ evs2). cbn [V1.run]. rewrite Hact.
    cbn [mbind option_bind]. rewrite Hrun. cbn [mbind option_bind].
    split; [reflexivity|]. split; assumption.
Qed.

(** A tick on the grid straight with only the throttle read as held. *)
Lemma v1_throttle_tick (e : V1.RideEngine) (inp : gmap string bool) :
  V1.segments e = V1.buildScenery V1.buildTrack →
  (if V1.demo (V1.state e)
   then V1.demoAI (V1.state e) (V1.segments e) (V1.input e)
   else Some (V1.input e)) = Some inp →
  V1.input_is inp "ArrowUp" = true →
  V1.input_is inp "ArrowDown" = false →
  V1.input_is inp "ArrowLeft" = false →
  V1.input_is inp "ArrowRight" = false →
  let s := V1.state e in
  0 <= V1.position s < 100 →
  0 <= V1.speed s <= 100 →
  V1.x s = 0 →
  V1.currentCorner s = None →
  V1.trackLength s = 94800 →
  ∃ e', V1._update e = Some (e', []) ∧
    V1.segments e' = V1.segments e ∧
    V1.input e' = inp ∧
    V1.demo (V1.state e') = V1.demo s ∧
    V1.speed (V1.state e') = V1.speed s + V1.ACCELERATION ∧
    V1.position (V1.state e') = V1.position s + V1.speed s + V1.ACCELERATION ∧
    V1.x (V1.state e') = 0 ∧
    V1.currentCorner (V1.state e') = None ∧
    V1.trackLength (V1.state e') = 94800.
Proof.
  intros Hs Hinp Hup Hdown Hleft Hright s Hp Hv Hx Hcur Htl. subst s.
  destruct v1_grid_segment as (seg & Hseg & Hc & Hci).
  assert (Hi : Js.floorDivMod (V1.position (V1.state e)) V1.SEGMENT_LENGTH
                 (length (V1.segments e)) = Some 0%nat).
  { apply floorDivMod_at;
      [ unfold V1.SEGMENT_LENGTH; lra
      | rewrite Hs, v1_track_length; lia
      | unfold V1.SEGMENT_LENGTH; simpl; lra ]. }
  assert (Hseg' : V1.segments e !! 0%nat = Some seg)
    by (rewrite Hs; exact Hseg).
  rewrite (v1_update_eq e inp 0 seg Hinp Hi Hseg'). cbv zeta.
  assert (Hphys : V1.physics inp (V1.speed (V1.state e))
                  = V1.speed (V1.state e) + V1.ACCELERATION).
  { unfold V1.physics. rewrite Hup, Hdown. cbn [negb andb].
    apply Rmin_left. unfold V1.ACCELERATION, V1.MAX_SPEED. lra. }
  rewrite Hphys.
  assert (Hsteer : V1.steering inp seg (V1.x (V1.state e))
                     (V1.speed (V1.state e) + V1.ACCELERATION) = 0).
  { unfold V1.steering. rewrite Hleft, Hright, Hc, Hx. lra. }
  rewrite Hsteer.
  assert (Hoff : V1.offroad 0 (V1.speed (V1.state e) + V1.ACCELERATION)
                 = V1.speed (V1.state e) + V1.ACCELERATION).
  { unfold V1.offroad. apply decide_False. rewrite Rabs_R0. lra. }
  rewrite Hoff.
  assert (Hadv : V1.advance (V1.position (V1.state e))
                   (V1.speed (V1.state e) + V1.ACCELERATION)
                   (V1.trackLength (V1.state e))
                 = (V1.position (V1.state e) + V1.speed (V1.state e)
                    + V1.ACCELERATION, false)).
  { unfold V1.advance. cbv zeta. rewrite Htl. unfold V1.ACCELERATION.
    rewrite bool_decide_eq_false_2 by lra.
    rewrite decide_False by lra. f_equal. lra. }
  rewrite Hadv. cbn [fst snd andb app].
  rewrite Hci, Hcur. unfold V1.cornerDetection.
  rewrite bool_decide_eq_false_2 by (intros H; apply H; reflexivity).
  cbn [andb].
  eexists. split; [reflexivity|].
  cbn [V1.segments V1.input V1.state V1.demo V1.speed V1.position V1.x
       V1.currentCorner V1.trackLength].
  repeat (split; [reflexivity|]). exact Htl.
Qed.

Lemma v1_demoAI_grid (s : V1.State) (keys : gmap string bool) :
  0 <= V1.position s < 200 →
  V1.speed s < 396 →
  V1.x s = 0 →
  V1.demoAI s (V1.buildScenery V1.buildTrack) keys
  = Some (delete "ArrowRight"
            (delete "ArrowLeft"
               (delete "ArrowDown" (<["ArrowUp" := true]> keys)))).
Proof.
  intros Hp Hv Hx. destruct v1_grid_segment as (seg & Hseg & Hc & Hci).
  unfold V1.demoAI.
  rewrite (floorDivMod_at _ _ _ 0);
    [| unfold V1.SEGMENT_LENGTH; lra
     | rewrite v1_track_length; lia
     | unfold V1.SEGMENT_LENGTH; simpl; lra].
  cbn [mbind option_bind]. rewrite Hseg. cbn [mbind option_bind].
  rewrite Hc, Hx. unfold V1.targetSpeed, V1.MAX_SPEED.
  rewrite (decide_True (P := 0 = 0)) by reflexivity.
  rewrite (decide_True (P := V1.speed s < _)) by lra.
  rewrite (decide_False (P := 0 < _)) by lra.
  rewrite (decide_False (P := 0 > _)) by lra.
  reflexivity.
Qed.

(** ** Runs of the first variant, composed *)

Lemma v1_run_step (a : V1.Action) (rest : list V1.Action)
    (e e1 e2 : V1.RideEngine) (evs1 evs2 : list Event) :
  V1.act a e = Some (e1, evs1) → V1.run rest e1 = Some (e2, evs2) →
  V1.run (a :: rest) e = Some (e2, evs1 ++ evs2).
Proof.
  intros Hact Hrun. cbn [V1.run]. rewrite Hact. cbn [mbind option_bind].
  rewrite Hrun. reflexivity.
Qed.

Lemma v1_tap_demo (e : V1.RideEngine) :
  V1.input e !! "d" = None →
  let e' := V1._onKeyUp "d" (V1._onKeyDown "d" e) in
  V1.segments e' = V1.segments e ∧
  V1.input e' = V1.input e ∧
  V1.state e'
  = V1.mkState (V1.position (V1.state e)) (V1.speed (V1.state e))
      (V1.x (V1.state e)) (V1.currentCorner (V1.state e))
      (V1.showHints (V1.state e)) (negb (V1.demo (V1.state e)))
      (V1.trackLength (V1.state e)) (V1.hintTimer (V1.state e)).
Proof.
  intros Hd. cbv zeta. unfold V1._onKeyUp, V1._onKeyDown.
  rewrite decide_True by (left; reflexivity).
  cbn [V1.segments V1.input V1.state V1.withInput V1.withState].
  split; [reflexivity|]. split; [|reflexivity].
  unfold V1.input_up, V1.input_down.
  rewrite delete_insert_eq. apply delete_id. exact Hd.
Qed.

Lemma v1_demo_keys_on_grid :
  delete "ArrowRight"
    (delete "ArrowLeft"
       (delete "ArrowDown" (<["ArrowUp" := true]> (∅ : gmap string bool))))
  = {["ArrowUp" := true]}.
Proof.
  apply map_eq. intros k.
  destruct (decide (k = "ArrowUp")) as [->|?]; [by simplify_map_eq|].
  rewrite lookup_singleton_ne by done.
  destruct (decide (k = "ArrowRight")) as [->|?]; [by simplify_map_eq|].
  destruct (decide (k = "ArrowLeft")) as [->|?]; [by simplify_map_eq|].
  destruct (decide (k = "ArrowDown")) as [->|?]; by simplify_map_eq.
Qed.

(** From the grid: the demo is tapped on, one frame runs, the demo is
    tapped off.  No arrow key was ever pressed, yet the throttle written
    by the driver is read as held and the vehicle keeps accelerating. *)
Lemma v1_stale_throttle (cornerData : list Corner) (onCorner onLap : bool) :
  ∃ e3 e4 e5,
    V1.run tapDemoTwice (V1.boot cornerData onCorner onLap) = Some (e3, []) ∧
    V1.demo (V1.state e3) = false ∧
    V1.input e3 = {["ArrowUp" := true]} ∧
    V1.speed (V1.state e3) = 3.5 ∧
    V1._update e3 = Some (e4, []) ∧
    V1.speed (V1.state e4) = 7 ∧
    V1._update e4 = Some (e5, []) ∧
    V1.speed (V1.state e5) = 10.5 ∧
    V1.input e5 = {["ArrowUp" := true]}.
Proof.
  set (e0 := V1.boot cornerData onCorner onLap).
  assert (Hin0 : V1.input e0 = ∅) by apply v1_boot_input.
  destruct (v1_tap_demo e0) as (Hs1 & Hin1 & Hst1);
    [rewrite Hin0; apply lookup_empty|].
  set (e1 := V1._onKeyUp "d" (V1._onKeyDown "d" e0)) in *.
  unfold e0 in Hs1, Hst1. rewrite v1_boot_state in Hst1.
  rewrite v1_boot_segments in Hs1. rewrite Hin0 in Hin1.
  cbn [V1.position V1.speed V1.x V1.currentCorner V1.showHints V1.demo
       V1.trackLength V1.hintTimer negb] in Hst1.
  destruct (v1_throttle_tick e1 {["ArrowUp" := true]} Hs1)
    as (e2 & Hup2 & Hs2 & Hin2 & Hd2 & Hv2 & Hp2 & Hx2 & Hc2 & Htl2).
  { rewrite Hst1, Hs1, Hin1. cbn [V1.demo].
    rewrite <- v1_demo_keys_on_grid.
    apply v1_demoAI_grid; cbn [V1.position V1.speed V1.x]; lra. }
  { reflexivity. } { reflexivity. } { reflexivity. } { reflexivity. }
  { rewrite Hst1. cbn [V1.position]. lra. }
  { rewrite Hst1. cbn [V1.speed]. lra. }
  { rewrite Hst1. reflexivity. }
  { rewrite Hst1. reflexivity. }
  { rewrite Hst1. reflexivity. }
  rewrite Hst1 in Hd2, Hv2, Hp2. cbn [V1.demo V1.speed V1.position] in Hd2, Hv2, Hp2.
  unfold V1.ACCELERATION in Hv2, Hp2.
  destruct (v1_tap_demo e2) as (Hs3 & Hin3 & Hst3);
    [rewrite Hin2; reflexivity|].
  set (e3 := V1._onKeyUp "d" (V1._onKeyDown "d" e2)) in *.
  rewrite Hs2, Hs1 in Hs3. rewrite Hin2 in Hin3.
  rewrite Hd2, Hv2, Hp2, Hx2, Hc2, Htl2 in Hst3. cbn [negb] in Hst3.
  destruct (v1_throttle_tick e3 {["ArrowUp" := true]} Hs3)
    as (e4 & Hup4 & Hs4 & Hin4 & Hd4 & Hv4 & Hp4 & Hx4 & Hc4 & Htl4).
  { rewrite Hst3, Hin3. reflexivity. }
  { reflexivity. } { reflexivity. } { reflexivity. } { reflexivity. }
  { rewrite Hst3. cbn [V1.position]. lra. }
  { rewrite Hst3. cbn [V1.speed]. lra. }
  { rewrite Hst3. reflexivity. }
  { rewrite Hst3. reflexivity. }
  { rewrite Hst3. reflexivity. }
  rewrite Hst3 in Hd4, Hv4, Hp4. cbn [V1.demo V1.speed V1.position] in Hd4, Hv4, Hp4.
  unfold V1.ACCELERATION in Hv4, Hp4.
  rewrite Hs3 in Hs4.
  destruct (v1_throttle_tick e4 {["ArrowUp" := true]} Hs4)
    as (e5 & Hup5 & Hs5 & Hin5 & Hd5 & Hv5 & Hp5 & Hx5 & Hc5 & Htl5).
  { rewrite Hd4, Hin4. reflexivity. }
  { reflexivity. } { reflexivity. } { reflexivity. } { reflexivity. }
  { rewrite Hp4. lra. }
  { rewrite Hv4. lra. }
  { exact Hx4. }
  { exact Hc4. }
  { exact Htl4. }
  unfold V1.ACCELERATION in Hv5.
  exists e3, e4, e5.
  split.
  { unfold tapDemoTwice.
    apply (v1_run_step (V1.KeyDown "d") _ e0 _ e3 [] [] eq_refl).
    apply (v1_run_step (V1.KeyUp "d") _ _ e1 e3 [] [] eq_refl).
    apply (v1_run_step V1.Frame _ e1 e2 e3 [] [] Hup2).
    apply (v1_run_step (V1.KeyDown "d") _ e2 _ e3 [] [] eq_refl).
    apply (v1_run_step (V1.KeyUp "d") _ _ e3 e3 [] [] eq_refl).
    reflexivity. }
  split; [rewrite Hst3; reflexivity|].
  split; [exact Hin3|].
  split; [rewrite Hst3; cbn [V1.speed]; lra|].
  split; [exact Hup4|].
  split; [rewrite Hv4; lra|].
  split; [exact Hup5|].
  split; [rewrite Hv5, Hv4; lra|].
  exact Hin5.
Qed.

(** ** Second variant: a lap driven onto the line *)

Lemma v2_peaks_bound :
  Forall2 (λ zone p, Rabs (peak zone) <= IZR p / 10) V2.TRACK_ZONES v2_peaks.
Proof.
  unfold V2.TRACK_ZONES, v2_peaks.
  repeat (apply Forall2_cons; split;
          [cbn [peak]; unfold Rabs; destruct (Rcase_abs _); lra|]).
  apply Forall2_nil_2.
Qed.

Lemma v2_curveBounds_shape (zones : list V2.Zone) (peaks : list Z) :
  Forall2 (λ zone p, Rabs (peak zone) <= IZR p / 10) zones peaks →
  Forall2 (λ sh b, Rabs (fst sh) <= IZR b / 10)
    (trackShape zones) (curveBounds zones peaks).
Proof.
  induction 1 as [|zone p zones peaks Hp _ IH]; [apply Forall2_nil_2|].
  rewrite v2_trackShape_cons. cbn [curveBounds].
  apply Forall2_app; [|exact IH].
  unfold zoneShape.
  generalize (Z.to_nat (V2.len zone)) as n. intros n.
  generalize 0%nat as start. induction n as [|n IHn]; intros start.
  - apply Forall2_nil_2.
  - cbn [seq map replicate]. apply Forall2_cons. split; [|apply IHn].
    cbn [fst]. pose proof (v2_zoneCurve_bound zone start). lra.
Qed.

Lemma v2_curve_bounded (random : nat → R) (i : nat) (b : Z) :
  curveBounds V2.TRACK_ZONES v2_peaks !! i = Some b →
  ∃ seg, V2.buildTrack random !! i = Some seg ∧ Rabs (V2.curve seg) <= IZR b / 10.
Proof.
  intros Hb.
  pose proof (v2_curveBounds_shape _ _ v2_peaks_bound) as Hall.
  destruct (Forall2_lookup_r _ _ _ i b Hall Hb) as (sh & Hsh & Hle).
  destruct (v2_lookup_shape V2.TRACK_ZONES random i sh Hsh)
    as (seg & Hseg & Hc & _).
  exists seg. split; [exact Hseg|]. rewrite Hc. exact Hle.
Qed.

(** The segment under a position given in tenths. *)
Lemma v2_lookup_tenths (random : nat → R) (e : V2.RideEngine) (P b : Z) :
  V2.segments e = V2.buildTrack random →
  V2.position (V2.state e) = IZR P / 10 →
  (0 <= P)%Z →
  curveBounds V2.TRACK_ZONES v2_peaks !! Z.to_nat (P / 2000) = Some b →
  ∃ seg, V2.lookupSegment e = Some seg ∧ Rabs (V2.curve seg) <= IZR b / 10.
Proof.
  intros Hs Hp HP Hb.
  destruct (v2_curve_bounded random _ b Hb) as (seg & Hseg & Hle).
  exists seg. split; [|exact Hle].
  unfold V2.lookupSegment. rewrite Hs, v2_track_805.
  rewrite (floorDivMod_at _ _ _ (Z.to_nat (P / 2000))); [exact Hseg| | |].
  - unfold V2.SEGMENT_LENGTH. lra.
  - apply lookup_lt_Some in Hseg. rewrite v2_track_805 in Hseg. exact Hseg.
  - rewrite Hp. unfold V2.SEGMENT_LENGTH.
    assert (Hq : (0 <= P / 2000)%Z) by (apply Z.div_pos; lia).
    rewrite (INR_lit _ (P / 2000)) by (apply Z2Nat.id; exact Hq).
    pose proof (Z.div_mod P 2000 ltac:(lia)) as Hdm.
    pose proof (Z.mod_pos_bound P 2000 ltac:(lia)) as [Hr0 Hr1].
    apply (f_equal IZR) in Hdm. rewrite plus_IZR, mult_IZR in Hdm.
    apply IZR_le in Hr0. apply IZR_lt in Hr1. lra.
Qed.

Lemma v2_throttle_tenths (V : Z) :
  Rmin (IZR V / 10 + V2.ACCELERATION) V2.MAX_SPEED
  = IZR (Z.min (V + 32) 4500) / 10.
Proof.
  unfold V2.ACCELERATION, V2.MAX_SPEED.
  destruct (Z.min_spec (V + 32) 4500) as [[Hlt ->]|[Hle ->]].
  - apply IZR_lt in Hlt. rewrite plus_IZR in *. rewrite Rmin_left; lra.
  - apply IZR_le in Hle. rewrite plus_IZR in *. rewrite Rmin_right; lra.
Qed.

Lemma v2_coast_tenths (V : Z) :
  Rmax (IZR V / 10 - V2.DECEL) 0 = IZR (Z.max (V - 25) 0) / 10.
Proof.
  unfold V2.DECEL.
  destruct (Z.max_spec (V - 25) 0) as [[Hlt ->]|[Hle ->]].
  - apply IZR_lt in Hlt. rewrite minus_IZR in *. rewrite Rmax_right; lra.
  - apply IZR_le in Hle. rewrite minus_IZR in *. rewrite Rmax_left; lra.
Qed.

(** A frame of a followed drive. *)
Lemma v2_driven_frame (random : nat → R) (w : Window) (e : V2.RideEngine)
    (d d' : Drive) :
  driven random e d →
  driveStep (curveBounds V2.TRACK_ZONES v2_peaks) V2.Frame d = Some d' →
  ∃ e', V2.update w e = Some (e', []) ∧ driven random e' d'.
Proof.
  intros (Hs & Hd & Htl & Hp & Hv & Hx & Hup & Hdown & Hleft & Hright) Hstep.
  cbn [driveStep] in Hstep.
  destruct (curveBounds V2.TRACK_ZONES v2_peaks !! Z.to_nat (position10 d / 2000))
    as [b|] eqn:Hb; [|discriminate Hstep].
  cbn [mbind option_bind] in Hstep.
  set (V' := if throttle d then Z.min (speed10 d + 32) 4500
             else Z.max (speed10 d - 25) 0) in *.
  destruct (decide _) as [(HP0 & HV0 & HS & HP1)|]; [|discriminate Hstep].
  injection Hstep as <-.
  destruct (v2_lookup_tenths random e (position10 d) b Hs Hp HP0 Hb)
    as (seg & Hseg & Hc).
  rewrite (v2_update_eq w e seg Hseg). cbv zeta.
  rewrite Hd. unfold V2.humanControl. rewrite Hup, Hdown, Hleft, Hright.
  cbn [fst snd].
  assert (Hv' : (if throttle d
                 then Rmin (V2.speed (V2.state e) + V2.ACCELERATION) V2.MAX_SPEED
                 else Rmax (V2.speed (V2.state e) - V2.DECEL) 0) = IZR V' / 10).
  { subst V'. rewrite Hv. destruct (throttle d);
      [apply v2_throttle_tenths|apply v2_coast_tenths]. }
  rewrite Hv'.
  assert (HV' : (0 <= V')%Z) by (subst V'; destruct (throttle d); lia).
  apply IZR_le in HV', HS, HP1.
  rewrite mult_IZR, plus_IZR, mult_IZR in HS. rewrite plus_IZR in HP1.
  set (x' := V2.centrifugal seg (V2.x (V2.state e)) (IZR V' / 10)).
  assert (Hx' : Rabs x' <= (IZR (drift d) + IZR b * IZR V') * 7 / 90000000).
  { subst x'. unfold V2.centrifugal, V2.CENTRIFUGAL, V2.MAX_SPEED.
    assert (Hcb : - (IZR b / 10) <= V2.curve seg <= IZR b / 10)
      by (revert Hc; unfold Rabs; destruct (Rcase_abs _); lra).
    assert (Hc1 : V2.curve seg * IZR V' <= IZR b / 10 * IZR V')
      by (apply Rmult_le_compat_r; lra).
    assert (Hc2 : - (IZR b / 10) * IZR V' <= V2.curve seg * IZR V')
      by (apply Rmult_le_compat_r; lra).
    revert Hx. unfold Rabs.
    destruct (Rcase_abs (V2.x _)), (Rcase_abs (_ - _)); intros; lra. }
  unfold V2.offroad. rewrite decide_False by lra.
  unfold V2.advance. cbn [fst snd].
  rewrite bool_decide_eq_false_2 by (rewrite Hp, Htl; lra).
  cbn [andb]. eexists. split; [reflexivity|].
  unfold driven.
  cbn [V2.segments V2.state V2.keys V2.demo V2.trackLength V2.position
       V2.speed V2.x position10 speed10 drift throttle].
  split; [exact Hs|]. split; [reflexivity|]. split; [exact Htl|].
  split; [rewrite Hp, plus_IZR; lra|]. split; [reflexivity|].
  split; [rewrite plus_IZR, mult_IZR; exact Hx'|].
  split; [exact Hup|]. split; [exact Hdown|].
  split; [exact Hleft|exact Hright].
Qed.

Lemma v2_driven_act (random : nat → R) (w : Window) (a : V2.Action)
    (e : V2.RideEngine) (d d' : Drive) :
  driven random e d →
  driveStep (curveBounds V2.TRACK_ZONES v2_peaks) a d = Some d' →
  ∃ e', V2.act w a e = Some (e', []) ∧ driven random e' d'.
Proof.
  intros He Hstep. destruct a as [key|key|]; [| |exact (v2_driven_frame _ w _ _ _ He Hstep)].
  - cbn [driveStep] in Hstep.
    destruct (decide (key = "ArrowUp")) as [->|]; [|discriminate Hstep].
    injection Hstep as <-. eexists. split; [reflexivity|].
    destruct He as (Hs & Hd & Htl & Hp & Hv & Hx & Hup & Hdown & Hleft & Hright).
    unfold driven, V2.onKeyDown.
    rewrite decide_False by (intros [H|H]; discriminate H).
    cbn [V2.segments V2.state V2.keys position10 speed10 drift throttle].
    rewrite !v2_held_insert.
    repeat (split; [assumption|]).
    split; [reflexivity|].
    split; [exact Hdown|]. split; [exact Hleft|exact Hright].
  - cbn [driveStep] in Hstep.
    destruct (decide (key = "ArrowUp")) as [->|]; [|discriminate Hstep].
    injection Hstep as <-. eexists. split; [reflexivity|].
    destruct He as (Hs & Hd & Htl & Hp & Hv & Hx & Hup & Hdown & Hleft & Hright).
    unfold driven, V2.onKeyUp.
    cbn [V2.segments V2.state V2.keys position10 speed10 drift throttle].
    rewrite !v2_held_insert.
    repeat (split; [assumption|]).
    split; [reflexivity|].
    split; [exact Hdown|]. split; [exact Hleft|exact Hright].
Qed.

Lemma v2_driven_run (random : nat → R) (w : Window) (acts : list V2.Action)
    (e : V2.RideEngine) (d d' : Drive) :
  driven random e d →
  driveRun (curveBounds V2.TRACK_ZONES v2_peaks) acts d = Some d' →
  ∃ e', V2.run w acts e = Some (e', []) ∧ driven random e' d'.
Proof.
  revert e d. induction acts as [|a acts IH]; intros e d He Hrun.
  - injection Hrun as <-. exists e. split; [reflexivity|exact He].
  - cbn [driveRun] in Hrun.
    destruct (driveStep _ a d) as [d1|] eqn:Hstep; [|discriminate Hrun].
    cbn [mbind option_bind] in Hrun.
    destruct (v2_driven_act random w a e d d1 He Hstep) as (e1 & Hact & He1).
    destruct (IH e1 d1 He1 Hrun) as (e2 & Hrun2 & He2).
    exists e2. split; [|exact He2].
    apply (v2_run_step w a acts e e1 e2 [] [] Hact Hrun2).
Qed.

Lemma v2_grid_driven (random : nat → R) (cornerData : list Corner) :
  driven random (V2.boot random cornerData) (mkDrive false 0 0 0).
Proof.
  unfold driven.
  rewrite v2_boot_state, v2_boot_segments, v2_boot_keys.
  cbn [V2.demo V2.trackLength V2.position V2.speed V2.x
       position10 speed10 drift throttle].
  rewrite Rabs_R0.
  split; [reflexivity|]. split; [reflexivity|]. split; [reflexivity|].
  split; [lra|]. split; [lra|]. split; [lra|].
  repeat split; reflexivity.
Qed.

Lemma v2_lapOntoLine_followed :
  ∃ s, driveRun (curveBounds V2.TRACK_ZONES v2_peaks) lapOntoLine
         (mkDrive false 0 0 0) = Some (mkDrive true 1610000 4500 s).
Proof. eexists. vm_compute. reflexivity. Qed.

(** The lap ends exactly on the line: the position equals the track
    length and no callback was called on the way. *)
Lemma v2_lap_onto_line (random : nat → R) (cornerData : list Corner)
    (w : Window) :
  ∃ e, V2.run w lapOntoLine (V2.boot random cornerData) = Some (e, []) ∧
       V2.segments e = V2.buildTrack random ∧
       V2.position (V2.state e) = 161000 ∧
       V2.trackLength (V2.state e) = 161000 ∧
       V2.speed (V2.state e) = 450.
Proof.
  destruct v2_lapOntoLine_followed as [s Hs].
  destruct (v2_driven_run random w lapOntoLine _ _ _
              (v2_grid_driven random cornerData) Hs)
    as (e & Hrun & (Hsegs & _ & Htl & Hp & Hv & _)).
  exists e. split; [exact Hrun|]. split; [exact Hsegs|].
  cbn [position10 speed10] in Hp, Hv.
  split; [rewrite Hp; lra|]. split; [exact Htl|]. rewrite Hv. lra.
Qed.

(** ** Second variant: runs in human mode, and runs without a track *)

Lemma v2_act_human (w : Window) (a : V2.Action) (e : V2.RideEngine) :
  v2_alive e →
  V2.demo (V2.state e) = false →
  V2.speed (V2.state e) <= V2.MAX_SPEED →
  a ≠ V2.KeyDown "d" → a ≠ V2.KeyDown "D" →
  ∃ e' evs, V2.act w a e = Some (e', evs) ∧ v2_alive e' ∧
            V2.demo (V2.state e') = false ∧
            V2.speed (V2.state e') <= V2.MAX_SPEED.
Proof.
  intros He Hd Hv Hd1 Hd2. destruct a as [key|key|]; cbn [V2.act].
  - eexists _, _. split; [reflexivity|].
    unfold V2.onKeyDown, v2_alive.
    rewrite decide_False
      by (intros [->| ->]; [apply Hd1|apply Hd2]; reflexivity).
    cbn [V2.segments V2.state]. auto.
  - eexists _, _. split; [reflexivity|].
    unfold V2.onKeyUp, v2_alive. cbn [V2.segments V2.state]. auto.
  - destruct (v2_update_shape w e He)
      as (seg & e' & v & _ & Hv0 & _ & Hmax & Hup & Hs & _ & _ & _ & Hd' & Hv'
          & _ & Hp).
    cbv zeta in Hup, Hp. exists e'. eexists. split; [exact Hup|].
    destruct He as (Hne & Hp0 & _).
    split; [|split; [rewrite Hd'; exact Hd|rewrite Hv'; exact (Hmax Hd Hv)]].
    split; [rewrite Hs; exact Hne|]. rewrite Hp, Hv'. split; [|exact Hv0].
    destruct (bool_decide_reflect
                (V2.position (V2.state e) + v > V2.trackLength (V2.state e)));
      lra.
Qed.

Lemma v2_run_human (w : Window) (acts : list V2.Action) (e : V2.RideEngine) :
  v2_alive e →
  V2.demo (V2.state e) = false →
  V2.speed (V2.state e) <= V2.MAX_SPEED →
  Forall (λ a, a ≠ V2.KeyDown "d" ∧ a ≠ V2.KeyDown "D") acts →
  ∃ e' evs, V2.run w acts e = Some (e', evs) ∧
            0 <= V2.speed (V2.state e') <= V2.MAX_SPEED.
Proof.
  revert e. induction acts as [|a acts IH]; intros e He Hd Hv Hacts.
  - exists e, []. split; [reflexivity|]. destruct He as (_ & _ & Hv0). lra.
  - apply Forall_cons in Hacts as [[Hd1 Hd2] Hacts].
    destruct (v2_act_human w a e He Hd Hv Hd1 Hd2)
      as (e1 & evs1 & Hact & He1 & Hd' & Hv').
    destruct (IH e1 He1 Hd' Hv' Hacts) as (e2 & evs2 & Hrun & Hr).
    exists e2, (evs1 ++ evs2). split; [|exact Hr].
    apply (v2_run_step w a acts e e1 e2 evs1 evs2 Hact Hrun).
Qed.

Lemma v2_boot_alive (random : nat → R) (cornerData : list Corner) :
  v2_alive (V2.boot random cornerData).
Proof.
  unfold v2_alive. rewrite v2_boot_segments, v2_boot_state.
  cbn [V2.position V2.speed]. split; [|lra].
  intros Hnil. apply (f_equal length) in Hnil.
  rewrite v2_track_805 in Hnil. discriminate Hnil.
Qed.

(** Without a segment the lookup is [undefined] and the tick throws. *)
Lemma v2_update_dead (w : Window) (e : V2.RideEngine) :
  V2.segments e = [] → V2.update w e = None.
Proof.
  intros Hs. unfold V2.update. rewrite (v2_lookup_empty e Hs).
  destruct (V2.demo (V2.state e)); reflexivity.
Qed.

Lemma v2_run_dead (w : Window) (acts : list V2.Action) (e : V2.RideEngine) :
  V2.segments e = [] → V2.Frame ∈ acts → V2.run w acts e = None.
Proof.
  revert e. induction acts as [|a acts IH]; intros e Hs Hin.
  - apply elem_of_nil in Hin. destruct Hin.
  - cbn [V2.run]. destruct a as [key|key|]; cbn [V2.act].
    + cbn [mbind option_bind]. rewrite IH; [reflexivity| |].
      * unfold V2.onKeyDown. cbn [V2.segments]. exact Hs.
      * apply elem_of_cons in Hin as [Hin|Hin]; [discriminate Hin|exact Hin].
    + cbn [mbind option_bind]. rewrite IH; [reflexivity| |].
      * unfold V2.onKeyUp. cbn [V2.segments]. exact Hs.
      * apply elem_of_cons in Hin as [Hin|Hin]; [discriminate Hin|exact Hin].
    + rewrite (v2_update_dead w e Hs). reflexivity.
Qed.

Lemma v2_some_zone_iff (zones : list V2.Zone) :
  ¬ Forall (λ zone, (V2.len zone <= 0)%Z) zones
  ↔ Exists (λ zone, (0 < V2.len zone)%Z) zones.
Proof.
  induction zones as [|zone zones IH].
  - split; [intros H; destruct H; constructor|intros H; inversion H].
  - rewrite Forall_cons, Exists_cons, <- IH.
    destruct (decide (V2.len zone <= 0)%Z) as [Hle|Hgt].
    + split.
      * intros H. right. intros Hall. apply H. split; assumption.
      * intros [Hpos|Hn] [_ Hall]; [lia|exact (Hn Hall)].
    + split; [intros _; left; lia|intros _ [Hle _]; lia].
Qed.

(** In demo mode the tick does not read the keys. *)
Lemma v2_demo_ignores_keys (w : Window) (e : V2.RideEngine)
    (keys' : gmap string bool) :
  V2.demo (V2.state e) = true →
  (λ r, (V2.state (fst r), snd r)) <$> V2.update w e
  = (λ r, (V2.state (fst r), snd r))
      <$> V2.update w (V2.mkEngine (V2.segments e) (V2.corners e) (V2.state e)
                         keys' (V2.running e)).
Proof.
  intros Hd. unfold V2.update. cbn [V2.state V2.segments]. rewrite Hd.
  change (V2.lookupSegment
            (V2.mkEngine (V2.segments e) (V2.corners e) (V2.state e) keys'
               (V2.running e)))
    with (V2.lookupSegment e).
  destruct (V2.lookupSegment e) as [seg|]; reflexivity.
Qed.

(** Both pedals held in the second variant: the throttle is taken. *)
Lemma v2_human_both (s : V2.State) (keys : gmap string bool) :
  Js.held keys "ArrowUp" = true →
  snd (V2.humanControl s keys)
  = Rmin (V2.speed s + V2.ACCELERATION) V2.MAX_SPEED.
Proof. intros Hup. unfold V2.humanControl. rewrite Hup. reflexivity. Qed.

Lemma v2_no_three_speeds :
  ¬ ∃ a b c, V2.targetSpeed a < V2.targetSpeed b < V2.targetSpeed c.
Proof.
  intros (a & b & c & Hab & Hbc).
  destruct (v2_targetSpeed_two_bands a), (v2_targetSpeed_two_bands b),
    (v2_targetSpeed_two_bands c); unfold V2.MAX_SPEED in *; lra.
Qed.

(** * Further properties of the engine *)

(** ** First variant: what a tick leaves in place *)

(** A tick that goes through, spelled out. *)
Lemma v1_update_inv (e e' : V1.RideEngine) (evs : list Event) :
  V1._update e = Some (e', evs) →
  ∃ inp i seg,
    (if V1.demo (V1.state e)
     then V1.demoAI (V1.state e) (V1.segments e) (V1.input e)
     else Some (V1.input e)) = Some inp ∧
    Js.floorDivMod (V1.position (V1.state e)) V1.SEGMENT_LENGTH
      (length (V1.segments e)) = Some i ∧
    V1.segments e !! i = Some seg ∧
    let s := V1.state e in
    let x' := V1.steering inp seg (V1.x s) (V1.physics inp (V1.speed s)) in
    let v := V1.offroad x' (V1.physics inp (V1.speed s)) in
    let moved := V1.advance (V1.position s) v (V1.trackLength s) in
    e' = V1.mkEngine (V1.segments e) (V1.corners e)
           (V1.mkState (fst moved) v x' (V1.cornerIndex seg)
              (if decide (0 < V1.hintTimer s)%nat then V1.showHints s else false)
              (V1.demo s) (V1.trackLength s) (Nat.pred (V1.hintTimer s)))
           inp (V1.rafId e) (V1.running e) (V1.onCornerEntered e)
           (V1.onLapComplete e) ∧
    evs = (if snd moved && V1.onLapComplete e then [LapComplete] else [])
          ++ V1.cornerDetection (V1.corners e) (V1.onCornerEntered e)
               (V1.currentCorner s) (V1.cornerIndex seg).
Proof.
  intros Hup.
  destruct (if V1.demo (V1.state e) then _ else _) as [inp|] eqn:Hinp;
    [|unfold V1._update in Hup; rewrite Hinp in Hup; discriminate Hup].
  destruct (Js.floorDivMod (V1.position (V1.state e)) V1.SEGMENT_LENGTH
              (length (V1.segments e))) as [i|] eqn:Hi;
    [|unfold V1._update in Hup; rewrite Hinp in Hup;
      cbn [mbind option_bind] in Hup; rewrite Hi in Hup; discriminate Hup].
  destruct (V1.segments e !! i) as [seg|] eqn:Hseg;
    [|unfold V1._update in Hup; rewrite Hinp in Hup;
      cbn [mbind option_bind] in Hup; rewrite Hi in Hup;
      cbn [mbind option_bind] in Hup; rewrite Hseg in Hup; discriminate Hup].
  rewrite (v1_update_eq e inp i seg Hinp Hi Hseg) in Hup. cbv zeta in Hup.
  injection Hup as <- <-.
  exists inp, i, seg. cbv zeta.
  split; [reflexivity|]. split; [reflexivity|]. split; [exact Hseg|].
  split; reflexivity.
Qed.

Lemma v1_cornerDetection_cases (cornerData : list Corner) (installed : bool)
    (prev cur : option nat) :
  V1.cornerDetection cornerData installed prev cur = [] ∨
  installed = true ∧
  ∃ c, V1.cornerDetection cornerData installed prev cur = [CornerEntered c].
Proof.
  unfold V1.cornerDetection.
  destruct installed; [|left; rewrite andb_false_r; reflexivity].
  rewrite andb_true_r.
  destruct (bool_decide _ && Js.truthy cur); [right|left; reflexivity].
  split; [reflexivity|]. eexists. reflexivity.
Qed.

(** What a tick never touches, and what it does to the hint timer. *)
Lemma v1_update_frame (e e' : V1.RideEngine) (evs : list Event) :
  V1._update e = Some (e', evs) →
  V1.segments e' = V1.segments e ∧
  V1.corners e' = V1.corners e ∧
  V1.rafId e' = V1.rafId e ∧
  V1.running e' = V1.running e ∧
  V1.onCornerEntered e' = V1.onCornerEntered e ∧
  V1.onLapComplete e' = V1.onLapComplete e ∧
  V1.demo (V1.state e') = V1.demo (V1.state e) ∧
  V1.trackLength (V1.state e') = V1.trackLength (V1.state e) ∧
  V1.hintTimer (V1.state e') = Nat.pred (V1.hintTimer (V1.state e)) ∧
  V1.showHints (V1.state e')
  = (if decide (0 < V1.hintTimer (V1.state e))%nat
     then V1.showHints (V1.state e) else false) ∧
  (V1.onLapComplete e = false → LapComplete ∉ evs) ∧
  (V1.onCornerEntered e = false → ∀ c, CornerEntered c ∉ evs).
Proof.
  intros Hup.
  destruct (v1_update_inv e e' evs Hup) as (inp & i & seg & _ & _ & _ & He' & Hevs).
  cbv zeta in He', Hevs. subst e'.
  cbn [V1.segments V1.corners V1.rafId V1.running V1.onCornerEntered
       V1.onLapComplete V1.state V1.demo V1.trackLength V1.hintTimer
       V1.showHints].
  repeat (split; [reflexivity|]).
  split.
  - intros Hlap. rewrite Hevs, Hlap, andb_false_r. cbn [app].
    destruct (v1_cornerDetection_cases (V1.corners e) (V1.onCornerEntered e)
                (V1.currentCorner (V1.state e)) (V1.cornerIndex seg))
      as [->|(_ & c & ->)]; [apply not_elem_of_nil|].
    intros Hin. apply list_elem_of_singleton in Hin. discriminate Hin.
  - intros Hcor c.
    destruct (v1_cornerDetection_cases (V1.corners e) (V1.onCornerEntered e)
                (V1.currentCorner (V1.state e)) (V1.cornerIndex seg))
      as [Hnil|(Hinst & _)]; [|congruence].
    rewrite Hevs, Hnil, app_nil_r.
    destruct (_ && _); [|apply not_elem_of_nil].
    intros Hin. apply list_elem_of_singleton in Hin. discriminate Hin.
Qed.

Lemma v1_key_frame (key : string) (e : V1.RideEngine) :
  let down := V1._onKeyDown key e in
  let up := V1._onKeyUp key e in
  (V1.hintTimer (V1.state down) = V1.hintTimer (V1.state e) ∧
   V1.showHints (V1.state down) = V1.showHints (V1.state e) ∧
   V1.onCornerEntered down = V1.onCornerEntered e ∧
   V1.onLapComplete down = V1.onLapComplete e ∧
   V1.running down = V1.running e ∧ V1.rafId down = V1.rafId e) ∧
  (V1.state up = V1.state e ∧
   V1.onCornerEntered up = V1.onCornerEntered e ∧
   V1.onLapComplete up = V1.onLapComplete e ∧
   V1.running up = V1.running e ∧ V1.rafId up = V1.rafId e).
Proof.
  cbv zeta. unfold V1._onKeyDown, V1._onKeyUp.
  destruct (decide _); repeat split; reflexivity.
Qed.

(** ** First variant: the hint timer *)

Lemma v1_run_hints (acts : list V1.Action) (e : V1.RideEngine) (k : nat) :
  ready e → inRange e →
  V1.hintTimer (V1.state e) = (300 - k)%nat →
  V1.showHints (V1.state e) = bool_decide (k <= 300)%nat →
  ∃ e' evs, V1.run acts e = Some (e', evs) ∧
    V1.hintTimer (V1.state e') = (300 - (k + frameCount acts))%nat ∧
    V1.showHints (V1.state e') = bool_decide (k + frameCount acts <= 300)%nat.
Proof.
  revert e k. induction acts as [|a acts IH]; intros e k Hr Hi Ht Hh.
  - exists e, []. cbn [frameCount]. rewrite Nat.add_0_r.
    split; [reflexivity|]. split; assumption.
  - destruct (v1_act_inRange a e Hr Hi) as (e1 & evs1 & Hact & Hr1 & Hi1 & _).
    assert (Hstep : ∃ k1,
      (k + frameCount (a :: acts) = k1 + frameCount acts)%nat ∧
      V1.hintTimer (V1.state e1) = (300 - k1)%nat ∧
      V1.showHints (V1.state e1) = bool_decide (k1 <= 300)%nat).
    { destruct a as [key|key|]; cbn [V1.act frameCount] in *.
      - injection Hact as <- _. exists k.
        destruct (v1_key_frame key e) as [(Ht' & Hh' & _) _].
        cbv zeta in Ht', Hh'. rewrite Ht', Hh'. auto.
      - injection Hact as <- _. exists k.
        destruct (v1_key_frame key e) as [_ (Hs' & _)].
        cbv zeta in Hs'. rewrite Hs'. auto.
      - exists (S k).
        destruct (v1_update_frame e e1 evs1 Hact)
          as (_ & _ & _ & _ & _ & _ & _ & _ & Ht' & Hh' & _).
        split; [lia|]. rewrite Ht', Hh', Ht, Hh. split; [lia|].
        destruct (decide (0 < 300 - k)%nat) as [Hlt|Hge].
        + rewrite !bool_decide_eq_true_2 by lia. reflexivity.
        + rewrite bool_decide_eq_false_2 by lia. reflexivity. }
    destruct Hstep as (k1 & Hk1 & Ht1 & Hh1).
    destruct (IH e1 k1 Hr1 Hi1 Ht1 Hh1) as (e2 & evs2 & Hrun & Ht2 & Hh2).
    exists e2, (evs1 ++ evs2). rewrite Hk1.
    split; [apply (v1_run_step a acts e e1 e2 evs1 evs2 Hact Hrun)|].
    split; assumption.
Qed.

(** X1.  [_update]'s hint timer: from the grid the timer counts the
    frames of the run down from 300, whatever key events come in
    between, and the hints are shown for the first 300 frames and never
    after. *)
Theorem v1_hints_shown_for_300_frames (cornerData : list Corner)
    (onCorner onLap : bool) (acts : list V1.Action) :
  ∃ e evs,
    V1.run acts (V1.boot cornerData onCorner onLap) = Some (e, evs) ∧
    V1.hintTimer (V1.state e) = (300 - frameCount acts)%nat ∧
    V1.showHints (V1.state e) = bool_decide (frameCount acts <= 300)%nat.
Proof.
  destruct (v1_run_hints acts (V1.boot cornerData onCorner onLap) 0)
    as (e & evs & Hrun & Ht & Hh).
  - apply v1_boot_ready.
  - apply v1_boot_inRange.
  - rewrite v1_boot_state. reflexivity.
  - rewrite v1_boot_state. reflexivity.
  - exists e, evs. split; [exact Hrun|]. split; assumption.
Qed.

(** ** First variant: [reset()] *)

(** X2.  [reset()] after any run from the grid puts the state back to
    what [init] left (position, speed and lateral offset 0, no corner, no
    demo, hints on, the same track length), and touches neither the
    track, nor the key map, nor the callbacks, nor the frame loop: a key
    read as held before the reset is held after it. *)
Theorem v1_reset_returns_to_grid (cornerData : list Corner)
    (onCorner onLap : bool) (acts : list V1.Action) :
  ∃ e evs,
    V1.run acts (V1.boot cornerData onCorner onLap) = Some (e, evs) ∧
    V1.state (V1.reset e) = V1.state (V1.boot cornerData onCorner onLap) ∧
    V1.segments (V1.reset e) = V1.segments (V1.boot cornerData onCorner onLap) ∧
    V1.input (V1.reset e) = V1.input e ∧
    V1.running (V1.reset e) = V1.running e ∧
    V1.rafId (V1.reset e) = V1.rafId e ∧
    V1.reset (V1.reset e) = V1.reset e.
Proof.
  destruct (v1_run_inRange acts _ (v1_boot_ready cornerData onCorner onLap)
              (v1_boot_inRange cornerData onCorner onLap))
    as (e & evs & Hrun & [_ Htl] & _ & Hs).
  exists e, evs. split; [exact Hrun|].
  assert (Htl' : V1.trackLength (V1.state e) = 94800).
  { rewrite Htl, Hs, v1_boot_segments, v1_track_length.
    rewrite (INR_lit 474 474) by reflexivity. unfold V1.SEGMENT_LENGTH. lra. }
  unfold V1.reset, V1.withState.
  cbn [V1.state V1.segments V1.input V1.running V1.rafId V1.trackLength].
  rewrite v1_boot_state, Htl'.
  split; [reflexivity|]. split; [exact Hs|]. repeat split; reflexivity.
Qed.

(** ** First variant: callbacks that are not installed *)

Lemma v1_run_silent (acts : list V1.Action) (e : V1.RideEngine) :
  ready e → inRange e →
  ∃ e' evs, V1.run acts e = Some (e', evs) ∧
    (V1.onLapComplete e = false → LapComplete ∉ evs) ∧
    (V1.onCornerEntered e = false → ∀ c, CornerEntered c ∉ evs).
Proof.
  revert e. induction acts as [|a acts IH]; intros e Hr Hi.
  - exists e, []. split; [reflexivity|].
    split; intros; apply not_elem_of_nil.
  - destruct (v1_act_inRange a e Hr Hi) as (e1 & evs1 & Hact & Hr1 & Hi1 & _).
    destruct (IH e1 Hr1 Hi1) as (e2 & evs2 & Hrun & Hlap2 & Hcor2).
    assert (Hstep :
      V1.onLapComplete e1 = V1.onLapComplete e ∧
      V1.onCornerEntered e1 = V1.onCornerEntered e ∧
      (V1.onLapComplete e = false → LapComplete ∉ evs1) ∧
      (V1.onCornerEntered e = false → ∀ c, CornerEntered c ∉ evs1)).
    { destruct a as [key|key|]; cbn [V1.act] in Hact.
      - injection Hact as <- <-.
        destruct (v1_key_frame key e) as [(_ & _ & Hc & Hl & _) _].
        cbv zeta in Hc, Hl. split; [exact Hl|]. split; [exact Hc|].
        split; intros; apply not_elem_of_nil.
      - injection Hact as <- <-.
        destruct (v1_key_frame key e) as [_ (_ & Hc & Hl & _)].
        cbv zeta in Hc, Hl. split; [exact Hl|]. split; [exact Hc|].
        split; intros; apply not_elem_of_nil.
      - destruct (v1_update_frame e e1 evs1 Hact)
          as (_ & _ & _ & _ & Hc & Hl & _ & _ & _ & _ & Hnl & Hnc).
        auto. }
    destruct Hstep as (Hl1 & Hc1 & Hnl & Hnc).
    exists e2, (evs1 ++ evs2).
    split; [apply (v1_run_step a acts e e1 e2 evs1 evs2 Hact Hrun)|].
    split.
    + intros Hl Hin. apply elem_of_app in Hin as [Hin|Hin].
      * exact (Hnl Hl Hin).
      * rewrite <- Hl1 in Hl. exact (Hlap2 Hl Hin).
    + intros Hc c Hin. apply elem_of_app in Hin as [Hin|Hin].
      * exact (Hnc Hc c Hin).
      * rewrite <- Hc1 in Hc. exact (Hcor2 Hc c Hin).
Qed.

(** X3.  A callback that was not installed is never called: without
    [onCornerEntered] (which [startRide] in app.js never sets) no run
    from the grid reports a corner, and without [onLapComplete] none
    reports a lap; the run goes through all the same. *)
Theorem v1_missing_callbacks_are_skipped (cornerData : list Corner)
    (acts : list V1.Action) :
  (∀ onLap, ∃ e evs,
     V1.run acts (V1.boot cornerData false onLap) = Some (e, evs) ∧
     ∀ c, CornerEntered c ∉ evs) ∧
  (∀ onCorner, ∃ e evs,
     V1.run acts (V1.boot cornerData onCorner false) = Some (e, evs) ∧
     LapComplete ∉ evs).
Proof.
  split.
  - intros onLap.
    destruct (v1_run_silent acts _ (v1_boot_ready cornerData false onLap)
                (v1_boot_inRange cornerData false onLap))
      as (e & evs & Hrun & _ & Hc).
    exists e, evs. split; [exact Hrun|]. apply Hc.
    apply (v1_boot_callbacks cornerData false onLap).
  - intros onCorner.
    destruct (v1_run_silent acts _ (v1_boot_ready cornerData onCorner false)
                (v1_boot_inRange cornerData onCorner false))
      as (e & evs & Hrun & Hl & _).
    exists e, evs. split; [exact Hrun|]. apply Hl.
    apply (v1_boot_callbacks cornerData onCorner false).
Qed.

(** ** First variant: the keys of the demo driver *)

(** X4.  The key map [demoAI] leaves never holds throttle and brake
    together, nor left and right together. *)
Theorem v1_demoAI_keys_exclusive (s : V1.State) (segs : list V1.Segment)
    (keys keys' : gmap string bool) :
  V1.demoAI s segs keys = Some keys' →
  V1.input_is keys' "ArrowUp" && V1.input_is keys' "ArrowDown" = false ∧
  V1.input_is keys' "ArrowLeft" && V1.input_is keys' "ArrowRight" = false.
Proof.
  intros Hai. unfold V1.demoAI in Hai.
  destruct (Js.floorDivMod _ _ _) as [i|]; [|discriminate Hai].
  cbn [mbind option_bind] in Hai.
  destruct (segs !! i) as [seg|]; [|discriminate Hai].
  cbn [mbind option_bind] in Hai. injection Hai as <-.
  unfold V1.input_is, Js.held.
  repeat destruct (decide _); split; by simplify_map_eq.
Qed.

Lemma v1_demoAI_keys_exclusive_witness :
  ∃ keys',
    V1.demoAI V1.createState [V1.mkSegment 0 0 0 None 0 0 0 None None]
      {["ArrowDown" := true]} = Some keys' ∧
    V1.input_is keys' "ArrowUp" && V1.input_is keys' "ArrowDown" = false.
Proof.
  assert (Hai : ∃ keys',
    V1.demoAI V1.createState [V1.mkSegment 0 0 0 None 0 0 0 None None]
      {["ArrowDown" := true]} = Some keys').
  { apply (v1_demoAI_total _ _ _ 0%nat (V1.mkSegment 0 0 0 None 0 0 0 None None));
      [|reflexivity].
    apply floorDivMod_at; [unfold V1.SEGMENT_LENGTH; lra|cbn; lia|].
    cbn [V1.position V1.createState INR]. unfold V1.SEGMENT_LENGTH. lra. }
  destruct Hai as [keys' Hai]. exists keys'. split; [exact Hai|].
  exact (proj1 (v1_demoAI_keys_exclusive _ _ _ _ Hai)).
Defined.

(** ** Second variant: every run from the grid *)

Lemma v2_act_bounded (w : Window) (a : V2.Action) (e : V2.RideEngine) :
  v2_alive e →
  V2.speed (V2.state e) <= V2.MAX_SPEED + V2.ACCELERATION →
  V2.position (V2.state e) <= V2.trackLength (V2.state e) →
  V2.MAX_SPEED + V2.ACCELERATION <= V2.trackLength (V2.state e) →
  ∃ e' evs, V2.act w a e = Some (e', evs) ∧ v2_alive e' ∧
    V2.speed (V2.state e') <= V2.MAX_SPEED + V2.ACCELERATION ∧
    V2.position (V2.state e') <= V2.trackLength (V2.state e') ∧
    V2.trackLength (V2.state e') = V2.trackLength (V2.state e) ∧
    (∀ c, CornerEntered c ∉ evs) ∧
    (appOnLapComplete w = false → evs = []).
Proof.
  intros He Hv Hp Htl. destruct a as [key|key|]; cbn [V2.act].
  - eexists _, _. split; [reflexivity|].
    unfold V2.onKeyDown, v2_alive in *.
    destruct (decide _); cbn [V2.segments V2.state V2.position V2.speed
                              V2.trackLength];
      (split; [exact He|]; split; [exact Hv|]; split; [exact Hp|];
       split; [reflexivity|]; split; [intros c; apply not_elem_of_nil|];
       reflexivity).
  - eexists _, _. split; [reflexivity|].
    unfold V2.onKeyUp, v2_alive in *. cbn [V2.segments V2.state].
    split; [exact He|]. split; [exact Hv|]. split; [exact Hp|].
    split; [reflexivity|]. split; [intros c; apply not_elem_of_nil|].
    reflexivity.
  - destruct (v2_update_shape w e He)
      as (seg & e' & v & _ & Hv0 & Hvmax & _ & Hup & Hs & _ & _ & Htl' & _ & Hv'
          & _ & Hp').
    cbv zeta in Hup, Hp', Htl'. exists e'. eexists. split; [exact Hup|].
    destruct He as (Hne & Hp0 & Hv00).
    assert (Hvb : v <= V2.MAX_SPEED + V2.ACCELERATION).
    { revert Hvmax. unfold Rmax. destruct (Rle_dec _ _); lra. }
    split; [|split; [rewrite Hv'; exact Hvb|split; [|split; [exact Htl'|]]]].
    + split; [rewrite Hs; exact Hne|]. rewrite Hp', Hv'. split; [|exact Hv0].
      destruct (bool_decide_reflect
                  (V2.position (V2.state e) + v > V2.trackLength (V2.state e)));
        lra.
    + rewrite Hp', Htl'.
      destruct (bool_decide_reflect
                  (V2.position (V2.state e) + v > V2.trackLength (V2.state e)));
        lra.
    + split.
      * intros c. destruct (_ && _); [|apply not_elem_of_nil].
        intros Hin. apply list_elem_of_singleton in Hin. discriminate Hin.
      * intros Hno. rewrite Hno, andb_false_r. reflexivity.
Qed.

Lemma v2_run_bounded (w : Window) (acts : list V2.Action) (e : V2.RideEngine) :
  v2_alive e →
  V2.speed (V2.state e) <= V2.MAX_SPEED + V2.ACCELERATION →
  V2.position (V2.state e) <= V2.trackLength (V2.state e) →
  V2.MAX_SPEED + V2.ACCELERATION <= V2.trackLength (V2.state e) →
  ∃ e' evs, V2.run w acts e = Some (e', evs) ∧ v2_alive e' ∧
    V2.speed (V2.state e') <= V2.MAX_SPEED + V2.ACCELERATION ∧
    V2.position (V2.state e') <= V2.trackLength (V2.state e') ∧
    V2.trackLength (V2.state e') = V2.trackLength (V2.state e) ∧
    (∀ c, CornerEntered c ∉ evs) ∧
    (appOnLapComplete w = false → evs = []).
Proof.
  revert e. induction acts as [|a acts IH]; intros e He Hv Hp Htl.
  - exists e, []. split; [reflexivity|]. split; [exact He|].
    split; [exact Hv|]. split; [exact Hp|]. split; [reflexivity|].
    split; [intros c; apply not_elem_of_nil|reflexivity].
  - destruct (v2_act_bounded w a e He Hv Hp Htl)
      as (e1 & evs1 & Hact & He1 & Hv1 & Hp1 & Htl1 & Hc1 & Hn1).
    destruct (IH e1 He1 Hv1 Hp1) as (e2 & evs2 & Hrun & He2 & Hv2 & Hp2 & Htl2
                                     & Hc2 & Hn2);
      [rewrite Htl1; exact Htl|].
    exists e2, (evs1 ++ evs2).
    split; [apply (v2_run_step w a acts e e1 e2 evs1 evs2 Hact Hrun)|].
    split; [exact He2|]. split; [exact Hv2|]. split; [exact Hp2|].
    split; [rewrite Htl2; exact Htl1|]. split.
    + intros c Hin. apply elem_of_app in Hin as [Hin|Hin];
        [exact (Hc1 c Hin)|exact (Hc2 c Hin)].
    + intros Hno. rewrite (Hn1 Hno), (Hn2 Hno). reflexivity.
Qed.

(** X5.  Every run of the second variant from the grid goes through
    (no lookup of a missing segment), with the speed between 0 and
    [MAX_SPEED + ACCELERATION], the position between 0 and the track
    length, both ends included, and the track length unchanged. *)
Theorem v2_runs_stay_on_track (random : nat → R) (cornerData : list Corner)
    (w : Window) (acts : list V2.Action) :
  ∃ e evs,
    V2.run w acts (V2.boot random cornerData) = Some (e, evs) ∧
    0 <= V2.speed (V2.state e) <= V2.MAX_SPEED + V2.ACCELERATION ∧
    0 <= V2.position (V2.state e) <= V2.trackLength (V2.state e) ∧
    V2.trackLength (V2.state e) = 161000.
Proof.
  destruct (v2_run_bounded w acts (V2.boot random cornerData))
    as (e & evs & Hrun & (_ & Hp0 & Hv0) & Hv & Hp & Htl & _).
  - apply v2_boot_alive.
  - rewrite v2_boot_state. cbn [V2.speed].
    unfold V2.MAX_SPEED, V2.ACCELERATION. lra.
  - rewrite v2_boot_state. cbn [V2.position V2.trackLength]. lra.
  - rewrite v2_boot_state. cbn [V2.trackLength].
    unfold V2.MAX_SPEED, V2.ACCELERATION. lra.
  - exists e, evs. split; [exact Hrun|].
    rewrite v2_boot_state in Htl. cbn [V2.trackLength] in Htl.
    split; [split; assumption|]. split; [split; assumption|exact Htl].
Qed.

(** X6.  The second variant has no corner callback: no run from the
    grid reports a corner entry.  Its lap callback is looked up on
    [window.App], not on the engine: when the page has no such object
    (app.js declares [App] with [const] and sets [onLapComplete] on the
    engine) no run reports anything. *)
Theorem v2_callbacks_never_reach_the_engine (random : nat → R)
    (cornerData : list Corner) (w : Window) (acts : list V2.Action) :
  ∃ e evs,
    V2.run w acts (V2.boot random cornerData) = Some (e, evs) ∧
    (∀ c, CornerEntered c ∉ evs) ∧
    (appOnLapComplete w = false → evs = []).
Proof.
  destruct (v2_run_bounded w acts (V2.boot random cornerData))
    as (e & evs & Hrun & _ & _ & _ & _ & Hc & Hn).
  - apply v2_boot_alive.
  - rewrite v2_boot_state. cbn [V2.speed].
    unfold V2.MAX_SPEED, V2.ACCELERATION. lra.
  - rewrite v2_boot_state. cbn [V2.position V2.trackLength]. lra.
  - rewrite v2_boot_state. cbn [V2.trackLength].
    unfold V2.MAX_SPEED, V2.ACCELERATION. lra.
  - exists e, evs. split; [exact Hrun|]. split; [exact Hc|exact Hn].
Qed.

Lemma v2_callbacks_never_reach_the_engine_witness :
  ∃ e, V2.run V2.emptyWindow [V2.KeyDown "ArrowUp"; V2.Frame]
         (V2.boot (λ _, 0) []) = Some (e, []).
Proof.
  destruct (v2_callbacks_never_reach_the_engine (λ _, 0) [] V2.emptyWindow
              [V2.KeyDown "ArrowUp"; V2.Frame]) as (e & evs & Hrun & _ & Hn).
  exists e. rewrite <- (Hn eq_refl). exact Hrun.
Defined.

(** ** First variant: the track and its scenery *)

Lemma v1_addSegments_spec (count : nat) (curve : R) (cornerIndex : option nat)
    (segments : list V1.Segment) (id : nat) :
  V1.addSegments count curve cornerIndex (segments, id)
  = (segments ++
       map (λ k, V1.mkSegment (id + k) curve 0 cornerIndex (stripe (id + k))
                   0 0 None None) (seq 0 count),
     (id + count)%nat).
Proof.
  revert segments id. induction count as [|count IH]; intros segments id.
  - cbn [V1.addSegments seq map]. rewrite app_nil_r, Nat.add_0_r. reflexivity.
  - cbn [V1.addSegments]. rewrite IH. cbn [seq map].
    rewrite <- app_assoc. cbn [app]. rewrite Nat.add_0_r.
    rewrite <- seq_shift, map_map. f_equal; [|lia].
    f_equal. f_equal. apply map_ext. intros k.
    replace (S id + k)%nat with (id + S k)%nat by lia. reflexivity.
Qed.

Lemma v1_calls_fold (calls : list (nat * R * option nat))
    (segments : list V1.Segment) :
  map V1.index segments = seq 0 (length segments) →
  Forall (λ seg, V1.color seg = stripe (V1.index seg) ∧ roadside seg = []
                 ∧ V1.camber seg = 0 ∧ V1.startY seg = 0 ∧ V1.endY seg = 0)
    segments →
  let track := fst (fold_left (λ tr '(count, curve, cornerIndex),
                                 V1.addSegments count curve cornerIndex tr)
                      calls (segments, length segments)) in
  map V1.index track = seq 0 (length track) ∧
  Forall (λ seg, V1.color seg = stripe (V1.index seg) ∧ roadside seg = []
                 ∧ V1.camber seg = 0 ∧ V1.startY seg = 0 ∧ V1.endY seg = 0)
    track ∧
  length track
  = (length segments + list_sum (map (λ c, fst (fst c)) calls))%nat.
Proof.
  revert segments. induction calls as [|[[count curve] ci] calls IH];
    intros segments Hidx Hall; cbv zeta.
  - cbn [fold_left fst map list_sum]. rewrite Nat.add_0_r. auto.
  - cbn [fold_left]. rewrite v1_addSegments_spec.
    set (new := map _ (seq 0 count)).
    assert (Hlen : length (segments ++ new) = (length segments + count)%nat).
    { subst new. rewrite length_app, length_map, length_seq. reflexivity. }
    rewrite <- Hlen.
    destruct (IH (segments ++ new)) as (Hi & Ha & Hl).
    + assert (Hnew : map V1.index new = seq (length segments) count).
      { subst new. rewrite map_map. cbn [V1.index].
        replace (seq (length segments) count)
          with (seq (length segments + 0) count) by (f_equal; lia).
        rewrite <- (fmap_add_seq (length segments) 0 count). reflexivity. }
      rewrite map_app, Hidx, Hnew, Hlen, seq_app. reflexivity.
    + apply Forall_app. split; [exact Hall|].
      subst new. apply Forall_fmap, Forall_forall. intros k _.
      unfold compose. repeat split; reflexivity.
    + cbv zeta in Hi, Ha, Hl. split; [exact Hi|]. split; [exact Ha|].
      rewrite Hl, Hlen. simpl. lia.
Qed.

Lemma v1_alter_core (f : V1.Segment → V1.Segment) (i : nat)
    (segs : list V1.Segment) :
  (∀ seg, core (f seg) = core seg) →
  map core (alter f i segs) = map core segs.
Proof.
  intros Hf. revert i. induction segs as [|seg segs IH]; intros i; [reflexivity|].
  destruct i as [|i]; cbn [alter list_alter map].
  - rewrite Hf. reflexivity.
  - f_equal. apply IH.
Qed.

(** Whatever holds of the list given to [buildScenery] and survives the
    placing of an object off the road, on either side of a segment,
    holds of its result. *)
Lemma v1_buildScenery_ind (P : list V1.Segment → Prop)
    (segs : list V1.Segment) :
  P segs →
  (∀ l i o, 1 < Rabs (V1.offset o) → P l →
     P (alter (V1.setLeft o) i l) ∧ P (alter (V1.setRight o) i l)) →
  P (V1.buildScenery segs).
Proof.
  intros Hsegs Hstep. unfold V1.buildScenery.
  set (totalSegs := Z.of_nat (length segs)).
  assert (Hboth : ∀ (ol or : V1.Obj) (positions : list Z) (l : list V1.Segment),
    1 < Rabs (V1.offset ol) → 1 < Rabs (V1.offset or) → P l →
    P (fold_left (λ segs i,
         if decide (i < totalSegs)%Z then
           alter (V1.setRight or) (Z.to_nat i)
             (alter (V1.setLeft ol) (Z.to_nat i) segs)
         else segs) positions l)).
  { intros ol or positions. induction positions as [|i positions IH];
      intros l Hol Hor Hl; [exact Hl|].
    cbn [fold_left]. apply IH; [exact Hol|exact Hor|].
    destruct (decide _); [|exact Hl].
    apply (Hstep _ _ or Hor). apply (Hstep _ _ ol Hol). exact Hl. }
  assert (Hleft : ∀ (ol : V1.Obj) (positions : list Z) (l : list V1.Segment),
    1 < Rabs (V1.offset ol) → P l →
    P (fold_left (λ segs i,
         if decide (i < totalSegs ∧ i >= 0)%Z then
           alter (V1.setLeft ol) (Z.to_nat i) segs
         else segs) positions l)).
  { intros ol positions. induction positions as [|i positions IH];
      intros l Hol Hl; [exact Hl|].
    cbn [fold_left]. apply IH; [exact Hol|].
    destruct (decide _); [|exact Hl]. apply (Hstep _ _ ol Hol). exact Hl. }
  apply Hboth;
    [cbn [V1.offset]; unfold Rabs; destruct (Rcase_abs _); lra..|].
  apply Hleft;
    [cbn [V1.offset]; unfold Rabs; destruct (Rcase_abs _); lra|].
  apply Hboth;
    [cbn [V1.offset]; unfold Rabs; destruct (Rcase_abs _); lra..|].
  exact Hsegs.
Qed.

(** X7.  [buildScenery] only writes roadside objects: on any list of
    segments it keeps the number of segments and, of each, the index,
    curvature, camber, corner index, stripe colour and heights. *)
Theorem v1_buildScenery_keeps_the_track (segs : list V1.Segment) :
  map core (V1.buildScenery segs) = map core segs ∧
  length (V1.buildScenery segs) = length segs.
Proof.
  assert (Hcore : map core (V1.buildScenery segs) = map core segs).
  { apply (v1_buildScenery_ind (λ l, map core l = map core segs));
      [reflexivity|].
    intros l i o _ Hl. split; (rewrite v1_alter_core; [exact Hl|reflexivity]). }
  split; [exact Hcore|].
  apply (f_equal length) in Hcore. rewrite !length_map in Hcore. exact Hcore.
Qed.

Lemma v1_alter_roadside (f : V1.Segment → V1.Segment) (i : nat)
    (segs : list V1.Segment) (Q : V1.Obj → Prop) :
  (∀ seg, Forall Q (roadside seg) → Forall Q (roadside (f seg))) →
  Forall (λ seg, Forall Q (roadside seg)) segs →
  Forall (λ seg, Forall Q (roadside seg)) (alter f i segs).
Proof.
  intros Hf Hall. revert i.
  induction Hall as [|seg segs Hseg Htail IH]; intros i; [constructor|].
  destruct i as [|i]; cbn [alter list_alter]; constructor.
  - apply Hf, Hseg.
  - exact Htail.
  - exact Hseg.
  - apply IH.
Qed.

Lemma v1_buildTrack_facts :
  map V1.index V1.buildTrack = seq 0 (length V1.buildTrack) ∧
  Forall (λ seg, V1.color seg = stripe (V1.index seg) ∧ roadside seg = []
                 ∧ V1.camber seg = 0 ∧ V1.startY seg = 0 ∧ V1.endY seg = 0)
    V1.buildTrack ∧
  length V1.buildTrack = list_sum (map (λ c, fst (fst c)) V1.trackCalls).
Proof.
  exact (v1_calls_fold V1.trackCalls [] eq_refl (Forall_nil_2 _)).
Qed.

(** X8.  Every roadside object of the first variant stands off the
    road: on the track the engine drives on, each object has a lateral
    offset of magnitude above 1, the edge of the road. *)
Theorem v1_scenery_stands_off_the_road :
  Forall (λ seg, Forall (λ o, 1 < Rabs (V1.offset o)) (roadside seg))
    (V1.buildScenery V1.buildTrack).
Proof.
  apply (v1_buildScenery_ind
           (Forall (λ seg, Forall (λ o, 1 < Rabs (V1.offset o)) (roadside seg)))).
  - destruct v1_buildTrack_facts as (_ & Hall & _).
    eapply Forall_impl; [exact Hall|].
    intros seg (_ & Hnone & _). rewrite Hnone. constructor.
  - intros l i o Ho Hl. split; apply v1_alter_roadside; try exact Hl.
    + intros seg Hseg. unfold roadside in *. cbn [V1.setLeft V1.objLeft V1.objRight].
      apply Forall_app in Hseg as [_ Hr].
      apply Forall_app. split; [repeat constructor; exact Ho|exact Hr].
    + intros seg Hseg. unfold roadside in *. cbn [V1.setRight V1.objLeft V1.objRight].
      apply Forall_app in Hseg as [Hl' _].
      apply Forall_app. split; [exact Hl'|repeat constructor; exact Ho].
Qed.

Lemma v1_core_projection (A : Type) (f : V1.Segment → A)
    (g : nat * R * R * option nat * nat * R * R → A)
    (track scenery : list V1.Segment) :
  (∀ seg, f seg = g (core seg)) →
  map core scenery = map core track →
  map f scenery = map f track.
Proof.
  intros Hfg Hcore.
  rewrite !(map_ext f (λ seg, g (core seg)) Hfg).
  rewrite <- !(map_map core g), Hcore. reflexivity.
Qed.

Lemma v1_core_facts (track scenery : list V1.Segment) :
  map core scenery = map core track →
  map V1.index track = seq 0 (length track) →
  Forall (λ seg, V1.color seg = stripe (V1.index seg) ∧ roadside seg = []
                 ∧ V1.camber seg = 0 ∧ V1.startY seg = 0 ∧ V1.endY seg = 0)
    track →
  map V1.index scenery = seq 0 (length scenery) ∧
  map V1.color scenery = map stripe (seq 0 (length scenery)) ∧
  Forall (λ seg, V1.camber seg = 0 ∧ V1.startY seg = 0 ∧ V1.endY seg = 0)
    scenery.
Proof.
  intros Hcore Hidx Hall.
  assert (Hl : length scenery = length track).
  { apply (f_equal length) in Hcore. rewrite !length_map in Hcore. exact Hcore. }
  rewrite Hl.
  split.
  { rewrite (v1_core_projection _ V1.index
               (λ c, fst (fst (fst (fst (fst (fst c)))))) track scenery);
      [exact Hidx|reflexivity|exact Hcore]. }
  split.
  { rewrite (v1_core_projection _ V1.color (λ c, snd (fst (fst c)))
               track scenery); [|reflexivity|exact Hcore].
    rewrite <- Hidx, map_map. apply Forall_fmap_ext_1.
    eapply Forall_impl; [exact Hall|]. intros seg (Hc & _). exact Hc. }
  assert (Hflat : map (λ seg, (V1.camber seg, V1.startY seg, V1.endY seg))
                    scenery
                  = map (λ seg, (V1.camber seg, V1.startY seg, V1.endY seg))
                      track).
  { apply (v1_core_projection _ _
             (λ c, (snd (fst (fst (fst (fst c)))), snd (fst c), snd c)));
      [reflexivity|exact Hcore]. }
  assert (Hsrc : Forall (λ t, t = (0, 0, 0))
                   (map (λ seg, (V1.camber seg, V1.startY seg, V1.endY seg))
                      track)).
  { apply Forall_fmap. eapply Forall_impl; [exact Hall|].
    intros seg (_ & _ & Hc & Hs & He). unfold compose.
    rewrite Hc, Hs, He. reflexivity. }
  rewrite <- Hflat in Hsrc. apply Forall_fmap in Hsrc.
  eapply Forall_impl; [exact Hsrc|]. intros seg Heq. unfold compose in Heq.
  injection Heq as Hc Hs He. auto.
Qed.

(** X9.  The track of the first variant has as many segments as the
    [addSegments] calls ask for; the segment at place [i] has index [i]
    and stripe colour [floor((i + 1) / 3) % 2]; all are flat and without
    camber; and the scenery pass changes none of this. *)
Theorem v1_track_indices_and_stripes :
  length (V1.buildScenery V1.buildTrack)
  = list_sum (map (λ c, fst (fst c)) V1.trackCalls) ∧
  map V1.index (V1.buildScenery V1.buildTrack)
  = seq 0 (length (V1.buildScenery V1.buildTrack)) ∧
  map V1.color (V1.buildScenery V1.buildTrack)
  = map stripe (seq 0 (length (V1.buildScenery V1.buildTrack))) ∧
  Forall (λ seg, V1.camber seg = 0 ∧ V1.startY seg = 0 ∧ V1.endY seg = 0)
    (V1.buildScenery V1.buildTrack).
Proof.
  destruct v1_buildTrack_facts as (Hidx & Hall & Hlen).
  destruct (v1_buildScenery_keeps_the_track V1.buildTrack) as [Hcore Hl].
  split; [exact (eq_trans Hl Hlen)|].
  exact (v1_core_facts V1.buildTrack (V1.buildScenery V1.buildTrack)
           Hcore Hidx Hall).
Qed.

(** ** Second variant: the track and its scenery *)

Lemma v2_push_marks (random : nat → R) (zone : V2.Zone) (idxs : list nat)
    (segments : list V2.Segment) (id draws : nat) :
  ∃ new draws',
    fold_left (V2.pushSegment random zone) idxs (segments, id, draws)
    = (segments ++ new, (id + length idxs)%nat, draws') ∧
    map V2.index new = seq id (length idxs) ∧
    Forall (λ seg, V2.color seg = stripe (V2.index seg) ∧ V2.objects seg = [])
      new ∧
    Forall2 (λ slot seg, V2.skid seg = true → slot = true)
      (map (λ i, V2.isCorner zone && bool_decide (i < 10)%nat) idxs) new.
Proof.
  revert segments id draws.
  induction idxs as [|i idxs IH]; intros segments id draws.
  - exists [], draws. cbn [fold_left length seq map]. rewrite app_nil_r, Nat.add_0_r.
    split; [reflexivity|]. split; [reflexivity|]. split; constructor.
  - cbn [fold_left]. unfold V2.pushSegment at 2.
    destruct (V2.isCorner zone && bool_decide (i < 10)%nat) eqn:Hslot.
    + destruct (IH (segments ++
        [V2.mkSegment id (V2.zoneCurve zone i) (V2.zoneCorner zone)
           ((S id / V2.RUMBLE_LENGTH) mod 2)%nat
           (bool_decide (random draws < 0.3)) []]) (S id) (S draws))
        as (new & draws' & -> & Hidx & Hall & Hskid).
      eexists (_ :: new), draws'. rewrite <- app_assoc. cbn [app length seq map].
      split; [f_equal; f_equal; lia|]. split; [cbn [V2.index]; rewrite Hidx; reflexivity|].
      split.
      * constructor; [split; reflexivity|exact Hall].
      * constructor; [rewrite Hslot; reflexivity|exact Hskid].
    + destruct (IH (segments ++
        [V2.mkSegment id (V2.zoneCurve zone i) (V2.zoneCorner zone)
           ((S id / V2.RUMBLE_LENGTH) mod 2)%nat false []]) (S id) draws)
        as (new & draws' & -> & Hidx & Hall & Hskid).
      eexists (_ :: new), draws'. rewrite <- app_assoc. cbn [app length seq map].
      split; [f_equal; f_equal; lia|]. split; [cbn [V2.index]; rewrite Hidx; reflexivity|].
      split.
      * constructor; [split; reflexivity|exact Hall].
      * constructor; [cbn [V2.skid]; intros H; discriminate H|exact Hskid].
Qed.

Lemma v2_build_marks (random : nat → R) (zones : list V2.Zone)
    (segments : list V2.Segment) (id draws : nat) :
  ∃ new draws',
    fold_left (λ st zone,
                 fold_left (V2.pushSegment random zone)
                   (seq 0 (Z.to_nat (V2.len zone))) st)
      zones (segments, id, draws)
    = (segments ++ new, (id + length new)%nat, draws') ∧
    map V2.index new = seq id (length new) ∧
    Forall (λ seg, V2.color seg = stripe (V2.index seg) ∧ V2.objects seg = [])
      new ∧
    Forall2 (λ slot seg, V2.skid seg = true → slot = true) (skidSlots zones) new.
Proof.
  revert segments id draws.
  induction zones as [|zone zones IH]; intros segments id draws.
  - exists [], draws. cbn [fold_left length seq map skidSlots flat_map].
    rewrite app_nil_r, Nat.add_0_r.
    split; [reflexivity|]. split; [reflexivity|]. split; constructor.
  - cbn [fold_left].
    destruct (v2_push_marks random zone (seq 0 (Z.to_nat (V2.len zone)))
                segments id draws) as (new1 & draws1 & -> & Hi1 & Ha1 & Hs1).
    assert (Hl1 : length new1 = length (seq 0 (Z.to_nat (V2.len zone)))).
    { apply (f_equal length) in Hi1. rewrite length_map, length_seq in Hi1.
      exact Hi1. }
    rewrite <- Hl1 in *.
    destruct (IH (segments ++ new1) (id + length new1)%nat draws1)
      as (new2 & draws2 & -> & Hi2 & Ha2 & Hs2).
    exists (new1 ++ new2), draws2. rewrite <- app_assoc, length_app.
    split; [f_equal; f_equal; lia|].
    split; [rewrite map_app, Hi1, Hi2, seq_app; reflexivity|].
    split; [apply Forall_app; split; assumption|].
    cbn [skidSlots flat_map]. apply Forall2_app; assumption.
Qed.

(** Each segment that [populate] returns is the segment it was given at
    that place, passed through [populateSegment] with the place as
    index. *)
Lemma v2_populate_lookup (random : nat → R) (id : nat)
    (segments : list V2.Segment) (i draws k : nat) (seg' : V2.Segment) :
  V2.populate random id i segments draws !! k = Some seg' →
  ∃ seg d, segments !! k = Some seg ∧
           seg' = fst (V2.populateSegment random id (i + k) seg d).
Proof.
  revert i draws k. induction segments as [|seg rest IH]; intros i draws k Hk.
  - discriminate Hk.
  - cbn [V2.populate] in Hk.
    destruct (V2.populateSegment random id i seg draws) as [seg1 draws1] eqn:Hp.
    destruct k as [|k].
    + injection Hk as <-. exists seg, draws. rewrite Nat.add_0_r, Hp.
      split; reflexivity.
    + cbn [lookup list_lookup] in Hk.
      destruct (IH (S i) draws1 k Hk) as (seg0 & d & Hseg0 & ->).
      exists seg0, d. split; [exact Hseg0|].
      replace (i + S k)%nat with (S i + k)%nat by lia. reflexivity.
Qed.

Lemma v2_populate_length (random : nat → R) (id : nat)
    (segments : list V2.Segment) (i draws : nat) :
  length (V2.populate random id i segments draws) = length segments.
Proof.
  revert i draws. induction segments as [|seg rest IH]; intros i draws;
    [reflexivity|].
  cbn [V2.populate].
  destruct (V2.populateSegment random id i seg draws) as [seg1 draws1].
  cbn [length]. rewrite IH. reflexivity.
Qed.

(** The built track, segment by segment: what the first pass pushed and
    the second pass populated. *)
Lemma v2_track_lookup (zones : list V2.Zone) (random : nat → R) (k : nat)
    (seg' : V2.Segment) :
  V2.buildTrackFrom zones random !! k = Some seg' →
  ∃ seg d slot,
    seg' = fst (V2.populateSegment random
                  (length (V2.buildTrackFrom zones random)) k seg d) ∧
    V2.index seg = k ∧
    V2.color seg = stripe k ∧
    V2.objects seg = [] ∧
    skidSlots zones !! k = Some slot ∧
    (V2.skid seg = true → slot = true).
Proof.
  unfold V2.buildTrackFrom, V2.buildSegments.
  destruct (v2_build_marks random zones [] 0%nat 0%nat)
    as (new & draws & -> & Hidx & Hall & Hskid).
  cbn [app Nat.add]. rewrite v2_populate_length. intros Hk.
  destruct (v2_populate_lookup random _ new 0 draws k seg' Hk)
    as (seg & d & Hseg & ->).
  cbn [Nat.add].
  destruct (Forall2_lookup_r _ _ _ k seg Hskid Hseg) as (slot & Hslot & Himp).
  assert (Hi : V2.index seg = k).
  { assert (Hm : map V2.index new !! k = Some (V2.index seg))
      by (rewrite list_lookup_fmap, Hseg; reflexivity).
    rewrite Hidx in Hm. apply lookup_seq in Hm as [Hm _]. cbn in Hm. auto. }
  rewrite Forall_forall in Hall.
  destruct (Hall seg) as [Hc Ho]; [eapply list_elem_of_lookup_2; exact Hseg|].
  exists seg, d, slot. rewrite Hc, Hi.
  split; [reflexivity|]. split; [reflexivity|]. split; [reflexivity|].
  split; [exact Ho|]. split; [exact Hslot|exact Himp].
Qed.

(** X10.  The track of the second variant: the segment at place [i] has
    index [i] and stripe colour [floor((i + 1) / 3) % 2], and skid marks
    appear only within the first ten segments of a corner zone. *)
Theorem v2_track_indices_stripes_and_skids (zones : list V2.Zone)
    (random : nat → R) (i : nat) (seg : V2.Segment) :
  V2.buildTrackFrom zones random !! i = Some seg →
  V2.index seg = i ∧
  V2.color seg = stripe i ∧
  (V2.skid seg = true → skidSlots zones !! i = Some true).
Proof.
  intros Hseg.
  destruct (v2_track_lookup zones random i seg Hseg)
    as (seg0 & d & slot & -> & Hi & Hc & _ & Hslot & Hskid).
  unfold V2.populateSegment.
  destruct (bool_decide (i mod 8 = 0)%nat);
    cbn [fst V2.index V2.color V2.skid];
    (split; [exact Hi|]; split; [exact Hc|];
     intros Hs; rewrite Hslot, (Hskid Hs); reflexivity).
Qed.

Lemma v2_track_indices_stripes_and_skids_witness :
  ∃ seg, V2.buildTrack (λ _, 0) !! 55%nat = Some seg ∧ V2.index seg = 55%nat.
Proof.
  destruct (v2_segment_at (λ _, 0) 1 5 55 (V2.corner 35 1.6 1))
    as (seg & Hseg & _); [reflexivity|vm_compute; lia|reflexivity|].
  exists seg. split; [exact Hseg|]. unfold V2.buildTrack in Hseg.
  exact (proj1 (v2_track_indices_stripes_and_skids V2.TRACK_ZONES (λ _, 0) 55
                  seg Hseg)).
Defined.

(** X11.  The object types on a segment of the second variant's track
    are decided by its place, the number of segments and whether it lies
    in a corner: a tree on every eighth segment, a grandstand on every
    fifteenth within the first 60, between 250 and 350 and within the
    last 100, a sponsor board on every tenth segment of a corner, in
    this order. *)
Theorem v2_object_types_by_place (zones : list V2.Zone) (random : nat → R)
    (i : nat) (seg : V2.Segment) :
  V2.buildTrackFrom zones random !! i = Some seg →
  kinds seg
  = kindsAt (length (V2.buildTrackFrom zones random)) i (V2.cornerIndex seg).
Proof.
  intros Hseg.
  destruct (v2_track_lookup zones random i seg Hseg)
    as (seg0 & d & slot & -> & _ & _ & Ho & _).
  unfold V2.populateSegment, kinds, kindsAt.
  destruct (bool_decide (i mod 8 = 0)%nat);
    cbn [fst V2.objects V2.cornerIndex]; rewrite Ho;
    repeat match goal with
           | |- context [if ?b then [?x] else []] => destruct b
           end; reflexivity.
Qed.

Lemma v2_object_types_by_place_witness :
  ∃ seg, V2.buildTrack (λ _, 0) !! 55%nat = Some seg ∧
         kinds seg = kindsAt 805 55 (V2.cornerIndex seg).
Proof.
  destruct (v2_segment_at (λ _, 0) 1 5 55 (V2.corner 35 1.6 1))
    as (seg & Hseg & _); [reflexivity|vm_compute; lia|reflexivity|].
  exists seg. split; [exact Hseg|].
  rewrite <- (v2_track_805_from (λ _, 0)). unfold V2.buildTrack in Hseg.
  exact (v2_object_types_by_place V2.TRACK_ZONES (λ _, 0) 55 seg Hseg).
Defined.

(** X12.  With draws in [[0, 1)], as [Math.random] gives them, every
    object of the second variant's track stands off the road: trees at
    an offset of magnitude between 1.3 and 2.3, grandstands at -2.5,
    sponsor boards at 1.3. *)
Theorem v2_scenery_stands_off_the_road (zones : list V2.Zone)
    (random : nat → R) :
  (∀ n, 0 <= random n < 1) →
  Forall (λ seg, Forall (λ o, 1.3 <= Rabs (V2.offset o) <= 2.5) (V2.objects seg))
    (V2.buildTrackFrom zones random).
Proof.
  intros Hrand. apply Forall_lookup. intros i seg Hseg.
  destruct (v2_track_lookup zones random i seg Hseg)
    as (seg0 & d & slot & -> & _ & _ & Ho & _).
  unfold V2.populateSegment.
  pose proof (Hrand d) as Hd. pose proof (Hrand (S d)) as Hd'.
  assert (Htree : 1.3 <= Rabs ((if decide (random d > 0.5) then 1.8 else -1.8)
                               + random (S d) * 0.5) <= 2.5).
  { destruct (decide _); unfold Rabs; destruct (Rcase_abs _); lra. }
  assert (Hstand : 1.3 <= Rabs (-2.5) <= 2.5)
    by (unfold Rabs; destruct (Rcase_abs _); lra).
  assert (Hboard : 1.3 <= Rabs 1.3 <= 2.5)
    by (unfold Rabs; destruct (Rcase_abs _); lra).
  destruct (bool_decide (i mod 8 = 0)%nat);
    cbn [fst V2.objects]; rewrite Ho; cbn [app];
    repeat match goal with
           | |- context [if ?b then [?x] else []] => destruct b
           end;
    cbn [app];
    repeat first [ apply Forall_nil_2 | apply Forall_cons_2; [assumption|] ].
Qed.

Lemma v2_scenery_stands_off_the_road_witness :
  Forall (λ seg, Forall (λ o, 1.3 <= Rabs (V2.offset o) <= 2.5) (V2.objects seg))
    (V2.buildTrack (λ _, 0)).
Proof.
  unfold V2.buildTrack.
  apply (v2_scenery_stands_off_the_road V2.TRACK_ZONES (λ _, 0)).
  intros n. lra.
Defined.

(** * The page of app.js *)

Lemma app_corners_numbered (i : nat) (c : Corner) :
  AppJs.CORNERS_DATA !! i = Some c → number c = S i.
Proof.
  intros H. do 12 (destruct i as [|i]; [injection H as <-; reflexivity|]).
  discriminate H.
Qed.

Lemma app_findIndex_numbered (cs : list Corner) (i : nat) (c : Corner) :
  NoDup (map number cs) → cs !! i = Some c →
  Js.findIndex (λ c', number c' = number c) cs = Z.of_nat i.
Proof.
  intros Hnd Hi. unfold Js.findIndex.
  destruct (list_find _ cs) as [[j c']|] eqn:Hf.
  - apply list_find_Some in Hf as (Hj & Hn & _). f_equal.
    apply (NoDup_lookup (map number cs) j i (number c)); [exact Hnd| |].
    + rewrite list_lookup_fmap, Hj. cbn. f_equal. exact Hn.
    + rewrite list_lookup_fmap, Hi. reflexivity.
  - apply list_find_None in Hf. rewrite Forall_forall in Hf.
    exfalso. apply (Hf c); [|reflexivity].
    apply list_elem_of_lookup. exists i. exact Hi.
Qed.

Lemma app_corners_NoDup : NoDup (map number AppJs.CORNERS_DATA).
Proof.
  apply (bool_decide_unpack (NoDup (map number AppJs.CORNERS_DATA))).
  vm_compute. exact I.
Qed.

Lemma app_item_at {A : Type} (l : list A) (i : nat) :
  Js.item l (Z.of_nat i) = l !! i.
Proof.
  unfold Js.item. destruct (decide _); [lia|]. rewrite Nat2Z.id. reflexivity.
Qed.

(** The index [navCorner] moves to. *)
Lemma app_nav_index (len i : nat) (dir : Z) :
  (i < len)%nat → (dir = 1 ∨ dir = -1)%Z →
  Js.rem (Z.of_nat i + dir + Z.of_nat len) (Z.of_nat len)
  = Some (Z.of_nat (Z.to_nat ((Z.of_nat i + dir) mod Z.of_nat len))).
Proof.
  intros Hi Hdir. unfold Js.rem. destruct (decide _); [lia|]. f_equal.
  rewrite Z.rem_mod_nonneg by lia.
  rewrite Z2Nat.id by (apply Z.mod_pos_bound; lia).
  replace (Z.of_nat i + dir + Z.of_nat len)%Z
    with (Z.of_nat i + dir + 1 * Z.of_nat len)%Z by lia.
  rewrite Z.mod_add by lia. reflexivity.
Qed.

Lemma app_navCorner_spec (a : AppJs.App) (i : nat) (c : Corner) (dir : Z) :
  NoDup (map number (AppJs.corners a)) →
  AppJs.selectedCorner a = Some c → AppJs.corners a !! i = Some c →
  (dir = 1 ∨ dir = -1)%Z →
  let j := Z.to_nat ((Z.of_nat i + dir) mod Z.of_nat (length (AppJs.corners a))) in
  (j < length (AppJs.corners a))%nat ∧
  AppJs.navCorner dir a
  = c' ← AppJs.corners a !! j; Some (AppJs.withSelected a (Some c')).
Proof.
  intros Hnd Hsel Hi Hdir j.
  pose proof (lookup_lt_Some _ _ _ Hi) as Hlen.
  assert (Hj : (j < length (AppJs.corners a))%nat).
  { unfold j. pose proof (Z.mod_pos_bound (Z.of_nat i + dir)
      (Z.of_nat (length (AppJs.corners a)))). lia. }
  split; [exact Hj|].
  unfold AppJs.navCorner. rewrite Hsel.
  rewrite (app_findIndex_numbered _ i c Hnd Hi).
  rewrite (app_nav_index _ i dir Hlen Hdir). cbn [mbind option_bind].
  rewrite app_item_at. reflexivity.
Qed.

Lemma app_withSelected_same (a : AppJs.App) (c : Corner) (c' : option Corner) :
  AppJs.selectedCorner a = Some c →
  AppJs.withSelected (AppJs.withSelected a c') (Some c) = a.
Proof. destruct a. cbn. intros ->. reflexivity. Qed.

Lemma app_nav_back (len i : nat) (dir : Z) :
  (i < len)%nat →
  ((Z.of_nat (Z.to_nat ((Z.of_nat i + dir) mod Z.of_nat len)) + - dir)
     mod Z.of_nat len = Z.of_nat i)%Z.
Proof.
  intros Hi.
  rewrite Z2Nat.id by (apply Z.mod_pos_bound; lia).
  rewrite Zplus_mod_idemp_l.
  replace (Z.of_nat i + dir + - dir)%Z with (Z.of_nat i) by lia.
  apply Z.mod_small. lia.
Qed.

Lemma Int_part_random (r : R) (n : nat) :
  0 <= r < 1 → (0 < n)%nat →
  ∃ i, Int_part (r * INR n) = Z.of_nat i ∧ (i < n)%nat.
Proof.
  intros [Hr0 Hr1] Hn.
  assert (Hn' : 0 < INR n) by (apply lt_0_INR; exact Hn).
  destruct (base_Int_part (r * INR n)) as [Hle Hgt].
  assert (H0 : (-1 < Int_part (r * INR n))%Z).
  { apply lt_IZR. assert (0 <= r * INR n) by (apply Rmult_le_pos; lra). lra. }
  assert (H1 : (Int_part (r * INR n) < Z.of_nat n)%Z).
  { apply lt_IZR. rewrite <- INR_IZR_INZ.
    assert (r * INR n < 1 * INR n) by (apply Rmult_lt_compat_r; lra). lra. }
  exists (Z.to_nat (Int_part (r * INR n))). split; lia.
Qed.

Lemma app_item_random (r : R) (l : list string) :
  0 <= r < 1 → l ≠ [] →
  is_Some (Js.item l (Int_part (r * INR (length l)))).
Proof.
  intros Hr Hl.
  destruct (Int_part_random r (length l) Hr) as (i & -> & Hi).
  { destruct l; [done|cbn; lia]. }
  rewrite app_item_at. apply lookup_lt_is_Some_2. exact Hi.
Qed.

Lemma app_corner_random (r : R) :
  0 <= r < 1 →
  ∃ c, Js.item AppJs.CORNERS_DATA (Int_part (r * INR (length AppJs.CORNERS_DATA)))
       = Some c ∧ c ∈ AppJs.CORNERS_DATA.
Proof.
  intros Hr.
  destruct (Int_part_random r (length AppJs.CORNERS_DATA) Hr) as (i & -> & Hi).
  { cbn. lia. }
  rewrite app_item_at.
  destruct (lookup_lt_is_Some_2 _ _ Hi) as [c Hc].
  exists c. split; [exact Hc|]. apply list_elem_of_lookup. exists i. exact Hc.
Qed.

(** A question is asked while rounds are left. *)
Lemma app_nextQuiz_asks (random : nat → R) (a : AppJs.App) (p : AppJs.Page) :
  (∀ n, 0 <= random n < 1) →
  AppJs.corners a = AppJs.CORNERS_DATA →
  (AppJs.quizRound a < AppJs.quizMaxRounds a)%nat →
  ∃ c, c ∈ AppJs.CORNERS_DATA ∧
    AppJs.nextQuizQuestion random (a, p)
    = Some (AppJs.withQuiz a (S (AppJs.quizRound a)) (AppJs.quizScore a) (Some c),
            AppJs.withDraws p (S (S (AppJs.draws p)))).
Proof.
  intros Hrand Hc Hround. unfold AppJs.nextQuizQuestion.
  destruct (decide _) as [Hge|_]; [lia|]. rewrite Hc.
  destruct (app_corner_random (random (AppJs.draws p)) (Hrand _))
    as (c & -> & Hin).
  destruct (app_item_random (random (S (AppJs.draws p))) AppJs.clueTypes
              (Hrand _)) as [clue ->]; [done|].
  exists c. split; [exact Hin|reflexivity].
Qed.

(** The invariant does not read the pending callbacks, the engines or
    the draws made. *)
Lemma app_inv_page (a : AppJs.App) (p p' : AppJs.Page) :
  AppJs.intervals p' = AppJs.intervals p →
  (AppJs.lastTimer p <= AppJs.lastTimer p')%nat →
  appInv (a, p) → appInv (a, p').
Proof.
  intros Hi Hl (Hc & Hs & Hmax & Hstep & Hint & Hh & Hmode & Hquiz & Hqc).
  unfold appInv. cbn [fst snd] in *. rewrite Hi.
  split_and!; try assumption; try reflexivity; try lia.
  intros h Hw. specialize (Hh h Hw). lia.
Qed.

Lemma app_inv_select (a : AppJs.App) (p : AppJs.Page) (c : Corner) :
  c ∈ AppJs.CORNERS_DATA → appInv (a, p) →
  appInv (AppJs.withSelected a (Some c), p).
Proof.
  intros Hin (Hc & Hs & Hmax & Hstep & Hint & Hh & Hmode & Hquiz & Hqc).
  unfold appInv. cbn [fst snd] in *. destruct a; cbn in *.
  split_and!; try assumption; try reflexivity; try lia. exists c. split; [reflexivity|exact Hin].
Qed.

Lemma app_inv_engine (a : AppJs.App) (p : AppJs.Page) (e : option nat) :
  appInv (a, p) → appInv (AppJs.withEngine a e, p).
Proof.
  intros (Hc & Hs & Hmax & Hstep & Hint & Hh & Hmode & Hquiz & Hqc).
  unfold appInv. cbn [fst snd] in *. destruct a; cbn in *.
  split_and!; try assumption; try reflexivity; lia.
Qed.

Lemma app_navCorner_inv (dir : Z) (a : AppJs.App) (p : AppJs.Page) :
  (dir = 1 ∨ dir = -1)%Z → appInv (a, p) →
  ∃ a', AppJs.navCorner dir a = Some a' ∧ appInv (a', p).
Proof.
  intros Hdir Hinv.
  pose proof Hinv as (Hc & (c & Hs & Hin) & _). cbn [fst snd] in *.
  apply list_elem_of_lookup in Hin as [i Hi]. rewrite <- Hc in Hi.
  destruct (app_navCorner_spec a i c dir) as [Hj ->];
    [rewrite Hc; exact app_corners_NoDup|exact Hs|exact Hi|exact Hdir|].
  destruct (lookup_lt_is_Some_2 _ _ Hj) as [c' Hc']. rewrite Hc'.
  eexists. split; [reflexivity|]. apply app_inv_select; [|exact Hinv].
  rewrite <- Hc. apply list_elem_of_lookup. eexists. exact Hc'.
Qed.

Lemma app_nextQuiz_inv (random : nat → R) (a : AppJs.App) (p : AppJs.Page) :
  (∀ n, 0 <= random n < 1) → appInv (a, p) →
  ∃ w, AppJs.nextQuizQuestion random (a, p) = Some w ∧ appInv w.
Proof.
  intros Hrand Hinv.
  pose proof Hinv as (Hc & Hs & Hmax & Hstep & Hint & Hh & Hmode & Hquiz & Hqc).
  cbn [fst snd] in *.
  destruct (decide (AppJs.quizRound a < AppJs.quizMaxRounds a)%nat) as [Hlt|Hge].
  - destruct (app_nextQuiz_asks random a p Hrand Hc Hlt) as (c & Hin & ->).
    eexists. split; [reflexivity|].
    unfold appInv. cbn [fst snd]. destruct a, p; cbn in *.
    split_and!; try assumption; try reflexivity; try lia.
    intros c' [= <-]. exact Hin.
  - exists (a, p). split; [|exact Hinv].
    unfold AppJs.nextQuizQuestion. destruct (decide _); [reflexivity|lia].
Qed.

Lemma app_startQuiz_inv (random : nat → R) (a : AppJs.App) (p : AppJs.Page) :
  (∀ n, 0 <= random n < 1) → appInv (a, p) →
  ∃ w, AppJs.startQuiz random (a, p) = Some w ∧ appInv w.
Proof.
  intros Hrand (Hc & Hs & Hmax & Hstep & Hint & Hh & Hmode & Hquiz & Hqc).
  cbn [fst snd] in *. unfold AppJs.startQuiz.
  destruct (app_nextQuiz_asks random
              (AppJs.withQuiz a 0 0 (AppJs.quizCorrect a)) p Hrand)
    as (c & Hin & ->).
  { destruct a; exact Hc. }
  { destruct a; cbn in *. lia. }
  eexists. split; [reflexivity|].
  unfold appInv. cbn [fst snd]. destruct a, p; cbn in *.
  split_and!; try assumption; try reflexivity; try lia.
  intros c' [= <-]. exact Hin.
Qed.

Lemma app_handleQuizAnswer_inv (n : nat) (w : AppJs.App * AppJs.Page) :
  appInv w → appInv (AppJs.handleQuizAnswer n w).
Proof.
  destruct w as [a p].
  intros (Hc & Hs & Hmax & Hstep & Hint & Hh & Hmode & Hquiz & Hqc).
  cbn [fst snd] in *. unfold AppJs.handleQuizAnswer.
  destruct (AppJs.quizCorrect a) as [c|] eqn:Hq.
  - unfold appInv. cbn [fst snd]. destruct a, p; cbn in *. subst.
    split_and!; try assumption; try reflexivity; try lia.
    + intros h Hw. specialize (Hh h Hw). lia.
    + destruct (decide _); cbn in *; lia.
    + intros c' [=].
  - unfold appInv. cbn [fst snd]. rewrite Hq.
    split_and!; try assumption; try reflexivity; lia.
Qed.

Lemma app_walkTick_inv (a : AppJs.App) (p : AppJs.Page) :
  appInv (a, p) →
  ∃ a', AppJs.walkTick a = Some a' ∧ appInv (a', p).
Proof.
  intros Hinv.
  pose proof Hinv as (Hc & Hs & Hmax & Hstep & _). cbn [fst snd] in *.
  unfold AppJs.walkTick, Js.rem. rewrite Hc.
  destruct (decide _) as [H0|_]; [discriminate H0|]. cbn [mbind option_bind].
  set (i := Z.rem _ _).
  assert (Hi : (0 <= i < 12)%Z).
  { unfold i. rewrite Z.rem_mod_nonneg by (cbn; lia).
    apply Z.mod_pos_bound. cbn. lia. }
  replace (Js.item AppJs.CORNERS_DATA i)
    with (AppJs.CORNERS_DATA !! Z.to_nat i)
    by (rewrite <- app_item_at, Z2Nat.id by lia; reflexivity).
  destruct (lookup_lt_is_Some_2 AppJs.CORNERS_DATA (Z.to_nat i)) as [c Hlk].
  { cbn. lia. }
  rewrite Hlk. eexists. split; [reflexivity|].
  apply app_inv_select.
  { apply list_elem_of_lookup. eexists. exact Hlk. }
  destruct Hinv as (_ & Hs' & _ & _ & Hint & Hh & Hmode & Hquiz & Hqc).
  unfold appInv. cbn [fst snd] in *. destruct a; cbn in *.
  split_and!; try assumption; try reflexivity; lia.
Qed.

Lemma app_rideFrame_inv (w : AppJs.App * AppJs.Page) :
  appInv w → appInv (AppJs.rideFrame w).
Proof.
  destruct w as [a p]. intros Hinv. unfold AppJs.rideFrame.
  apply app_inv_engine. eapply app_inv_page; [| |exact Hinv]; reflexivity.
Qed.

(** Once the walkthrough timer is cleared, the invariant holds in every
    mode but the walkthrough. *)
Lemma app_inv_cleared (a : AppJs.App) (p : AppJs.Page) (m : string) :
  m ≠ "walkthrough" → AppJs.walkTimer a = None →
  appInv (AppJs.withMode a "explore", p) → appInv (AppJs.withMode a m, p).
Proof.
  intros Hm Hw (Hc & Hs & Hmax & Hstep & Hint & Hh & Hmode & Hquiz & Hqc).
  unfold appInv. cbn [fst snd] in *. destruct a; cbn in *. subst.
  split_and!; try assumption; try reflexivity; try lia.
  split; [intros [? [=]]|intros ->; done].
Qed.

Lemma app_startWalkthrough_inv (a : AppJs.App) (p : AppJs.Page) :
  AppJs.walkTimer a = None →
  appInv (AppJs.withMode a "explore", p) →
  ∃ w, AppJs.startWalkthrough (AppJs.withMode a "walkthrough", p) = Some w ∧
       appInv w ∧ AppJs.mode (fst w) = "walkthrough".
Proof.
  intros Hw (Hc & Hs & Hmax & Hstep & Hint & Hh & Hmode & Hquiz & Hqc).
  unfold appInv, AppJs.startWalkthrough. cbn [fst snd] in *.
  destruct a, p; cbn in *. subst. cbn.
  eexists. split; [reflexivity|]. cbn.
  split_and!; try assumption; try reflexivity; try lia.
  - eexists. split; [reflexivity|]. apply list_elem_of_here.
  - intros h [= <-]. lia.
  - split; [reflexivity|]. intros _. eexists. reflexivity.
Qed.

Lemma app_switchMode_inv (random : nat → R) (m : string)
    (w : AppJs.App * AppJs.Page) :
  (∀ n, 0 <= random n < 1) →
  m ∈ ["ride"; "explore"; "walkthrough"; "quiz"] → appInv w →
  ∃ w', AppJs.switchMode random m w = Some w' ∧ appInv w' ∧
        AppJs.mode (fst w') = m.
Proof.
  intros Hrand Hm Hinv. destruct w as [a p]. unfold AppJs.switchMode.
  match goal with
  | |- context [let '(a1, p1) := ?X in _] => destruct X as [a1 p1] eqn:H1
  end.
  assert (Hinv1 : appInv (a1, p1)).
  { destruct (AppJs.engine a); [destruct (decide _)|]; injection H1 as <- <-;
      exact Hinv. }
  clear H1 Hinv.
  match goal with
  | |- context [let '(a2, p2) := ?X in _] => destruct X as [a2 p2] eqn:H2
  end.
  assert (Hpre : AppJs.walkTimer a2 = None ∧
                 appInv (AppJs.withMode a2 "explore", p2)).
  { destruct Hinv1 as (Hc & Hs & Hmax & Hstep & Hint & Hh & Hmode & Hquiz & Hqc).
    unfold appInv. cbn [fst snd] in *.
    destruct (AppJs.walkTimer a1) as [[|h]|] eqn:Hw; injection H2 as <- <-;
      destruct a1, p1; cbn in *; subst.
    - specialize (Hh 0%nat eq_refl). lia.
    - split; [reflexivity|].
      split_and!; try assumption; try reflexivity; try lia.
      + cbn. rewrite decide_False by (intros Hne; apply Hne; reflexivity).
        reflexivity.
      + intros h' [=].
      + split; [intros [? [=]]|intros [=]].
    - split; [reflexivity|].
      split_and!; try assumption; try reflexivity; try lia.
      split; [intros [? [=]]|intros [=]]. }
  clear H2 Hinv1. destruct Hpre as [Hw Hpre].
  rewrite !elem_of_cons, elem_of_nil in Hm.
  destruct Hm as [-> | [-> | [-> | [-> | []]]]];
    repeat match goal with
           | |- context [decide (?x = ?y)] =>
               destruct (decide (x = y)) as [Heq|Hne];
               [try discriminate Heq; clear Heq
               |try (exfalso; apply Hne; reflexivity); clear Hne]
           end;
    cbn [mbind option_bind option_ret mret fst snd].
  - eexists. split; [reflexivity|]. split; [|destruct a2; reflexivity].
    eapply app_inv_page; [| |apply (app_inv_cleared a2 p2 "ride"); done];
      reflexivity.
  - pose proof (app_inv_cleared a2 p2 "explore") as Hinv.
    specialize (Hinv ltac:(done) Hw Hpre).
    pose proof Hinv as (_ & (c & Hs & Hin) & _).
    cbn [fst snd AppJs.selectedCorner AppJs.withMode] in Hs.
    replace (AppJs.selectedCorner (AppJs.withMode a2 "explore"))
      with (Some c) by (rewrite <- Hs; destruct a2; reflexivity).
    cbn. eexists. split; [reflexivity|].
    split; [|destruct a2; reflexivity].
    apply app_inv_select; assumption.
  - destruct (app_startWalkthrough_inv a2 p2 Hw Hpre) as (w' & Hsw & Hinv & Hmd).
    rewrite Hsw. cbn. exists w'. split; [reflexivity|]. split; assumption.
  - destruct (app_startQuiz_inv random (AppJs.withMode a2 "quiz") p2 Hrand)
      as (w' & Hsq & Hinv).
    { apply app_inv_cleared; done. }
    rewrite Hsq. exists w'. split; [reflexivity|]. split; [exact Hinv|].
    revert Hsq. unfold AppJs.startQuiz, AppJs.nextQuizQuestion.
    destruct (decide _); [intros [= <-]; destruct a2; reflexivity|].
    destruct (Js.item AppJs.clueTypes _);
      [destruct (Js.item (AppJs.corners _) _); cbn|];
      intros [= <-]; destruct a2; reflexivity.
Qed.

Lemma app_onKeyDown_inv (random : nat → R) (key : string)
    (w : AppJs.App * AppJs.Page) :
  (∀ n, 0 <= random n < 1) → appInv w →
  ∃ w', AppJs.onKeyDown random key w = Some w' ∧ appInv w'.
Proof.
  intros Hrand Hinv. unfold AppJs.onKeyDown.
  assert (H1 : ∃ w1,
    (if decide (key = "Escape" ∧ AppJs.mode (fst w) = "ride")
     then AppJs.switchMode random "explore" w else Some w) = Some w1 ∧
    appInv w1).
  { destruct (decide _); [|eauto].
    destruct (app_switchMode_inv random "explore" w Hrand) as (w' & ? & ? & _);
      [repeat constructor|exact Hinv|eauto]. }
  destruct H1 as (w1 & -> & Hinv1). cbn [mbind option_bind]. clear Hinv.
  assert (H2 : ∃ w2,
    (if decide ((key = "r" ∨ key = "R") ∧ AppJs.mode (fst w1) ≠ "ride")
     then AppJs.switchMode random "ride" w1 else Some w1) = Some w2 ∧
    appInv w2).
  { destruct (decide _); [|eauto].
    destruct (app_switchMode_inv random "ride" w1 Hrand) as (w' & ? & ? & _);
      [repeat constructor|exact Hinv1|eauto]. }
  destruct H2 as (w2 & -> & Hinv2). cbn [mbind option_bind]. clear Hinv1.
  assert (H3 : ∃ w3,
    (if decide (key = "ArrowLeft" ∧ AppJs.mode (fst w2) = "explore")
     then a ← AppJs.navCorner (-1) (fst w2); Some (a, snd w2) else Some w2)
    = Some w3 ∧ appInv w3).
  { destruct (decide _); [|eauto]. destruct w2 as [a2 p2].
    destruct (app_navCorner_inv (-1) a2 p2) as (a' & Hn & ?);
      [right; reflexivity|exact Hinv2|].
    cbn [fst snd]. rewrite Hn. eauto. }
  destruct H3 as (w3 & -> & Hinv3). cbn [mbind option_bind]. clear Hinv2.
  destruct (decide _); [|eauto]. destruct w3 as [a3 p3].
  destruct (app_navCorner_inv 1 a3 p3) as (a' & Hn & ?);
    [left; reflexivity|exact Hinv3|].
  cbn [fst snd]. rewrite Hn. eauto.
Qed.

Lemma app_act_inv (random : nat → R) (ev : AppJs.Action)
    (w : AppJs.App * AppJs.Page) :
  (∀ n, 0 <= random n < 1) → appInv w →
  ∃ w', AppJs.act random ev w = Some w' ∧ appInv w'.
Proof.
  intros Hrand Hinv. destruct w as [a p].
  destruct ev as [m| | | |i|key| | |]; cbn [AppJs.act fst snd].
  - destruct (decide _) as [Hm|_]; [|eauto].
    destruct (app_switchMode_inv random m (a, p) Hrand Hm Hinv)
      as (w' & ? & ? & _). eauto.
  - destruct (app_navCorner_inv (-1) a p) as (a' & -> & ?);
      [right; reflexivity|exact Hinv|]. eauto.
  - destruct (app_navCorner_inv 1 a p) as (a' & -> & ?);
      [left; reflexivity|exact Hinv|]. eauto.
  - apply app_startQuiz_inv; assumption.
  - unfold AppJs.onMarkerClick. cbn [fst snd].
    destruct (AppJs.corners a !! i) as [c|] eqn:Hc; [|eauto].
    destruct (decide _).
    + eexists. split; [reflexivity|]. apply app_handleQuizAnswer_inv, Hinv.
    + eexists. split; [reflexivity|]. apply app_inv_select; [|exact Hinv].
      destruct Hinv as (<- & _). apply list_elem_of_lookup. eauto.
  - apply app_onKeyDown_inv; assumption.
  - destruct (AppJs.intervals p); [eauto|].
    destruct (app_walkTick_inv a p Hinv) as (a' & -> & ?). eauto.
  - destruct (AppJs.quizTimeouts p) eqn:Hq; [eauto|].
    apply app_nextQuiz_inv; [exact Hrand|].
    eapply app_inv_page; [| |exact Hinv]; reflexivity.
  - destruct (AppJs.rideFrames p); [eauto|].
    eexists. split; [reflexivity|]. apply app_rideFrame_inv, Hinv.
Qed.

Lemma app_run_inv (random : nat → R) (evs : list AppJs.Action)
    (w : AppJs.App * AppJs.Page) :
  (∀ n, 0 <= random n < 1) → appInv w →
  ∃ w', AppJs.run random evs w = Some w' ∧ appInv w'.
Proof.
  intros Hrand. revert w. induction evs as [|ev evs IH]; intros w Hinv.
  - exists w. split; [reflexivity|exact Hinv].
  - destruct (app_act_inv random ev w Hrand Hinv) as (w1 & Hact & Hinv1).
    destruct (IH w1 Hinv1) as (w' & Hrun & Hinv').
    exists w'. split; [|exact Hinv']. cbn [AppJs.run]. rewrite Hact. exact Hrun.
Qed.

Lemma app_boot_eq (random : nat → R) :
  AppJs.boot random
  = Some (AppJs.mkApp AppJs.CORNERS_DATA "explore"
            (Some (mkCorner 1 "Start Hairpin")) 0 None 0 0 None 6 None,
          AppJs.emptyPage).
Proof. vm_compute. reflexivity. Qed.

Lemma app_boot_inv (random : nat → R) :
  ∃ w, AppJs.boot random = Some w ∧ appInv w.
Proof.
  eexists. split; [apply app_boot_eq|].
  unfold appInv. cbn.
  split_and!; try reflexivity; try lia.
  - eexists. split; [reflexivity|]. apply list_elem_of_here.
  - intros h [=].
  - split; [intros [? [=]]|intros [=]].
  - intros c [=].
Qed.

Lemma app_booted_run (random : nat → R) (evs : list AppJs.Action) :
  (∀ n, 0 <= random n < 1) →
  ∃ w, AppJs.boot random ≫= AppJs.run random evs = Some w ∧ appInv w.
Proof.
  intros Hrand. destruct (app_boot_inv random) as (w0 & -> & Hinv0).
  exact (app_run_inv random evs w0 Hrand Hinv0).
Qed.

Lemma app_run_app (random : nat → R) (evs1 evs2 : list AppJs.Action)
    (w : AppJs.App * AppJs.Page) :
  AppJs.run random (evs1 ++ evs2) w
  = AppJs.run random evs1 w ≫= AppJs.run random evs2.
Proof.
  revert w. induction evs1 as [|ev evs1 IH]; intros w; [reflexivity|].
  cbn [app AppJs.run]. destruct (AppJs.act random ev w) as [w1|]; [|reflexivity].
  cbn [mbind option_bind]. apply IH.
Qed.

Lemma app_round_range (x : R) :
  0 <= x <= 100 → (0 <= Js.round x <= 100)%Z.
Proof.
  intros Hx. unfold Js.round.
  destruct (base_Int_part (x + 0.5)) as [Hle Hgt].
  split.
  - assert (-1 < Int_part (x + 0.5))%Z; [apply lt_IZR; lra|lia].
  - assert (Int_part (x + 0.5) < 101)%Z; [apply lt_IZR; lra|lia].
Qed.

(** * Properties of app.js *)

Lemma app_walk_index (step len k : nat) :
  len ≠ 0%nat → step = (k mod len)%nat →
  Js.rem (Z.of_nat step + 1) (Z.of_nat len)
  = Some (Z.of_nat (S k mod len)).
Proof.
  intros Hlen ->. unfold Js.rem. destruct (decide _); [lia|]. f_equal.
  rewrite Z.rem_mod_nonneg by lia.
  replace (Z.of_nat (k mod len) + 1)%Z with (Z.of_nat (k mod len + 1)) by lia.
  rewrite <- Nat2Z.inj_mod. f_equal.
  rewrite Nat.Div0.add_mod_idemp_l. f_equal. lia.
Qed.

Lemma app_tick_step (random : nat → R) (a : AppJs.App) (p : AppJs.Page)
    (k : nat) :
  AppJs.corners a ≠ [] →
  AppJs.walkStep a = (k mod length (AppJs.corners a))%nat →
  AppJs.intervals p ≠ [] →
  ∃ a', AppJs.act random AppJs.WalkTick (a, p) = Some (a', p) ∧
    AppJs.corners a' = AppJs.corners a ∧
    AppJs.walkStep a' = (S k mod length (AppJs.corners a))%nat ∧
    AppJs.selectedCorner a'
    = AppJs.corners a !! (S k mod length (AppJs.corners a))%nat.
Proof.
  intros Hcs Hstep Hint.
  assert (Hlen : length (AppJs.corners a) ≠ 0%nat).
  { destruct (AppJs.corners a); [done|cbn; lia]. }
  cbn [AppJs.act fst snd]. destruct (AppJs.intervals p); [done|].
  unfold AppJs.walkTick.
  rewrite (app_walk_index _ _ k Hlen Hstep). cbn [mbind option_bind].
  rewrite app_item_at, Nat2Z.id.
  destruct (lookup_lt_is_Some_2 (AppJs.corners a)
              (S k mod length (AppJs.corners a))) as [c Hc].
  { apply Nat.mod_upper_bound. exact Hlen. }
  rewrite Hc. cbn. eexists. split; [reflexivity|].
  destruct a; cbn in *. auto.
Qed.

Lemma app_ticks (random : nat → R) (k : nat) (a : AppJs.App) (p : AppJs.Page) :
  AppJs.corners a ≠ [] → AppJs.walkStep a = 0%nat →
  AppJs.selectedCorner a = AppJs.corners a !! 0%nat →
  AppJs.intervals p ≠ [] →
  ∃ a', AppJs.run random (replicate k AppJs.WalkTick) (a, p) = Some (a', p) ∧
    AppJs.corners a' = AppJs.corners a ∧
    AppJs.walkStep a' = (k mod length (AppJs.corners a))%nat ∧
    AppJs.selectedCorner a'
    = AppJs.corners a !! (k mod length (AppJs.corners a))%nat.
Proof.
  intros Hcs Hstep Hsel Hint.
  assert (Hlen : length (AppJs.corners a) ≠ 0%nat).
  { destruct (AppJs.corners a); [done|cbn; lia]. }
  induction k as [|k IH].
  - exists a. rewrite Nat.Div0.mod_0_l. auto.
  - destruct IH as (a1 & Hrun & Hc1 & Hs1 & _).
    destruct (app_tick_step random a1 p k) as (a2 & Hact & Hc2 & Hs2 & Hsel2);
      [rewrite Hc1; exact Hcs|rewrite Hc1; exact Hs1|exact Hint|].
    exists a2. rewrite Hc1 in *.
    split; [|auto].
    replace (replicate (S k) AppJs.WalkTick)
      with (replicate k AppJs.WalkTick ++ [AppJs.WalkTick])
      by (rewrite <- replicate_cons_app; reflexivity).
    rewrite app_run_app, Hrun. cbn [mbind option_bind AppJs.run].
    rewrite Hact. reflexivity.
Qed.

Lemma app_switch_walkthrough (random : nat → R) (w : AppJs.App * AppJs.Page) :
  AppJs.corners (fst w) ≠ [] →
  ∃ a p, AppJs.switchMode random "walkthrough" w = Some (a, p) ∧
    AppJs.corners a = AppJs.corners (fst w) ∧ AppJs.walkStep a = 0%nat ∧
    AppJs.selectedCorner a = AppJs.corners a !! 0%nat ∧
    AppJs.intervals p ≠ [].
Proof.
  destruct w as [[cs md sel ws wt qr qs qc qm en] p]. cbn [fst AppJs.corners].
  intros Hcs. destruct cs as [|c cs]; [done|].
  unfold AppJs.switchMode.
  cbn [AppJs.engine AppJs.mode].
  destruct en as [id|]; [destruct (decide (md = "ride"))|];
    cbn [AppJs.walkTimer AppJs.withEngine];
    (destruct wt as [[|h]|];
     repeat match goal with
            | |- context [decide (?x = ?y)] =>
                destruct (decide (x = y)) as [Heq|Hne];
                [try discriminate Heq; clear Heq
                |try (exfalso; apply Hne; reflexivity); clear Hne]
            end;
     cbn; do 2 eexists; split_and!; try reflexivity;
     intros Hnil; apply app_eq_nil in Hnil as [_ Hnil]; discriminate Hnil).
Qed.

(** X13.  With draws in [[0, 1)], as [Math.random] gives them, no
    sequence of clicks, key presses, interval callbacks and quiz
    timeouts after [boot] makes a handler of app.js throw: every run
    ends in a state, the corner data is still the twelve corners and the
    selected corner is one of them.  The frame callback of [startRide],
    which makes, initialises and starts the engine, is left out of these
    runs. *)
Theorem app_handlers_never_throw (random : nat → R)
    (evs : list AppJs.Action) :
  (∀ n, 0 <= random n < 1) →
  AppJs.RideFrame ∉ evs →
  ∃ a p, AppJs.boot random ≫= AppJs.run random evs = Some (a, p) ∧
    AppJs.corners a = AppJs.CORNERS_DATA ∧
    ∃ c, AppJs.selectedCorner a = Some c ∧ c ∈ AppJs.CORNERS_DATA.
Proof.
  intros Hrand _.
  destruct (app_booted_run random evs Hrand) as ([a p] & Hrun & Hc & Hs & _).
  exists a, p. split; [exact Hrun|]. split; [exact Hc|exact Hs].
Qed.

Lemma app_handlers_never_throw_witness :
  ∃ a p,
    AppJs.boot (λ _, 0)
      ≫= AppJs.run (λ _, 0)
           [AppJs.ClickMode "quiz"; AppJs.ClickMarker 0; AppJs.QuizTimeout;
            AppJs.KeyDown "r"; AppJs.KeyDown "Escape"; AppJs.ClickPrev]
    = Some (a, p) ∧
    AppJs.corners a = AppJs.CORNERS_DATA ∧
    ∃ c, AppJs.selectedCorner a = Some c ∧ c ∈ AppJs.CORNERS_DATA.
Proof.
  apply (app_handlers_never_throw (λ _, 0)).
  - intros n. lra.
  - intros Hin.
    repeat (apply elem_of_cons in Hin as [Hin|Hin]; [discriminate Hin|]).
    inversion Hin.
Defined.

(** X14.  After [boot], whatever the user does, the page has at most
    one live interval, the one held in [App.walkTimer], and it is live
    exactly in walkthrough mode: [switchMode] clears the timer before it
    starts another. *)
Theorem app_single_walk_timer (random : nat → R) (evs : list AppJs.Action) :
  (∀ n, 0 <= random n < 1) →
  ∃ a p, AppJs.boot random ≫= AppJs.run random evs = Some (a, p) ∧
    AppJs.intervals p = option_list (AppJs.walkTimer a) ∧
    (is_Some (AppJs.walkTimer a) ↔ AppJs.mode a = "walkthrough").
Proof.
  intros Hrand.
  destruct (app_booted_run random evs Hrand)
    as ([a p] & Hrun & _ & _ & _ & _ & Hint & _ & Hmode & _).
  exists a, p. split; [exact Hrun|]. split; [exact Hint|exact Hmode].
Qed.

Lemma app_single_walk_timer_witness :
  ∃ a p,
    AppJs.boot (λ _, 0)
      ≫= AppJs.run (λ _, 0)
           [AppJs.ClickMode "walkthrough"; AppJs.WalkTick;
            AppJs.ClickMode "walkthrough"; AppJs.WalkTick;
            AppJs.ClickMode "quiz"]
    = Some (a, p) ∧
    AppJs.intervals p = option_list (AppJs.walkTimer a) ∧
    (is_Some (AppJs.walkTimer a) ↔ AppJs.mode a = "walkthrough").
Proof. apply (app_single_walk_timer (λ _, 0)). intros n. lra. Defined.

(** X15.  After [boot], whatever the user does, the quiz score plus the
    question still open never exceeds the number of questions asked,
    which never exceeds [quizMaxRounds] = 6; so the percentage of
    [showQuizResult] lies between 0 and 100. *)
Theorem app_quiz_score_bounded (random : nat → R) (evs : list AppJs.Action) :
  (∀ n, 0 <= random n < 1) →
  ∃ a p, AppJs.boot random ≫= AppJs.run random evs = Some (a, p) ∧
    (AppJs.quizScore a + length (option_list (AppJs.quizCorrect a))
     <= AppJs.quizRound a <= AppJs.quizMaxRounds a)%nat ∧
    AppJs.quizMaxRounds a = 6%nat ∧
    (0 <= AppJs.quizPct a <= 100)%Z.
Proof.
  intros Hrand.
  destruct (app_booted_run random evs Hrand)
    as ([a p] & Hrun & _ & _ & Hmax & _ & _ & _ & _ & Hquiz & _).
  cbn [fst snd] in *.
  exists a, p. split; [exact Hrun|]. rewrite Hmax.
  split; [exact Hquiz|]. split; [reflexivity|].
  unfold AppJs.quizPct. rewrite Hmax. apply app_round_range.
  assert (Hs : 0 <= INR (AppJs.quizScore a) <= 6).
  { split; [apply pos_INR|].
    replace 6 with (INR 6) by (simpl; lra). apply le_INR. lia. }
  replace (INR 6) with 6 by (simpl; lra). lra.
Qed.

Lemma app_quiz_score_bounded_witness :
  ∃ a p,
    AppJs.boot (λ _, 0)
      ≫= AppJs.run (λ _, 0)
           [AppJs.ClickMode "quiz"; AppJs.ClickMarker 0; AppJs.ClickMarker 0;
            AppJs.ClickRetry; AppJs.QuizTimeout; AppJs.ClickMarker 3]
    = Some (a, p) ∧
    (AppJs.quizScore a + length (option_list (AppJs.quizCorrect a))
     <= AppJs.quizRound a <= AppJs.quizMaxRounds a)%nat ∧
    AppJs.quizMaxRounds a = 6%nat ∧
    (0 <= AppJs.quizPct a <= 100)%Z.
Proof. apply (app_quiz_score_bounded (λ _, 0)). intros n. lra. Defined.

(** X16.  [navCorner] steps to the neighbour in the corner list, past
    either end to the other, and a step one way followed by a step back
    restores the [App] object, whenever the corner numbers are distinct
    and the selected corner is one of the corners. *)
Theorem app_navCorner_round_trip (a : AppJs.App) (i : nat) (c : Corner)
    (dir : Z) :
  NoDup (map number (AppJs.corners a)) →
  AppJs.selectedCorner a = Some c → AppJs.corners a !! i = Some c →
  (dir = 1 ∨ dir = -1)%Z →
  ∃ a' c',
    AppJs.navCorner dir a = Some a' ∧
    AppJs.corners a
      !! Z.to_nat ((Z.of_nat i + dir) mod Z.of_nat (length (AppJs.corners a)))
    = Some c' ∧
    AppJs.selectedCorner a' = Some c' ∧
    AppJs.navCorner (- dir) a' = Some a.
Proof.
  intros Hnd Hsel Hi Hdir.
  pose proof (lookup_lt_Some _ _ _ Hi) as Hlen.
  destruct (app_navCorner_spec a i c dir Hnd Hsel Hi Hdir) as [Hj Hnav].
  destruct (lookup_lt_is_Some_2 _ _ Hj) as [c' Hc'].
  rewrite Hc' in Hnav. cbn [mbind option_bind] in Hnav.
  exists (AppJs.withSelected a (Some c')), c'.
  split; [exact Hnav|]. split; [exact Hc'|].
  split; [destruct a; reflexivity|].
  assert (Hcs : AppJs.corners (AppJs.withSelected a (Some c')) = AppJs.corners a)
    by (destruct a; reflexivity).
  destruct (app_navCorner_spec (AppJs.withSelected a (Some c'))
              (Z.to_nat ((Z.of_nat i + dir)
                           mod Z.of_nat (length (AppJs.corners a))))
              c' (- dir))
    as [_ ->]; [rewrite Hcs; exact Hnd|destruct a; reflexivity
               |rewrite Hcs; exact Hc'|lia|].
  rewrite Hcs, (app_nav_back _ i dir Hlen), Nat2Z.id, Hi.
  cbn [mbind option_bind]. f_equal. apply app_withSelected_same. exact Hsel.
Qed.

Lemma app_navCorner_round_trip_witness :
  ∃ a' c',
    AppJs.navCorner (-1)
      (AppJs.mkApp AppJs.CORNERS_DATA "explore"
         (Some (mkCorner 1 "Start Hairpin")) 0 None 0 0 None 6 None)
    = Some a' ∧
    AppJs.CORNERS_DATA !! 11%nat = Some c' ∧
    AppJs.selectedCorner a' = Some c' ∧
    AppJs.navCorner 1 a'
    = Some (AppJs.mkApp AppJs.CORNERS_DATA "explore"
              (Some (mkCorner 1 "Start Hairpin")) 0 None 0 0 None 6 None).
Proof.
  apply (app_navCorner_round_trip
           (AppJs.mkApp AppJs.CORNERS_DATA "explore"
              (Some (mkCorner 1 "Start Hairpin")) 0 None 0 0 None 6 None)
           0 (mkCorner 1 "Start Hairpin") (-1)).
  - exact app_corners_NoDup.
  - reflexivity.
  - reflexivity.
  - right. reflexivity.
Defined.

(** X17.  The walkthrough shows the corners in list order and starts
    over after the last: [k] callbacks of the interval after
    [switchMode('walkthrough')] leave [walkStep] at [k] modulo the number
    of corners, with that corner selected. *)
Theorem app_walkthrough_visits_in_order (random : nat → R)
    (w : AppJs.App * AppJs.Page) (k : nat) :
  AppJs.corners (fst w) ≠ [] →
  ∃ a p,
    AppJs.switchMode random "walkthrough" w
      ≫= AppJs.run random (replicate k AppJs.WalkTick)
    = Some (a, p) ∧
    AppJs.walkStep a = (k mod length (AppJs.corners (fst w)))%nat ∧
    AppJs.selectedCorner a
    = AppJs.corners (fst w) !! (k mod length (AppJs.corners (fst w)))%nat.
Proof.
  intros Hcs.
  destruct (app_switch_walkthrough random w Hcs)
    as (a0 & p0 & -> & Hc0 & Hs0 & Hsel0 & Hint0).
  cbn [mbind option_bind].
  destruct (app_ticks random k a0 p0) as (a & Hrun & Hc & Hs & Hsel);
    [rewrite Hc0; exact Hcs|exact Hs0|exact Hsel0|exact Hint0|].
  exists a, p0. rewrite Hc0 in *. auto.
Qed.

Lemma app_walkthrough_visits_in_order_witness :
  ∃ a p,
    AppJs.switchMode (λ _, 0) "walkthrough"
      (AppJs.mkApp AppJs.CORNERS_DATA "explore"
         (Some (mkCorner 1 "Start Hairpin")) 0 None 0 0 None 6 None,
       AppJs.emptyPage)
      ≫= AppJs.run (λ _, 0) (replicate 14 AppJs.WalkTick)
    = Some (a, p) ∧
    AppJs.walkStep a = 2%nat ∧
    AppJs.selectedCorner a = Some (mkCorner 3 "The Hammer").
Proof.
  apply (app_walkthrough_visits_in_order (λ _, 0)
           (AppJs.mkApp AppJs.CORNERS_DATA "explore"
              (Some (mkCorner 1 "Start Hairpin")) 0 None 0 0 None 6 None,
            AppJs.emptyPage) 14).
  discriminate.
Defined.

(** * First variant: what the frame shows *)

Lemma v1_round_range (x : R) (lo hi : Z) :
  IZR lo - 0.5 <= x < IZR hi + 0.5 → (lo <= Js.round x <= hi)%Z.
Proof.
  intros [Hlo Hhi]. unfold Js.round.
  destruct (base_Int_part (x + 0.5)) as [Hle Hgt].
  split.
  - assert (lo - 1 < Int_part (x + 0.5))%Z; [|lia].
    apply lt_IZR. rewrite minus_IZR. lra.
  - assert (Int_part (x + 0.5) < hi + 1)%Z; [|lia].
    apply lt_IZR. rewrite plus_IZR. lra.
Qed.

Lemma v1_speedToGear_spec (a b : Z) :
  (a <= b)%Z →
  (V1.speedToGear a <= V1.speedToGear b)%Z ∧ (1 <= V1.speedToGear a <= 6)%Z ∧
  (a < 160 → V1.speedToGear a <= 3)%Z.
Proof.
  intros Hab. unfold V1.speedToGear. repeat destruct (decide _); lia.
Qed.

(** X18.  [speedToGear] is a rising staircase: a higher speed never
    gives a lower gear, and the gear is one of 1 to 6. *)
Theorem v1_speedToGear_monotone (kmh kmh' : Z) :
  (kmh <= kmh')%Z →
  (1 <= V1.speedToGear kmh <= V1.speedToGear kmh' ∧ V1.speedToGear kmh' <= 6)%Z.
Proof.
  intros Hle.
  destruct (v1_speedToGear_spec kmh kmh' Hle) as (Hm & H1 & _).
  destruct (v1_speedToGear_spec kmh' kmh' (Z.le_refl _)) as (_ & H2 & _).
  lia.
Qed.

Lemma v1_speedToGear_monotone_witness :
  (1 <= V1.speedToGear 59 <= V1.speedToGear 60 ∧ V1.speedToGear 60 <= 6)%Z.
Proof. apply (v1_speedToGear_monotone 59 60). lia. Defined.

Lemma v1_hud_range (e : V1.RideEngine) :
  ready e → inRange e →
  (0 <= V1.spdKmh (V1.drawHUD (V1.state e) (V1.corners e)) <= 123)%Z ∧
  (1 <= V1.gear (V1.drawHUD (V1.state e) (V1.corners e)) <= 3)%Z ∧
  0 <= V1.progress (V1.drawHUD (V1.state e) (V1.corners e)) < 1.
Proof.
  intros Hr [Hp Hv]. pose proof (v1_track_length_pos e Hr) as Htl.
  unfold V1.drawHUD. cbn [V1.spdKmh V1.gear V1.progress].
  unfold V1.MAX_SPEED in Hv.
  assert (Hk : (0 <= Js.round (Rabs (V1.speed (V1.state e)) * 0.28) <= 123)%Z).
  { apply v1_round_range. rewrite Rabs_pos_eq by lra. simpl. lra. }
  split; [exact Hk|]. split.
  - destruct (v1_speedToGear_spec _ _ (Z.le_refl
               (Js.round (Rabs (V1.speed (V1.state e)) * 0.28))))
      as (_ & H16 & H3).
    split; [lia|apply H3; lia].
  - assert (Hinv : 0 < / V1.trackLength (V1.state e))
      by (apply Rinv_0_lt_compat; lra).
    unfold Rdiv. split.
    + apply Rmult_le_pos; lra.
    + rewrite <- (Rinv_r (V1.trackLength (V1.state e))) by lra.
      apply Rmult_lt_compat_r; lra.
Qed.

(** X19.  On every run of the first variant from the grid the HUD shows
    a speed between 0 and 123 km/h and a gear between 1 and 3 (gears 4
    to 6 are never shown: [MAX_SPEED] is 440 and the display factor
    0.28), and the lap bar is filled by a fraction in [[0, 1)]. *)
Theorem v1_hud_never_past_third_gear (cornerData : list Corner)
    (onCorner onLap : bool) (acts : list V1.Action) :
  ∃ e evs,
    V1.run acts (V1.boot cornerData onCorner onLap) = Some (e, evs) ∧
    (0 <= V1.spdKmh (V1.drawHUD (V1.state e) (V1.corners e)) <= 123)%Z ∧
    (1 <= V1.gear (V1.drawHUD (V1.state e) (V1.corners e)) <= 3)%Z ∧
    0 <= V1.progress (V1.drawHUD (V1.state e) (V1.corners e)) < 1.
Proof.
  destruct (v1_run_inRange acts (V1.boot cornerData onCorner onLap))
    as (e & evs & Hrun & Hr & Hi & _);
    [apply v1_boot_ready|apply v1_boot_inRange|].
  exists e, evs. split; [exact Hrun|]. apply v1_hud_range; assumption.
Qed.

(** Corner data numbered in list order, from [off + 1] on. *)
Lemma v1_filter_numbered (cs : list Corner) (off k : nat) :
  (∀ i c, cs !! i = Some c → number c = (off + S i)%nat) →
  filter (λ c, Some k = Some (number c)) cs
  = if decide (off < k)%nat then option_list (cs !! (k - S off)%nat) else [].
Proof.
  revert off. induction cs as [|c cs IH]; intros off Hnum.
  - cbn. destruct (decide _); reflexivity.
  - pose proof (Hnum 0%nat c eq_refl) as Hc.
    assert (Hnum' : ∀ i c', cs !! i = Some c' → number c' = (S off + S i)%nat).
    { intros i c' Hi. rewrite (Hnum (S i) c' Hi). lia. }
    rewrite filter_cons, (IH (S off) Hnum').
    destruct (decide (Some k = Some (number c))) as [[= Hk]|Hne].
    + rewrite decide_False by lia. rewrite decide_True by lia.
      replace (k - S off)%nat with 0%nat by lia. reflexivity.
    + assert (k ≠ (off + 1)%nat) by (intros ->; apply Hne; f_equal; lia).
      destruct (decide (S off < k)%nat).
      * rewrite decide_True by lia.
        replace (k - S off)%nat with (S (k - S (S off)))%nat by lia.
        reflexivity.
      * destruct (decide (off < k)%nat); [lia|reflexivity].
Qed.

(** X20.  When the corner data is numbered 1, 2, 3, ... in list order,
    as [CORNERS_DATA] of app.js is, the banner of the HUD and the mini
    map agree in every state: the mini map marks one corner as active
    exactly when the banner is shown, and it is the corner of the
    banner. *)
Theorem v1_banner_matches_minimap (state : V1.State) (cornerData : list Corner) :
  (∀ i c, cornerData !! i = Some c → number c = S i) →
  V1.activeDots state cornerData
  = option_list (V1.banner (V1.drawHUD state cornerData)).
Proof.
  intros Hnum. unfold V1.activeDots, V1.drawHUD. cbn [V1.banner].
  destruct (V1.currentCorner state) as [k|].
  - rewrite (v1_filter_numbered cornerData 0 k) by exact Hnum.
    destruct k as [|n].
    + rewrite decide_False by lia. reflexivity.
    + rewrite decide_True by lia.
      replace (S n - 1)%nat with n by lia. reflexivity.
  - clear Hnum. induction cornerData as [|c cs IH]; [reflexivity|].
    rewrite filter_cons. rewrite decide_False by discriminate. exact IH.
Qed.

Lemma v1_banner_matches_minimap_witness :
  V1.activeDots (V1.mkState 0 0 0 (Some 3%nat) true false 94800 300)
    AppJs.CORNERS_DATA
  = [mkCorner 3 "The Hammer"].
Proof.
  apply (v1_banner_matches_minimap
           (V1.mkState 0 0 0 (Some 3%nat) true false 94800 300)
           AppJs.CORNERS_DATA).
  intros i c H.
  do 12 (destruct i as [|i]; [injection H as <-; reflexivity|]).
  discriminate H.
Defined.

(** ** The projection *)

Lemma filter_all {A : Type} (P : A → Prop) `{!∀ x, Decision (P x)}
    (l : list A) :
  Forall P l → filter P l = l.
Proof.
  induction 1 as [|x l Hx _ IH]; [reflexivity|].
  rewrite filter_cons, decide_True by exact Hx. f_equal. exact IH.
Qed.

Lemma lookup_cons_inv {A : Type} (x : A) (l : list A) (k : nat) (p : A) :
  (x :: l) !! k = Some p →
  (k = 0%nat ∧ p = x) ∨ (∃ k', k = S k' ∧ l !! k' = Some p).
Proof.
  destruct k as [|k']; cbn; intros Hk.
  - left. split; [reflexivity|congruence].
  - right. exists k'. split; [reflexivity|exact Hk].
Qed.

Lemma v1_project_spec (W H : R) (s : V1.State) (segs : list V1.Segment)
    (startIndex count i : nat) (curveX : R) :
  segs ≠ [] →
  ∃ proj, V1.projectVisible W H s segs startIndex count i curveX = Some proj ∧
    length proj = count ∧
    ∀ k p, proj !! k = Some p →
      V1.yPos p = H * 0.5 + H * 0.5 * (1 - INR (i + k) / 200) ∧
      V1.roadW p = 2000 * (0.84 / (INR (i + k) + 1)) * W / 1600 ∧
      V1.scale p = 0.84 / (INR (i + k) + 1) ∧
      segs !! ((startIndex + (i + k)) mod length segs)%nat = Some (V1.seg p).
Proof.
  intros Hne. revert i curveX.
  induction count as [|count IH]; intros i curveX.
  - exists []. split; [reflexivity|]. split; [reflexivity|].
    intros k p Hk. discriminate Hk.
  - change (V1.projectVisible W H s segs startIndex (S count) i curveX)
      with (seg ← segs !! ((startIndex + i) mod length segs)%nat;
            rest ← V1.projectVisible W H s segs startIndex count (S i)
                     (curveX + V1.curve seg);
            Some (V1.mkProj seg
                    (W / 2 + (curveX - V1.x s * INR i * 0.5) * W / 1600)
                    (V1.ROAD_WIDTH * (V1.CAMERA_DEPTH / (INR i + 1)) * W / 1600)
                    (H * 0.5 + H * 0.5 * (1 - INR i / INR V1.DRAW_DISTANCE))
                    (V1.CAMERA_DEPTH / (INR i + 1)) :: rest)).
    destruct (lookup_lt_is_Some_2 segs ((startIndex + i) mod length segs))
      as [seg Hseg].
    { apply Nat.mod_upper_bound. destruct segs; [done|cbn; lia]. }
    rewrite Hseg. cbn [mbind option_bind].
    destruct (IH (S i) (curveX + V1.curve seg)) as (rest & -> & Hlen & Hrest).
    cbn [mbind option_bind]. eexists. split; [reflexivity|].
    split; [cbn; rewrite Hlen; reflexivity|].
    intros k p Hk.
    destruct (lookup_cons_inv _ _ _ _ Hk) as [[-> ->] | (k' & -> & Hk')].
    + rewrite (INR_lit V1.DRAW_DISTANCE 200) by reflexivity.
      cbn [V1.yPos V1.roadW V1.scale V1.seg]. rewrite Nat.add_0_r.
      unfold V1.ROAD_WIDTH, V1.CAMERA_DEPTH. auto.
    + replace (i + S k')%nat with (S i + k')%nat by lia.
      exact (Hrest k' p Hk').
Qed.

(** The strips of a projection of [n + 1] segments with [0 <= H]. *)
Lemma v1_strips_spec (W H : R) (proj : list V1.Proj) :
  0 <= H → (length proj <= 200)%nat →
  (∀ k p, proj !! k = Some p →
     V1.yPos p = H * 0.5 + H * 0.5 * (1 - INR k / 200) ∧
     V1.roadW p = 2000 * (0.84 / (INR k + 1)) * W / 1600) →
  V1.strips H proj = reverse (zip (drop 1 proj) proj) ∧
  Forall (λ pp, V1.yPos (snd pp) - V1.yPos (fst pp) = H / 400 ∧
                (0 < W → 0 < V1.roadW (fst pp) < V1.roadW (snd pp)))
    (zip (drop 1 proj) proj).
Proof.
  intros HH Hlen Hproj.
  assert (Hall : Forall (λ pp,
            V1.culled H (fst pp) (snd pp) = false ∧
            V1.yPos (snd pp) - V1.yPos (fst pp) = H / 400 ∧
            (0 < W → 0 < V1.roadW (fst pp) < V1.roadW (snd pp)))
          (zip (drop 1 proj) proj)).
  { apply Forall_lookup. intros k [p1 p2] Hk.
    apply lookup_zip_with_Some in Hk as (q1 & q2 & [= <- <-] & H1 & H2).
    rewrite lookup_drop in H1.
    pose proof (lookup_lt_Some _ _ _ H1) as Hk1.
    destruct (Hproj _ _ H1) as [Hy1 Hw1]. destruct (Hproj _ _ H2) as [Hy2 Hw2].
    cbn [fst snd]. replace (1 + k)%nat with (S k) in * by lia.
    rewrite S_INR in Hy1, Hw1.
    assert (Hk0 : 0 <= INR k) by apply pos_INR.
    assert (Hk200 : INR k + 1 <= 199).
    { rewrite <- S_INR. replace 199 with (INR 199)
        by (rewrite (INR_lit 199 199) by reflexivity; reflexivity).
      apply le_INR. lia. }
    split; [|split].
    - unfold V1.culled. rewrite Hy1, Hy2.
      rewrite !bool_decide_eq_false_2; [reflexivity| |]; nra.
    - rewrite Hy1, Hy2. nra.
    - intros HW. rewrite Hw1, Hw2.
      assert (Ha : 0 < / (INR k + 1 + 1)) by (apply Rinv_0_lt_compat; lra).
      assert (Hb : / (INR k + 1 + 1) < / (INR k + 1))
        by (apply Rinv_lt_contravar; [nra|lra]).
      unfold Rdiv. nra. }
  split.
  - unfold V1.strips. apply filter_all. apply Forall_reverse.
    eapply Forall_impl; [exact Hall|]. intros pp (Hc & _). exact Hc.
  - eapply Forall_impl; [exact Hall|]. intros pp (_ & Hrest). exact Hrest.
Qed.

Lemma v1_render_spec (W H : R) (e : V1.RideEngine) :
  ready e → inRange e → 0 <= H →
  ∃ strips,
    V1._render W H e = Some (strips, V1.drawHUD (V1.state e) (V1.corners e)) ∧
    length strips = 199%nat ∧
    Forall (λ pp, V1.yPos (snd pp) - V1.yPos (fst pp) = H / 400 ∧
                  (0 < W → 0 < V1.roadW (fst pp) < V1.roadW (snd pp)))
      strips.
Proof.
  intros [Hn Htl] [Hp _] HH. unfold V1._render.
  assert (Hne : V1.segments e ≠ []) by (destruct (V1.segments e); [cbn in Hn; lia|done]).
  destruct (floorDivMod_total (V1.position (V1.state e)) V1.SEGMENT_LENGTH
              (length (V1.segments e))) as (start & -> & _);
    [unfold V1.SEGMENT_LENGTH; lra|lra|lia|].
  cbn [mbind option_bind].
  destruct (v1_project_spec W H (V1.state e) (V1.segments e) start
              V1.DRAW_DISTANCE 0 0 Hne) as (proj & -> & Hlen & Hproj).
  cbn [mbind option_bind].
  destruct (v1_strips_spec W H proj HH) as [Hs Hall].
  { rewrite Hlen. reflexivity. }
  { intros k p Hk. destruct (Hproj k p Hk) as (Hy & Hw & _).
    cbn [Nat.add] in Hy, Hw. auto. }
  eexists. split; [reflexivity|]. rewrite Hs. split.
  - rewrite length_reverse, length_zip_with, length_drop, Hlen. reflexivity.
  - apply Forall_reverse. exact Hall.
Qed.

(** X21.  On every run of the first variant from the grid, and on a
    canvas of any width and of height [H >= 0], [_render] goes through
    and paints all 199 strips: the test that skips a strip outside the
    vertical view never fires, the two edges of every strip are
    [H / 400] apart, and on a canvas of positive width the road is wider
    at the near edge of a strip than at its far edge. *)
Theorem v1_render_paints_every_strip (cornerData : list Corner)
    (onCorner onLap : bool) (acts : list V1.Action) (W H : R) :
  0 <= H →
  ∃ e evs strips hud,
    V1.run acts (V1.boot cornerData onCorner onLap) = Some (e, evs) ∧
    V1._render W H e = Some (strips, hud) ∧
    length strips = 199%nat ∧
    Forall (λ pp, V1.yPos (snd pp) - V1.yPos (fst pp) = H / 400 ∧
                  (0 < W → 0 < V1.roadW (fst pp) < V1.roadW (snd pp)))
      strips.
Proof.
  intros HH.
  destruct (v1_run_inRange acts (V1.boot cornerData onCorner onLap))
    as (e & evs & Hrun & Hr & Hi & _);
    [apply v1_boot_ready|apply v1_boot_inRange|].
  destruct (v1_render_spec W H e Hr Hi HH) as (strips & Hrender & Hlen & Hall).
  exists e, evs, strips, (V1.drawHUD (V1.state e) (V1.corners e)).
  auto.
Qed.

Lemma v1_render_paints_every_strip_witness :
  ∃ e evs strips hud,
    V1.run [V1.KeyDown "ArrowUp"; V1.Frame] (V1.boot [] false false)
    = Some (e, evs) ∧
    V1._render 1600 900 e = Some (strips, hud) ∧
    length strips = 199%nat ∧
    Forall (λ pp, V1.yPos (snd pp) - V1.yPos (fst pp) = 900 / 400 ∧
                  (0 < 1600 → 0 < V1.roadW (fst pp) < V1.roadW (snd pp)))
      strips.
Proof.
  apply (v1_render_paints_every_strip [] false false
           [V1.KeyDown "ArrowUp"; V1.Frame] 1600 900).
  lra.
Defined.

(** * Second variant: what the frame shows *)

Lemma v2_act_corner (w : Window) (a : V2.Action) (e e' : V2.RideEngine)
    (evs : list Event) :
  V2.act w a e = Some (e', evs) →
  V2.segments e' = V2.segments e ∧ V2.corners e' = V2.corners e ∧
  (V2.currentCorner (V2.state e') = V2.currentCorner (V2.state e) ∨
   ∃ seg, seg ∈ V2.segments e ∧
          V2.currentCorner (V2.state e') = V2.cornerIndex seg).
Proof.
  destruct a as [key|key|]; cbn [V2.act].
  - intros [= <- _]. unfold V2.onKeyDown. destruct (decide _); cbn; auto.
  - intros [= <- _]. cbn. auto.
  - unfold V2.update.
    destruct (V2.lookupSegment e) as [seg|] eqn:Hseg.
    + assert (Hin : seg ∈ V2.segments e).
      { unfold V2.lookupSegment in Hseg.
        destruct (Js.floorDivMod _ _ _) as [i|]; [|discriminate Hseg].
        cbn in Hseg. apply list_elem_of_lookup. exists i. exact Hseg. }
      destruct (V2.demo (V2.state e)); cbn [mbind option_bind];
        intros [= <- _];
        (split; [reflexivity|]; split; [reflexivity|]; right; exists seg;
         split; [exact Hin|reflexivity]).
    + destruct (V2.demo (V2.state e)); cbn [mbind option_bind];
        intros Hn; discriminate Hn.
Qed.

Lemma v2_run_corner (w : Window) (acts : list V2.Action)
    (e e' : V2.RideEngine) (evs : list Event) :
  V2.run w acts e = Some (e', evs) →
  V2.segments e' = V2.segments e ∧ V2.corners e' = V2.corners e ∧
  (V2.currentCorner (V2.state e') = V2.currentCorner (V2.state e) ∨
   ∃ seg, seg ∈ V2.segments e ∧
          V2.currentCorner (V2.state e') = V2.cornerIndex seg).
Proof.
  revert e e' evs. induction acts as [|a acts IH]; intros e e' evs.
  - intros [= <- _]. auto.
  - cbn [V2.run].
    destruct (V2.act w a e) as [[e1 evs1]|] eqn:Hact; [|intros Hn; discriminate Hn].
    cbn [mbind option_bind].
    destruct (V2.run w acts e1) as [[e2 evs2]|] eqn:Hrun;
      [|intros Hn; discriminate Hn].
    cbn [mbind option_bind]. intros [= <- _].
    destruct (v2_act_corner w a e e1 evs1 Hact) as (Hs1 & Hc1 & Hcc1).
    destruct (IH e1 e2 evs2 Hrun) as (Hs2 & Hc2 & Hcc2).
    rewrite Hs1 in Hs2, Hcc2. rewrite Hc1 in Hc2.
    split; [exact Hs2|]. split; [exact Hc2|].
    destruct Hcc2 as [Heq|Hseg]; [rewrite Heq; exact Hcc1|right; exact Hseg].
Qed.

(** The corner indices on the built track are those of the zone table. *)
Lemma v2_track_corner_ids (random : nat → R) (seg : V2.Segment) :
  seg ∈ V2.buildTrack random →
  V2.cornerIndex seg = None ∨
  ∃ k, V2.cornerIndex seg = Some k ∧ (1 <= k <= 12)%nat.
Proof.
  intros Hin.
  assert (Hs : shape seg ∈ trackShape V2.TRACK_ZONES).
  { rewrite <- (v2_track_shape V2.TRACK_ZONES random).
    apply list_elem_of_fmap. exists seg. split; [reflexivity|exact Hin]. }
  unfold trackShape in Hs. apply list_elem_of_In, in_flat_map in Hs.
  destruct Hs as (zone & Hz & Hs). apply list_elem_of_In in Hs, Hz.
  unfold zoneShape in Hs. apply list_elem_of_fmap in Hs as (i & Heq & _).
  unfold shape in Heq. injection Heq as _ ->.
  revert Hz. generalize zone. apply Forall_forall. unfold V2.TRACK_ZONES.
  repeat (apply Forall_cons; split;
          [cbn; first [left; reflexivity
                      |right; eexists; split; [reflexivity|lia]]|]).
  apply Forall_nil_2.
Qed.

Lemma v2_fmod_range (p b : R) :
  0 <= p → 0 < b → 0 <= Js.fmod p b < b.
Proof.
  intros Hp Hb. unfold Js.fmod. rewrite decide_True by exact Hp.
  destruct (base_Int_part (p / b)) as [Hle Hgt].
  assert (Hpb : p = p / b * b) by (field; lra).
  split.
  - assert (IZR (Int_part (p / b)) * b <= p / b * b)
      by (apply Rmult_le_compat_r; lra). lra.
  - assert ((p / b - 1) * b < IZR (Int_part (p / b)) * b)
      by (apply Rmult_lt_compat_r; lra). lra.
Qed.

Lemma v2_dash_range (s : V2.State) :
  0 <= V2.speed s <= V2.MAX_SPEED + V2.ACCELERATION →
  0 <= V2.position s <= V2.trackLength s → 0 < V2.trackLength s →
  (0 <= V2.speedo (V2.drawDashboard s) <= 127)%Z ∧
  (1 <= V2.gear (V2.drawDashboard s) <= 3)%Z ∧
  0 <= V2.prog (V2.drawDashboard s) <= 1.
Proof.
  unfold V2.MAX_SPEED, V2.ACCELERATION. intros Hv Hp Htl.
  unfold V2.drawDashboard. cbn [V2.speedo V2.gear V2.prog].
  rewrite Rabs_pos_eq by lra.
  split; [apply v1_round_range; simpl; lra|]. split.
  - repeat destruct (decide _); try lia; lra.
  - assert (Hinv : 0 < / V2.trackLength s) by (apply Rinv_0_lt_compat; lra).
    unfold Rdiv. split.
    + apply Rmult_le_pos; lra.
    + rewrite <- (Rinv_r (V2.trackLength s)) by lra.
      apply Rmult_le_compat_r; lra.
Qed.

(** X22.  On every run of the second variant from the grid the
    dashboard shows a speed between 0 and 127 km/h and a gear between 1
    and 3: gears 4 to 6 are never shown.  The lap bar is filled by a
    fraction in [[0, 1]], the full bar included. *)
Theorem v2_dashboard_never_past_third_gear (random : nat → R)
    (cornerData : list Corner) (w : Window) (acts : list V2.Action) :
  ∃ e evs,
    V2.run w acts (V2.boot random cornerData) = Some (e, evs) ∧
    (0 <= V2.speedo (V2.drawDashboard (V2.state e)) <= 127)%Z ∧
    (1 <= V2.gear (V2.drawDashboard (V2.state e)) <= 3)%Z ∧
    0 <= V2.prog (V2.drawDashboard (V2.state e)) <= 1.
Proof.
  destruct (v2_run_bounded w acts (V2.boot random cornerData))
    as (e & evs & Hrun & (_ & Hp0 & Hv0) & Hv & Hp & Htl & _).
  - apply v2_boot_alive.
  - rewrite v2_boot_state. cbn [V2.speed].
    unfold V2.MAX_SPEED, V2.ACCELERATION. lra.
  - rewrite v2_boot_state. cbn [V2.position V2.trackLength]. lra.
  - rewrite v2_boot_state. cbn [V2.trackLength].
    unfold V2.MAX_SPEED, V2.ACCELERATION. lra.
  - exists e, evs. split; [exact Hrun|].
    rewrite v2_boot_state in Htl. cbn [V2.trackLength] in Htl.
    apply v2_dash_range; [split; assumption|split; assumption|].
    rewrite Htl. lra.
Qed.

(** ** The projection *)

Lemma v2_project_spec (W H : R) (s : V2.State) (segs : list V2.Segment)
    (startIndex : nat) (camZ : R) (count i : nat) (xAccum : R) :
  segs ≠ [] →
  ∃ proj,
    V2.projectVisible W H s segs startIndex camZ count i xAccum = Some proj ∧
    length proj = count ∧
    ∀ k p, proj !! k = Some p →
      V2.screenY p = H / 2 + H / 2 * (1 - INR (i + k) / 300) ∧
      V2.scale p = 0.84 / (INR (i + k) * 200 + 200 - camZ) ∧
      V2.roadW p = 2200 * V2.scale p * W ∧
      segs !! ((startIndex + (i + k)) mod length segs)%nat = Some (V2.seg p).
Proof.
  intros Hne. revert i xAccum.
  induction count as [|count IH]; intros i xAccum.
  - exists []. split; [reflexivity|]. split; [reflexivity|].
    intros k p Hk. discriminate Hk.
  - change (V2.projectVisible W H s segs startIndex camZ (S count) i xAccum)
      with (seg ← segs !! ((startIndex + i) mod length segs)%nat;
            rest ← V2.projectVisible W H s segs startIndex camZ count (S i)
                     (xAccum + V2.curve seg * 10);
            Some (V2.mkProj seg
                    (W / 2 + (xAccum - V2.x s * INR i * V2.SEGMENT_LENGTH
                                       * (V2.CAMERA_DEPTH
                                          / (INR i * V2.SEGMENT_LENGTH
                                             + V2.SEGMENT_LENGTH - camZ))
                                       * 0.5))
                    (H / 2 + H / 2 * (1 - INR i / INR V2.DRAW_DISTANCE))
                    (V2.ROAD_WIDTH
                     * (V2.CAMERA_DEPTH
                        / (INR i * V2.SEGMENT_LENGTH + V2.SEGMENT_LENGTH - camZ))
                     * W)
                    (V2.CAMERA_DEPTH
                     / (INR i * V2.SEGMENT_LENGTH + V2.SEGMENT_LENGTH - camZ))
                  :: rest)).
    destruct (lookup_lt_is_Some_2 segs ((startIndex + i) mod length segs))
      as [seg Hseg].
    { apply Nat.mod_upper_bound. destruct segs; [done|cbn; lia]. }
    rewrite Hseg. cbn [mbind option_bind].
    destruct (IH (S i) (xAccum + V2.curve seg * 10))
      as (rest & -> & Hlen & Hrest).
    cbn [mbind option_bind]. eexists. split; [reflexivity|].
    split; [cbn; rewrite Hlen; reflexivity|].
    intros k p Hk.
    destruct (lookup_cons_inv _ _ _ _ Hk) as [[-> ->] | (k' & -> & Hk')].
    + rewrite (INR_lit V2.DRAW_DISTANCE 300) by reflexivity.
      cbn [V2.screenY V2.roadW V2.scale V2.seg]. rewrite Nat.add_0_r.
      unfold V2.ROAD_WIDTH, V2.CAMERA_DEPTH, V2.SEGMENT_LENGTH. auto.
    + replace (i + S k')%nat with (S i + k')%nat by lia.
      exact (Hrest k' p Hk').
Qed.

Lemma v2_strips_spec (H camZ : R) (proj : list V2.Proj) :
  0 <= H → 0 <= camZ < 200 → (length proj <= 300)%nat →
  (∀ k p, proj !! k = Some p →
     V2.screenY p = H / 2 + H / 2 * (1 - INR k / 300) ∧
     V2.scale p = 0.84 / (INR k * 200 + 200 - camZ)) →
  V2.strips H proj = reverse (zip (drop 1 proj) proj) ∧
  Forall (λ pp, 0 < V2.scale (fst pp) < V2.scale (snd pp))
    (zip (drop 1 proj) proj).
Proof.
  intros HH Hcam Hlen Hproj.
  assert (Hall : Forall (λ pp,
            ¬ V2.screenY (fst pp) < H / 2 ∧
            0 < V2.scale (fst pp) < V2.scale (snd pp))
          (zip (drop 1 proj) proj)).
  { apply Forall_lookup. intros k [p1 p2] Hk.
    apply lookup_zip_with_Some in Hk as (q1 & q2 & [= <- <-] & H1 & H2).
    rewrite lookup_drop in H1.
    pose proof (lookup_lt_Some _ _ _ H1) as Hk1.
    destruct (Hproj _ _ H1) as [Hy1 Hs1]. destruct (Hproj _ _ H2) as [Hy2 Hs2].
    cbn [fst snd]. replace (1 + k)%nat with (S k) in * by lia.
    rewrite S_INR in Hy1, Hs1.
    assert (Hk0 : 0 <= INR k) by apply pos_INR.
    assert (Hk300 : INR k + 1 <= 299).
    { rewrite <- S_INR. replace 299 with (INR 299)
        by (rewrite (INR_lit 299 299) by reflexivity; reflexivity).
      apply le_INR. lia. }
    split.
    - rewrite Hy1. nra.
    - rewrite Hs1, Hs2.
      assert (Hd2 : 0 < INR k * 200 + 200 - camZ) by nra.
      assert (Hd1 : INR k * 200 + 200 - camZ < (INR k + 1) * 200 + 200 - camZ)
        by lra.
      assert (Ha : 0 < / ((INR k + 1) * 200 + 200 - camZ))
        by (apply Rinv_0_lt_compat; lra).
      assert (Hb : / ((INR k + 1) * 200 + 200 - camZ)
                   < / (INR k * 200 + 200 - camZ))
        by (apply Rinv_lt_contravar; [nra|lra]).
      unfold Rdiv. lra. }
  split.
  - unfold V2.strips. apply filter_all. apply Forall_reverse.
    eapply Forall_impl; [exact Hall|]. intros pp (Hc & _). exact Hc.
  - eapply Forall_impl; [exact Hall|]. intros pp (_ & Hrest). exact Hrest.
Qed.

Lemma v2_overlay_spec (e : V2.RideEngine) :
  (12 <= length (V2.corners e))%nat →
  (V2.currentCorner (V2.state e) = None ∨
   ∃ k, V2.currentCorner (V2.state e) = Some k ∧ (1 <= k <= 12)%nat) →
  ∃ c, V2.overlay e = Some c ∧
    ((c = None ∧ V2.currentCorner (V2.state e) = None) ∨
     ∃ n, V2.currentCorner (V2.state e) = Some (S n) ∧
          V2.corners e !! n = c ∧ is_Some c).
Proof.
  intros Hlen Hcc. unfold V2.overlay.
  destruct Hcc as [->|(k & -> & Hk)].
  - exists None. split; [reflexivity|]. left. auto.
  - destruct k as [|n]; [lia|].
    destruct (lookup_lt_is_Some_2 (V2.corners e) n) as [c Hc]; [lia|].
    rewrite Hc. exists (Some c). split; [reflexivity|]. right.
    exists n. split; [reflexivity|]. split; [exact Hc|eexists; reflexivity].
Qed.

(** X23.  With corner data for all twelve corners, on every run of the
    second variant from the grid and on a canvas of height [H >= 0],
    [render] goes through: the overlay finds the corner it names, all
    299 strips are painted (the test that skips a strip above the
    horizon never fires), and every projection scale is positive and
    grows towards the viewer, so no division by zero occurs. *)
Theorem v2_render_goes_through (random : nat → R) (cornerData : list Corner)
    (w : Window) (acts : list V2.Action) (W H : R) :
  (12 <= length cornerData)%nat → 0 <= H →
  ∃ e evs strips dash c,
    V2.run w acts (V2.boot random cornerData) = Some (e, evs) ∧
    V2.render W H e = Some (strips, dash, c) ∧
    length strips = 299%nat ∧
    Forall (λ pp, 0 < V2.scale (fst pp) < V2.scale (snd pp)) strips ∧
    ((c = None ∧ V2.currentCorner (V2.state e) = None) ∨
     ∃ n, V2.currentCorner (V2.state e) = Some (S n) ∧
          cornerData !! n = c ∧ is_Some c).
Proof.
  intros Hlen HH.
  destruct (v2_run_bounded w acts (V2.boot random cornerData))
    as (e & evs & Hrun & (Hne & Hp0 & Hv0) & Hv & Hp & Htl & _).
  - apply v2_boot_alive.
  - rewrite v2_boot_state. cbn [V2.speed].
    unfold V2.MAX_SPEED, V2.ACCELERATION. lra.
  - rewrite v2_boot_state. cbn [V2.position V2.trackLength]. lra.
  - rewrite v2_boot_state. cbn [V2.trackLength].
    unfold V2.MAX_SPEED, V2.ACCELERATION. lra.
  - destruct (v2_run_corner w acts _ e evs Hrun) as (Hsegs & Hcs & Hcc).
    rewrite v2_boot_segments in Hsegs, Hcc.
    assert (Hcs' : V2.corners e = cornerData) by (rewrite Hcs; reflexivity).
    assert (Hid : V2.currentCorner (V2.state e) = None ∨
                  ∃ k, V2.currentCorner (V2.state e) = Some k ∧
                       (1 <= k <= 12)%nat).
    { destruct Hcc as [Heq|(seg & Hin & Heq)].
      - left. rewrite Heq, v2_boot_state. reflexivity.
      - rewrite Heq. exact (v2_track_corner_ids random seg Hin). }
    destruct (v2_overlay_spec e) as (c & Hov & Hc);
      [rewrite Hcs'; exact Hlen|exact Hid|].
    rewrite Hcs' in Hc.
    assert (Hrender : ∃ strips,
      V2.render W H e = Some (strips, V2.drawDashboard (V2.state e), c) ∧
      length strips = 299%nat ∧
      Forall (λ pp, 0 < V2.scale (fst pp) < V2.scale (snd pp)) strips);
      [|destruct Hrender as (strips & Hr & Hl & Hf);
        exists e, evs, strips, (V2.drawDashboard (V2.state e)), c; auto].
    unfold V2.render.
    destruct (floorDivMod_total (V2.position (V2.state e)) V2.SEGMENT_LENGTH
                (length (V2.segments e))) as (start & -> & _);
      [unfold V2.SEGMENT_LENGTH; lra|exact Hp0
      |intros Hz; exact (Hne (nil_length_inv _ Hz))|].
    cbn [mbind option_bind].
    destruct (v2_project_spec W H (V2.state e) (V2.segments e) start
                (Js.fmod (V2.position (V2.state e)) V2.SEGMENT_LENGTH)
                V2.DRAW_DISTANCE 0 0 Hne) as (proj & -> & Hplen & Hproj).
    cbn [mbind option_bind]. rewrite Hov. cbn [mbind option_bind].
    destruct (v2_strips_spec H
                (Js.fmod (V2.position (V2.state e)) V2.SEGMENT_LENGTH)
                proj HH) as [Hs Hall].
    { apply v2_fmod_range; [exact Hp0|unfold V2.SEGMENT_LENGTH; lra]. }
    { rewrite Hplen. reflexivity. }
    { intros k p Hk. destruct (Hproj k p Hk) as (Hy & Hsc & _).
      cbn [Nat.add] in Hy, Hsc. auto. }
    eexists. split; [reflexivity|]. rewrite Hs. split.
    + rewrite length_reverse, length_zip_with, length_drop, Hplen. reflexivity.
    + apply Forall_reverse. exact Hall.
Qed.

Lemma v2_render_goes_through_witness :
  ∃ e evs strips dash c,
    V2.run V2.emptyWindow [V2.KeyDown "ArrowUp"; V2.Frame]
      (V2.boot (λ _, 0) AppJs.CORNERS_DATA) = Some (e, evs) ∧
    V2.render 1600 900 e = Some (strips, dash, c) ∧
    length strips = 299%nat ∧
    Forall (λ pp, 0 < V2.scale (fst pp) < V2.scale (snd pp)) strips ∧
    ((c = None ∧ V2.currentCorner (V2.state e) = None) ∨
     ∃ n, V2.currentCorner (V2.state e) = Some (S n) ∧
          AppJs.CORNERS_DATA !! n = c ∧ is_Some c).
Proof.
  apply (v2_render_goes_through (λ _, 0) AppJs.CORNERS_DATA V2.emptyWindow
           [V2.KeyDown "ArrowUp"; V2.Frame] 1600 900).
  - cbn. lia.
  - lra.
Defined.

(** * First variant: the engine on the page *)

Lemma filter_absent {A : Type} `{EqDecision A} (x : A) (l : list A) :
  x ∉ l → filter (λ y, y ≠ x) l = l.
Proof.
  intros Hx. apply filter_all. apply Forall_forall.
  intros y Hy ->. exact (Hx Hy).
Qed.

Lemma filter_only {A : Type} `{EqDecision A} (x : A) :
  filter (λ y, y ≠ x) [x] = [].
Proof.
  rewrite filter_cons, decide_False by (intros Hne; apply Hne; reflexivity).
  reflexivity.
Qed.

(** A tick of a ready engine, as seen from the page. *)
Lemma v1_update_page (e : V1.RideEngine) :
  ready e → inRange e →
  ∃ e' evs, V1._update e = Some (e', evs) ∧ ready e' ∧ inRange e' ∧
    V1.rafId e' = V1.rafId e ∧ V1.running e' = V1.running e ∧
    V1.demo (V1.state e') = V1.demo (V1.state e) ∧
    (V1.demo (V1.state e) = false → V1.input e' = V1.input e).
Proof.
  intros Hr Hi.
  destruct (v1_act_inRange V1.Frame e Hr Hi) as (e' & evs & Hup & Hr' & Hi' & _).
  cbn [V1.act] in Hup.
  destruct (v1_update_inv e e' evs Hup) as (inp & i & seg & Hinp & _ & _ & He' & _).
  cbv zeta in He'.
  exists e', evs. split; [exact Hup|]. split; [exact Hr'|]. split; [exact Hi'|].
  rewrite He'. cbn [V1.rafId V1.running V1.state V1.demo V1.input].
  split; [reflexivity|]. split; [reflexivity|]. split; [reflexivity|].
  intros Hd. rewrite Hd in Hinp. injection Hinp as <-. reflexivity.
Qed.

Lemma v1_loop_page (e : V1.RideEngine) (w : Window) :
  ready e → inRange e → V1.running e = true →
  ∃ e' evs,
    V1._loop e w = Some (e', snd (requestAnimationFrame w), evs) ∧
    ready e' ∧ inRange e' ∧ V1.running e' = true ∧
    V1.rafId e' = Some (S (lastHandle w)) ∧
    V1.demo (V1.state e') = V1.demo (V1.state e) ∧
    (V1.demo (V1.state e) = false → V1.input e' = V1.input e).
Proof.
  intros Hr Hi Hrun.
  destruct (v1_update_page e Hr Hi)
    as (e' & evs & Hup & Hr' & Hi' & _ & Hrun' & Hd & Hinp).
  unfold V1._loop. rewrite Hrun, Hup. cbn [mbind option_bind].
  eexists _, evs. split; [reflexivity|].
  unfold ready, inRange in *.
  cbn [V1.segments V1.state V1.running V1.rafId V1.input fst].
  split; [exact Hr'|]. split; [exact Hi'|]. split; [congruence|].
  split; [reflexivity|]. split; [exact Hd|exact Hinp].
Qed.

Lemma v1_key_page (a : V1.Action) (e : V1.RideEngine) :
  a ≠ V1.Frame → ready e → inRange e →
  ∃ e', V1.act a e = Some (e', []) ∧ ready e' ∧ inRange e' ∧
    V1.rafId e' = V1.rafId e ∧ V1.running e' = V1.running e.
Proof.
  intros Ha Hr Hi.
  destruct (v1_key_ready a e Ha Hr Hi) as (e' & Hact & Hr' & Hi' & _).
  exists e'. split; [exact Hact|]. split; [exact Hr'|]. split; [exact Hi'|].
  destruct a as [key|key|]; [| |done]; cbn [V1.act] in Hact;
    injection Hact as <-; [|split; reflexivity].
  unfold V1._onKeyDown. destruct (decide _); split; reflexivity.
Qed.

(** While the engine runs: one frame is pending, the one [rafId] names,
    and the listeners stay as they are. *)
Lemma v1_deliver_running (a : V1.Action) (e : V1.RideEngine) (w : Window)
    (h : nat) :
  ready e → inRange e → V1.running e = true →
  V1.rafId e = Some (S h) → pendingFrames w = [S h] →
  ∃ e' w' evs h',
    V1.deliver a e w = Some (e', w', evs) ∧
    ready e' ∧ inRange e' ∧ V1.running e' = true ∧
    V1.rafId e' = Some (S h') ∧ pendingFrames w' = [S h'] ∧
    listeners w' = listeners w.
Proof.
  intros Hr Hi Hrun Hraf Hpend.
  destruct a as [key|key|]; cbn [V1.deliver].
  - destruct (decide _).
    + destruct (v1_key_page (V1.KeyDown key) e) as (e' & Hact & Hr' & Hi' & Hraf' & Hrun');
        [done|exact Hr|exact Hi|].
      cbn [V1.act] in Hact. injection Hact as Hact. rewrite Hact.
      exists e', w, [], h. split; [reflexivity|].
      rewrite Hraf', Hrun'. auto 10.
    + exists e, w, [], h. auto 10.
  - destruct (decide _).
    + destruct (v1_key_page (V1.KeyUp key) e) as (e' & Hact & Hr' & Hi' & Hraf' & Hrun');
        [done|exact Hr|exact Hi|].
      cbn [V1.act] in Hact. injection Hact as Hact. rewrite Hact.
      exists e', w, [], h. split; [reflexivity|].
      rewrite Hraf', Hrun'. auto 10.
    + exists e, w, [], h. auto 10.
  - rewrite Hpend.
    destruct (v1_loop_page e (cancelAnimationFrame (S h) w) Hr Hi Hrun)
      as (e' & evs & Hloop & Hr' & Hi' & Hrun' & Hraf' & _).
    rewrite Hloop. eexists e', _, evs, _. split; [reflexivity|].
    split; [exact Hr'|]. split; [exact Hi'|]. split; [exact Hrun'|].
    split; [exact Hraf'|].
    unfold requestAnimationFrame, cancelAnimationFrame.
    cbn [snd pendingFrames listeners lastHandle]. rewrite Hpend, filter_only.
    split; reflexivity.
Qed.

Lemma v1_session_running (acts : list V1.Action) (e : V1.RideEngine)
    (w : Window) (h : nat) :
  ready e → inRange e → V1.running e = true →
  V1.rafId e = Some (S h) → pendingFrames w = [S h] →
  ∃ e' w' evs h',
    V1.session acts e w = Some (e', w', evs) ∧
    ready e' ∧ inRange e' ∧ V1.running e' = true ∧
    V1.rafId e' = Some (S h') ∧ pendingFrames w' = [S h'] ∧
    listeners w' = listeners w.
Proof.
  revert e w h. induction acts as [|a acts IH]; intros e w h Hr Hi Hrun Hraf Hpend.
  - exists e, w, [], h. auto 10.
  - destruct (v1_deliver_running a e w h Hr Hi Hrun Hraf Hpend)
      as (e1 & w1 & evs1 & h1 & Hd & Hr1 & Hi1 & Hrun1 & Hraf1 & Hpend1 & Hl1).
    destruct (IH e1 w1 h1 Hr1 Hi1 Hrun1 Hraf1 Hpend1)
      as (e2 & w2 & evs2 & h2 & Hs & Hr2 & Hi2 & Hrun2 & Hraf2 & Hpend2 & Hl2).
    exists e2, w2, (evs1 ++ evs2), h2.
    split; [cbn [V1.session]; rewrite Hd; cbn [mbind option_bind];
            rewrite Hs; reflexivity|].
    rewrite Hl2, Hl1. auto 10.
Qed.

Lemma v1_init_engine (cornerData : list Corner) (w : Window) :
  fst (V1.init cornerData V1.constructor w) = V1.boot cornerData false false.
Proof.
  unfold V1.boot, V1.init.
  cbn [fst V1.segments V1.corners V1.state V1.input V1.rafId V1.running].
  reflexivity.
Qed.

Lemma v1_init_window (cornerData : list Corner) (w : Window) :
  ("keydown", boundKeyDown) ∉ listeners w →
  ("keyup", boundKeyUp) ∉ listeners w →
  listeners (snd (V1.init cornerData V1.constructor w))
  = listeners w ++ [("keydown", boundKeyDown); ("keyup", boundKeyUp)] ∧
  pendingFrames (snd (V1.init cornerData V1.constructor w)) = pendingFrames w.
Proof.
  intros Hkd Hku. unfold V1.init. cbn [snd].
  unfold addEventListener, withListeners.
  destruct (decide (("keydown", boundKeyDown) ∈ listeners w)) as [Hin|_];
    [destruct (Hkd Hin)|].
  cbn [listeners]. destruct (decide _) as [Hin|_].
  - exfalso. apply elem_of_app in Hin as [Hin|Hin]; [exact (Hku Hin)|].
    apply list_elem_of_singleton in Hin. discriminate Hin.
  - cbn [listeners pendingFrames]. rewrite <- app_assoc. split; reflexivity.
Qed.

Lemma v1_start_page (e : V1.RideEngine) (w : Window) :
  ready e → inRange e →
  ∃ e' evs,
    V1.start e w = Some (e', snd (requestAnimationFrame w), evs) ∧
    ready e' ∧ inRange e' ∧ V1.running e' = true ∧
    V1.rafId e' = Some (S (lastHandle w)) ∧
    V1.demo (V1.state e') = V1.demo (V1.state e) ∧
    (V1.demo (V1.state e) = false → V1.input e' = V1.input e).
Proof.
  intros Hr Hi. unfold V1.start.
  match goal with
  | |- context [V1._loop ?e0 w] =>
      destruct (v1_loop_page e0 w)
        as (e' & evs & Hl & Hr' & Hi' & Hrun' & Hraf' & Hd & Hinp);
      [exact Hr|exact Hi|reflexivity|]
  end.
  exists e', evs. split; [exact Hl|]. auto 10.
Qed.

Lemma v1_stop_window (e : V1.RideEngine) (w : Window) (h : nat)
    (ls : list (string * Listener)) :
  V1.rafId e = Some (S h) → pendingFrames w = [S h] →
  ("keydown", boundKeyDown) ∉ ls → ("keyup", boundKeyUp) ∉ ls →
  listeners w = ls ++ [("keydown", boundKeyDown); ("keyup", boundKeyUp)] →
  pendingFrames (snd (V1.stop e w)) = [] ∧ listeners (snd (V1.stop e w)) = ls.
Proof.
  intros Hraf Hpend Hkd Hku Hl. unfold V1.stop. rewrite Hraf. cbn [snd].
  unfold removeEventListener, withListeners, cancelAnimationFrame.
  cbn [listeners pendingFrames]. rewrite Hpend, filter_only, Hl.
  split; [reflexivity|].
  rewrite !filter_app, !filter_cons, filter_nil.
  rewrite (filter_absent ("keydown", boundKeyDown) ls Hkd).
  rewrite (filter_absent ("keyup", boundKeyUp) ls Hku).
  rewrite decide_False by (intros Hne; apply Hne; reflexivity).
  rewrite decide_True by discriminate. cbn [app].
  rewrite filter_cons, filter_nil.
  rewrite decide_False by (intros Hne; apply Hne; reflexivity).
  apply app_nil_r.
Qed.

(** X24.  From [init] on a page with no pending frame, through
    [start()] and any sequence of key events and frames: the engine
    keeps exactly one frame pending, the one [rafId] names, and the two
    listeners of [init] stay registered; [stop()] then leaves no frame
    pending and the listeners as they were before [init]. *)
Theorem v1_one_frame_pending_until_stop (cornerData : list Corner) (w : Window)
    (acts : list V1.Action) :
  pendingFrames w = [] →
  ("keydown", boundKeyDown) ∉ listeners w →
  ("keyup", boundKeyUp) ∉ listeners w →
  ∃ e1 w1 evs1 e2 w2 evs2,
    V1.start (fst (V1.init cornerData V1.constructor w))
      (snd (V1.init cornerData V1.constructor w)) = Some (e1, w1, evs1) ∧
    V1.session acts e1 w1 = Some (e2, w2, evs2) ∧
    (∃ h, V1.rafId e2 = Some h ∧ pendingFrames w2 = [h]) ∧
    listeners w2
    = listeners w ++ [("keydown", boundKeyDown); ("keyup", boundKeyUp)] ∧
    pendingFrames (snd (V1.stop e2 w2)) = [] ∧
    listeners (snd (V1.stop e2 w2)) = listeners w.
Proof.
  intros Hpend Hkd Hku.
  destruct (v1_init_window cornerData w Hkd Hku) as [Hl0 Hp0].
  rewrite v1_init_engine.
  set (w0 := snd (V1.init cornerData V1.constructor w)) in *.
  destruct (v1_start_page (V1.boot cornerData false false) w0)
    as (e1 & evs1 & Hstart & Hr1 & Hi1 & Hrun1 & Hraf1 & _);
    [apply v1_boot_ready|apply v1_boot_inRange|].
  assert (Hp1 : pendingFrames (snd (requestAnimationFrame w0))
                = [S (lastHandle w0)]).
  { unfold requestAnimationFrame. cbn [snd pendingFrames].
    rewrite Hp0, Hpend. reflexivity. }
  destruct (v1_session_running acts e1 _ _ Hr1 Hi1 Hrun1 Hraf1 Hp1)
    as (e2 & w2 & evs2 & h2 & Hs & _ & _ & _ & Hraf2 & Hp2 & Hl2).
  change (listeners (snd (requestAnimationFrame w0))) with (listeners w0) in Hl2.
  rewrite Hl0 in Hl2.
  exists e1, (snd (requestAnimationFrame w0)), evs1, e2, w2, evs2.
  split; [exact Hstart|]. split; [exact Hs|].
  split; [exists (S h2); split; assumption|]. split; [exact Hl2|].
  exact (v1_stop_window e2 w2 h2 (listeners w) Hraf2 Hp2 Hkd Hku Hl2).
Qed.

Lemma v1_one_frame_pending_until_stop_witness :
  ∃ e1 w1 evs1 e2 w2 evs2,
    V1.start (fst (V1.init [] V1.constructor V1.emptyWindow))
      (snd (V1.init [] V1.constructor V1.emptyWindow)) = Some (e1, w1, evs1) ∧
    V1.session [V1.KeyDown "ArrowUp"; V1.Frame; V1.Frame] e1 w1
    = Some (e2, w2, evs2) ∧
    (∃ h, V1.rafId e2 = Some h ∧ pendingFrames w2 = [h]) ∧
    listeners w2 = [("keydown", boundKeyDown); ("keyup", boundKeyUp)] ∧
    pendingFrames (snd (V1.stop e2 w2)) = [] ∧
    listeners (snd (V1.stop e2 w2)) = [].
Proof.
  apply (v1_one_frame_pending_until_stop [] V1.emptyWindow
           [V1.KeyDown "ArrowUp"; V1.Frame; V1.Frame]).
  - reflexivity.
  - apply not_elem_of_nil.
  - apply not_elem_of_nil.
Defined.

(** With the two listeners off the page, no key reaches the engine. *)
Lemma v1_deliver_deaf (a : V1.Action) (e : V1.RideEngine) (w : Window) :
  ready e → inRange e → V1.running e = true →
  ("keydown", boundKeyDown) ∉ listeners w →
  ("keyup", boundKeyUp) ∉ listeners w →
  ∃ e' w' evs,
    V1.deliver a e w = Some (e', w', evs) ∧
    ready e' ∧ inRange e' ∧ V1.running e' = true ∧
    listeners w' = listeners w ∧
    V1.demo (V1.state e') = V1.demo (V1.state e) ∧
    (V1.demo (V1.state e) = false → V1.input e' = V1.input e).
Proof.
  intros Hr Hi Hrun Hkd Hku.
  destruct a as [key|key|]; cbn [V1.deliver].
  - rewrite decide_False by exact Hkd. exists e, w, []. auto 10.
  - rewrite decide_False by exact Hku. exists e, w, []. auto 10.
  - destruct (pendingFrames w) as [|h rest]; [exists e, w, []; auto 10|].
    destruct (v1_loop_page e (cancelAnimationFrame h w) Hr Hi Hrun)
      as (e' & evs & Hloop & Hr' & Hi' & Hrun' & _ & Hd & Hinp).
    rewrite Hloop. eexists e', _, evs. split; [reflexivity|]. auto 10.
Qed.

Lemma v1_session_deaf (acts : list V1.Action) (e : V1.RideEngine) (w : Window) :
  ready e → inRange e → V1.running e = true →
  ("keydown", boundKeyDown) ∉ listeners w →
  ("keyup", boundKeyUp) ∉ listeners w →
  ∃ e' w' evs,
    V1.session acts e w = Some (e', w', evs) ∧
    V1.running e' = true ∧
    listeners w' = listeners w ∧
    V1.demo (V1.state e') = V1.demo (V1.state e) ∧
    (V1.demo (V1.state e) = false → V1.input e' = V1.input e).
Proof.
  revert e w. induction acts as [|a acts IH]; intros e w Hr Hi Hrun Hkd Hku.
  - exists e, w, []. auto 10.
  - destruct (v1_deliver_deaf a e w Hr Hi Hrun Hkd Hku)
      as (e1 & w1 & evs1 & Hd & Hr1 & Hi1 & Hrun1 & Hl1 & Hdemo1 & Hinp1).
    destruct (IH e1 w1 Hr1 Hi1 Hrun1) as (e2 & w2 & evs2 & Hs & Hrun2 & Hl2
                                          & Hdemo2 & Hinp2);
      [rewrite Hl1; exact Hkd|rewrite Hl1; exact Hku|].
    exists e2, w2, (evs1 ++ evs2).
    split; [cbn [V1.session]; rewrite Hd; cbn [mbind option_bind];
            rewrite Hs; reflexivity|].
    split; [exact Hrun2|]. split; [rewrite Hl2; exact Hl1|].
    split; [rewrite Hdemo2; exact Hdemo1|].
    intros Hoff. rewrite Hinp2 by (rewrite Hdemo1; exact Hoff).
    exact (Hinp1 Hoff).
Qed.

(** X25.  [stop()] takes the two listeners off the page and only
    [init] puts them on: an engine started again after [stop()] runs
    its frames but no key event reaches it any more.  Whatever keys are
    pressed after the second [start()], the demo flag stays as it was
    at [stop()], and with the demo off so does the whole key map. *)
Theorem v1_restart_ignores_keys (cornerData : list Corner) (w : Window)
    (acts1 acts2 : list V1.Action) :
  pendingFrames w = [] →
  ("keydown", boundKeyDown) ∉ listeners w →
  ("keyup", boundKeyUp) ∉ listeners w →
  ∃ e1 w1 evs1 e2 w2 evs2 e3 w3 evs3 e4 w4 evs4,
    V1.start (fst (V1.init cornerData V1.constructor w))
      (snd (V1.init cornerData V1.constructor w)) = Some (e1, w1, evs1) ∧
    V1.session acts1 e1 w1 = Some (e2, w2, evs2) ∧
    V1.start (fst (V1.stop e2 w2)) (snd (V1.stop e2 w2)) = Some (e3, w3, evs3) ∧
    V1.session acts2 e3 w3 = Some (e4, w4, evs4) ∧
    V1.running e4 = true ∧
    listeners w4 = listeners w ∧
    V1.demo (V1.state e4) = V1.demo (V1.state e2) ∧
    (V1.demo (V1.state e2) = false → V1.input e4 = V1.input e2).
Proof.
  intros Hpend Hkd Hku.
  destruct (v1_init_window cornerData w Hkd Hku) as [Hl0 Hp0].
  rewrite v1_init_engine.
  set (w0 := snd (V1.init cornerData V1.constructor w)) in *.
  destruct (v1_start_page (V1.boot cornerData false false) w0)
    as (e1 & evs1 & Hstart & Hr1 & Hi1 & Hrun1 & Hraf1 & _);
    [apply v1_boot_ready|apply v1_boot_inRange|].
  assert (Hp1 : pendingFrames (snd (requestAnimationFrame w0))
                = [S (lastHandle w0)]).
  { unfold requestAnimationFrame. cbn [snd pendingFrames].
    rewrite Hp0, Hpend. reflexivity. }
  destruct (v1_session_running acts1 e1 _ _ Hr1 Hi1 Hrun1 Hraf1 Hp1)
    as (e2 & w2 & evs2 & h2 & Hs & Hr2 & Hi2 & _ & Hraf2 & Hp2 & Hl2).
  change (listeners (snd (requestAnimationFrame w0))) with (listeners w0) in Hl2.
  rewrite Hl0 in Hl2.
  destruct (v1_stop_window e2 w2 h2 (listeners w) Hraf2 Hp2 Hkd Hku Hl2)
    as [_ Hl3].
  destruct (v1_start_page (fst (V1.stop e2 w2)) (snd (V1.stop e2 w2)))
    as (e3 & evs3 & Hstart3 & Hr3 & Hi3 & Hrun3 & _ & Hdemo3 & Hinp3);
    [exact Hr2|exact Hi2|].
  destruct (v1_session_deaf acts2 e3 (snd (requestAnimationFrame
                                              (snd (V1.stop e2 w2))))
              Hr3 Hi3 Hrun3)
    as (e4 & w4 & evs4 & Hs4 & Hrun4 & Hl4 & Hdemo4 & Hinp4).
  { change (listeners (snd (requestAnimationFrame (snd (V1.stop e2 w2)))))
      with (listeners (snd (V1.stop e2 w2))). rewrite Hl3. exact Hkd. }
  { change (listeners (snd (requestAnimationFrame (snd (V1.stop e2 w2)))))
      with (listeners (snd (V1.stop e2 w2))). rewrite Hl3. exact Hku. }
  change (listeners (snd (requestAnimationFrame (snd (V1.stop e2 w2)))))
    with (listeners (snd (V1.stop e2 w2))) in Hl4.
  exists e1, (snd (requestAnimationFrame w0)), evs1, e2, w2, evs2.
  exists e3, (snd (requestAnimationFrame (snd (V1.stop e2 w2)))), evs3.
  exists e4, w4, evs4.
  split; [exact Hstart|]. split; [exact Hs|]. split; [exact Hstart3|].
  split; [exact Hs4|]. split; [exact Hrun4|].
  split; [rewrite Hl4; exact Hl3|].
  split; [rewrite Hdemo4; exact Hdemo3|].
  intros Hoff. rewrite Hinp4 by (rewrite Hdemo3; exact Hoff).
  exact (Hinp3 Hoff).
Qed.

Lemma v1_restart_ignores_keys_witness :
  ∃ e1 w1 evs1 e2 w2 evs2 e3 w3 evs3 e4 w4 evs4,
    V1.start (fst (V1.init [] V1.constructor V1.emptyWindow))
      (snd (V1.init [] V1.constructor V1.emptyWindow)) = Some (e1, w1, evs1) ∧
    V1.session [V1.Frame] e1 w1 = Some (e2, w2, evs2) ∧
    V1.start (fst (V1.stop e2 w2)) (snd (V1.stop e2 w2)) = Some (e3, w3, evs3) ∧
    V1.session [V1.KeyDown "d"; V1.Frame; V1.KeyDown "ArrowUp"] e3 w3
    = Some (e4, w4, evs4) ∧
    V1.running e4 = true ∧
    listeners w4 = [] ∧
    V1.demo (V1.state e4) = V1.demo (V1.state e2) ∧
    (V1.demo (V1.state e2) = false → V1.input e4 = V1.input e2).
Proof.
  apply (v1_restart_ignores_keys [] V1.emptyWindow [V1.Frame]
           [V1.KeyDown "d"; V1.Frame; V1.KeyDown "ArrowUp"]).
  - reflexivity.
  - apply not_elem_of_nil.
  - apply not_elem_of_nil.
Defined.

(** ** The tick after the line, and the lap in binary64 *)

Lemma v2_lapOntoLine_drift :
  driveRun (curveBounds V2.TRACK_ZONES v2_peaks) lapOntoLine
    (mkDrive false 0 0 0)
  = Some (mkDrive true 1610000 4500 10269752).
Proof. vm_compute. reflexivity. Qed.

Lemma floorDivMod_lap (n : nat) :
  n ≠ 0%nat → Js.floorDivMod (INR n * 200) 200 n = Some 0%nat.
Proof.
  intros Hn. unfold Js.floorDivMod. rewrite decide_False by exact Hn.
  assert (Hq : Int_part (INR n * 200 / 200) = Z.of_nat n).
  { apply Int_part_between. rewrite <- INR_IZR_INZ. lra. }
  rewrite Hq, Z.rem_same by lia. cbv zeta.
  rewrite decide_False by lia. reflexivity.
Qed.

(** The lap [lapOntoLine] ends on the line with nothing reported, and the
    tick after it wraps and reports the lap. *)
Lemma v2_lap_then_tick (random : nat → R) (cornerData : list Corner)
    (w : Window) :
  ∃ e e',
    V2.run w lapOntoLine (V2.boot random cornerData) = Some (e, []) ∧
    V2.position (V2.state e) = 161000 ∧
    V2.trackLength (V2.state e) = 161000 ∧
    Rabs (V2.x (V2.state e)) <= 0.8 ∧
    V2.update w e
    = Some (e', if appOnLapComplete w then [LapComplete] else []) ∧
    V2.position (V2.state e') = 450 ∧
    V2.trackLength (V2.state e') = 161000.
Proof.
  destruct (v2_driven_run random w lapOntoLine _ _ _
              (v2_grid_driven random cornerData) v2_lapOntoLine_drift)
    as (e & Hrun & (Hsegs & Hd & Htl & Hp & Hv & Hx & Hup & Hdown & Hl & Hr)).
  cbn [position10 speed10 drift throttle] in Hp, Hv, Hx, Hup.
  assert (Hp' : V2.position (V2.state e) = 161000) by (rewrite Hp; lra).
  destruct (v2_segment_at random 0 0 0 (V2.straight 50))
    as (seg & Hseg & Hc & _); [reflexivity|cbn; lia|reflexivity|].
  assert (Hlook : V2.lookupSegment e = Some seg).
  { unfold V2.lookupSegment. rewrite Hsegs, v2_track_805, Hp'.
    unfold V2.SEGMENT_LENGTH.
    replace 161000 with (INR 805 * 200)
      by (rewrite (INR_lit 805 805) by reflexivity; lra).
    rewrite floorDivMod_lap by lia. exact Hseg. }
  rewrite v2_zoneCurve_0 in Hc.
  eexists e, _. split; [exact Hrun|]. split; [exact Hp'|].
  split; [exact Htl|]. split; [lra|].
  rewrite (v2_update_eq w e seg Hlook). cbv zeta.
  rewrite Hd. unfold V2.humanControl. rewrite Hup, Hl, Hr. cbn [fst snd].
  rewrite Hv. unfold V2.ACCELERATION, V2.MAX_SPEED.
  replace (Rmin (IZR 4500 / 10 + 3.2) 450) with 450
    by (unfold Rmin; destruct (Rle_dec _ _); lra).
  unfold V2.centrifugal. rewrite Hc.
  replace (V2.x (V2.state e) - 0 * V2.CENTRIFUGAL * (450 / V2.MAX_SPEED) * 0.01)
    with (V2.x (V2.state e)) by (unfold V2.CENTRIFUGAL, V2.MAX_SPEED; lra).
  unfold V2.offroad. rewrite decide_False by lra.
  unfold V2.advance. cbv zeta. rewrite Hp', Htl.
  rewrite bool_decide_eq_true_2 by lra. cbn [fst snd andb].
  split; [reflexivity|].
  cbn [V2.state V2.position V2.trackLength]. split; [lra|reflexivity].
Qed.

(** The same lap with the program's rounding: in binary64 the last tick
    of [lapOntoLine] puts the position on 161000 exactly and has wrapped
    no lap; the tick after it is the one that wraps. *)
Lemma v2_lap64_on_line :
  V2.run64 161000 lapOntoLine V2.grid64
  = Some (V2.mkState64 true false 161000 450 0).
Proof. vm_compute. reflexivity. Qed.

Lemma v2_lap64_then_tick :
  V2.run64 161000 (lapOntoLine ++ [V2.Frame]) V2.grid64
  = Some (V2.mkState64 true false 450 450 1).
Proof. vm_compute. reflexivity. Qed.

(** ** First variant: a lap under throttle *)

Lemma v1_throttle_speed (inp : gmap string bool) (x v : R) :
  V1.input_is inp "ArrowUp" = true → V1.input_is inp "ArrowDown" = false →
  0 <= v →
  0.99 * Rmin (v + 3.5) 440 <= V1.offroad x (V1.physics inp v).
Proof.
  intros Hup Hdown Hv. unfold V1.physics. rewrite Hup, Hdown.
  cbn [negb andb]. unfold V1.offroad, V1.OFFROAD_DECEL, V1.ACCELERATION,
    V1.MAX_SPEED.
  assert (0 <= Rmin (v + 3.5) 440)
    by (unfold Rmin; destruct (Rle_dec _ _); lra).
  destruct (decide _); lra.
Qed.

(** One frame with the throttle held and the brake not: after [n] frames
    the speed is at least [n], or at least 200, and the vehicle has
    completed a lap or is at least [200 * (n - 200)] down the road. *)
Lemma v1_throttle_frame (cornerData : list Corner) (e : V1.RideEngine)
    (evs : list Event) (n : nat) :
  booted cornerData e → inRange e → lapInv cornerData e evs →
  V1.demo (V1.state e) = false →
  V1.input_is (V1.input e) "ArrowUp" = true →
  V1.input_is (V1.input e) "ArrowDown" = false →
  (INR n <= V1.speed (V1.state e) ∨ 200 <= V1.speed (V1.state e)) →
  (LapComplete ∈ evs ∨ 200 * (INR n - 200) <= V1.position (V1.state e)) →
  ∃ e' evs', V1._update e = Some (e', evs') ∧
    booted cornerData e' ∧ inRange e' ∧ lapInv cornerData e' (evs ++ evs') ∧
    V1.demo (V1.state e') = false ∧
    V1.input_is (V1.input e') "ArrowUp" = true ∧
    V1.input_is (V1.input e') "ArrowDown" = false ∧
    (INR (S n) <= V1.speed (V1.state e') ∨ 200 <= V1.speed (V1.state e')) ∧
    (LapComplete ∈ evs ++ evs'
     ∨ 200 * (INR (S n) - 200) <= V1.position (V1.state e')).
Proof.
  intros Hb Hr Hl Hd Hup Hdown Hv Hp.
  destruct (v1_frame_lapInv cornerData e evs Hb Hr Hl)
    as (e' & evs' & Hupd & Hb' & Hr' & Hl').
  exists e', evs'. split; [exact Hupd|]. split; [exact Hb'|].
  split; [exact Hr'|]. split; [exact Hl'|].
  pose proof (v1_update_keeps_input e e' evs' Hd Hupd) as Hinp'.
  destruct (v1_update_input e e' evs' Hupd) as [_ Hd'].
  rewrite Hinp', Hd'. split; [exact Hd|]. split; [exact Hup|].
  split; [exact Hdown|].
  destruct (v1_update_inv e e' evs' Hupd)
    as (inp & i & seg & Hinp & _ & _ & He' & Hevs').
  rewrite Hd in Hinp. injection Hinp as <-. cbv zeta in He', Hevs'.
  destruct Hr as [[Hp0 Hp1] [Hv0 Hv1]].
  destruct Hr' as [[Hp0' Hp1'] _].
  pose proof (v1_throttle_speed (V1.input e)
                (V1.steering (V1.input e) seg (V1.x (V1.state e))
                   (V1.physics (V1.input e) (V1.speed (V1.state e))))
                (V1.speed (V1.state e)) Hup Hdown Hv0) as Hspeed.
  set (v := V1.offroad _ _) in *.
  assert (Hv' : V1.speed (V1.state e') = v) by (rewrite He'; reflexivity).
  assert (Hpos' : V1.position (V1.state e')
                  = fst (V1.advance (V1.position (V1.state e)) v
                           (V1.trackLength (V1.state e))))
    by (rewrite He'; reflexivity).
  destruct Hb as (_ & _ & _ & Hol & Htl).
  rewrite Hol, andb_true_r in Hevs'. rewrite Htl in Hpos', Hevs'.
  rewrite Hv'.
  assert (Hfast : INR (S n) <= v ∨ 200 <= v).
  { rewrite S_INR. unfold Rmin in Hspeed.
    destruct (Rle_dec 200 (V1.speed (V1.state e))) as [Hs|Hs];
      [right; destruct (Rle_dec _ _); lra|].
    destruct Hv as [Hv|Hv]; [|lra].
    destruct (Rle_dec _ _); [left|right]; lra. }
  split; [exact Hfast|].
  unfold V1.advance in Hpos', Hevs'. cbv zeta in Hpos', Hevs'.
  cbn [fst snd] in Hpos', Hevs'.
  assert (Hv0' : 0 <= v).
  { pose proof (pos_INR (S n)). destruct Hfast; lra. }
  destruct (decide (V1.position (V1.state e) + v >= 94800)) as [Hw|Hw].
  - left. rewrite bool_decide_eq_true_2 in Hevs' by exact Hw.
    rewrite Hevs'. apply elem_of_app. right.
    apply elem_of_app. left. apply list_elem_of_here.
  - destruct Hp as [Hin|Hp]; [left; apply elem_of_app; left; exact Hin|].
    right. rewrite bool_decide_eq_false_2 in Hpos' by exact Hw.
    rewrite decide_False in Hpos' by (apply Rle_not_lt; lra).
    rewrite Hpos'. rewrite S_INR. rewrite S_INR in Hfast.
    destruct Hfast as [Hf|Hf]; [|lra].
    destruct (Rle_dec 200 v); lra.
Qed.

Lemma v1_throttle_run (cornerData : list Corner) (k : nat) :
  ∀ (n : nat) (e : V1.RideEngine) (evs : list Event),
  booted cornerData e → inRange e → lapInv cornerData e evs →
  V1.demo (V1.state e) = false →
  V1.input_is (V1.input e) "ArrowUp" = true →
  V1.input_is (V1.input e) "ArrowDown" = false →
  (INR n <= V1.speed (V1.state e) ∨ 200 <= V1.speed (V1.state e)) →
  (LapComplete ∈ evs ∨ 200 * (INR n - 200) <= V1.position (V1.state e)) →
  ∃ e' evs', V1.run (replicate k V1.Frame) e = Some (e', evs') ∧
    inRange e' ∧ booted cornerData e' ∧ lapInv cornerData e' (evs ++ evs') ∧
    (LapComplete ∈ evs ++ evs'
     ∨ 200 * (INR (n + k) - 200) <= V1.position (V1.state e')).
Proof.
  induction k as [|k IH]; intros n e evs Hb Hr Hl Hd Hup Hdown Hv Hp.
  - exists e, []. rewrite app_nil_r, Nat.add_0_r. auto.
  - destruct (v1_throttle_frame cornerData e evs n Hb Hr Hl Hd Hup Hdown Hv Hp)
      as (e1 & evs1 & Hupd & Hb1 & Hr1 & Hl1 & Hd1 & Hup1 & Hdown1 & Hv1 & Hp1).
    destruct (IH (S n) e1 (evs ++ evs1) Hb1 Hr1 Hl1 Hd1 Hup1 Hdown1 Hv1 Hp1)
      as (e2 & evs2 & Hrun & Hr2 & Hb2 & Hl2 & Hp2).
    exists e2, (evs1 ++ evs2).
    split; [exact (v1_run_step V1.Frame _ e e1 e2 evs1 evs2 Hupd Hrun)|].
    rewrite app_assoc. replace (n + S k)%nat with (S n + k)%nat by lia. auto.
Qed.

(** With the throttle held from the grid, 700 frames are enough for a
    whole lap: the events begin with the twelve corners, once each and
    in track order, and the lap. *)
Lemma v1_throttle_lap (cornerData : list Corner) (k : nat) :
  (700 <= k)%nat →
  ∃ e rest,
    V1.run (V1.KeyDown "ArrowUp" :: replicate k V1.Frame)
      (V1.boot cornerData true true)
    = Some (e, V1.lapEvents cornerData ++ rest).
Proof.
  intros Hk.
  set (e0 := V1._onKeyDown "ArrowUp" (V1.boot cornerData true true)).
  assert (He0 : e0 = V1.withInput (V1.boot cornerData true true)
                       (V1.input_down "ArrowUp" ∅)).
  { subst e0. unfold V1._onKeyDown. cbv zeta.
    rewrite decide_False by (intros [H|H]; discriminate H).
    rewrite v1_boot_input. reflexivity. }
  assert (Hs0 : V1.state e0 = V1.mkState 0 0 0 None true false 94800 300).
  { rewrite He0. cbn [V1.state V1.withInput]. apply v1_boot_state. }
  destruct (v1_act_lapInv cornerData (V1.KeyDown "ArrowUp") _ []
              (v1_boot_booted cornerData)
              (v1_boot_inRange cornerData true true)
              (v1_boot_lapInv cornerData))
    as (e0' & evs0 & Hact & Hb0 & Hr0 & Hl0).
  cbn [V1.act] in Hact. injection Hact as <- <-. fold e0 in Hb0, Hr0, Hl0.
  destruct (v1_throttle_run cornerData k 0 e0 ([] ++ []) Hb0 Hr0 Hl0)
    as (e & evs & Hrun & Hr & _ & Hl & Hp).
  - rewrite Hs0. reflexivity.
  - rewrite He0. reflexivity.
  - rewrite He0. reflexivity.
  - left. rewrite Hs0. cbn [V1.speed INR]. lra.
  - right. rewrite Hs0. cbn [V1.position INR]. lra.
  - cbn [app] in Hl, Hp.
    assert (Hlap : LapComplete ∈ evs).
    { destruct Hp as [Hin|Hp]; [exact Hin|exfalso].
      destruct Hr as [[_ Hp1] _].
      assert (Htl : V1.trackLength (V1.state e) = 94800).
      { destruct (v1_run_inRange (replicate k V1.Frame) e0
                    (booted_ready _ _ Hb0) Hr0)
          as (e' & evs' & Hrun' & _). rewrite Hrun in Hrun'.
        injection Hrun' as <- <-.
        destruct (v1_run_lapInv cornerData (replicate k V1.Frame) e0 []
                    Hb0 Hr0 Hl0) as (e' & evs' & Hrun' & Hb' & _).
        rewrite Hrun in Hrun'. injection Hrun' as <- <-.
        destruct Hb' as (_ & _ & _ & _ & Htl). exact Htl. }
      rewrite Htl in Hp1. apply le_INR in Hk.
      rewrite (INR_lit 700 700) in Hk by reflexivity.
      cbn [Nat.add] in Hp. lra. }
    destruct Hl as (laps & j & _ & _ & Hevs).
    destruct laps as [|laps].
    + exfalso. cbn [replicate concat app] in Hevs. rewrite Hevs in Hlap.
      apply list_elem_of_fmap in Hlap as (c & Hc & _). discriminate Hc.
    + exists e. eexists.
      rewrite (v1_run_step (V1.KeyDown "ArrowUp") _ _ e0 e [] evs eq_refl Hrun).
      rewrite Hevs. cbn [replicate concat app].
      rewrite <- app_assoc. reflexivity.
Qed.

(** ** Second variant: corners met under throttle *)

Lemma v2_run_no_corner_event (random : nat → R) (cornerData : list Corner)
    (w : Window) (acts : list V2.Action) :
  ∃ e evs,
    V2.run w acts (V2.boot random cornerData) = Some (e, evs) ∧
    ∀ c, CornerEntered c ∉ evs.
Proof.
  destruct (v2_run_bounded w acts (V2.boot random cornerData))
    as (e & evs & Hrun & _ & _ & _ & _ & Hc & _).
  - apply v2_boot_alive.
  - rewrite v2_boot_state. cbn [V2.speed].
    unfold V2.MAX_SPEED, V2.ACCELERATION. lra.
  - rewrite v2_boot_state. cbn [V2.position V2.trackLength]. lra.
  - rewrite v2_boot_state. cbn [V2.trackLength].
    unfold V2.MAX_SPEED, V2.ACCELERATION. lra.
  - exists e, evs. split; [exact Hrun|exact Hc].
Qed.

(** A frame of the launch reads the corner index of the segment that
    holds the position the frame starts from. *)
Lemma v2_launch_corner (random : nat → R) (w : Window) (m zi i k : nat)
    (zone : V2.Zone) (e : V2.RideEngine) :
  launched random m e → (m < 140)%nat →
  V2.TRACK_ZONES !! zi = Some zone →
  (i < Z.to_nat (V2.len zone))%nat →
  (zoneOffset V2.TRACK_ZONES zi + i)%nat = k →
  INR k * 200 <= 1.6 * INR m * (INR m + 1) < (INR k + 1) * 200 →
  ∃ seg e',
    V2.lookupSegment e = Some seg ∧
    V2.cornerIndex seg = V2.zoneCorner zone ∧
    V2.update w e = Some (e', []) ∧ launched random (S m) e' ∧
    V2.currentCorner (V2.state e') = V2.zoneCorner zone ∧
    V2.corners e' = V2.corners e.
Proof.
  intros He Hm Hzone Hi Hk Hpos.
  destruct (v2_launch_step random w m e He Hm) as (e' & Hup & He').
  destruct He as (Hs & _ & _ & _ & _ & _ & _ & Hp & _).
  rewrite <- Hp in Hpos.
  destruct (v2_lookup_at random e zi i k zone Hs Hzone Hi Hk Hpos)
    as (seg & Hlook & _ & Hci).
  exists seg, e'. split; [exact Hlook|]. split; [exact Hci|].
  split; [exact Hup|]. split; [exact He'|].
  pose proof (v2_update_eq w e seg Hlook) as Heq. cbv zeta in Heq.
  rewrite Hup in Heq. injection Heq as Heq _. rewrite Heq.
  cbn [V2.state V2.currentCorner V2.corners]. split; [exact Hci|reflexivity].
Qed.

(** Throttle from the grid: frame 79 starts on the straight and carries
    the vehicle onto the first segment of corner 1; frame 80 starts
    there. *)
Lemma v2_into_corner_1 (random : nat → R) (cornerData : list Corner)
    (w : Window) :
  ∃ e1 e2 seg,
    V2.run w (V2.KeyDown "ArrowUp" :: replicate 79 V2.Frame)
      (V2.boot random cornerData) = Some (e1, []) ∧
    V2.position (V2.state e1) = 10112 ∧
    V2.lookupSegment e1 = Some seg ∧
    V2.cornerIndex seg = Some 1%nat ∧
    V2.currentCorner (V2.state e1) = None ∧
    V2.update w e1 = Some (e2, []) ∧
    V2.currentCorner (V2.state e2) = Some 1%nat.
Proof.
  destruct (v2_launch random w 78 0 _ (v2_grid_launched random cornerData))
    as (e0 & Hrun0 & He0); [lia|]. cbn [Nat.add] in He0.
  destruct (v2_launch_corner random w 78 0 49 49 (V2.straight 50) e0 He0)
    as (seg0 & e1 & _ & _ & Hup1 & He1 & Hcur1 & _);
    [lia|reflexivity|cbn; lia|reflexivity| |].
  { rewrite (INR_lit 49 49), (INR_lit 78 78) by reflexivity. lra. }
  destruct (v2_launch_corner random w 79 1 0 50 (V2.corner 35 1.6 1) e1 He1)
    as (seg & e2 & Hlook & Hci & Hup2 & _ & Hcur2 & _);
    [lia|reflexivity|cbn; lia|reflexivity| |].
  { rewrite (INR_lit 50 50), (INR_lit 79 79) by reflexivity. lra. }
  exists e1, e2, seg.
  split.
  { apply (v2_run_step w (V2.KeyDown "ArrowUp") _ _ _ e1 [] [] eq_refl).
    change (replicate 79 V2.Frame)
      with (replicate 78 V2.Frame ++ [V2.Frame]).
    apply (v2_run_app w _ _ _ e0 e1 [] [] Hrun0).
    cbn [V2.run V2.act]. rewrite Hup1. reflexivity. }
  split.
  { destruct He1 as (_ & _ & _ & _ & _ & _ & _ & Hp & _).
    rewrite Hp, (INR_lit 79 79) by reflexivity. lra. }
  split; [exact Hlook|]. split; [exact Hci|]. split; [exact Hcur1|].
  split; [exact Hup2|exact Hcur2].
Qed.

(** ** First variant: where [buildScenery] puts its objects *)

(** One [forEach] pass that rewrites the listed segments with [f]. *)
Lemma v1_pass_lookup (G : Z → Prop) `{∀ p, Decision (G p)}
    (f : V1.Segment → V1.Segment) (ps : list Z) :
  (∀ seg, f (f seg) = f seg) →
  ∀ (l : list V1.Segment) (i : nat) (seg' : V1.Segment),
  fold_left (λ segs p, if decide (G p) then alter f (Z.to_nat p) segs
                       else segs) ps l !! i = Some seg' →
  ∃ seg, l !! i = Some seg ∧
         seg' = if bool_decide (Exists (λ p, G p ∧ Z.to_nat p = i) ps)
                then f seg else seg.
Proof.
  intros Hf. induction ps as [|p ps IH]; intros l i seg' Hlook.
  - exists seg'. split; [exact Hlook|].
    rewrite bool_decide_eq_false_2 by (intros Hex; inversion Hex).
    reflexivity.
  - cbn [fold_left] in Hlook.
    destruct (IH _ i seg' Hlook) as (seg1 & Hseg1 & Hseg').
    assert (Hstep : ∃ seg, l !! i = Some seg ∧
              seg1 = if bool_decide (G p ∧ Z.to_nat p = i) then f seg else seg).
    { destruct (decide (G p)) as [Hg|Hg].
      - destruct (decide (Z.to_nat p = i)) as [Hpi|Hpi].
        + rewrite Hpi, list_lookup_alter_eq in Hseg1.
          apply fmap_Some in Hseg1 as (seg & Hl & ->).
          exists seg. split; [exact Hl|].
          rewrite bool_decide_eq_true_2 by (split; assumption). reflexivity.
        + rewrite list_lookup_alter_ne in Hseg1 by exact Hpi.
          exists seg1. split; [exact Hseg1|].
          rewrite bool_decide_eq_false_2 by (intros [_ Hc]; exact (Hpi Hc)).
          reflexivity.
      - exists seg1. split; [exact Hseg1|].
        rewrite bool_decide_eq_false_2 by (intros [Hc _]; exact (Hg Hc)).
        reflexivity. }
    destruct Hstep as (seg & Hseg & Hseg1').
    exists seg. split; [exact Hseg|]. rewrite Hseg', Hseg1'.
    destruct (bool_decide_reflect (G p ∧ Z.to_nat p = i)) as [Hhit|Hhit];
      destruct (bool_decide_reflect
                  (Exists (λ p, G p ∧ Z.to_nat p = i) ps)) as [Hex|Hex].
    + rewrite bool_decide_eq_true_2 by (apply Exists_cons; auto).
      apply Hf.
    + rewrite bool_decide_eq_true_2 by (apply Exists_cons; auto).
      reflexivity.
    + rewrite bool_decide_eq_true_2 by (apply Exists_cons; auto).
      reflexivity.
    + rewrite bool_decide_eq_false_2; [reflexivity|].
      intros Hc. apply Exists_cons in Hc as [Hc|Hc]; auto.
Qed.

(** A listed position is hit at place [i] exactly when it is [i]. *)
Lemma v1_hit_iff (G : Z → Prop) (ps : list Z) (i : nat) :
  (∀ p, p ∈ ps → Z.to_nat p = i → G p → (0 <= p)%Z) →
  G (Z.of_nat i) →
  Exists (λ p, G p ∧ Z.to_nat p = i) ps ↔ Z.of_nat i ∈ ps.
Proof.
  intros Hpos Hg. rewrite Exists_exists. split.
  - intros (p & Hin & Hgp & Hpi).
    replace (Z.of_nat i) with p; [exact Hin|].
    pose proof (Hpos p Hin Hpi Hgp). lia.
  - intros Hin. exists (Z.of_nat i). split; [exact Hin|].
    split; [exact Hg|apply Nat2Z.id].
Qed.

(** The objects of a segment after [buildScenery], by its place: a
    barrier on both sides at the places of [barrierSegs]; else a
    grandstand on the left at the places of the grandstand list; else a
    palm on both sides at the places of [palmPositions]; else what the
    segment had. *)
Lemma v1_buildScenery_lookup (segs : list V1.Segment) (i : nat)
    (seg' : V1.Segment) :
  V1.buildScenery segs !! i = Some seg' →
  ∃ seg, segs !! i = Some seg ∧
    V1.objLeft seg'
    = (if bool_decide (Z.of_nat i ∈ V1.barrierSegs)
       then Some (V1.mkObj "barrier" (-1.05))
       else if bool_decide
                 (Z.of_nat i
                  ∈ V1.grandstandPositions (Z.of_nat (length segs)))
       then Some (V1.mkObj "grandstand" (-2.2))
       else if bool_decide (Z.of_nat i ∈ V1.palmPositions)
       then Some (V1.mkObj "palm" (-1.5))
       else V1.objLeft seg) ∧
    V1.objRight seg'
    = (if bool_decide (Z.of_nat i ∈ V1.barrierSegs)
       then Some (V1.mkObj "barrier" 1.05)
       else if bool_decide (Z.of_nat i ∈ V1.palmPositions)
       then Some (V1.mkObj "palm" 1.5)
       else V1.objRight seg).
Proof.
  unfold V1.buildScenery. cbv zeta.
  set (T := Z.of_nat (length segs)).
  set (both := λ ol or (seg : V1.Segment), V1.setRight or (V1.setLeft ol seg)).
  assert (Hboth : ∀ ol or ps (l : list V1.Segment),
    fold_left (λ (segs : list V1.Segment) p,
      if decide (p < T)%Z then
        alter (V1.setRight or) (Z.to_nat p)
          (alter (V1.setLeft ol) (Z.to_nat p) segs)
      else segs) ps l
    = fold_left (λ (segs : list V1.Segment) p,
        if decide (p < T)%Z then alter (both ol or) (Z.to_nat p) segs
        else segs) ps l).
  { intros ol or ps l. apply fold_left_ext. intros a p.
    destruct (decide _); [|reflexivity].
    apply list_alter_alter_eq. }
  rewrite !Hboth. intros Hlook.
  destruct (v1_pass_lookup (λ p, (p < T)%Z) (both _ _) V1.barrierSegs
              ltac:(reflexivity) _ i seg' Hlook) as (s2 & Hs2 & Hseg').
  destruct (v1_pass_lookup (λ p, (p < T ∧ p >= 0)%Z) (V1.setLeft _)
              (V1.grandstandPositions T) ltac:(reflexivity) _ i s2 Hs2)
    as (s1 & Hs1 & Hs2').
  destruct (v1_pass_lookup (λ p, (p < T)%Z) (both _ _) V1.palmPositions
              ltac:(reflexivity) _ i s1 Hs1) as (seg & Hseg & Hs1').
  exists seg. split; [exact Hseg|].
  assert (Hi : (Z.of_nat i < T)%Z).
  { apply lookup_lt_Some in Hseg. subst T. lia. }
  assert (Hb : ∀ ps, Forall (λ p, 0 <= p)%Z ps →
            bool_decide (Exists (λ p, (p < T)%Z ∧ Z.to_nat p = i) ps)
            = bool_decide (Z.of_nat i ∈ ps)).
  { intros ps Hps. apply bool_decide_ext, v1_hit_iff; [|exact Hi].
    intros p Hin _ _. rewrite Forall_forall in Hps. exact (Hps p Hin). }
  assert (Hg : bool_decide (Exists (λ p, (p < T ∧ p >= 0)%Z ∧ Z.to_nat p = i)
                              (V1.grandstandPositions T))
               = bool_decide (Z.of_nat i ∈ V1.grandstandPositions T)).
  { apply bool_decide_ext, v1_hit_iff; [|lia]. intros p _ _ [_ Hp]. lia. }
  rewrite Hb in Hseg' by (unfold V1.barrierSegs; repeat constructor; lia).
  rewrite Hb in Hs1' by (unfold V1.palmPositions; repeat constructor; lia).
  rewrite Hg in Hs2'.
  rewrite Hseg', Hs2', Hs1'. subst both.
  destruct (bool_decide (Z.of_nat i ∈ V1.barrierSegs));
    destruct (bool_decide (Z.of_nat i ∈ V1.grandstandPositions T));
    destruct (bool_decide (Z.of_nat i ∈ V1.palmPositions));
    split; reflexivity.
Qed.

(** ** Second variant: the offset of a tree *)

(** Every eighth segment begins its objects with a tree whose side and
    offset are two consecutive draws. *)
Lemma v2_tree_offset (zones : list V2.Zone) (random : nat → R) (k : nat)
    (seg : V2.Segment) :
  V2.buildTrackFrom zones random !! k = Some seg →
  (k mod 8 = 0)%nat →
  ∃ d, head (V2.objects seg)
       = Some (V2.mkObj "tree"
                 ((if decide (random d > 0.5) then 1.8 else -1.8)
                  + random (S d) * 0.5)).
Proof.
  intros Hseg Hk.
  destruct (v2_track_lookup zones random k seg Hseg)
    as (seg0 & d & slot & -> & _ & _ & Ho & _).
  exists d. unfold V2.populateSegment.
  rewrite bool_decide_eq_true_2 by exact Hk.
  cbn [fst V2.objects]. rewrite Ho. reflexivity.
Qed.

Lemma v2_draws_in_range :
  (∀ n, 0 <= lowDraws n < 1) ∧ (∀ n, 0 <= highDraws n < 1).
Proof. unfold lowDraws, highDraws. split; intros _; lra. Qed.

Lemma v2_start_line_low_high :
  ∃ seg0 rest0 seg1 rest1,
    V2.buildTrack lowDraws = seg0 :: rest0 ∧
    V2.buildTrack highDraws = seg1 :: rest1 ∧
    V2.objects seg0
    = [V2.mkObj "tree" (-1.8 + 0 * 0.5); V2.mkObj "grandstand" (-2.5)] ∧
    V2.objects seg1
    = [V2.mkObj "tree" (1.8 + 0.75 * 0.5); V2.mkObj "grandstand" (-2.5)].
Proof.
  destruct (v2_start_line_objects lowDraws) as (seg0 & rest0 & d0 & H0 & Ho0).
  destruct (v2_start_line_objects highDraws) as (seg1 & rest1 & d1 & H1 & Ho1).
  unfold lowDraws in Ho0. unfold highDraws in Ho1.
  rewrite decide_False in Ho0 by lra. rewrite decide_True in Ho1 by lra.
  exists seg0, rest0, seg1, rest1.
  split; [exact H0|]. split; [exact H1|]. split; [exact Ho0|exact Ho1].
Qed.

(** ** Frames with their rendering *)

(** *** First variant *)

Lemma v1_render_total (W H : R) (e : V1.RideEngine) :
  ready e → inRange e → ∃ r, V1._render W H e = Some r.
Proof.
  intros [Hn Htl] [Hp _]. unfold V1._render.
  assert (Hne : V1.segments e ≠ [])
    by (intros Hnil; rewrite Hnil in Hn; cbn in Hn; lia).
  destruct (floorDivMod_total (V1.position (V1.state e)) V1.SEGMENT_LENGTH
              (length (V1.segments e))) as (start & -> & _);
    [unfold V1.SEGMENT_LENGTH; lra|lra|lia|].
  cbn [mbind option_bind].
  destruct (v1_project_spec W H (V1.state e) (V1.segments e) start
              V1.DRAW_DISTANCE 0 0 Hne) as (proj & -> & _).
  cbn [mbind option_bind]. eexists. reflexivity.
Qed.

Lemma v1_actOnCanvas_inRange (W H : R) (a : V1.Action) (e : V1.RideEngine) :
  ready e → inRange e →
  ∃ e' evs, V1.actOnCanvas W H a e = Some (e', evs) ∧
            V1.act a e = Some (e', evs) ∧ ready e' ∧ inRange e'.
Proof.
  intros Hr Hi.
  destruct (v1_act_inRange a e Hr Hi) as (e1 & evs1 & Hact & Hr1 & Hi1 & _).
  exists e1, evs1. split; [|auto].
  destruct a as [key|key|]; [exact Hact|exact Hact|].
  cbn [V1.act] in Hact. cbn [V1.actOnCanvas]. unfold V1.frame.
  rewrite Hact. cbn [mbind option_bind].
  destruct (v1_render_total W H e1 Hr1 Hi1) as [r ->]. reflexivity.
Qed.

(** Every run of the first variant goes through with its rendering, and
    ends as the run of its ticks alone. *)
Lemma v1_runOnCanvas_inRange (W H : R) (acts : list V1.Action)
    (e : V1.RideEngine) :
  ready e → inRange e →
  ∃ e' evs, V1.runOnCanvas W H acts e = Some (e', evs) ∧
            V1.run acts e = Some (e', evs).
Proof.
  revert e. induction acts as [|a acts IH]; intros e Hr Hi.
  - exists e, []. split; reflexivity.
  - destruct (v1_actOnCanvas_inRange W H a e Hr Hi)
      as (e1 & evs1 & Hact' & Hact & Hr1 & Hi1).
    destruct (IH e1 Hr1 Hi1) as (e2 & evs2 & Hrun' & Hrun).
    exists e2, (evs1 ++ evs2). cbn [V1.runOnCanvas V1.run].
    rewrite Hact', Hact. cbn [mbind option_bind]. rewrite Hrun', Hrun.
    split; reflexivity.
Qed.

(** *** Second variant *)

Lemma v2_render_total (W H : R) (e : V2.RideEngine) :
  v2_alive e → v2_named (V2.corners e) (V2.currentCorner (V2.state e)) →
  ∃ r, V2.render W H e = Some r.
Proof.
  intros (Hne & Hp0 & _) Hnamed. unfold V2.render.
  destruct (floorDivMod_total (V2.position (V2.state e)) V2.SEGMENT_LENGTH
              (length (V2.segments e))) as (start & -> & _);
    [unfold V2.SEGMENT_LENGTH; lra|exact Hp0
    |intros Hz; exact (Hne (nil_length_inv _ Hz))|].
  cbn [mbind option_bind].
  destruct (v2_project_spec W H (V2.state e) (V2.segments e) start
              (Js.fmod (V2.position (V2.state e)) V2.SEGMENT_LENGTH)
              V2.DRAW_DISTANCE 0 0 Hne) as (proj & -> & _).
  cbn [mbind option_bind]. unfold V2.overlay.
  destruct (V2.currentCorner (V2.state e)) as [[|n]|];
    [eexists; reflexivity| |eexists; reflexivity].
  cbn [v2_named] in Hnamed.
  destruct (lookup_lt_is_Some_2 (V2.corners e) n Hnamed) as [c ->].
  eexists. reflexivity.
Qed.

(** The overlay finds no corner to name: [render] throws. *)
Lemma v2_render_unnamed (W H : R) (e : V2.RideEngine) (n : nat) :
  V2.currentCorner (V2.state e) = Some (S n) →
  (length (V2.corners e) <= n)%nat →
  V2.render W H e = None.
Proof.
  intros Hcur Hlen. unfold V2.render.
  destruct (Js.floorDivMod _ _ _); [|reflexivity]. cbn [mbind option_bind].
  destruct (V2.projectVisible _ _ _ _ _ _ _ _ _); [|reflexivity].
  cbn [mbind option_bind]. unfold V2.overlay.
  rewrite Hcur, (lookup_ge_None_2 _ _ Hlen). reflexivity.
Qed.

(** An engine whose frames can be painted: it can take a tick, and every
    corner index on its track, and the current one, can be named. *)
Lemma v2_actOnCanvas_named (W H : R) (w : Window) (a : V2.Action)
    (e : V2.RideEngine) :
  v2_alive e →
  Forall (λ seg, v2_named (V2.corners e) (V2.cornerIndex seg)) (V2.segments e) →
  v2_named (V2.corners e) (V2.currentCorner (V2.state e)) →
  ∃ e' evs, V2.actOnCanvas W H w a e = Some (e', evs) ∧
    V2.act w a e = Some (e', evs) ∧
    v2_alive e' ∧
    Forall (λ seg, v2_named (V2.corners e') (V2.cornerIndex seg))
      (V2.segments e') ∧
    v2_named (V2.corners e') (V2.currentCorner (V2.state e')).
Proof.
  intros He Hall Hcur.
  destruct (v2_act_alive w a e He) as (e1 & evs1 & Hact & He1 & _).
  destruct (v2_act_corner w a e e1 evs1 Hact) as (Hs & Hc & Hcc).
  assert (Hcur1 : v2_named (V2.corners e1) (V2.currentCorner (V2.state e1))).
  { rewrite Hc. destruct Hcc as [->|(seg & Hin & ->)]; [exact Hcur|].
    rewrite Forall_forall in Hall. exact (Hall seg Hin). }
  exists e1, evs1. split; [|split; [exact Hact|]].
  - destruct a as [key|key|]; [exact Hact|exact Hact|].
    cbn [V2.act] in Hact. cbn [V2.actOnCanvas]. unfold V2.frame.
    rewrite Hact. cbn [mbind option_bind].
    destruct (v2_render_total W H e1 He1 Hcur1) as [r ->]. reflexivity.
  - split; [exact He1|]. split; [rewrite Hs, Hc; exact Hall|exact Hcur1].
Qed.

Lemma v2_runOnCanvas_named (W H : R) (w : Window) (acts : list V2.Action)
    (e : V2.RideEngine) :
  v2_alive e →
  Forall (λ seg, v2_named (V2.corners e) (V2.cornerIndex seg)) (V2.segments e) →
  v2_named (V2.corners e) (V2.currentCorner (V2.state e)) →
  ∃ e' evs, V2.runOnCanvas W H w acts e = Some (e', evs) ∧
            V2.run w acts e = Some (e', evs).
Proof.
  revert e. induction acts as [|a acts IH]; intros e He Hall Hcur.
  - exists e, []. split; reflexivity.
  - destruct (v2_actOnCanvas_named W H w a e He Hall Hcur)
      as (e1 & evs1 & Hact' & Hact & He1 & Hall1 & Hcur1).
    destruct (IH e1 He1 Hall1 Hcur1) as (e2 & evs2 & Hrun' & Hrun).
    exists e2, (evs1 ++ evs2). cbn [V2.runOnCanvas V2.run].
    rewrite Hact', Hact. cbn [mbind option_bind]. rewrite Hrun', Hrun.
    split; reflexivity.
Qed.

(** The corner indices on a built track are those of its zone table. *)
Lemma v2_track_zone_ids (zones : list V2.Zone) (random : nat → R)
    (P : option nat → Prop) :
  Forall (λ zone, P (V2.zoneCorner zone)) zones →
  Forall (λ seg, P (V2.cornerIndex seg)) (V2.buildTrackFrom zones random).
Proof.
  intros Hzones. apply Forall_forall. intros seg Hin.
  assert (Hs : shape seg ∈ trackShape zones).
  { rewrite <- (v2_track_shape zones random).
    apply list_elem_of_fmap. exists seg. split; [reflexivity|exact Hin]. }
  unfold trackShape in Hs. apply list_elem_of_In, in_flat_map in Hs.
  destruct Hs as (zone & Hz & Hs). apply list_elem_of_In in Hs, Hz.
  unfold zoneShape in Hs. apply list_elem_of_fmap in Hs as (i & Heq & _).
  unfold shape in Heq. injection Heq as _ ->.
  rewrite Forall_forall in Hzones. exact (Hzones zone Hz).
Qed.

(** With a zone of positive length and names for the corners of the zone
    table, every run from the grid goes through with its rendering. *)
Lemma v2_bootFrom_runOnCanvas (zones : list V2.Zone) (random : nat → R)
    (cornerData : list Corner) (W H : R) (w : Window)
    (acts : list V2.Action) :
  Exists (λ zone, (0 < V2.len zone)%Z) zones →
  Forall (λ zone, v2_named cornerData (V2.zoneCorner zone)) zones →
  ∃ e evs,
    V2.runOnCanvas W H w acts (V2.bootFrom zones random cornerData)
    = Some (e, evs) ∧
    V2.run w acts (V2.bootFrom zones random cornerData) = Some (e, evs).
Proof.
  intros Hsome Hnamed.
  apply v2_runOnCanvas_named.
  - apply v2_bootFrom_alive. rewrite v2_track_empty_iff.
    apply v2_some_zone_iff, Hsome.
  - rewrite v2_bootFrom_segments.
    apply (v2_track_zone_ids zones random (v2_named cornerData)), Hnamed.
  - exact I.
Qed.

Lemma v2_runOnCanvas_dead (W H : R) (w : Window) (acts : list V2.Action)
    (e : V2.RideEngine) :
  V2.segments e = [] → V2.Frame ∈ acts → V2.runOnCanvas W H w acts e = None.
Proof.
  revert e. induction acts as [|a acts IH]; intros e Hs Hin.
  - apply elem_of_nil in Hin. destruct Hin.
  - cbn [V2.runOnCanvas]. destruct a as [key|key|]; cbn [V2.actOnCanvas].
    + cbn [mbind option_bind]. rewrite IH; [reflexivity| |].
      * unfold V2.onKeyDown. cbn [V2.segments]. exact Hs.
      * apply elem_of_cons in Hin as [Hin|Hin]; [discriminate Hin|exact Hin].
    + cbn [mbind option_bind]. rewrite IH; [reflexivity| |].
      * unfold V2.onKeyUp. cbn [V2.segments]. exact Hs.
      * apply elem_of_cons in Hin as [Hin|Hin]; [discriminate Hin|exact Hin].
    + unfold V2.frame. rewrite (v2_update_dead w e Hs). reflexivity.
Qed.

Lemma v2_runOnCanvas_step (W H : R) (w : Window) (a : V2.Action)
    (rest : list V2.Action) (e e1 e2 : V2.RideEngine) (evs1 evs2 : list Event) :
  V2.actOnCanvas W H w a e = Some (e1, evs1) →
  V2.runOnCanvas W H w rest e1 = Some (e2, evs2) →
  V2.runOnCanvas W H w (a :: rest) e = Some (e2, evs1 ++ evs2).
Proof.
  intros Hact Hrun. cbn [V2.runOnCanvas]. rewrite Hact.
  cbn [mbind option_bind]. rewrite Hrun. reflexivity.
Qed.

(** *** The program's track without corner data *)

(** A frame of the launch on the start straight, with its rendering. *)
Lemma v2_launch_canvas_step (random : nat → R) (W H : R) (w : Window)
    (m : nat) (e : V2.RideEngine) :
  launched random m e → (m < 79)%nat →
  ∃ e', V2.frame W H w e = Some (e', []) ∧ launched random (S m) e' ∧
        V2.currentCorner (V2.state e') = None ∧
        V2.corners e' = V2.corners e.
Proof.
  intros He Hm.
  pose proof He as (Hs & _ & _ & _ & _ & _ & _ & Hp & _).
  assert (Hm78 : INR m <= 78).
  { rewrite <- (INR_lit 78 78) by reflexivity. apply le_INR. lia. }
  pose proof (pos_INR m) as Hm0.
  destruct (floorDivMod_total (V2.position (V2.state e)) V2.SEGMENT_LENGTH 805)
    as (i & Hi & _); [unfold V2.SEGMENT_LENGTH; lra|rewrite Hp; nra|lia|].
  apply floorDivMod_inv in Hi as [_ Hpos];
    [| unfold V2.SEGMENT_LENGTH; lra
     | rewrite (INR_lit 805 805) by reflexivity; unfold V2.SEGMENT_LENGTH;
       rewrite Hp; nra].
  unfold V2.SEGMENT_LENGTH in Hpos. rewrite Hp in Hpos.
  assert (Hi50 : (i < 50)%nat).
  { apply INR_lt. rewrite (INR_lit 50 50) by reflexivity. nra. }
  destruct (v2_launch_corner random w m 0 i i (V2.straight 50) e He)
    as (seg & e' & _ & _ & Hup & He' & Hcur & Hc);
    [lia|reflexivity|cbn; lia|reflexivity|exact Hpos|].
  exists e'. unfold V2.frame. rewrite Hup. cbn [mbind option_bind].
  destruct (v2_render_total W H e') as [r ->].
  - destruct He' as (Hs' & _ & _ & _ & _ & _ & Hv' & Hp' & _).
    split; [|split].
    + rewrite Hs'. intros Hnil. apply (f_equal length) in Hnil.
      rewrite v2_track_805 in Hnil. discriminate Hnil.
    + rewrite Hp'. pose proof (pos_INR (S m)). nra.
    + rewrite Hv'. pose proof (pos_INR (S m)). lra.
  - rewrite Hcur. exact I.
  - split; [reflexivity|]. split; [exact He'|]. split; [exact Hcur|exact Hc].
Qed.

Lemma v2_launch_canvas (random : nat → R) (W H : R) (w : Window)
    (n m : nat) (e : V2.RideEngine) :
  launched random m e → (m + n <= 79)%nat →
  ∃ e', V2.runOnCanvas W H w (replicate n V2.Frame) e = Some (e', []) ∧
        launched random (m + n) e' ∧ V2.corners e' = V2.corners e.
Proof.
  revert m e. induction n as [|n IH]; intros m e He Hmn.
  - exists e. rewrite Nat.add_0_r. split; [reflexivity|]. split; [exact He|].
    reflexivity.
  - destruct (v2_launch_canvas_step random W H w m e He)
      as (e1 & Hf & He1 & _ & Hc1); [lia|].
    destruct (IH (S m) e1 He1) as (e' & Hrun & He' & Hc'); [lia|].
    exists e'. split; [|split].
    + cbn [replicate].
      apply (v2_runOnCanvas_step W H w V2.Frame _ e e1 e' [] [] Hf Hrun).
    + replace (m + S n)%nat with (S m + n)%nat by lia. exact He'.
    + rewrite Hc', Hc1. reflexivity.
Qed.

(** After [init(canvas, [])] the frames of the start straight go
    through; the frame that reads the first segment of corner 1 throws
    in [render]. *)
Lemma v2_no_corners_throws (random : nat → R) (W H : R) (w : Window) :
  ∃ e,
    V2.runOnCanvas W H w (V2.KeyDown "ArrowUp" :: replicate 79 V2.Frame)
      (V2.boot random []) = Some (e, []) ∧
    V2.frame W H w e = None.
Proof.
  destruct (v2_launch_canvas random W H w 79 0 _ (v2_grid_launched random []))
    as (e & Hrun & He & Hc); [lia|]. cbn [Nat.add] in He.
  exists e. split.
  - apply (v2_runOnCanvas_step W H w (V2.KeyDown "ArrowUp") _ _ _ e [] []
             eq_refl Hrun).
  - destruct (v2_launch_corner random w 79 1 0 50 (V2.corner 35 1.6 1) e He)
      as (seg & e2 & _ & _ & Hup & _ & Hcur & Hc2);
      [lia|reflexivity|cbn; lia|reflexivity| |].
    { rewrite (INR_lit 50 50), (INR_lit 79 79) by reflexivity. lra. }
    unfold V2.frame. rewrite Hup. cbn [mbind option_bind].
    rewrite (v2_render_unnamed W H e2 0); [reflexivity|exact Hcur|].
    rewrite Hc2, Hc.
    replace (V2.corners (V2.onKeyDown "ArrowUp" (V2.boot random [])))
      with (@nil Corner) by reflexivity.
    cbn [length]. lia.
Qed.

(** [start()] on the engine that an [init] not awaited leaves: the first
    [update()] finds no segment and throws. *)
Lemma v2_start_before_init (cornerData : list Corner) (w : Window) :
  V2.start (V2.initBegun cornerData V2.constructor) w = None.
Proof.
  unfold V2.start, V2.loop. cbn [V2.running].
  rewrite v2_update_dead; reflexivity.
Qed.

(** * The claims *)

(** ** C1: speed limits *)

Lemma v2_launched_brake (random : nat → R) (n : nat) (e : V2.RideEngine) :
  launched random n e → launched random n (V2.onKeyDown "ArrowDown" e).
Proof.
  intros (Hs & Hup & Hleft & Hright & Hrest).
  unfold launched, V2.onKeyDown.
  rewrite decide_False by (intros [H|H]; discriminate H).
  cbn [V2.segments V2.keys V2.state]. rewrite !v2_held_insert.
  split; [exact Hs|]. split; [exact Hup|]. split; [exact Hleft|].
  split; [exact Hright|exact Hrest].
Qed.

(** C1, as the code has it.  In the first variant the speed lies in
    [[0, MAX_SPEED]] after every run of key events and frames from the
    grid, whether the demo drives or not, and with throttle and brake
    held together both are applied, so the speed does not rise.  In the
    second variant the speed lies in [[0, MAX_SPEED]] after every run in
    which the demo is not switched on, and with both pedals held the
    throttle is taken: [ArrowUp] is tested first and the brake sits in
    its [else] branch. *)
Theorem speed_within_limits :
  (∀ cornerData onCorner onLap acts, ∃ e evs,
     V1.run acts (V1.boot cornerData onCorner onLap) = Some (e, evs) ∧
     0 <= V1.speed (V1.state e) <= V1.MAX_SPEED) ∧
  (∀ inp v,
     V1.input_is inp "ArrowUp" = true → V1.input_is inp "ArrowDown" = true →
     0 <= v <= V1.MAX_SPEED →
     V1.physics inp v
     = Rmax (Rmin (v + V1.ACCELERATION) V1.MAX_SPEED - V1.BRAKING) 0 ∧
     V1.physics inp v <= v) ∧
  (∀ random cornerData w acts,
     Forall (λ a, a ≠ V2.KeyDown "d" ∧ a ≠ V2.KeyDown "D") acts →
     ∃ e evs, V2.run w acts (V2.boot random cornerData) = Some (e, evs) ∧
              0 <= V2.speed (V2.state e) <= V2.MAX_SPEED) ∧
  (∀ s keys, Js.held keys "ArrowUp" = true →
     snd (V2.humanControl s keys)
     = Rmin (V2.speed s + V2.ACCELERATION) V2.MAX_SPEED).
Proof.
  split; [|split; [|split]].
  - intros cornerData onCorner onLap acts.
    destruct (v1_run_inRange acts _ (v1_boot_ready cornerData onCorner onLap)
                (v1_boot_inRange cornerData onCorner onLap))
      as (e & evs & Hrun & _ & [_ Hv] & _).
    exists e, evs. split; [exact Hrun|exact Hv].
  - exact v1_physics_both.
  - intros random cornerData w acts Hacts.
    apply v2_run_human; [apply v2_boot_alive| | |exact Hacts].
    + rewrite v2_boot_state. reflexivity.
    + rewrite v2_boot_state. cbn [V2.speed]. unfold V2.MAX_SPEED. lra.
  - exact v2_human_both.
Qed.

Lemma speed_within_limits_witness :
  ∃ e evs,
    V2.run V2.emptyWindow
      [V2.KeyDown "ArrowUp"; V2.KeyDown "ArrowDown"; V2.Frame]
      (V2.boot (λ _, 0) []) = Some (e, evs) ∧
    0 <= V2.speed (V2.state e) <= V2.MAX_SPEED.
Proof.
  apply (proj1 (proj2 (proj2 speed_within_limits))).
  repeat (constructor; [split; discriminate|]). constructor.
Defined.

(** C1 as stated fails in the second variant.  With throttle and brake
    both held for two frames from the grid the speed rises to 6.4, and a
    demo switched on at speed 448 takes the speed to 451.2. *)
Lemma v2_throttle_beats_brake :
  (∃ e, V2.run V2.emptyWindow
          [V2.KeyDown "ArrowUp"; V2.KeyDown "ArrowDown"; V2.Frame; V2.Frame]
          (V2.boot (λ _, 0) []) = Some (e, []) ∧
        V2.speed (V2.state e) = 6.4) ∧
  (∃ e evs, V2.run V2.emptyWindow
              ([V2.KeyDown "ArrowUp"] ++ replicate 140 V2.Frame
               ++ [V2.KeyDown "d"; V2.Frame])
              (V2.boot (λ _, 0) []) = Some (e, evs) ∧
            V2.MAX_SPEED < V2.speed (V2.state e)).
Proof.
  split.
  - destruct (v2_launch (λ _, 0) V2.emptyWindow 2 0 _
                (v2_launched_brake _ _ _ (v2_grid_launched (λ _, 0) [])))
      as (e & Hrun & (_ & _ & _ & _ & _ & _ & Hv & _)); [lia|].
    exists e. split.
    + apply (v2_run_step _ (V2.KeyDown "ArrowUp") _ _ _ e [] [] eq_refl).
      apply (v2_run_step _ (V2.KeyDown "ArrowDown") _ _ _ e [] [] eq_refl).
      exact Hrun.
    + rewrite Hv. cbn [Nat.add]. rewrite (INR_lit 2 2) by reflexivity. lra.
  - destruct (v2_demo_overshoot (λ _, 0) [] V2.emptyWindow)
      as (e & evs & Hrun & _ & Hv).
    exists e, evs. split; [exact Hrun|exact Hv].
Qed.

(** ** C2: corner entries *)

(** C2, as the code has it.  First variant, both callbacks installed:
    the events of every run from the grid are whole laps followed by the
    beginning of one, where a lap is the twelve corners, each entered
    once and in track order, and then the lap itself, whatever the keys
    make of the speed; and with the throttle held from the grid, 700
    frames or more give events that begin with a whole lap.  In each
    tick of either variant [currentCorner] is set to the corner index of
    the segment that holds the position the tick starts from, before the
    move, and the first variant calls the callback when that index
    differs from the previous one and is not null.  The second variant
    has no corner callback: no run of it reports a corner entry. *)
Theorem corner_entered_once_per_zone_in_order (cornerData : list Corner) :
  V1.lapEvents cornerData
  = map (λ n, CornerEntered (cornerData !! (n - 1)%nat)) (seq 1 12)
    ++ [LapComplete] ∧
  (∀ acts, ∃ e evs laps k,
     V1.run acts (V1.boot cornerData true true) = Some (e, evs) ∧
     (k <= 12)%nat ∧
     evs = concat (replicate laps (V1.lapEvents cornerData))
           ++ take k (V1.lapEvents cornerData)) ∧
  (∀ n, (700 <= n)%nat →
     ∃ e rest,
       V1.run (V1.KeyDown "ArrowUp" :: replicate n V1.Frame)
         (V1.boot cornerData true true)
       = Some (e, V1.lapEvents cornerData ++ rest)) ∧
  (∀ e, ready e → inRange e →
     ∃ i seg e' lap,
       Js.floorDivMod (V1.position (V1.state e)) V1.SEGMENT_LENGTH
         (length (V1.segments e)) = Some i ∧
       V1.segments e !! i = Some seg ∧
       V1._update e
       = Some (e', lap ++ V1.cornerDetection (V1.corners e)
                           (V1.onCornerEntered e)
                           (V1.currentCorner (V1.state e)) (V1.cornerIndex seg)) ∧
       (∀ c, CornerEntered c ∉ lap) ∧
       V1.currentCorner (V1.state e') = V1.cornerIndex seg) ∧
  (∀ w e, v2_alive e →
     ∃ seg e' evs,
       V2.lookupSegment e = Some seg ∧
       V2.update w e = Some (e', evs) ∧
       V2.currentCorner (V2.state e') = V2.cornerIndex seg) ∧
  (∀ random w acts, ∃ e evs,
     V2.run w acts (V2.boot random cornerData) = Some (e, evs) ∧
     ∀ c, CornerEntered c ∉ evs).
Proof.
  split; [reflexivity|].
  split; [intros acts; apply v1_corner_events_in_track_order|].
  split; [intros n Hn; exact (v1_throttle_lap cornerData n Hn)|].
  split; [|split].
  - intros e Hr Hi.
    destruct (v1_update_shape e Hr Hi)
      as (i & seg & e' & v & Hidx & Hseg & _ & Hup & _ & _ & _ & _ & _ & _ & _
          & Hcur & _).
    cbv zeta in Hup. exists i, seg, e'. eexists.
    split; [exact Hidx|]. split; [exact Hseg|]. split; [exact Hup|].
    split; [|exact Hcur].
    intros c. destruct (_ && _); [|apply not_elem_of_nil].
    intros Hin. apply list_elem_of_singleton in Hin. discriminate Hin.
  - intros w e He.
    destruct (v2_update_shape w e He)
      as (seg & e' & v & Hseg & _ & _ & _ & Hup & _ & _ & _ & _ & _ & _ & Hcur
          & _).
    cbv zeta in Hup. exists seg, e'. eexists.
    split; [exact Hseg|]. split; [exact Hup|exact Hcur].
  - intros random w acts. apply v2_run_no_corner_event.
Qed.

Lemma corner_entered_once_per_zone_in_order_witness :
  ∃ e rest,
    V1.run (V1.KeyDown "ArrowUp" :: replicate 700%nat V1.Frame)
      (V1.boot AppJs.CORNERS_DATA true true)
    = Some (e, V1.lapEvents AppJs.CORNERS_DATA ++ rest).
Proof.
  apply (proj1 (proj2 (proj2
           (corner_entered_once_per_zone_in_order AppJs.CORNERS_DATA))) 700%nat).
  lia.
Defined.

(** C2 as stated fails in the second variant, where the lap callback is
    installed and corner data given: with the throttle held from the
    grid, frame 79 carries the vehicle onto the first segment of corner
    1 and leaves [currentCorner] null, the segment read being the one
    the frame started from; frame 80 sets [currentCorner] to 1, and
    neither reports anything. *)
Lemma v2_corner_entered_unreported :
  ∃ e1 e2 seg,
    V2.run (mkWindow [] [] 0 0 true)
      (V2.KeyDown "ArrowUp" :: replicate 79 V2.Frame)
      (V2.boot lowDraws AppJs.CORNERS_DATA) = Some (e1, []) ∧
    V2.position (V2.state e1) = 10112 ∧
    V2.lookupSegment e1 = Some seg ∧
    V2.cornerIndex seg = Some 1%nat ∧
    V2.currentCorner (V2.state e1) = None ∧
    V2.update (mkWindow [] [] 0 0 true) e1 = Some (e2, []) ∧
    V2.currentCorner (V2.state e2) = Some 1%nat.
Proof.
  exact (v2_into_corner_1 lowDraws AppJs.CORNERS_DATA (mkWindow [] [] 0 0 true)).
Qed.

(** ** C3: the lap callback on the line *)

(** C3, where the code departs from it.  In the second variant the lap
    [lapOntoLine], driven from the grid, ends with the position exactly
    on the track length and the vehicle on the road (a drift of at most
    0.8): the whole track has been covered, yet on that tick no callback
    is called, installed or not, and the position is not reduced.  It is the next tick that wraps, to 450, and calls the
    callback if it is installed: the callback comes one tick late.  The
    same holds with the rounding of binary64, speed and position being
    followed by [update64] on a vehicle that stays on the road, as this
    one does: the lap ends on 161000 with no lap wrapped, and one more
    frame wraps.  The comparison there is strict.  The first variant compares with [>=]: a tick that lands
    exactly on the track length wraps to 0 and reports the lap. *)
Theorem lap_callback_late_on_exact_landing (random : nat → R)
    (cornerData : list Corner) (w : Window) :
  (∃ e e',
     V2.run w lapOntoLine (V2.boot random cornerData) = Some (e, []) ∧
     V2.position (V2.state e) = V2.trackLength (V2.state e) ∧
     Rabs (V2.x (V2.state e)) <= 0.8 ∧
     V2.update w e
     = Some (e', if appOnLapComplete w then [LapComplete] else []) ∧
     V2.position (V2.state e') = 450 ∧
     V2.trackLength (V2.state e') = 161000) ∧
  V2.run64 161000 lapOntoLine V2.grid64
  = Some (V2.mkState64 true false 161000 450 0) ∧
  V2.run64 161000 (lapOntoLine ++ [V2.Frame]) V2.grid64
  = Some (V2.mkState64 true false 450 450 1) ∧
  (∀ p v tl, p + v = tl → V2.advance p v tl = (tl, false)) ∧
  (∀ p v tl, p + v = tl → V1.advance p v tl = (0, true)).
Proof.
  split.
  { destruct (v2_lap_then_tick random cornerData w)
      as (e & e' & Hrun & Hp & Htl & Hx & Hup & Hp' & Htl').
    exists e, e'. split; [exact Hrun|]. split; [rewrite Hp, Htl; reflexivity|].
    split; [exact Hx|]. split; [exact Hup|]. split; [exact Hp'|exact Htl']. }
  split; [exact v2_lap64_on_line|]. split; [exact v2_lap64_then_tick|].
  split.
  - intros p v tl Hland. unfold V2.advance. cbv zeta.
    rewrite bool_decide_eq_false_2 by lra. f_equal. exact Hland.
  - intros p v tl Hland. unfold V1.advance. cbv zeta.
    rewrite bool_decide_eq_true_2 by lra.
    rewrite decide_False by lra. f_equal. lra.
Qed.

(** ** C4: the curvature ramp of a corner zone *)

(** C4.  In a track built from a zone table, segment [i] of a corner
    zone of [l] segments and peak curvature [c] carries that zone's
    corner index and the curvature [c * sin (i / l * PI)].  The first
    segment of the zone and the first segment after it have curvature 0,
    as the formula has at [t = 1]; the magnitude never exceeds that of
    [c], reaches it on the middle segment, does not fall on the way
    there and is the same at [i] and [l - i]; and the curvature never
    has the sign opposite to [c], and has its sign on every segment but
    the first. *)
Theorem corner_zone_curvature_ramp (random : nat → R)
    (pre post : list V2.Zone) (l : Z) (c : R) (id i : nat) :
  (i < Z.to_nat l)%nat →
  let track := V2.buildTrackFrom (pre ++ V2.corner l c id :: post) random in
  let start := length (V2.buildTrackFrom pre random) in
  ∃ seg first next,
    track !! (start + i)%nat = Some seg ∧
    V2.cornerIndex seg = Some id ∧
    V2.curve seg = c * sin (INR i / IZR l * PI) ∧
    track !! start = Some first ∧ V2.curve first = 0 ∧
    track !! ((start + Z.to_nat l) mod length track)%nat = Some next ∧
    V2.curve next = 0 ∧
    c * sin (1 * PI) = 0 ∧
    Rabs (V2.curve seg) <= Rabs c ∧
    c * sin (1 / 2 * PI) = c ∧
    ((2 * Z.of_nat i)%Z = l → V2.curve seg = c) ∧
    (∀ j seg', (i <= j)%nat → (2 * Z.of_nat j <= l)%Z →
       track !! (start + j)%nat = Some seg' →
       Rabs (V2.curve seg) <= Rabs (V2.curve seg')) ∧
    (∀ seg', (0 < i)%nat →
       track !! (start + (Z.to_nat l - i))%nat = Some seg' →
       V2.curve seg' = V2.curve seg) ∧
    0 <= c * V2.curve seg ∧
    ((0 < i)%nat → c ≠ 0 → 0 < c * V2.curve seg).
Proof.
  intros Hi track start. subst track start.
  set (zone := V2.corner l c id).
  assert (Hlen : V2.len zone = l) by done.
  destruct (v2_zone_lookup random pre post zone i) as (seg & Hseg & Hc & Hid);
    [by rewrite Hlen|].
  destruct (v2_zone_lookup random pre post zone 0) as (first & Hfirst & Hc0 & _);
    [rewrite Hlen; lia|].
  destruct (v2_after_zone random pre post zone) as (next & Hnext & Hcn);
    [rewrite Hlen; lia|].
  rewrite Nat.add_0_r in Hfirst. rewrite Hlen in Hnext.
  exists seg, first, next.
  destruct (v2_ramp_angle i l Hi) as [[Ha0 Ha1] Hapos].
  pose proof (SIN_bound (INR i / IZR l * PI)) as [Hs0 Hs1].
  pose proof (sin_ge_0 _ Ha0 (Rlt_le _ _ Ha1)) as Hsin.
  simpl in Hc.
  split; [done|]. split; [done|]. split; [done|].
  split; [done|]. split; [by rewrite Hc0, v2_zoneCurve_0|].
  split; [done|]. split; [done|].
  split; [rewrite Rmult_1_l, sin_PI; lra|].
  split.
  { rewrite Hc, Rabs_mult, (Rabs_right (sin _)) by lra.
    pose proof (Rabs_pos c). nra. }
  split; [replace (1 / 2 * PI) with (PI / 2) by lra; rewrite sin_PI2; lra|].
  split.
  { intros Hmid. rewrite Hc.
    replace (INR i / IZR l * PI) with (PI / 2); [rewrite sin_PI2; lra|].
    rewrite <- Hmid, mult_IZR, <- INR_IZR_INZ.
    assert (0 < INR i) by (apply (lt_INR 0); lia). field. lra. }
  split.
  { intros j seg' Hij Hj Hseg'.
    assert (Hjl : (j < Z.to_nat l)%nat) by lia.
    destruct (v2_zone_lookup random pre post zone j) as (seg2 & Hseg2 & Hc2 & _);
      [by rewrite Hlen|].
    rewrite Hseg2 in Hseg'. injection Hseg' as <-.
    rewrite Hc, Hc2. simpl.
    destruct (v2_ramp_angle j l Hjl) as [[Hb0 Hb1] _].
    pose proof (sin_ge_0 _ Hb0 (Rlt_le _ _ Hb1)).
    pose proof (v2_ramp_rises i j l Hij Hj Hjl).
    rewrite !Rabs_mult, !(Rabs_right (sin _)) by lra.
    pose proof (Rabs_pos c). nra. }
  split.
  { intros seg' Hpos Hseg'.
    destruct (v2_zone_lookup random pre post zone (Z.to_nat l - i))
      as (seg2 & Hseg2 & Hc2 & _); [rewrite Hlen; lia|].
    rewrite Hseg2 in Hseg'. injection Hseg' as <-.
    rewrite Hc, Hc2. simpl. f_equal.
    rewrite <- (sin_PI_x (INR i / IZR l * PI)). f_equal.
    rewrite minus_INR by lia.
    rewrite (INR_IZR_INZ (Z.to_nat l)), Z2Nat.id by lia.
    assert (0 < IZR l) by (apply IZR_lt; lia). field. lra. }
  split; [rewrite Hc; nra|].
  intros Hpos Hne. rewrite Hc. specialize (Hapos Hpos).
  pose proof (sin_gt_0 _ Hapos Ha1).
  assert (0 < c * c) by nra. nra.
Qed.

Lemma corner_zone_curvature_ramp_witness :
  ∃ seg,
    V2.buildTrack (λ _, 0) !! 55%nat = Some seg ∧
    V2.cornerIndex seg = Some 1%nat ∧
    V2.curve seg = 1.6 * sin (INR 5 / 35 * PI).
Proof.
  assert (Hi : (5 < Z.to_nat 35)%nat) by (vm_compute; lia).
  destruct (corner_zone_curvature_ramp (λ _, 0) [V2.straight 50]
              (tail (tail V2.TRACK_ZONES)) 35 1.6 1 5 Hi)
    as (seg & _ & _ & Hseg & Hid & Hc & _).
  exists seg. split; [|split; [exact Hid|exact Hc]].
  rewrite v2_track_length in Hseg. exact Hseg.
Defined.

(** ** C5: track length and position range *)

(** C5, where the code departs from it.  In both variants the track
    length is the number of segments times [SEGMENT_LENGTH], and in the
    first variant the position lies in [[0, trackLength)] after every run
    from the grid.  In the second variant the lap [lapOntoLine] leaves
    the position equal to the track length, outside the half-open
    interval, and so it does with the rounding of binary64 (speed and
    position followed by [update64], the vehicle staying on the road),
    where the position after the last tick is 161000 and no lap has
    wrapped. *)
Theorem position_reaches_track_length (random : nat → R)
    (cornerData : list Corner) (w : Window) :
  (∀ onCorner onLap acts, ∃ e evs,
     V1.run acts (V1.boot cornerData onCorner onLap) = Some (e, evs) ∧
     V1.trackLength (V1.state e)
     = INR (length (V1.segments e)) * V1.SEGMENT_LENGTH ∧
     0 <= V1.position (V1.state e) < V1.trackLength (V1.state e)) ∧
  (∃ e evs,
     V2.run w lapOntoLine (V2.boot random cornerData) = Some (e, evs) ∧
     V2.trackLength (V2.state e)
     = INR (length (V2.segments e)) * V2.SEGMENT_LENGTH ∧
     V2.trackLength (V2.state e) = 161000 ∧
     ¬ (0 <= V2.position (V2.state e) < V2.trackLength (V2.state e))) ∧
  (∃ s, V2.run64 161000 lapOntoLine V2.grid64 = Some s ∧
        V2.position64 s = 161000%float ∧ V2.wraps64 s = 0%nat).
Proof.
  split; [|split].
  - intros onCorner onLap acts.
    destruct (v1_run_inRange acts _ (v1_boot_ready cornerData onCorner onLap)
                (v1_boot_inRange cornerData onCorner onLap))
      as (e & evs & Hrun & [_ Htl] & [Hp _] & _).
    exists e, evs. split; [exact Hrun|]. split; [exact Htl|exact Hp].
  - destruct (v2_lap_onto_line random cornerData w)
      as (e & Hrun & Hs & Hp & Htl & _).
    exists e, []. split; [exact Hrun|]. split; [|split; [exact Htl|]].
    + rewrite Htl, Hs, v2_track_805, (INR_lit 805 805) by reflexivity.
      unfold V2.SEGMENT_LENGTH. lra.
    + rewrite Hp, Htl. lra.
  - eexists. split; [exact v2_lap64_on_line|]. split; reflexivity.
Qed.

(** ** C6: scenery *)

(** C6, as the code has it.  In the first variant the roadside objects
    are placed by literal segment indices with literal types and
    offsets: after [buildScenery] the segment at place [i] carries a
    barrier on both sides (offsets -1.05 and 1.05) if [i] is in
    [barrierSegs]; else, on the left, a grandstand (-2.2) if [i] is in
    the grandstand list, which depends on the number of segments; else a
    palm on both sides (-1.5 and 1.5) if [i] is in [palmPositions]; and
    else what it carried before.  Hence two tracks with the same objects
    segment by segment get the same objects.  In the second variant the
    builder draws from [Math.random]: curvature and corner index of
    every segment do not depend on the draws, and neither does the list
    of object types on any segment; but every eighth segment begins its
    objects with a tree whose offset is 1.8 or -1.8, as one draw exceeds
    0.5 or not, plus half the next draw. *)
Theorem scenery_placement_determinism :
  (∀ segs i seg', V1.buildScenery segs !! i = Some seg' →
     ∃ seg, segs !! i = Some seg ∧
       V1.objLeft seg'
       = (if bool_decide (Z.of_nat i ∈ V1.barrierSegs)
          then Some (V1.mkObj "barrier" (-1.05))
          else if bool_decide
                    (Z.of_nat i
                     ∈ V1.grandstandPositions (Z.of_nat (length segs)))
          then Some (V1.mkObj "grandstand" (-2.2))
          else if bool_decide (Z.of_nat i ∈ V1.palmPositions)
          then Some (V1.mkObj "palm" (-1.5))
          else V1.objLeft seg) ∧
       V1.objRight seg'
       = (if bool_decide (Z.of_nat i ∈ V1.barrierSegs)
          then Some (V1.mkObj "barrier" 1.05)
          else if bool_decide (Z.of_nat i ∈ V1.palmPositions)
          then Some (V1.mkObj "palm" 1.5)
          else V1.objRight seg)) ∧
  (∀ segs1 segs2, Forall2 sameScenery segs1 segs2 →
     Forall2 sameScenery (V1.buildScenery segs1) (V1.buildScenery segs2)) ∧
  (∀ zones r1 r2,
     map shape (V2.buildTrackFrom zones r1)
     = map shape (V2.buildTrackFrom zones r2)) ∧
  (∀ zones r1 r2,
     map kinds (V2.buildTrackFrom zones r1)
     = map kinds (V2.buildTrackFrom zones r2)) ∧
  (∀ zones random k seg,
     V2.buildTrackFrom zones random !! k = Some seg → (k mod 8 = 0)%nat →
     ∃ d, head (V2.objects seg)
          = Some (V2.mkObj "tree"
                    ((if decide (random d > 0.5) then 1.8 else -1.8)
                     + random (S d) * 0.5))).
Proof.
  split; [exact v1_buildScenery_lookup|].
  split; [exact v1_buildScenery_same|].
  split; [|split; [exact v2_kinds_independent|exact v2_tree_offset]].
  intros zones r1 r2. rewrite !v2_track_shape. reflexivity.
Qed.

Lemma scenery_placement_determinism_witness :
  ∃ seg',
    V1.buildScenery V1.buildTrack !! 22%nat = Some seg' ∧
    V1.objLeft seg' = Some (V1.mkObj "grandstand" (-2.2)).
Proof.
  destruct (lookup_lt_is_Some_2 (V1.buildScenery V1.buildTrack) 22)
    as [seg' Hseg']; [rewrite v1_track_length; lia|].
  exists seg'. split; [exact Hseg'|].
  destruct (proj1 scenery_placement_determinism V1.buildTrack 22%nat seg' Hseg')
    as (seg & _ & Hl & _).
  rewrite bool_decide_eq_false_2 in Hl
    by (unfold V1.barrierSegs; rewrite !elem_of_cons, elem_of_nil; lia).
  rewrite bool_decide_eq_true_2 in Hl
    by (unfold V1.grandstandPositions; rewrite !elem_of_cons; lia).
  exact Hl.
Defined.

(** C6 as stated fails in the second variant: two runs of the builder
    on the same zone table, one with every draw 0 and one with every
    draw 0.75, both in the range of [Math.random], put the tree of the
    start line at different offsets. *)
Lemma v2_scenery_depends_on_draws :
  (∀ n, 0 <= lowDraws n < 1) ∧ (∀ n, 0 <= highDraws n < 1) ∧
  ∃ seg0 rest0 seg1 rest1,
    V2.buildTrack lowDraws = seg0 :: rest0 ∧
    V2.buildTrack highDraws = seg1 :: rest1 ∧
    V2.objects seg0
    = [V2.mkObj "tree" (-1.8 + 0 * 0.5); V2.mkObj "grandstand" (-2.5)] ∧
    V2.objects seg1
    = [V2.mkObj "tree" (1.8 + 0.75 * 0.5); V2.mkObj "grandstand" (-2.5)] ∧
    V2.objects seg0 ≠ V2.objects seg1.
Proof.
  destruct v2_draws_in_range as [Hlow Hhigh].
  split; [exact Hlow|]. split; [exact Hhigh|].
  destruct v2_start_line_low_high
    as (seg0 & rest0 & seg1 & rest1 & H0 & H1 & Ho0 & Ho1).
  exists seg0, rest0, seg1, rest1.
  split; [exact H0|]. split; [exact H1|]. split; [exact Ho0|].
  split; [exact Ho1|]. rewrite Ho0, Ho1. intros Heq.
  injection Heq as Heq. lra.
Qed.

(** ** C7: construction *)

(** C7, as the code has it.  Building a track never fails and checks
    nothing: a zone contributes as many segments as its length, none
    when that is zero or negative.  When no zone has a positive length
    (the empty zone table included) the engine is built all the same,
    with no segment, and it is the first frame that fails.  When some
    zone has a positive length, no [update()] fails, whatever the corner
    data; and when, besides, every corner number of the zone table has
    its corner in the corner data, no frame fails, [render()] included.
    So it is with the program's own zone table and corner data for its
    twelve corners.  The first variant builds its track from literal
    calls, and every run from its grid goes through, rendering
    included. *)
Theorem track_construction_never_fails (zones : list V2.Zone)
    (random : nat → R) (cornerData : list Corner) (w : Window) (W H : R) :
  length (V2.segments (V2.bootFrom zones random cornerData))
  = list_sum (map (λ zone, Z.to_nat (V2.len zone)) zones) ∧
  (Forall (λ zone, (V2.len zone <= 0)%Z) zones →
   V2.segments (V2.bootFrom zones random cornerData) = [] ∧
   ∀ acts, V2.Frame ∈ acts →
     V2.runOnCanvas W H w acts (V2.bootFrom zones random cornerData) = None) ∧
  (Exists (λ zone, (0 < V2.len zone)%Z) zones →
   ∀ acts, ∃ e evs,
     V2.run w acts (V2.bootFrom zones random cornerData) = Some (e, evs)) ∧
  (Exists (λ zone, (0 < V2.len zone)%Z) zones →
   Forall (λ zone, v2_named cornerData (V2.zoneCorner zone)) zones →
   ∀ acts, ∃ e evs,
     V2.runOnCanvas W H w acts (V2.bootFrom zones random cornerData)
     = Some (e, evs)) ∧
  ((12 <= length cornerData)%nat →
   ∀ acts, ∃ e evs,
     V2.runOnCanvas W H w acts (V2.boot random cornerData) = Some (e, evs)) ∧
  (∀ onCorner onLap acts, ∃ e evs,
     V1.runOnCanvas W H acts (V1.boot cornerData onCorner onLap)
     = Some (e, evs)).
Proof.
  rewrite v2_bootFrom_segments.
  split; [rewrite v2_track_length; apply v2_trackShape_length|].
  split; [|split; [|split; [|split]]].
  - intros Hnone.
    assert (Hnil : V2.buildTrackFrom zones random = [])
      by (apply v2_track_empty_iff, Hnone).
    split; [exact Hnil|]. intros acts Hin.
    apply v2_runOnCanvas_dead;
      [rewrite v2_bootFrom_segments; exact Hnil|exact Hin].
  - intros Hsome acts.
    destruct (v2_run_alive w acts (V2.bootFrom zones random cornerData))
      as (e & evs & Hrun & _).
    + apply v2_bootFrom_alive. rewrite v2_track_empty_iff.
      apply v2_some_zone_iff, Hsome.
    + exists e, evs. exact Hrun.
  - intros Hsome Hnamed acts.
    destruct (v2_bootFrom_runOnCanvas zones random cornerData W H w acts
                Hsome Hnamed) as (e & evs & Hrun & _).
    exists e, evs. exact Hrun.
  - intros Hlen acts.
    destruct (v2_bootFrom_runOnCanvas V2.TRACK_ZONES random cornerData W H w
                acts) as (e & evs & Hrun & _).
    + apply Exists_cons_hd. reflexivity.
    + unfold V2.TRACK_ZONES.
      repeat (apply Forall_cons; split;
              [cbn [v2_named V2.zoneCorner]; first [exact I|lia]|]).
      apply Forall_nil_2.
    + exists e, evs. exact Hrun.
  - intros onCorner onLap acts.
    destruct (v1_runOnCanvas_inRange W H acts _
                (v1_boot_ready cornerData onCorner onLap)
                (v1_boot_inRange cornerData onCorner onLap))
      as (e & evs & Hrun & _).
    exists e, evs. exact Hrun.
Qed.

Lemma track_construction_never_fails_witness :
  ∃ e evs,
    V2.runOnCanvas 1600 900 V2.emptyWindow [V2.KeyDown "ArrowUp"; V2.Frame]
      (V2.boot lowDraws AppJs.CORNERS_DATA)
    = Some (e, evs).
Proof.
  apply (proj1 (proj2 (proj2 (proj2 (proj2
           (track_construction_never_fails V2.TRACK_ZONES lowDraws
              AppJs.CORNERS_DATA V2.emptyWindow 1600 900)))))).
  cbn [length AppJs.CORNERS_DATA]. lia.
Defined.

(** C7 as stated fails: the program's zone table is not empty and all
    its lengths are positive, and still the frame loop fails.  A
    [start()] that does not wait for the [async] [init], as in app.js,
    runs its first [update()] on an engine without segments, which
    throws.  And after [init(canvas, [])], with the throttle held from
    the grid, 79 frames go through and the next one throws in
    [render()], which finds no corner to name. *)
Lemma v2_frame_loop_fails_on_valid_zones :
  V2.TRACK_ZONES ≠ [] ∧
  Forall (λ zone, (0 < V2.len zone)%Z) V2.TRACK_ZONES ∧
  V2.start (V2.initBegun AppJs.CORNERS_DATA V2.constructor) V2.emptyWindow
  = None ∧
  ∃ e,
    V2.runOnCanvas 1600 900 V2.emptyWindow
      (V2.KeyDown "ArrowUp" :: replicate 79 V2.Frame) (V2.boot lowDraws [])
    = Some (e, []) ∧
    V2.frame 1600 900 V2.emptyWindow e = None.
Proof.
  split; [discriminate|]. split.
  { unfold V2.TRACK_ZONES.
    repeat (apply Forall_cons; split; [cbn [V2.len]; lia|]).
    apply Forall_nil_2. }
  split; [apply v2_start_before_init|].
  exact (v2_no_corners_throws lowDraws 1600 900 V2.emptyWindow).
Qed.

(** ** C8: the demo driver *)

(** C8, as the code has it.  In both variants the target speed depends on
    the magnitude of the curvature alone and does not rise with it.  The
    first variant has five bands: 0.9 of the top speed, 440, at a
    curvature of 0, then 0.75 of it up to a magnitude of 0.5, 0.55 up to
    1.5, 0.38 up to 2.5 and 0.22 beyond; the second has two, the top
    speed up to a magnitude of 1 and 120 beyond.  The arrow keys the first driver leaves in the key
    map depend on the state and the segments only, not on what the map
    held before, and a demo tick of the second variant does not read the
    keys. *)
Theorem demo_target_speed_bands :
  (∀ c1 c2, Rabs c1 <= Rabs c2 → V1.targetSpeed c2 <= V1.targetSpeed c1) ∧
  (∀ c1 c2, Rabs c1 = Rabs c2 → V1.targetSpeed c1 = V1.targetSpeed c2) ∧
  (∀ c, V1.targetSpeed c
        = if decide (Rabs c = 0) then V1.MAX_SPEED * 0.9
          else if decide (Rabs c <= 0.5) then V1.MAX_SPEED * 0.75
          else if decide (Rabs c <= 1.5) then V1.MAX_SPEED * 0.55
          else if decide (Rabs c <= 2.5) then V1.MAX_SPEED * 0.38
          else V1.MAX_SPEED * 0.22) ∧
  V1.MAX_SPEED = 440 ∧
  (V1.targetSpeed 0 = V1.MAX_SPEED * 0.9 ∧
   V1.targetSpeed 0.5 = V1.MAX_SPEED * 0.75 ∧
   V1.targetSpeed 1.5 = V1.MAX_SPEED * 0.55 ∧
   V1.targetSpeed 2.5 = V1.MAX_SPEED * 0.38 ∧
   V1.targetSpeed 3 = V1.MAX_SPEED * 0.22) ∧
  (∀ c1 c2, Rabs c1 <= Rabs c2 → V2.targetSpeed c2 <= V2.targetSpeed c1) ∧
  (∀ c1 c2, Rabs c1 = Rabs c2 → V2.targetSpeed c1 = V2.targetSpeed c2) ∧
  (∀ c, V2.targetSpeed c = (if decide (Rabs c <= 1) then V2.MAX_SPEED else 120)) ∧
  (∀ s segs keys1 keys2 k,
     k ∈ ["ArrowUp"; "ArrowDown"; "ArrowLeft"; "ArrowRight"] →
     (λ keys, V1.input_is keys k) <$> V1.demoAI s segs keys1
     = (λ keys, V1.input_is keys k) <$> V1.demoAI s segs keys2) ∧
  (∀ w e keys', V2.demo (V2.state e) = true →
     (λ r, (V2.state (fst r), snd r)) <$> V2.update w e
     = (λ r, (V2.state (fst r), snd r))
         <$> V2.update w (V2.mkEngine (V2.segments e) (V2.corners e)
                            (V2.state e) keys' (V2.running e))).
Proof.
  split; [exact v1_targetSpeed_antitone|].
  split.
  { intros c1 c2 Hc. apply Rle_antisym; apply v1_targetSpeed_antitone; lra. }
  split.
  { intros c. rewrite v1_targetSpeed_abs.
    repeat destruct (decide _); try reflexivity; lra. }
  split; [reflexivity|].
  split.
  { rewrite !v1_targetSpeed_abs. unfold V1.MAX_SPEED, Rabs.
    repeat split; repeat destruct (Rcase_abs _); repeat destruct (decide _);
      lra. }
  split; [exact v2_targetSpeed_antitone|].
  split.
  { intros c1 c2 Hc. apply Rle_antisym; apply v2_targetSpeed_antitone; lra. }
  split.
  { intros c. unfold V2.targetSpeed. cbv zeta.
    repeat destruct (decide _); lra. }
  split; [exact v1_demoAI_forgets|exact v2_demo_ignores_keys].
Qed.

Lemma demo_target_speed_bands_witness :
  V1.targetSpeed 2 <= V1.targetSpeed (-1).
Proof.
  apply (proj1 demo_target_speed_bands).
  unfold Rabs. repeat destruct (Rcase_abs _); lra.
Defined.

(** C8 as stated fails in the second variant: no three curvatures get
    three different target speeds, so there are no four bands. *)
Lemma v2_target_speed_has_two_bands :
  ¬ ∃ a b c, V2.targetSpeed a < V2.targetSpeed b < V2.targetSpeed c.
Proof. exact v2_no_three_speeds. Qed.

(** ** C9: stopping *)

(** C9, as the code has it.  In the first variant [stop()] clears
    [running], cancels the pending frame that [rafId] names and removes
    the two bound listeners; a second call changes nothing, and a frame
    callback that still arrives returns at once.  In the second variant
    [stop()] clears [running] and touches nothing else: the window keeps
    its listeners and its pending frame, a second call changes nothing,
    and a frame callback that arrives returns at once. *)
Theorem stop_releases_and_is_idempotent :
  (∀ e w,
     V1.running (fst (V1.stop e w)) = false ∧
     (∀ h, V1.rafId e = Some (S h) →
           S h ∉ pendingFrames (snd (V1.stop e w))) ∧
     (("keydown", boundKeyDown) ∉ listeners (snd (V1.stop e w))) ∧
     (("keyup", boundKeyUp) ∉ listeners (snd (V1.stop e w))) ∧
     V1.stop (fst (V1.stop e w)) (snd (V1.stop e w)) = V1.stop e w ∧
     V1._loop (fst (V1.stop e w)) (snd (V1.stop e w))
     = Some (fst (V1.stop e w), snd (V1.stop e w), [])) ∧
  (∀ e w,
     V2.running (fst (V2.stop e w)) = false ∧
     snd (V2.stop e w) = w ∧
     V2.stop (fst (V2.stop e w)) (snd (V2.stop e w)) = V2.stop e w ∧
     V2.loop (fst (V2.stop e w)) (snd (V2.stop e w))
     = Some (fst (V2.stop e w), snd (V2.stop e w), [])).
Proof. split; [exact v1_stop_spec|exact v2_stop_spec]. Qed.

Lemma stop_releases_and_is_idempotent_witness :
  1%nat ∉ pendingFrames
            (snd (V1.stop
                    (V1.mkEngine [] [] V1.createState ∅ (Some 1%nat) true
                       false false)
                    (mkWindow [("keydown", boundKeyDown); ("keyup", boundKeyUp)]
                       [1%nat] 1 0 false))).
Proof.
  apply (proj1 (proj2 (proj1 stop_releases_and_is_idempotent _ _)) 0%nat).
  reflexivity.
Defined.

(** C9 as stated fails in the second variant: after [init] and [stop()]
    the two listeners registered by [init] are still registered. *)
Lemma v2_stop_keeps_listeners :
  listeners
    (snd (V2.stop (fst (V2.init (λ _, 0) [] V2.constructor V2.emptyWindow))
            (snd (V2.init (λ _, 0) [] V2.constructor V2.emptyWindow))))
  = [("keydown", arrowKeyDown 0); ("keyup", arrowKeyUp 1)].
Proof.
  unfold V2.stop. cbn [snd]. apply v2_init_listeners.
Qed.

(** ** C10: keys left by the demo driver *)

(** C10.  In the first variant [demoAI] writes the four arrow entries
    into the key map that the key events write to, and leaves every other
    entry alone.  While the demo is off, a key read as held stays held
    through frames and through every key event except the release of
    that very key.  From the grid, tapping the demo on, one frame, and
    tapping it off leaves [ArrowUp] set although no arrow key was ever
    pressed, and the next frames accelerate. *)
Theorem demo_keys_outlive_the_demo :
  (∀ s segs keys keys' k,
     V1.demoAI s segs keys = Some keys' →
     k ∉ ["ArrowUp"; "ArrowDown"; "ArrowLeft"; "ArrowRight"] →
     keys' !! k = keys !! k) ∧
  (∀ e e' evs, V1.demo (V1.state e) = true → V1._update e = Some (e', evs) →
     V1.demoAI (V1.state e) (V1.segments e) (V1.input e) = Some (V1.input e')) ∧
  (∀ k acts e,
     ready e → inRange e →
     V1.demo (V1.state e) = false →
     V1.input_is (V1.input e) k = true →
     Forall (λ a, a ≠ V1.KeyUp k ∧ a ≠ V1.KeyDown "d" ∧ a ≠ V1.KeyDown "D")
       acts →
     ∃ e' evs, V1.run acts e = Some (e', evs) ∧
               V1.demo (V1.state e') = false ∧
               V1.input_is (V1.input e') k = true) ∧
  (∀ e k, V1.input_is (V1.input (V1._onKeyUp k e)) k = false) ∧
  (∀ cornerData onCorner onLap, ∃ e3 e4 e5,
     V1.run tapDemoTwice (V1.boot cornerData onCorner onLap) = Some (e3, []) ∧
     V1.demo (V1.state e3) = false ∧
     V1.input e3 = {["ArrowUp" := true]} ∧
     V1.speed (V1.state e3) = 3.5 ∧
     V1._update e3 = Some (e4, []) ∧
     V1.speed (V1.state e4) = 7 ∧
     V1._update e4 = Some (e5, []) ∧
     V1.speed (V1.state e5) = 10.5 ∧
     V1.input e5 = {["ArrowUp" := true]}).
Proof.
  split; [exact v1_demoAI_frame|].
  split; [exact v1_update_demo_input|].
  split; [exact v1_held_persists|].
  split; [|exact v1_stale_throttle].
  intros e k. unfold V1._onKeyUp, V1.input_is, V1.input_up, Js.held.
  cbn [V1.input V1.withInput]. rewrite lookup_delete_eq. reflexivity.
Qed.

Lemma demo_keys_outlive_the_demo_witness :
  ∃ e' evs,
    V1.run [V1.Frame; V1.KeyDown "x"; V1.KeyUp "ArrowDown"; V1.Frame]
      (V1._onKeyDown "ArrowUp" (V1.boot [] false false)) = Some (e', evs) ∧
    V1.demo (V1.state e') = false ∧
    V1.input_is (V1.input e') "ArrowUp" = true.
Proof.
  destruct (v1_key_ready (V1.KeyDown "ArrowUp") (V1.boot [] false false))
    as (e1 & Hact & Hr & Hi & _);
    [discriminate|apply v1_boot_ready|apply v1_boot_inRange|].
  injection Hact as <-.
  apply (proj1 (proj2 (proj2 demo_keys_outlive_the_demo))).
  - exact Hr.
  - exact Hi.
  - reflexivity.
  - reflexivity.
  - repeat (constructor; [repeat split; discriminate|]). constructor.
Defined.
